(** * DAG task scheduling: FCFS, HEFT and the QIPSO evaluator

    A shallow embedding of the scheduling core of the repository
    ([src/algorithms/QIPSO.py], [First_come_first_server.py], [heft.py]).

    Conventions.
    - Python floats are idealised as exact rationals ([Q]); results are
      compared with [==].  Rounding is outside the model, and so are
      attributes that are infinite or not a number; the best score of the
      optimizer, which starts at infinity, has a type of its own.
    - A Python [dict] is an association list kept in insertion order:
      assigning to an existing key updates it in place, a new key is appended.
    - A Python exception is the [Raise] branch of [result]. *)

From Stdlib Require Import QArith Qminmax Qabs List String Lia ZArith Bool.
From Stdlib Require Import Permutation.
Import ListNotations.
Open Scope string_scope.
Open Scope list_scope.
Open Scope Q_scope.

Set Implicit Arguments.

(** ** Exceptions and the error monad *)

Inductive exn : Type :=
| ValueError
| IndexError
| KeyError
| TypeError
| ZeroDivisionError
| RecursionError
| NetworkXUnfeasible.

Inductive result (A : Type) : Type :=
| Ok (a : A)
| Raise (e : exn).

Arguments Ok {A} a.
Arguments Raise {A} e.

Definition bind {A B : Type} (m : result A) (k : A -> result B) : result B :=
  match m with
  | Ok a => k a
  | Raise e => Raise e
  end.

Notation "x <- m ;; k" := (bind m (fun x => k))
  (at level 61, m at next level, right associativity).
Notation "' p <- m ;; k" := (bind m (fun p => k))
  (at level 61, p pattern, m at next level, right associativity).

Definition is_ok {A : Type} (m : result A) : bool :=
  match m with Ok _ => true | Raise _ => false end.

(** ** Python dictionaries keyed by task name *)

Section Dict.
Variable V : Type.

Definition dict := list (string * V).

Fixpoint dict_get (d : dict) (k : string) : option V :=
  match d with
  | [] => None
  | (k', v) :: d' => if String.eqb k' k then Some v else dict_get d' k
  end.

(** [d[k] = v] *)
Fixpoint dict_set (d : dict) (k : string) (v : V) : dict :=
  match d with
  | [] => [(k, v)]
  | (k', v') :: d' =>
      if String.eqb k' k then (k', v) :: d' else (k', v') :: dict_set d' k v
  end.

(** [d.get(k, dflt)] *)
Definition dict_get_default (d : dict) (k : string) (dflt : V) : V :=
  match dict_get d k with Some v => v | None => dflt end.

(** [d[k]], raising [KeyError] on a missing key *)
Definition dict_item (d : dict) (k : string) : result V :=
  match dict_get d k with Some v => Ok v | None => Raise KeyError end.

Definition dict_values (d : dict) : list V := map snd d.
Definition dict_keys (d : dict) : list string := map fst d.
End Dict.

Arguments dict_get {V} d k.
Arguments dict_set {V} d k v.
Arguments dict_get_default {V} d k dflt.
Arguments dict_item {V} d k.
Arguments dict_values {V} d.
Arguments dict_keys {V} d.

(** ** Python's [max], [sum] and list indexing *)

(** [max(xs)]: the first maximal element ([Qmax m y] keeps [m] unless
    [m < y], as Python does); [ValueError] on an empty sequence. *)
Definition py_max (xs : list Q) : result Q :=
  match xs with
  | [] => Raise ValueError
  | x :: xs' => Ok (fold_left Qmax xs' x)
  end.

(** [max(xs + [0])], which cannot fail. *)
Definition max_with_zero (xs : list Q) : Q :=
  match xs ++ [0] with
  | [] => 0
  | x :: xs' => fold_left Qmax xs' x
  end.

Definition py_sum (xs : list Q) : Q := fold_left Qplus xs 0.

(** [xs[i]] for a non-negative index. *)
Definition list_item {A : Type} (xs : list A) (i : nat) : result A :=
  match nth_error xs i with Some x => Ok x | None => Raise IndexError end.

(** [xs[i] = v] for an index in range. *)
Fixpoint list_set {A : Type} (xs : list A) (i : nat) (v : A) : list A :=
  match xs, i with
  | [], _ => []
  | _ :: xs', O => v :: xs'
  | x :: xs', S i' => x :: list_set xs' i' v
  end.

(** [xs[-n:]] *)
Definition lastn {A : Type} (n : nat) (xs : list A) : list A :=
  skipn (List.length xs - n) xs.

(** [[1.0 + 0.2*i for i in range(n)]] *)
Definition default_node_powers (n : nat) : list Q :=
  map (fun i => 1.0 + 0.2 * inject_Z (Z.of_nat i)) (seq 0 n).

(** ** The task graph (a [networkx.DiGraph]) *)

(** The node attributes the schedulers read. *)
Record attrs : Type := mkAttrs {
  exec_time : option Q;
  comp_cost : option Q
}.

Definition no_attrs : attrs := mkAttrs None None.

(** Nodes and edges in insertion order; an edge carries its optional
    [comm_cost] attribute. *)
Record DiGraph : Type := mkDiGraph {
  nodes : list (string * attrs);
  edges : list (string * string * option Q)
}.

Definition node_names (G : DiGraph) : list string := map fst (nodes G).

(** [G.nodes[t]] *)
Definition node_attrs (G : DiGraph) (t : string) : attrs :=
  dict_get_default (nodes G) t no_attrs.

Definition edge_src (e : string * string * option Q) : string := fst (fst e).
Definition edge_dst (e : string * string * option Q) : string := snd (fst e).

(** [G.successors(t)] *)
Definition successors (G : DiGraph) (t : string) : list string :=
  map edge_dst (filter (fun e => String.eqb (edge_src e) t) (edges G)).

(** [G.predecessors(t)] *)
Definition predecessors (G : DiGraph) (t : string) : list string :=
  map edge_src (filter (fun e => String.eqb (edge_dst e) t) (edges G)).

(** [G.edges.get((u, v), {})] restricted to the [comm_cost] attribute. *)
Fixpoint edge_comm (es : list (string * string * option Q)) (u v : string) : option Q :=
  match es with
  | [] => None
  | (u', v', c) :: es' =>
      if String.eqb u' u && String.eqb v' v then c else edge_comm es' u v
  end.

(** The structural invariants [networkx] maintains for a [DiGraph]:
    node names are unique, every edge joins two nodes, and there are no
    parallel edges. *)
Definition edge_key_eqb (e1 e2 : string * string * option Q) : bool :=
  String.eqb (edge_src e1) (edge_src e2) && String.eqb (edge_dst e1) (edge_dst e2).

Fixpoint nodupb (xs : list string) : bool :=
  match xs with
  | [] => true
  | x :: xs' => negb (existsb (String.eqb x) xs') && nodupb xs'
  end.

Fixpoint nodup_edges (es : list (string * string * option Q)) : bool :=
  match es with
  | [] => true
  | e :: es' => negb (existsb (edge_key_eqb e) es') && nodup_edges es'
  end.

Definition memb (x : string) (xs : list string) : bool := existsb (String.eqb x) xs.

Definition wf_graph (G : DiGraph) : bool :=
  nodupb (node_names G)
  && forallb (fun e => memb (edge_src e) (node_names G) && memb (edge_dst e) (node_names G)) (edges G)
  && nodup_edges (edges G).

(** [tl] lists every node exactly once and every edge points forward in it:
    what [nx.topological_sort] promises for its output. *)
Fixpoint index_of (x : string) (xs : list string) : option nat :=
  match xs with
  | [] => None
  | y :: xs' => if String.eqb y x then Some O else option_map S (index_of x xs')
  end.

Definition edge_forward (tl : list string) (e : string * string * option Q) : bool :=
  match index_of (edge_src e) tl, index_of (edge_dst e) tl with
  | Some i, Some j => Nat.ltb i j
  | _, _ => false
  end.

Definition same_members (xs ys : list string) : bool :=
  forallb (fun x => memb x ys) xs && forallb (fun y => memb y xs) ys.

Definition is_topological (G : DiGraph) (tl : list string) : bool :=
  nodupb tl && same_members tl (node_names G) && forallb (edge_forward tl) (edges G).

(** ** [nx.topological_sort]

    The order in which [networkx] (2.6 and later) lists the nodes: by
    generations of nodes whose in-degree has dropped to zero, each generation
    in the order its nodes were released.  A cycle leaves nodes in
    [indegree_map] and raises [NetworkXUnfeasible]. *)

Definition in_degree (G : DiGraph) (v : string) : nat := List.length (predecessors G v).

Fixpoint dict_del {V : Type} (d : dict V) (k : string) : dict V :=
  match d with
  | [] => []
  | (k', v) :: d' => if String.eqb k' k then d' else (k', v) :: dict_del d' k
  end.

(** The inner loop [for child in G.neighbors(node)]. *)
Fixpoint release_children (children : list string) (indegree_map : dict nat)
    (zero_indegree : list string) : result (dict nat * list string) :=
  match children with
  | [] => Ok (indegree_map, zero_indegree)
  | child :: rest =>
      d <- dict_item indegree_map child ;;
      if Nat.eqb (d - 1) 0
      then release_children rest (dict_del indegree_map child) (zero_indegree ++ [child])
      else release_children rest (dict_set indegree_map child (d - 1)%nat) zero_indegree
  end.

(** The loop [for node in this_generation]. *)
Fixpoint release_generation (G : DiGraph) (this_generation : list string)
    (indegree_map : dict nat) (zero_indegree : list string)
    : result (dict nat * list string) :=
  match this_generation with
  | [] => Ok (indegree_map, zero_indegree)
  | node :: rest =>
      '(m, z) <- release_children (successors G node) indegree_map zero_indegree ;;
      release_generation G rest m z
  end.

(** The [while zero_indegree] loop; every round but the last removes a key
    from [indegree_map], so [fuel] above its size is never used up. *)
Fixpoint generations (fuel : nat) (G : DiGraph) (indegree_map : dict nat)
    (zero_indegree : list string) : result (list string) :=
  match zero_indegree with
  | [] =>
      match indegree_map with
      | [] => Ok []
      | _ :: _ => Raise NetworkXUnfeasible
      end
  | _ :: _ =>
      match fuel with
      | O => Raise RecursionError
      | S fuel' =>
          '(m, z) <- release_generation G zero_indegree indegree_map [] ;;
          later <- generations fuel' G m z ;;
          Ok (zero_indegree ++ later)
      end
  end.

Definition topological_sort (G : DiGraph) : result (list string) :=
  let indegree_map :=
    filter (fun kv => negb (Nat.eqb (snd kv) 0))
           (map (fun v => (v, in_degree G v)) (node_names G)) in
  let zero_indegree :=
    filter (fun v => Nat.eqb (in_degree G v) 0) (node_names G) in
  generations (S (List.length indegree_map)) G indegree_map zero_indegree.

(** ** Numbers that may be [float('inf')] *)

Inductive score : Type :=
| Fin (q : Q)
| Inf.

Definition Qltb (x y : Q) : bool :=
  match x ?= y with Lt => true | _ => false end.

(** [x < s] for a finite [x]. *)
Definition lt_score (x : Q) (s : score) : bool :=
  match s with Fin y => Qltb x y | Inf => true end.

(** [min] of two scores, keeping the first unless the second is smaller. *)
Definition min_score (a b : score) : score :=
  match a, b with
  | Fin x, Fin y => Fin (Qmin x y)
  | Fin x, Inf => Fin x
  | Inf, Fin y => Fin y
  | Inf, Inf => Inf
  end.

(** [abs(a - b) < eps]; with an infinite operand the difference is [inf] or
    [nan] and the comparison is false. *)
Definition abs_diff_lt (a b : score) (eps : Q) : bool :=
  match a, b with
  | Fin x, Fin y => Qltb (Qabs (x - y)) eps
  | _, _ => false
  end.

(** ** QIPSO: [QIPSO.py] *)

Module QIPSO.

(** *** [find_critical_path] *)

(** [float(attrs.get('exec_time', attrs.get('comp_cost', 10000)/1000))] *)
Definition cp_exec_time (a : attrs) : Q :=
  match exec_time a with
  | Some e => e
  | None => match comp_cost a with Some c => c | None => 10000 end / 1000
  end.

Definition cp_task_time (a : attrs) : Q := Qmax 0.1 (cp_exec_time a).

(** The first loop: [task_times[task] = max(0.1, exec_time)]. *)
Definition build_task_times (dag : DiGraph) (task_list : list string) : dict Q :=
  fold_left
    (fun task_times task =>
       dict_set task_times task (cp_task_time (node_attrs dag task)))
    task_list [].

(** [earliest_start[k]] on a [defaultdict(float)]: a missing key is
    inserted with [0.0]. *)
Definition es_item (earliest_start : dict Q) (k : string) : Q * dict Q :=
  match dict_get earliest_start k with
  | Some v => (v, earliest_start)
  | None => (0, dict_set earliest_start k 0)
  end.

(** [latest_finish[k]] on [defaultdict(lambda: max(earliest_start.values()))]:
    the default is computed from [earliest_start] as it is at the access. *)
Definition lf_item (earliest_start latest_finish : dict Q) (k : string)
    : result (Q * dict Q) :=
  match dict_get latest_finish k with
  | Some v => Ok (v, latest_finish)
  | None =>
      m <- py_max (dict_values earliest_start) ;;
      Ok (m, dict_set latest_finish k m)
  end.

Fixpoint forward_successors (task_times : dict Q) (task : string)
    (succs : list string) (earliest_start : dict Q) : result (dict Q) :=
  match succs with
  | [] => Ok earliest_start
  | successor :: rest =>
      let '(a, es1) := es_item earliest_start successor in
      let '(b, es2) := es_item es1 task in
      d <- dict_item task_times task ;;
      forward_successors task_times task rest (dict_set es2 successor (Qmax a (b + d)))
  end.

Fixpoint forward_pass (dag : DiGraph) (task_times : dict Q) (tasks : list string)
    (earliest_start : dict Q) : result (dict Q) :=
  match tasks with
  | [] => Ok earliest_start
  | task :: rest =>
      es' <- forward_successors task_times task (successors dag task) earliest_start ;;
      forward_pass dag task_times rest es'
  end.

Fixpoint backward_predecessors (task_times earliest_start : dict Q) (task : string)
    (preds : list string) (latest_finish : dict Q) : result (dict Q) :=
  match preds with
  | [] => Ok latest_finish
  | predecessor :: rest =>
      '(a, lf1) <- lf_item earliest_start latest_finish predecessor ;;
      '(b, lf2) <- lf_item earliest_start lf1 task ;;
      d <- dict_item task_times predecessor ;;
      backward_predecessors task_times earliest_start task rest
        (dict_set lf2 predecessor (Qmin a (b - d)))
  end.

Fixpoint backward_pass (dag : DiGraph) (task_times earliest_start : dict Q)
    (tasks : list string) (latest_finish : dict Q) : result (dict Q) :=
  match tasks with
  | [] => Ok latest_finish
  | task :: rest =>
      lf' <- backward_predecessors task_times earliest_start task
               (predecessors dag task) latest_finish ;;
      backward_pass dag task_times earliest_start rest lf'
  end.

(** The list comprehension selecting the critical tasks; both defaultdicts
    may grow while it runs. *)
Fixpoint select_critical (task_times : dict Q) (tasks : list string)
    (earliest_start latest_finish : dict Q) : result (list string * dict Q) :=
  match tasks with
  | [] => Ok ([], earliest_start)
  | task :: rest =>
      let '(e, es1) := es_item earliest_start task in
      '(l, lf1) <- lf_item es1 latest_finish task ;;
      d <- dict_item task_times task ;;
      '(cp, es2) <- select_critical task_times rest es1 lf1 ;;
      if Qltb (Qabs (e - (l - d))) 1e-6
      then Ok (task :: cp, es2)
      else Ok (cp, es2)
  end.

Definition find_critical_path (dag : DiGraph) (task_list : list string)
    : result (list string * Q) :=
  let task_times := build_task_times dag task_list in
  earliest_start <- forward_pass dag task_times task_list [] ;;
  latest_finish <- backward_pass dag task_times earliest_start (rev task_list) [] ;;
  '(selected, earliest_start') <- select_critical task_times task_list earliest_start latest_finish ;;
  critical_path <-
    match selected with
    | [] => match task_list with
            | [] => Raise IndexError
            | first :: _ => Ok [first]
            end
    | _ :: _ => Ok selected
    end ;;
  m <- py_max (dict_values earliest_start') ;;
  d <- dict_item task_times (last critical_path "") ;;
  Ok (critical_path, m + d).

(** *** [evaluate_schedule] *)

Record eval_state : Type := mkEvalState {
  device_end_times : list Q;
  device_energy : list Q;
  task_finish_times : dict Q
}.

(** [max(0.1, float(attrs.get('exec_time', 10)))] *)
Definition eval_duration (a : attrs) : Q :=
  Qmax 0.1 (match exec_time a with Some e => e | None => 10 end).

(** One round of the loop over [task_list]; besides the new state it hands
    back the node, [start_time] and [end_time] of the task. *)
Definition evaluate_task (dag : DiGraph) (node_power_consumptions : list Q)
    (schedule : dict nat) (st : eval_state) (task : string)
    : result (nat * Q * Q * eval_state) :=
  node <- dict_item schedule task ;;
  let duration := eval_duration (node_attrs dag task) in
  let ready_time :=
    max_with_zero
      (map (fun dep => dict_get_default (task_finish_times st) dep 0)
           (predecessors dag task)) in
  busy <- list_item (device_end_times st) node ;;
  let start_time := Qmax ready_time busy in
  let end_time := start_time + duration in
  energy <- list_item (device_energy st) node ;;
  power <- list_item node_power_consumptions node ;;
  Ok (node, start_time, end_time,
      mkEvalState (list_set (device_end_times st) node end_time)
                  (list_set (device_energy st) node (energy + power * duration))
                  (dict_set (task_finish_times st) task end_time)).

(** The loop, recording what each round computed. *)
Fixpoint evaluate_tasks (dag : DiGraph) (node_power_consumptions : list Q)
    (schedule : dict nat) (tasks : list string) (st : eval_state)
    : result (list (string * (nat * Q * Q)) * eval_state) :=
  match tasks with
  | [] => Ok ([], st)
  | task :: rest =>
      '(node, start_time, end_time, st') <-
        evaluate_task dag node_power_consumptions schedule st task ;;
      '(trace, st'') <- evaluate_tasks dag node_power_consumptions schedule rest st' ;;
      Ok ((task, (node, start_time, end_time)) :: trace, st'')
  end.

Definition initial_eval_state (num_nodes : nat) : eval_state :=
  mkEvalState (repeat 0 num_nodes) (repeat 0 num_nodes) [].

Definition evaluate_schedule (dag : DiGraph) (task_list : list string)
    (num_nodes : nat) (schedule : dict nat) : result (Q * Q) :=
  '(_, st) <- evaluate_tasks dag (default_node_powers num_nodes) schedule task_list
                (initial_eval_state num_nodes) ;;
  makespan <- py_max (device_end_times st) ;;
  Ok (makespan, py_sum (device_energy st)).

(** The per-task times behind [evaluate_schedule]'s result. *)
Definition evaluate_trace (dag : DiGraph) (task_list : list string)
    (num_nodes : nat) (schedule : dict nat) : result (list (string * (nat * Q * Q))) :=
  '(trace, _) <- evaluate_tasks dag (default_node_powers num_nodes) schedule task_list
                   (initial_eval_state num_nodes) ;;
  Ok trace.

(** *** The optimizer object

    The quantum-bit and velocity arrays only shape the distribution the
    assignments are drawn from; since every probability is clipped to at
    least 0.01 before a draw, any assignment can come out.  The model keeps
    the fields that decide control flow and results and takes the draws of
    [np.random.choice] from an oracle. *)

Record QIPSO_Scheduler : Type := mkScheduler {
  dag : DiGraph;
  task_list : list string;
  num_nodes : nat;
  num_particles : nat;
  max_iter : Z;
  mutation_prob : Q;
  critical_path : list string;
  critical_length : Q;
  personal_best_scores : list score;
  personal_best_schedules : list (dict nat);
  global_best_score : score;
  global_best_energy : score;
  global_best_schedule : dict nat;
  convergence_history : list (score * score)
}.

(** [__init__].  Task names are strings already, so relabelling the nodes
    with [str] changes nothing; [np.random.uniform] refuses a negative
    dimension with a [ValueError]; the two weights play no part in what is
    modelled. *)
Definition init (graph : DiGraph) (num_edge_nodes num_particles max_iter : Z)
    (mutation_prob : Q) : result QIPSO_Scheduler :=
  if (num_edge_nodes <? 1)%Z then Raise ValueError else
  if Qltb mutation_prob 0 || Qltb 1 mutation_prob then Raise ValueError else
  task_list <-
    match topological_sort graph with
    | Raise NetworkXUnfeasible => Raise ValueError
    | r => r
    end ;;
  '(critical_path, critical_length) <- find_critical_path graph task_list ;;
  if (num_particles <? 0)%Z then Raise ValueError else
  Ok (mkScheduler graph task_list (Z.to_nat num_edge_nodes) (Z.to_nat num_particles)
        max_iter mutation_prob critical_path critical_length
        (repeat Inf (Z.to_nat num_particles))
        (repeat [] (Z.to_nat num_particles))
        Inf Inf [] []).

(** The draws of one particle: [schedule[task] = np.random.choice(...)]. *)
Definition sample_schedule (draw : string -> nat) (tasks : list string) : dict nat :=
  fold_left (fun schedule task => dict_set schedule task (draw task)) tasks [].

(** The body of [for p in range(self.num_particles)]. *)
Definition particle_step (draw : nat -> string -> nat) (self : QIPSO_Scheduler)
    (p : nat) : result QIPSO_Scheduler :=
  let schedule := sample_schedule (draw p) (task_list self) in
  '(makespan, energy) <-
    evaluate_schedule (dag self) (task_list self) (num_nodes self) schedule ;;
  best <- list_item (personal_best_scores self) p ;;
  if lt_score makespan best then
    let scores := list_set (personal_best_scores self) p (Fin makespan) in
    let schedules := list_set (personal_best_schedules self) p schedule in
    if lt_score makespan (global_best_score self) then
      Ok (mkScheduler (dag self) (task_list self) (num_nodes self) (num_particles self)
            (max_iter self) (mutation_prob self) (critical_path self)
            (critical_length self) scores schedules
            (Fin makespan) (Fin energy) schedule (convergence_history self))
    else
      Ok (mkScheduler (dag self) (task_list self) (num_nodes self) (num_particles self)
            (max_iter self) (mutation_prob self) (critical_path self)
            (critical_length self) scores schedules
            (global_best_score self) (global_best_energy self)
            (global_best_schedule self) (convergence_history self))
  else Ok self.

Fixpoint particle_loop (draw : nat -> string -> nat) (ps : list nat)
    (self : QIPSO_Scheduler) : result QIPSO_Scheduler :=
  match ps with
  | [] => Ok self
  | p :: rest =>
      self' <- particle_step draw self p ;;
      particle_loop draw rest self'
  end.

(** [self.convergence_history.append((best score, best energy))] *)
Definition record_history (self : QIPSO_Scheduler) : QIPSO_Scheduler :=
  mkScheduler (dag self) (task_list self) (num_nodes self) (num_particles self)
    (max_iter self) (mutation_prob self) (critical_path self) (critical_length self)
    (personal_best_scores self) (personal_best_schedules self)
    (global_best_score self) (global_best_energy self) (global_best_schedule self)
    (convergence_history self ++ [(global_best_score self, global_best_energy self)]).

(** [min(xs)] over a window that is never empty where it is used. *)
Definition min_scores (xs : list score) : score :=
  fold_left min_score (tl xs) (hd Inf xs).

Definition check_convergence (self : QIPSO_Scheduler) (iteration : nat) : bool :=
  if abs_diff_lt (global_best_score self) (Fin (critical_length self)) 0.1 then true
  else if Nat.ltb 20 (List.length (convergence_history self)) then
    abs_diff_lt
      (min_scores (map fst (lastn 20 (convergence_history self))))
      (global_best_score self) 0.1
  else false.

(** How the iteration loop was left. *)
Inductive status : Type :=
| CONVERGED
| MAX_ITER_REACHED.

(** [for iteration in range(self.max_iter)], from [iteration] on with
    [remaining] rounds to go; [draw iteration p task] is the node drawn for
    [task] by particle [p] in that round. *)
Fixpoint iterate (draw : nat -> nat -> string -> nat) (remaining iteration : nat)
    (self : QIPSO_Scheduler) : result (status * QIPSO_Scheduler) :=
  match remaining with
  | O => Ok (MAX_ITER_REACHED, self)
  | S remaining' =>
      self1 <- particle_loop (draw iteration) (seq 0 (num_particles self)) self ;;
      let self2 := record_history self1 in
      if check_convergence self2 iteration
      then Ok (CONVERGED, self2)
      else iterate draw remaining' (S iteration) self2
  end.

Definition run_optimization (draw : nat -> nat -> string -> nat)
    (self : QIPSO_Scheduler) : result (status * QIPSO_Scheduler) :=
  iterate draw (Z.to_nat (max_iter self)) 0 self.

End QIPSO.

(** ** What FCFS and HEFT store per task *)

Record task_info : Type := mkInfo {
  assigned_node : nat;
  start_time : Q;
  end_time : Q;
  info_exec_time : Q;
  ready_time : option Q   (* HEFT does not store it *)
}.

(** ** FCFS: [First_come_first_server.py] *)

Module FCFS.

(** [normalize_execution_times] writes into the graph it is given; the
    model hands the updated graph back. *)
Definition normalize_attrs (min_exec_time : Q) (a : attrs) : attrs :=
  let exec := match exec_time a with Some e => e | None => 10 end in
  if Qltb exec min_exec_time then mkAttrs (Some min_exec_time) (comp_cost a) else a.

Definition normalize_execution_times (G : DiGraph) (min_exec_time : Q) : DiGraph :=
  mkDiGraph (map (fun na => (fst na, normalize_attrs min_exec_time (snd na))) (nodes G))
            (edges G).

Fixpoint energy_loop (items : list (string * task_info)) (node_powers : list Q)
    (total_energy : Q) : result Q :=
  match items with
  | [] => Ok total_energy
  | (_, info) :: rest =>
      let exec := end_time info - start_time info in
      power <- list_item node_powers (assigned_node info) ;;
      energy_loop rest node_powers (total_energy + exec * power)
  end.

Definition calculate_energy_consumption (schedule : dict task_info)
    (node_powers : list Q) : result Q :=
  energy_loop schedule node_powers 0.

(** [min(range(n), key=lambda x: node_available_time[x])]: the first index
    holding the smallest value. *)
Fixpoint argmin_from (xs : list Q) (i best : nat) (best_val : Q) : nat :=
  match xs with
  | [] => best
  | x :: xs' =>
      if Qltb x best_val then argmin_from xs' (S i) i x
      else argmin_from xs' (S i) best best_val
  end.

Definition argmin_first (xs : list Q) : result nat :=
  match xs with
  | [] => Raise ValueError
  | x :: xs' => Ok (argmin_from xs' 1 0 x)
  end.

Record fcfs_state : Type := mkState {
  node_available_time : list Q;
  schedule_so_far : dict task_info;
  task_finish_times : dict Q
}.

(** The body of [for task in task_list]. *)
Definition schedule_task (G : DiGraph) (st : fcfs_state) (task : string)
    : result fcfs_state :=
  let exec := Qmax 0.1 (match exec_time (node_attrs G task) with Some e => e | None => 10 end) in
  let ready :=
    max_with_zero
      (map (fun pred => dict_get_default (task_finish_times st) pred 0)
           (predecessors G task)) in
  best_node <- argmin_first (node_available_time st) ;;
  busy <- list_item (node_available_time st) best_node ;;
  let start := Qmax ready busy in
  let finish := start + exec in
  Ok (mkState (list_set (node_available_time st) best_node finish)
              (dict_set (schedule_so_far st) task
                 (mkInfo best_node start finish exec (Some ready)))
              (dict_set (task_finish_times st) task finish)).

Fixpoint schedule_tasks (G : DiGraph) (tasks : list string) (st : fcfs_state)
    : result fcfs_state :=
  match tasks with
  | [] => Ok st
  | task :: rest =>
      st' <- schedule_task G st task ;;
      schedule_tasks G rest st'
  end.

Record output : Type := mkOutput {
  makespan : Q;
  energy : Q;
  schedule : dict task_info;
  node_powers : list Q
}.

(** Everything after [normalize_execution_times(G)], for a given
    topological order. *)
Definition schedule_in_order (G : DiGraph) (task_list : list string)
    (num_edge_nodes : nat) : result output :=
  let node_powers := default_node_powers num_edge_nodes in
  st <- schedule_tasks G task_list (mkState (repeat 0 num_edge_nodes) [] []) ;;
  makespan <- py_max (node_available_time st) ;;
  total_energy <- calculate_energy_consumption (schedule_so_far st) node_powers ;;
  Ok (mkOutput makespan total_energy (schedule_so_far st) node_powers).

(** [schedule_fcfs]: the graph as the call leaves it, and the result. *)
Definition schedule_fcfs (G : DiGraph) (num_edge_nodes : nat)
    : DiGraph * result output :=
  let G' := normalize_execution_times G 0.1 in
  (G', task_list <- topological_sort G' ;;
       schedule_in_order G' task_list num_edge_nodes).

End FCFS.

(** ** HEFT: [heft.py] *)

Module HEFT.

Record HEFTScheduler : Type := mkHEFT {
  num_edge_nodes : nat;
  avg_comp_cost : Q;
  node_powers : list Q;
  schedule_result : dict task_info
}.

(** [__init__] *)
Definition init (num_edge_nodes : nat) (avg_comp_cost : Q) : HEFTScheduler :=
  mkHEFT num_edge_nodes avg_comp_cost (default_node_powers num_edge_nodes) [].

(** Float division, which raises on a zero divisor. *)
Definition py_div (x y : Q) : result Q :=
  if Qeq_bool y 0 then Raise ZeroDivisionError else Ok (x / y).

Definition _get_task_cost (self : HEFTScheduler) (node_data : attrs) : result Q :=
  match comp_cost node_data, exec_time node_data with
  | Some c, _ => py_div c (avg_comp_cost self)
  | None, Some e => py_div e (avg_comp_cost self)
  | None, None => py_div 10 (avg_comp_cost self)
  end.

Definition _get_comm_cost (self : HEFTScheduler) (edge_data : option Q) : result Q :=
  match edge_data with
  | Some c => py_div c (avg_comp_cost self)
  | None => Ok 0
  end.

(** [compute_upward_rank]: the memoised recursion.  [depth] is the number of
    calls computing a rank that the interpreter lets run one inside the
    other: one nested deeper ends in [RecursionError].  It is not the
    recursion limit itself: a nested call takes more than one of the
    interpreter's frames (its own and that of the generator expression
    handed to [max]), on top of the frames of the callers. *)
Fixpoint compute_upward_rank (depth : nat) (self : HEFTScheduler) (G : DiGraph)
    (task : string) (rank : dict Q) {struct depth} : result (Q * dict Q) :=
  match dict_get rank task with
  | Some r => Ok (r, rank)
  | None =>
      match depth with
      | O => Raise RecursionError
      | S depth' =>
          comp <- _get_task_cost self (node_attrs G task) ;;
          match successors G task with
          | [] => Ok (comp, dict_set rank task comp)
          | succs =>
              '(terms, rank') <-
                (fix over (ss : list string) (rank : dict Q) : result (list Q * dict Q) :=
                   match ss with
                   | [] => Ok ([], rank)
                   | succ :: rest =>
                       '(r, rank1) <- compute_upward_rank depth' self G succ rank ;;
                       c <- _get_comm_cost self (edge_comm (edges G) task succ) ;;
                       '(later, rank2) <- over rest rank1 ;;
                       Ok ((r + c) :: later, rank2)
                   end) succs rank ;;
              best <- py_max terms ;;
              Ok (comp + best, dict_set rank' task (comp + best))
          end
      end
  end.

(** [for task in task_list: self.compute_upward_rank(G, task, rank)] *)
Fixpoint rank_all (depth : nat) (self : HEFTScheduler) (G : DiGraph)
    (tasks : list string) (rank : dict Q) : result (dict Q) :=
  match tasks with
  | [] => Ok rank
  | task :: rest =>
      '(_, rank') <- compute_upward_rank depth self G task rank ;;
      rank_all depth self G rest rank'
  end.

(** [sorted(task_list, key=lambda x: rank[x], reverse=True)]: descending,
    and stable (tasks of equal rank keep their order). *)
Fixpoint insert_desc (x : string * Q) (sorted : list (string * Q)) : list (string * Q) :=
  match sorted with
  | [] => [x]
  | y :: rest =>
      if Qltb (snd x) (snd y) then y :: insert_desc x rest else x :: y :: rest
  end.

Definition sort_desc (keyed : list (string * Q)) : list (string * Q) :=
  fold_right insert_desc [] keyed.

Fixpoint with_ranks (rank : dict Q) (tasks : list string) : result (list (string * Q)) :=
  match tasks with
  | [] => Ok []
  | task :: rest =>
      r <- dict_item rank task ;;
      later <- with_ranks rank rest ;;
      Ok ((task, r) :: later)
  end.

(** The ready time: [0.0] without predecessors, else the largest
    [end_time + comm_cost] over them. *)
Fixpoint arrival_times (self : HEFTScheduler) (G : DiGraph) (task : string)
    (preds : list string) (scheduled : dict task_info) : result (list Q) :=
  match preds with
  | [] => Ok []
  | pred :: rest =>
      info <- dict_item scheduled pred ;;
      c <- _get_comm_cost self (edge_comm (edges G) pred task) ;;
      later <- arrival_times self G task rest scheduled ;;
      Ok ((end_time info + c) :: later)
  end.

(** [for node_id in range(n)]: the first node with the smallest finish time;
    [best_finish_time] starts at infinity. *)
Fixpoint pick_node (ready comp_time : Q) (avail : list Q) (node_id : nat)
    (best : option nat) (best_finish : score) : option nat :=
  match avail with
  | [] => best
  | a :: rest =>
      let eft := Qmax ready a + comp_time in
      if lt_score eft best_finish
      then pick_node ready comp_time rest (S node_id) (Some node_id) (Fin eft)
      else pick_node ready comp_time rest (S node_id) best best_finish
  end.

(** The body of [for task in sorted_tasks]. *)
Definition schedule_task (self : HEFTScheduler) (G : DiGraph)
    (st : list Q * dict task_info) (task : string)
    : result (list Q * dict task_info) :=
  let '(node_available_time, scheduled) := st in
  comp_time <- _get_task_cost self (node_attrs G task) ;;
  ready <-
    match predecessors G task with
    | [] => Ok 0
    | preds => arrivals <- arrival_times self G task preds scheduled ;; py_max arrivals
    end ;;
  best_node <-
    match pick_node ready comp_time node_available_time 0 None Inf with
    | Some n => Ok n
    | None => Raise TypeError
    end ;;
  busy <- list_item node_available_time best_node ;;
  let start := Qmax ready busy in
  let finish := start + comp_time in
  Ok (list_set node_available_time best_node finish,
      dict_set scheduled task (mkInfo best_node start finish comp_time None)).

Fixpoint schedule_tasks (self : HEFTScheduler) (G : DiGraph) (tasks : list string)
    (st : list Q * dict task_info) : result (list Q * dict task_info) :=
  match tasks with
  | [] => Ok st
  | task :: rest =>
      st' <- schedule_task self G st task ;;
      schedule_tasks self G rest st'
  end.

(** Ranking and assignment for a given topological order. *)
Definition schedule_in_order (depth : nat) (self : HEFTScheduler) (G : DiGraph)
    (task_list : list string) : result HEFTScheduler :=
  rank <- rank_all depth self G task_list [] ;;
  keyed <- with_ranks rank task_list ;;
  let sorted_tasks := map fst (sort_desc keyed) in
  '(_, scheduled) <-
    schedule_tasks self G sorted_tasks (repeat 0 (num_edge_nodes self), []) ;;
  Ok (mkHEFT (num_edge_nodes self) (avg_comp_cost self) (node_powers self) scheduled).

(** [schedule]: the scheduler with [schedule_result] filled in. *)
Definition schedule (depth : nat) (self : HEFTScheduler) (G : DiGraph)
    : result HEFTScheduler :=
  task_list <- topological_sort G ;;
  schedule_in_order depth self G task_list.

Definition get_makespan (self : HEFTScheduler) : result Q :=
  match schedule_result self with
  | [] => Ok 0
  | items =>
      m <- py_max (map (fun kv => end_time (snd kv)) items) ;;
      Ok (m * avg_comp_cost self)
  end.

Fixpoint energy_loop (items : list (string * task_info)) (node_powers : list Q)
    (total_energy : Q) : result Q :=
  match items with
  | [] => Ok total_energy
  | (_, info) :: rest =>
      let exec := end_time info - start_time info in
      power <- list_item node_powers (assigned_node info) ;;
      energy_loop rest node_powers (total_energy + exec * power)
  end.

Definition calculate_energy (self : HEFTScheduler) : result Q :=
  total_energy <- energy_loop (schedule_result self) (node_powers self) 0 ;;
  Ok (total_energy * avg_comp_cost self).

End HEFT.

(** ** Reading a stored schedule *)

(** Task [t] is stored on [node] over [[a, b]]. *)
Definition runs_on (s : dict task_info) (t : string) (node : nat) (a b : Q) : Prop :=
  exists i, dict_get s t = Some i /\ assigned_node i = node
            /\ start_time i == a /\ end_time i == b.

(** Task [t] was ready at [r]. *)
Definition ready_at (s : dict task_info) (t : string) (r : Q) : Prop :=
  exists i r', dict_get s t = Some i /\ ready_time i = Some r' /\ r' == r.

(** The (start, end) pairs of a stored schedule. *)
Definition spans (s : dict task_info) : list (string * (Q * Q)) :=
  map (fun kv => (fst kv, (start_time (snd kv), end_time (snd kv)))) s.

(** The (start, end) pairs of an evaluator trace. *)
Definition trace_spans (tr : list (string * (nat * Q * Q))) : list (string * (Q * Q)) :=
  map (fun kv => (fst kv, (snd (fst (snd kv)), snd (snd kv)))) tr.

(** No task starts before a predecessor has ended. *)
Definition respects_precedence (G : DiGraph) (tr : list (string * (Q * Q))) : Prop :=
  forall t p st et sp ep,
    In p (predecessors G t) ->
    In (t, (st, et)) tr -> In (p, (sp, ep)) tr -> ep <= st.

(** ** Example inputs *)

Definition unit_task : attrs := mkAttrs (Some 1) None.

(** A -> B, A -> C, B -> D, C -> D, every duration 1. *)
Definition diamond : DiGraph :=
  mkDiGraph
    [("A", unit_task); ("B", unit_task); ("C", unit_task); ("D", unit_task)]
    [("A", "B", None); ("A", "C", None); ("B", "D", None); ("C", "D", None)].

(** A -> B with durations 5 and 1. *)
Definition chain_5_1 : DiGraph :=
  mkDiGraph [("A", mkAttrs (Some 5) None); ("B", mkAttrs (Some 1) None)]
            [("A", "B", None)].

(** One task of duration 1. *)
Definition single_task : DiGraph := mkDiGraph [("A", unit_task)] [].

(** One task whose [exec_time] is -5. *)
Definition negative_task : DiGraph := mkDiGraph [("A", mkAttrs (Some (-5)) None)] [].

(** One task whose [exec_time] is 0.05. *)
Definition short_task : DiGraph := mkDiGraph [("A", mkAttrs (Some 0.05) None)] [].

(** Three independent tasks of duration 50. *)
Definition three_tasks : DiGraph :=
  mkDiGraph [("A", mkAttrs (Some 50) None); ("B", mkAttrs (Some 50) None);
             ("C", mkAttrs (Some 50) None)] [].

(** What the diamond example expects of FCFS on two nodes. *)
Definition diamond_expectation (r : result FCFS.output) : Prop :=
  exists out, r = Ok out
    /\ runs_on (FCFS.schedule out) "A" 0 0 1
    /\ ready_at (FCFS.schedule out) "B" 1 /\ ready_at (FCFS.schedule out) "C" 1
    /\ runs_on (FCFS.schedule out) "B" 0 1 2
    /\ runs_on (FCFS.schedule out) "C" 1 1 2
    /\ ready_at (FCFS.schedule out) "D" 2
    /\ (exists n, runs_on (FCFS.schedule out) "D" n 2 3)
    /\ FCFS.makespan out == 3.

(** What FCFS does on the diamond when [first] precedes [second] in the
    topological order. *)
Definition diamond_outcome (first second : string) (r : result FCFS.output) : Prop :=
  exists out, r = Ok out
    /\ runs_on (FCFS.schedule out) "A" 0 0 1
    /\ ready_at (FCFS.schedule out) "B" 1 /\ ready_at (FCFS.schedule out) "C" 1
    /\ runs_on (FCFS.schedule out) first 1 1 2
    /\ runs_on (FCFS.schedule out) second 0 1 2
    /\ ready_at (FCFS.schedule out) "D" 2
    /\ runs_on (FCFS.schedule out) "D" 0 2 3
    /\ FCFS.makespan out == 3.

(** The four assignments of the chain's two tasks to two nodes. *)
Definition chain_assignments : list (dict nat) :=
  [ [("A", 0%nat); ("B", 0%nat)]; [("A", 0%nat); ("B", 1%nat)];
    [("A", 1%nat); ("B", 0%nat)]; [("A", 1%nat); ("B", 1%nat)] ].

(** Draws for one particle on [three_tasks]: twenty rounds with all three
    tasks on node 0, and from round 20 on with C moved to node 1. *)
Definition late_improvement (iteration p : nat) (task : string) : nat :=
  if Nat.ltb iteration 20 then 0%nat
  else if String.eqb task "C" then 1%nat else 0%nat.

(** ** Notions the claims are worded in *)

(** A path of one or more edges. *)
Inductive path (G : DiGraph) : string -> string -> Prop :=
| path_edge : forall u v c, In (u, v, c) (edges G) -> path G u v
| path_step : forall u v w c, In (u, v, c) (edges G) -> path G v w -> path G u w.

Definition acyclic (G : DiGraph) : Prop := forall v, ~ path G v v.

(** Energy recomputed from the stored tuples:
    the sum of [(end_time - start_time) * power[assigned_node]]. *)
Definition recomputed_energy (s : dict task_info) (powers : list Q) : Q :=
  fold_right
    (fun kv acc =>
       (end_time (snd kv) - start_time (snd kv)) * nth (assigned_node (snd kv)) powers 0 + acc)
    0 s.

(** The configurations C4 expects the constructor to refuse. *)
Definition refused_by_spec (G : DiGraph) (num_edge_nodes num_particles max_iter : Z)
    (mutation_prob : Q) : Prop :=
  ~ acyclic G \/ (num_edge_nodes < 1)%Z \/ mutation_prob < 0 \/ 1 < mutation_prob
  \/ (num_particles <= 0)%Z \/ (max_iter <= 0)%Z.

(** The configurations the constructor does refuse. *)
Definition refused_by_code (G : DiGraph) (num_edge_nodes num_particles : Z)
    (mutation_prob : Q) : Prop :=
  ~ acyclic G \/ (num_edge_nodes < 1)%Z \/ mutation_prob < 0 \/ 1 < mutation_prob
  \/ (num_particles < 0)%Z.

(** Improvement of the best makespan over a window of history entries:
    its oldest entry less its newest. *)
Definition window_improvement (window : list (score * score)) : option Q :=
  match hd_error window, hd_error (rev window) with
  | Some (Fin oldest, _), Some (Fin newest, _) => Some (oldest - newest)
  | _, _ => None
  end.

(** An assignment is total over [tasks] and names only existing nodes. *)
Definition total_assignment (schedule : dict nat) (tasks : list string) (num_nodes : nat) : Prop :=
  forall t, In t tasks -> exists node, dict_get schedule t = Some node /\ (node < num_nodes)%nat.

(** ** Loop invariants *)

(** Every task of [tasks] comes after all its predecessors, given that the
    tasks of [seen] came before. *)
Fixpoint preds_seen (G : DiGraph) (seen tasks : list string) : Prop :=
  match tasks with
  | [] => True
  | t :: rest =>
      (forall p, In p (predecessors G t) -> In p seen) /\ preds_seen G (seen ++ [t]) rest
  end.

(** The tasks recorded so far include their own predecessors. *)
Definition closed_under_preds (G : DiGraph) (tr : list (string * (Q * Q))) : Prop :=
  forall t p, In t (map fst tr) -> In p (predecessors G t) -> In p (map fst tr).

(** A stored FCFS entry names an existing node and ends [exec_time] after
    it starts, with [exec_time] as the loop computes it. *)
Definition fcfs_entry_ok (G : DiGraph) (n : nat) (kv : string * task_info) : Prop :=
  (assigned_node (snd kv) < n)%nat
  /\ end_time (snd kv) = start_time (snd kv) + info_exec_time (snd kv)
  /\ info_exec_time (snd kv)
     = Qmax 0.1 (match exec_time (node_attrs G (fst kv)) with Some e => e | None => 10 end).

(** Every communication cost on an edge is non-negative. *)
Definition nonneg_comm (G : DiGraph) : bool :=
  forallb (fun e => match snd e with Some c => Qle_bool 0 c | None => true end) (edges G).

(** ** The invariant of the topological sort *)

(** The number of edges into [v] whose source is not among [done]. *)
Definition pending (G : DiGraph) (done : list string) (v : string) : nat :=
  List.length (filter (fun u => negb (memb u done)) (predecessors G v)).

(** [done] have been visited (their children released), [waiting] have been
    released and wait for their visit, [m] is [indegree_map], and [extra]
    are the children of the node under visit that are still to be released. *)
Record sort_inv (G : DiGraph) (done waiting : list string) (m : dict nat)
    (extra : list string) : Prop := mkSortInv {
  si_nodes : Permutation (done ++ waiting ++ dict_keys m) (node_names G);
  si_count : forall v d, dict_get m v = Some d ->
               d = (pending G done v + count_occ string_dec extra v)%nat /\ (0 < d)%nat;
  si_waiting : forall v, In v waiting -> pending G done v = 0%nat;
  si_done : preds_seen G [] done
}.

(** A graph without tasks. *)
Definition empty_graph : DiGraph := mkDiGraph [] [].

(** ** The order on scores *)

Definition score_leq (a b : score) : Prop :=
  match a, b with
  | Fin x, Fin y => x <= y
  | _, Inf => True
  | Inf, Fin _ => False
  end.

(** A score equal, as a number, to [g]. *)
Definition score_is (g : Q) (s : score) : Prop :=
  exists x, s = Fin x /\ x == g.

(** What the iteration loop maintains: no recorded makespan is below the
    current best, and while the global best is infinite so is every
    personal best. *)
Record run_inv (self : QIPSO.QIPSO_Scheduler) : Prop := mkRunInv {
  ri_history : forall s, In s (map fst (QIPSO.convergence_history self)) ->
                 score_leq (QIPSO.global_best_score self) s;
  ri_personal : QIPSO.global_best_score self = Inf ->
                forall s, In s (QIPSO.personal_best_scores self) -> s = Inf
}.

(** A walk: each task of the list has an edge to the next one. *)
Fixpoint chain (G : DiGraph) (w : list string) : Prop :=
  match w with
  | x :: (y :: _) as w' => (exists c, In (x, y, c) (edges G)) /\ chain G w'
  | _ => True
  end.

(** The total duration of a list of tasks, with the evaluator's durations. *)
Definition path_duration (G : DiGraph) (w : list string) : Q :=
  fold_right (fun t acc => QIPSO.eval_duration (node_attrs G t) + acc) 0 w.

(** Element-wise, [xs] is below [ys]. *)
Definition pointwise_le (xs ys : list Q) : Prop :=
  forall i x, nth_error xs i = Some x -> exists y, nth_error ys i = Some y /\ x <= y.

(** * The callers of the schedulers

    The reinforcement-learning environment ([src/environment/scheduler_env.py]),
    the evaluation drivers ([src/evaluation/evaluator.py],
    [src/algorithms/integrated_evaluation.py], [experiments/train_baselines.py]),
    the attribute defaulting of the loaders, and the probability rows of
    [QIPSO.py].  Reading a file is outside the model: a loader starts from
    the graph [nx.read_gml] returned. *)

(** ** Helpers *)

Fixpoint map_result {A B : Type} (f : A -> result B) (xs : list A) : result (list B) :=
  match xs with
  | [] => Ok []
  | x :: rest =>
      y <- f x ;;
      ys <- map_result f rest ;;
      Ok (y :: ys)
  end.

(** [xs or [0]] *)
Definition or_zero (xs : list Q) : list Q :=
  match xs with
  | [] => [0]
  | _ :: _ => xs
  end.

(** The task-to-node assignment inside a stored schedule. *)
Definition assignment_of (s : dict task_info) : dict nat :=
  map (fun kv => (fst kv, assigned_node (snd kv))) s.

(** ** [evaluate_schedule] on Python integers

    [QIPSO.evaluate_schedule] above takes the node of a task as a position
    of its lists.  A schedule holds Python integers, and [xs[k]] reads
    position [k] for [0 <= k], position [len(xs) + k] for
    [-len(xs) <= k < 0], and raises [IndexError] otherwise. *)

(** The position [xs[k]] reads in a list of length [n]; the position [n],
    which such a list does not have, when [k] is out of range. *)
Definition list_position (n : nat) (k : Z) : nat :=
  if (0 <=? k)%Z then Z.to_nat k
  else if (- Z.of_nat n <=? k)%Z then Z.to_nat (Z.of_nat n + k)
  else n.

(** [evaluate_schedule(schedule)]: its three lists ([device_end_times],
    [device_energy], [node_power_consumptions]) all have length
    [num_nodes]. *)
Definition evaluate_schedule_int (dag : DiGraph) (task_list : list string)
    (num_nodes : nat) (schedule : dict Z) : result (Q * Q) :=
  QIPSO.evaluate_schedule dag task_list num_nodes
    (map (fun kv => (fst kv, list_position num_nodes (snd kv))) schedule).

(** ** The durations as the documentation words them *)

(** [find_critical_path]: [max(0.1, exec_time)]; without [exec_time],
    [max(0.1, comp_cost/1000)]; 10 without both. *)
Definition documented_cp_duration (a : attrs) : Q :=
  match exec_time a with
  | Some e => Qmax 0.1 e
  | None =>
      match comp_cost a with
      | Some c => Qmax 0.1 (c / 1000)
      | None => 10
      end
  end.

(** [evaluate_schedule]: [max(0.1, exec_time)]; the constant 10 without
    [exec_time]. *)
Definition documented_eval_duration (a : attrs) : Q :=
  match exec_time a with
  | Some e => Qmax 0.1 e
  | None => 10
  end.

(** ** Further example inputs *)

(** One task without attributes. *)
Definition bare_task : DiGraph := mkDiGraph [("A", no_attrs)] [].

(** A -> B with a negative [comm_cost] on the edge; [comp_cost] 10000 and
    1000. *)
Definition negative_comm_chain : DiGraph :=
  mkDiGraph [("A", mkAttrs None (Some 10000)); ("B", mkAttrs None (Some 1000))]
            [("A", "B", Some (-5000))].

(** A -> B as a file with [comp_cost] only gives it. *)
Definition raw_cost_chain : DiGraph :=
  mkDiGraph [("A", mkAttrs None (Some 5000)); ("B", mkAttrs None (Some 1000))]
            [("A", "B", None)].

(** The same chain, each task with the [exec_time] a loader derives from its
    [comp_cost]. *)
Definition cost_chain : DiGraph :=
  mkDiGraph [("A", mkAttrs (Some (5000 / 1000)) (Some 5000));
             ("B", mkAttrs (Some (1000 / 1000)) (Some 1000))]
            [("A", "B", None)].

(** ** Totals over a task list *)

(** The energy of an assignment counted task by task: the power of the
    assigned node times the evaluator's duration. *)
Definition energy_by_task (G : DiGraph) (powers : list Q) (assignment : dict nat)
    (tasks : list string) : Q :=
  fold_right
    (fun t acc =>
       nth (dict_get_default assignment t 0%nat) powers 0
       * QIPSO.eval_duration (node_attrs G t) + acc)
    0 tasks.

(** The total duration of the tasks assigned to node [k]. *)
Definition node_load (G : DiGraph) (assignment : dict nat) (k : nat)
    (tasks : list string) : Q :=
  fold_right
    (fun t acc =>
       if Nat.eqb (dict_get_default assignment t 0%nat) k
       then QIPSO.eval_duration (node_attrs G t) + acc
       else acc)
    0 tasks.

(** ** [QIPSO.print_schedule_stats]: the two tables it prints *)

Module Stats.

(** [float(attrs.get('exec_time', 10))]: no lower bound here. *)
Definition stats_duration (a : attrs) : Q :=
  match exec_time a with Some e => e | None => 10 end.

Fixpoint stats_loop (dag : DiGraph) (powers : list Q) (schedule : dict nat)
    (tasks : list string) (node_times node_energy : list Q)
    : result (list Q * list Q) :=
  match tasks with
  | [] => Ok (node_times, node_energy)
  | task :: rest =>
      node <- dict_item schedule task ;;
      let duration := stats_duration (node_attrs dag task) in
      power <- list_item powers node ;;
      let energy := power * duration in
      busy <- list_item node_times node ;;
      spent <- list_item node_energy node ;;
      stats_loop dag powers schedule rest
        (list_set node_times node (busy + duration))
        (list_set node_energy node (spent + energy))
  end.

(** [(node_times, node_energy)] as the second table shows them. *)
Definition print_schedule_stats (dag : DiGraph) (task_list : list string)
    (num_nodes : nat) (schedule : dict nat) : result (list Q * list Q) :=
  stats_loop dag (default_node_powers num_nodes) schedule task_list
    (repeat 0 num_nodes) (repeat 0 num_nodes).

End Stats.

(** ** The probability rows of QIPSO

    One row [qbits[p,t]] holds a weight per node.  [numpy] never raises on a
    division: a zero divisor yields [inf] or [nan] entries, which is [None]
    here. *)

Module QBits.

(** [np.clip(x, lo, hi)] *)
Definition np_clip (lo hi x : Q) : Q := Qmin (Qmax x lo) hi.

(** [row / d] *)
Definition np_divide (row : list Q) (d : Q) : option (list Q) :=
  match row with
  | [] => Some []
  | _ :: _ => if Qeq_bool d 0 then None else Some (map (fun x => x / d) row)
  end.

(** The body of [normalize_qbits] for one row. *)
Definition normalize_row (row : list Q) : option (list Q) :=
  let clipped := map (np_clip 0.01 0.99) row in
  let total := py_sum clipped + 1e-10 in
  np_divide clipped total.

(** The distribution handed to [np.random.choice] in [run_optimization]. *)
Definition sampling_probs (row : list Q) : option (list Q) :=
  let probs := map (np_clip 0.01 0.99) row in
  np_divide probs (py_sum probs).

(** [(np.arange(n) == node)] as numbers. *)
Definition one_hot (n node : nat) : list Q :=
  map (fun i => if Nat.eqb i node then 1 else 0) (seq 0 n).

(** Element-wise combination of rows of equal length. *)
Fixpoint zip_with (f : Q -> Q -> Q) (xs ys : list Q) : list Q :=
  match xs, ys with
  | x :: xs', y :: ys' => f x y :: zip_with f xs' ys'
  | _, _ => []
  end.

(** The body of [update_quantum_states] for one row.  [r1] and [r2] are the
    two values of [random.random()]; [mutation] is [Some (mut_node, delta)]
    when the mutation test fired, with the node and the offset it drew. *)
Definition update_row (cognitive social : Q) (num_nodes : nat)
    (personal_best_node global_best_node : nat) (r1 r2 : Q)
    (mutation : option (nat * Q)) (q v : list Q) : option (list Q * list Q) :=
  let cognitive_term :=
    map (fun d => cognitive * r1 * d)
        (zip_with Qminus (one_hot num_nodes personal_best_node) q) in
  let social_term :=
    map (fun d => social * r2 * d)
        (zip_with Qminus (one_hot num_nodes global_best_node) q) in
  let v' :=
    map (np_clip (-0.2) 0.2)
        (zip_with Qplus (zip_with Qplus v cognitive_term) social_term) in
  let q1 := map (np_clip 0.01 0.99) (zip_with Qplus q v') in
  let q2 :=
    match mutation with
    | Some (mut_node, delta) =>
        list_set q1 mut_node (np_clip 0.01 0.99 (nth mut_node q1 0 + delta))
    | None => q1
    end in
  match np_divide q2 (py_sum q2) with
  | Some q' => Some (q', v')
  | None => None
  end.

End QBits.

(** ** The environment: [scheduler_env.py]

    The observation vector and the reward go through [np.std] and
    [float32] and are left out; they decide nothing of what follows.  The
    model takes [num_nodes >= 1] for granted where [gym] checks it. *)

Module Env.

(** A schedule entry is a [task_info]: its ['duration'] is kept in
    [info_exec_time]. *)
Record TaskOffloadingEnv : Type := mkEnv {
  dag : DiGraph;
  task_list : list string;
  num_nodes : nat;
  device_end_time : list Q;
  current_task_idx : nat;
  node_available_time : list Q;
  schedule : dict task_info;
  makespan_history : list Q;
  utilization_history : list (list Q)
}.

(** ['comp_cost' not in attrs and 'exec_time' not in attrs] *)
Definition missing_both (a : attrs) : bool :=
  match comp_cost a, exec_time a with
  | None, None => true
  | _, _ => false
  end.

(** [__init__] *)
Definition init (dag : DiGraph) (num_nodes : nat) : result TaskOffloadingEnv :=
  task_list <-
    match topological_sort dag with
    | Raise NetworkXUnfeasible => Raise ValueError
    | r => r
    end ;;
  match task_list with
  | [] => Raise ValueError
  | _ :: _ =>
      if existsb (fun task => missing_both (node_attrs dag task)) task_list
      then Raise ValueError
      else Ok (mkEnv dag task_list num_nodes (repeat 0 num_nodes) 0
                 (repeat 0 num_nodes) [] [] [])
  end.

Definition reset (self : TaskOffloadingEnv) : TaskOffloadingEnv :=
  mkEnv (dag self) (task_list self) (num_nodes self)
    (repeat 0 (num_nodes self)) 0 (repeat 0 (num_nodes self)) []
    (makespan_history self) (utilization_history self).

(** [max(0.1, comp_cost / 1000)] with [comp_cost] defaulting to a thousand
    times [exec_time], itself defaulting to 10. *)
Definition step_duration (a : attrs) : Q :=
  let cost :=
    match comp_cost a with
    | Some c => c
    | None => match exec_time a with Some e => e | None => 10 end * 1000
    end in
  Qmax 0.1 (cost / 1000).

(** [[schedule.get(pred, {}).get('end_time', 0) for pred in preds]] *)
Definition pred_end_times (schedule : dict task_info) (preds : list string) : list Q :=
  map (fun pred =>
         match dict_get schedule pred with
         | Some info => end_time info
         | None => 0
         end) preds.

(** What [step] reports in [info] ('reward' left out). *)
Record step_info : Type := mkStepInfo {
  info_task : string;
  info_node : nat;
  info_start_time : Q;
  info_end_time : Q;
  info_duration : Q;
  info_ready_time : Q;
  info_makespan : option Q
}.

Definition _record_episode_metrics (self : TaskOffloadingEnv)
    : result TaskOffloadingEnv :=
  makespan <- py_max (node_available_time self) ;;
  utilization <-
    map_result (fun t => q <- HEFT.py_div t makespan ;; Ok (q * 100))
               (node_available_time self) ;;
  Ok (mkEnv (dag self) (task_list self) (num_nodes self) (device_end_time self)
        (current_task_idx self) (node_available_time self) (schedule self)
        (makespan_history self ++ [makespan])
        (utilization_history self ++ [utilization])).

(** [step]: the new environment, [done] and [info]. *)
Definition step (self : TaskOffloadingEnv) (action : Z)
    : result (TaskOffloadingEnv * bool * step_info) :=
  if Nat.leb (List.length (task_list self)) (current_task_idx self)
  then Raise ValueError else
  if negb ((0 <=? action)%Z && (action <? Z.of_nat (num_nodes self))%Z)
  then Raise ValueError else
  let node := Z.to_nat action in
  task <- list_item (task_list self) (current_task_idx self) ;;
  let duration := step_duration (node_attrs (dag self) task) in
  ready <- py_max (or_zero (pred_end_times (schedule self)
                              (predecessors (dag self) task))) ;;
  busy <- list_item (node_available_time self) node ;;
  let start := Qmax ready busy in
  let finish := start + duration in
  _ <- list_item (device_end_time self) node ;;
  let self1 :=
    mkEnv (dag self) (task_list self) (num_nodes self)
      (list_set (device_end_time self) node finish)
      (S (current_task_idx self))
      (list_set (node_available_time self) node finish)
      (dict_set (schedule self) task (mkInfo node start finish duration (Some ready)))
      (makespan_history self) (utilization_history self) in
  let done := Nat.leb (List.length (task_list self1)) (current_task_idx self1) in
  reported <-
    (if done then m <- py_max (device_end_time self1) ;; Ok (Some m) else Ok None) ;;
  self2 <- (if done then _record_episode_metrics self1 else Ok self1) ;;
  Ok (self2, done, mkStepInfo task node start finish duration ready reported).

Definition get_schedule (self : TaskOffloadingEnv) : dict task_info := schedule self.

(** [get_metrics]: ['makespan'] and ['utilization']. *)
Definition get_metrics (self : TaskOffloadingEnv) : result (Q * list Q) :=
  match schedule self with
  | [] => Ok (0, repeat 0 (num_nodes self))
  | _ :: _ =>
      makespan <- py_max (node_available_time self) ;;
      utilization <-
        map_result
          (fun t =>
             m <- py_max (node_available_time self) ;;
             q <- HEFT.py_div t m ;;
             Ok (q * 100))
          (node_available_time self) ;;
      Ok (makespan, utilization)
  end.

(** The driver loop [while not done: ... env.step(action)] of the
    evaluators; [policy k] is the action chosen at the [k]-th step.  Each
    round advances [current_task_idx], so [fuel] above the number of tasks
    is never used up. *)
Fixpoint episode (fuel : nat) (policy : nat -> Z) (self : TaskOffloadingEnv)
    : result TaskOffloadingEnv :=
  match fuel with
  | O => Raise RecursionError
  | S fuel' =>
      '(self', done, _) <- step self (policy (current_task_idx self)) ;;
      if (done : bool) then Ok self' else episode fuel' policy self'
  end.

End Env.

(** ** [evaluator.py] *)

Module Evaluator.

(** [nx.is_directed_acyclic_graph], which tries a topological sort. *)
Definition is_directed_acyclic_graph (G : DiGraph) : result bool :=
  match topological_sort G with
  | Ok _ => Ok true
  | Raise NetworkXUnfeasible => Ok false
  | Raise e => Raise e
  end.

(** ['exec_time'] after [_load_dag]:
    [get('exec_time', get('comp_cost', 1000) / 1000)]. *)
Definition _load_attrs (a : attrs) : attrs :=
  mkAttrs
    (Some (match exec_time a with
           | Some e => e
           | None => match comp_cost a with Some c => c | None => 1000 end / 1000
           end))
    (comp_cost a).

Fixpoint _load_nodes (ns : list (string * attrs)) : result (list (string * attrs)) :=
  match ns with
  | [] => Ok []
  | (name, a) :: rest =>
      if Env.missing_both a then Raise ValueError
      else rest' <- _load_nodes rest ;; Ok ((name, _load_attrs a) :: rest')
  end.

(** [_load_dag] from the parsed graph on. *)
Definition _load_dag (G : DiGraph) : result DiGraph :=
  acyclic_graph <- is_directed_acyclic_graph G ;;
  if negb acyclic_graph then Raise ValueError else
  ns <- _load_nodes (nodes G) ;;
  Ok (mkDiGraph ns (edges G)).

(** [_run_evaluation_episode]: makespan, utilization and schedule. *)
Definition _run_evaluation_episode (fuel : nat) (policy : nat -> Z)
    (env : Env.TaskOffloadingEnv) : result (Q * list Q * dict task_info) :=
  final <- Env.episode fuel policy (Env.reset env) ;;
  '(makespan, utilization) <- Env.get_metrics final ;;
  Ok (makespan, utilization, Env.get_schedule final).

End Evaluator.

(** ** The attribute defaulting of the other loaders *)

Module Loaders.

(** [First_come_first_server.load_dag_from_gml] *)
Definition fcfs_load_attrs (a : attrs) : attrs :=
  match exec_time a with
  | None =>
      match comp_cost a with
      | Some c => mkAttrs (Some (c / 1000)) (comp_cost a)
      | None => mkAttrs (Some 10) (comp_cost a)
      end
  | Some e => mkAttrs (Some e) (comp_cost a)
  end.

Definition fcfs_load_dag_from_gml (G : DiGraph) : DiGraph :=
  mkDiGraph (map (fun na => (fst na, fcfs_load_attrs (snd na))) (nodes G)) (edges G).

(** [train_baselines.load_and_validate_dag] *)
Definition validate_attrs (a : attrs) : result attrs :=
  exec <-
    match exec_time a with
    | Some e => Ok e
    | None =>
        match comp_cost a with
        | Some c => Ok (c / 1000)
        | None => Raise ValueError
        end
    end ;;
  Ok (mkAttrs (Some exec)
        (Some (match comp_cost a with Some c => c | None => exec * 1000 end))).

Fixpoint validate_nodes (ns : list (string * attrs)) : result (list (string * attrs)) :=
  match ns with
  | [] => Ok []
  | (name, a) :: rest =>
      a' <- validate_attrs a ;;
      rest' <- validate_nodes rest ;;
      Ok ((name, a') :: rest')
  end.

Definition load_and_validate_dag (G : DiGraph) : result DiGraph :=
  ns <- validate_nodes (nodes G) ;;
  Ok (mkDiGraph ns (edges G)).

End Loaders.

(** ** [integrated_evaluation.py] *)

Module Integrated.

(** [[1.0 + 0.2*i for i in range(8)]] *)
Definition NODE_POWERS : list Q := default_node_powers 8.

(** [calculate_energy]: the same loop as FCFS's. *)
Definition calculate_energy (schedule : dict task_info) (node_powers : list Q)
    : result Q :=
  FCFS.energy_loop schedule node_powers 0.

(** [evaluate_fcfs] of [src/algorithms]: the makespan of a first call and
    the energy of a second one on the graph the first call left. *)
Definition evaluate_fcfs (G : DiGraph) (num_nodes : nat) : result (Q * Q) :=
  let '(G1, r1) := FCFS.schedule_fcfs G num_nodes in
  out1 <- r1 ;;
  out2 <- snd (FCFS.schedule_fcfs G1 num_nodes) ;;
  Ok (FCFS.makespan out1, FCFS.energy out2).

(** [evaluate_heft]: the scheduler's makespan, and an energy summed here. *)
Definition evaluate_heft (depth : nat) (G : DiGraph) (num_nodes : nat)
    : result (Q * Q) :=
  scheduler <- HEFT.schedule depth (HEFT.init num_nodes 1000) G ;;
  makespan <- HEFT.get_makespan scheduler ;;
  energy <- FCFS.energy_loop (HEFT.schedule_result scheduler) NODE_POWERS 0 ;;
  Ok (makespan, energy).

(** [evaluate_dqn] of [src/algorithms] from the constructed environment on:
    the largest stored end time, and the energy of the stored schedule. *)
Definition evaluate_dqn (fuel : nat) (policy : nat -> Z) (G : DiGraph)
    (num_nodes : nat) : result (Q * Q) :=
  env <- Env.init G num_nodes ;;
  final <- Env.episode fuel policy (Env.reset env) ;;
  let schedule := Env.get_schedule final in
  makespan <- py_max (map (fun kv => end_time (snd kv)) schedule) ;;
  energy <- calculate_energy schedule NODE_POWERS ;;
  Ok (makespan, energy).

End Integrated.

(** ** [train_baselines.compare_algorithms] *)

Module Baselines.

(** What the three schedulers hand to [get_makespan]. *)
Inductive outcome : Type :=
| FcfsResult (out : FCFS.output)
| HeftResult (schedule_result : dict task_info)
| QipsoResult (schedule : dict nat) (best_score best_energy : score).

(** The inner [get_makespan].  [float] of a schedule entry (a dict) is a
    [TypeError]. *)
Definition get_makespan (res : outcome) : result score :=
  match res with
  | FcfsResult out => Ok (Fin (FCFS.makespan out))
  | HeftResult s =>
      match dict_get s "makespan" with
      | Some _ => Raise TypeError
      | None =>
          match dict_get s "end_time" with
          | Some _ => Raise TypeError
          | None => Ok (Fin 0)
          end
      end
  | QipsoResult _ best_score _ => Ok best_score
  end.

End Baselines.

(** ** What an episode of the environment maintains *)

(** A stored entry starts at a non-negative time, lasts [step_duration], and
    ends no later than its node is busy. *)
Definition env_entry_ok (G : DiGraph) (avail : list Q) (kv : string * task_info) : Prop :=
  0 <= start_time (snd kv)
  /\ end_time (snd kv) = start_time (snd kv) + Env.step_duration (node_attrs G (fst kv))
  /\ exists busy, nth_error avail (assigned_node (snd kv)) = Some busy
                  /\ end_time (snd kv) <= busy.

Record env_inv (G : DiGraph) (tl : list string) (n : nat)
    (self : Env.TaskOffloadingEnv) : Prop := mkEnvInv {
  ei_dag : Env.dag self = G;
  ei_tasks : Env.task_list self = tl;
  ei_nodes : Env.num_nodes self = n;
  ei_dev : Env.device_end_time self = Env.node_available_time self;
  ei_len : List.length (Env.node_available_time self) = n;
  ei_idx : (Env.current_task_idx self <= List.length tl)%nat;
  ei_keys : dict_keys (Env.schedule self) = firstn (Env.current_task_idx self) tl;
  ei_entries : forall kv, In kv (Env.schedule self) ->
                 env_entry_ok G (Env.node_available_time self) kv;
  ei_source : forall x, In x (Env.node_available_time self) ->
                x = 0 \/ exists kv, In kv (Env.schedule self) /\ end_time (snd kv) = x;
  ei_prec : respects_precedence G (spans (Env.schedule self));
  ei_closed : closed_under_preds G (spans (Env.schedule self))
}.

(** The environment and the evaluator hold the same times, as numbers. *)
Definition same_times (self : Env.TaskOffloadingEnv) (est : QIPSO.eval_state) : Prop :=
  Forall2 Qeq (Env.node_available_time self) (QIPSO.device_end_times est)
  /\ forall t,
       match dict_get (Env.schedule self) t, dict_get (QIPSO.task_finish_times est) t with
       | Some i, Some e => end_time i == e
       | None, None => True
       | _, _ => False
       end.

(** ** HEFT's preconditions and the invariant of its ranks *)

(** The number [_get_task_cost] divides by [avg_comp_cost]. *)
Definition heft_cost_attr (a : attrs) : Q :=
  match comp_cost a, exec_time a with
  | Some c, _ => c
  | None, Some e => e
  | None, None => 10
  end.

(** No task has a negative cost. *)
Definition nonneg_costs (G : DiGraph) : bool :=
  forallb (fun na => Qle_bool 0 (heft_cost_attr (snd na))) (nodes G).

(** Every ranked task has its successors ranked, none of them above it. *)
Definition rank_closed (G : DiGraph) (rank : dict Q) : Prop :=
  forall t r, dict_get rank t = Some r ->
    forall s, In s (successors G t) ->
      exists r', dict_get rank s = Some r' /\ r' <= r.

(** [rank'] holds every entry of [rank]. *)
Definition rank_extends (rank rank' : dict Q) : Prop :=
  forall t r, dict_get rank t = Some r -> dict_get rank' t = Some r.

(** The generator inside [compute_upward_rank]: the ranks of the
    successors, each with the cost of its edge, given the recursive call. *)
Fixpoint over_successors (rec : string -> dict Q -> result (Q * dict Q))
    (self : HEFT.HEFTScheduler) (G : DiGraph) (task : string)
    (ss : list string) (rank : dict Q) : result (list Q * dict Q) :=
  match ss with
  | [] => Ok ([], rank)
  | succ :: rest =>
      '(r, rank1) <- rec succ rank ;;
      c <- HEFT._get_comm_cost self (edge_comm (edges G) task succ) ;;
      '(later, rank2) <- over_successors rec self G task rest rank1 ;;
      Ok ((r + c) :: later, rank2)
  end.

Unset Implicit Arguments.

(** * General facts *)

(** ** Dictionaries *)

Section DictFacts.
Variable V : Type.
Implicit Types (d : dict V) (k : string) (v : V).

Lemma dict_get_set_same d k v : dict_get (dict_set d k v) k = Some v.
Proof.
  induction d as [| [k' v'] d IH]; simpl.
  - now rewrite String.eqb_refl.
  - destruct (String.eqb k' k) eqn:E; simpl; rewrite E; auto.
Qed.

Lemma dict_get_set_other d k k' v :
  k <> k' -> dict_get (dict_set d k v) k' = dict_get d k'.
Proof.
  intros Hne. induction d as [| [k0 v0] d IH]; simpl.
  - destruct (String.eqb_spec k k'); congruence.
  - destruct (String.eqb_spec k0 k) as [-> | Hk]; simpl.
    + destruct (String.eqb_spec k k'); congruence.
    + now rewrite IH.
Qed.

Lemma dict_get_none d k : dict_get d k = None <-> ~ In k (dict_keys d).
Proof.
  induction d as [| [k' v'] d IH]; simpl.
  - tauto.
  - destruct (String.eqb_spec k' k) as [-> | Hk].
    + split; [discriminate | tauto].
    + rewrite IH. tauto.
Qed.

Lemma dict_get_some_in d k v : dict_get d k = Some v -> In (k, v) d.
Proof.
  induction d as [| [k' v'] d IH]; simpl; [discriminate |].
  destruct (String.eqb_spec k' k) as [-> | Hk].
  - intros [= ->]. now left.
  - intros H. right. auto.
Qed.

Lemma dict_get_in d k v : NoDup (dict_keys d) -> In (k, v) d -> dict_get d k = Some v.
Proof.
  induction d as [| [k' v'] d IH]; simpl; [tauto |].
  intros Hnd [[= -> ->] | Hin].
  - now rewrite String.eqb_refl.
  - inversion Hnd as [| ? ? Hk' Hnd']; subst.
    destruct (String.eqb_spec k' k) as [-> | Hk].
    + exfalso. apply Hk'. change k with (fst (k, v)). now apply in_map.
    + auto.
Qed.

Lemma dict_set_fresh d k v : ~ In k (dict_keys d) -> dict_set d k v = d ++ [(k, v)].
Proof.
  induction d as [| [k' v'] d IH]; simpl; [reflexivity |].
  intros Hk. destruct (String.eqb_spec k' k) as [-> | Hne]; [tauto |].
  rewrite IH; tauto.
Qed.

Lemma dict_keys_set_in d k v : In k (dict_keys d) -> dict_keys (dict_set d k v) = dict_keys d.
Proof.
  induction d as [| [k' v'] d IH]; simpl; [tauto |].
  intros Hin. destruct (String.eqb_spec k' k) as [-> | Hne]; simpl; [reflexivity |].
  f_equal. apply IH. destruct Hin; congruence.
Qed.

Lemma dict_set_in d k v k0 v0 :
  In (k0, v0) (dict_set d k v) -> (k0 = k /\ v0 = v) \/ In (k0, v0) d.
Proof.
  induction d as [| [k' v'] d IH]; simpl.
  - intros [[= <- <-] | []]. now left.
  - destruct (String.eqb_spec k' k) as [-> | Hne]; simpl.
    + intros [[= <- <-] | H]; auto.
    + intros [H | H]; auto. destruct (IH H); auto.
Qed.
End DictFacts.

(** ** Lists, maxima and indexing *)

Lemma fold_max_ge_init (xs : list Q) (a : Q) : a <= fold_left Qmax xs a.
Proof.
  revert a. induction xs as [| x xs IH]; intros a; simpl.
  - apply Qle_refl.
  - eapply Qle_trans; [apply (Q.le_max_l a x) | apply IH].
Qed.

Lemma fold_max_ge_in (xs : list Q) (a x : Q) : In x xs -> x <= fold_left Qmax xs a.
Proof.
  revert a. induction xs as [| y xs IH]; intros a; simpl; [tauto |].
  intros [-> | Hin].
  - eapply Qle_trans; [apply (Q.le_max_r a x) | apply fold_max_ge_init].
  - now apply IH.
Qed.

Lemma max_with_zero_ge (xs : list Q) (x : Q) : In x xs -> x <= max_with_zero xs.
Proof.
  unfold max_with_zero. destruct xs as [| y xs]; simpl; [tauto |].
  intros [-> | Hin].
  - apply fold_max_ge_init.
  - apply fold_max_ge_in. apply in_or_app. now left.
Qed.

Lemma py_max_ge (xs : list Q) (m x : Q) : py_max xs = Ok m -> In x xs -> x <= m.
Proof.
  destruct xs as [| y xs]; simpl; [discriminate |].
  intros [= <-] [-> | Hin].
  - apply fold_max_ge_init.
  - now apply fold_max_ge_in.
Qed.

Lemma py_max_ok (xs : list Q) : xs <> [] -> exists m, py_max xs = Ok m.
Proof. destruct xs; [congruence | simpl; eauto]. Qed.

Lemma list_item_ok (A : Type) (xs : list A) (i : nat) :
  (i < List.length xs)%nat -> exists x, list_item xs i = Ok x.
Proof.
  intros Hi. unfold list_item.
  destruct (nth_error xs i) eqn:E; [eauto |].
  apply nth_error_None in E. lia.
Qed.

Lemma list_item_lt (A : Type) (xs : list A) (i : nat) (x : A) :
  list_item xs i = Ok x -> (i < List.length xs)%nat.
Proof.
  unfold list_item. destruct (nth_error xs i) eqn:E; [| discriminate].
  intros _. apply nth_error_Some. congruence.
Qed.

Lemma list_item_nth (xs : list Q) (i : nat) (x d : Q) :
  list_item xs i = Ok x -> nth i xs d = x.
Proof.
  unfold list_item. destruct (nth_error xs i) eqn:E; [| discriminate].
  intros [= <-]. now apply nth_error_nth.
Qed.

Lemma list_set_length (A : Type) (xs : list A) (i : nat) (v : A) :
  List.length (list_set xs i v) = List.length xs.
Proof.
  revert i. induction xs as [| x xs IH]; intros [| i]; simpl; auto.
Qed.

Lemma default_node_powers_length (n : nat) : List.length (default_node_powers n) = n.
Proof. unfold default_node_powers. now rewrite length_map, length_seq. Qed.

(** ** The error monad and graph facts *)

Lemma bind_ok (A B : Type) (m : result A) (k : A -> result B) (r : B) :
  bind m k = Ok r -> exists a, m = Ok a /\ k a = Ok r.
Proof. destruct m; simpl; [eauto | discriminate]. Qed.

Ltac bind_inv H :=
  let a := fresh "a" in
  let E := fresh "E" in
  apply bind_ok in H; destruct H as (a & E & H).

Tactic Notation "bind_destruct" hyp(H) "as" ident(a) ident(E) :=
  apply bind_ok in H; destruct H as (a & E & H).

(** ** Graph facts *)

Lemma in_predecessors (G : DiGraph) (p t : string) :
  In p (predecessors G t) <-> exists c, In (p, t, c) (edges G).
Proof.
  unfold predecessors. rewrite in_map_iff. split.
  - intros ([[u v] c] & <- & Hin). apply filter_In in Hin as [Hin Heq].
    apply String.eqb_eq in Heq. unfold edge_dst in Heq. simpl in *. subst. eauto.
  - intros (c & Hin). exists (p, t, c). split; [reflexivity |].
    apply filter_In. split; [assumption |]. apply String.eqb_refl.
Qed.

Lemma in_successors (G : DiGraph) (u v : string) :
  In v (successors G u) <-> exists c, In (u, v, c) (edges G).
Proof.
  unfold successors. rewrite in_map_iff. split.
  - intros ([[u' v'] c] & <- & Hin). apply filter_In in Hin as [Hin Heq].
    apply String.eqb_eq in Heq. unfold edge_src in Heq. simpl in *. subst. eauto.
  - intros (c & Hin). exists (u, v, c). split; [reflexivity |].
    apply filter_In. split; [assumption |]. apply String.eqb_refl.
Qed.

Lemma memb_In (x : string) (xs : list string) : memb x xs = true <-> In x xs.
Proof.
  unfold memb. rewrite existsb_exists. split.
  - intros (y & Hin & Heq). apply String.eqb_eq in Heq. now subst.
  - intros Hin. exists x. split; [assumption | apply String.eqb_refl].
Qed.

Lemma nodupb_NoDup (xs : list string) : nodupb xs = true <-> NoDup xs.
Proof.
  induction xs as [| x xs IH]; simpl.
  - split; [constructor | reflexivity].
  - rewrite andb_true_iff, negb_true_iff, IH. split.
    + intros [Hx Hnd]. constructor; [| assumption].
      intros Hin. apply memb_In in Hin. unfold memb in Hin. congruence.
    + intros Hnd. inversion Hnd as [| ? ? Hx Hnd']; subst. split; [| assumption].
      destruct (existsb (String.eqb x) xs) eqn:E; [| reflexivity].
      exfalso. apply Hx. now apply memb_In.
Qed.

Lemma index_of_some (x : string) (xs : list string) (i : nat) :
  index_of x xs = Some i -> (i < List.length xs)%nat /\ In x xs.
Proof.
  revert i. induction xs as [| y xs IH]; simpl; intros i; [discriminate |].
  destruct (String.eqb_spec y x) as [-> | Hne].
  - intros [= <-]. split; [lia | now left].
  - destruct (index_of x xs) as [j |]; simpl; [| discriminate].
    intros [= <-]. destruct (IH j eq_refl). split; [lia | now right].
Qed.

Lemma index_of_app_fresh (x : string) (l1 l2 : list string) :
  ~ In x l1 ->
  index_of x (l1 ++ l2) = option_map (Nat.add (List.length l1)) (index_of x l2).
Proof.
  induction l1 as [| y l1 IH]; simpl; intros Hx.
  - destruct (index_of x l2); reflexivity.
  - destruct (String.eqb_spec y x) as [-> | Hne]; [tauto |].
    rewrite IH by tauto. destruct (index_of x l2); reflexivity.
Qed.

Lemma index_of_app_lt (x : string) (l1 l2 : list string) (i : nat) :
  index_of x (l1 ++ l2) = Some i -> (i < List.length l1)%nat -> In x l1.
Proof.
  revert i. induction l1 as [| y l1 IH]; simpl; intros i; [lia |].
  destruct (String.eqb_spec y x) as [-> | Hne]; [now left |].
  destruct (index_of x (l1 ++ l2)) as [j |] eqn:E; simpl; [| discriminate].
  intros [= <-] Hlt. right. apply (IH j); [reflexivity | lia].
Qed.

Lemma forward_edges_preds_seen (G : DiGraph) (tasks seen : list string) :
  NoDup (seen ++ tasks) ->
  forallb (edge_forward (seen ++ tasks)) (edges G) = true ->
  preds_seen G seen tasks.
Proof.
  revert seen. induction tasks as [| t rest IH]; intros seen Hnd Hfwd; simpl; [exact I |].
  split.
  - intros p Hp. apply in_predecessors in Hp as (c & Hin).
    rewrite forallb_forall in Hfwd. specialize (Hfwd _ Hin).
    unfold edge_forward, edge_src, edge_dst in Hfwd. simpl in Hfwd.
    assert (Ht : ~ In t seen).
    { intros Hin'. apply NoDup_remove_2 in Hnd. apply Hnd.
      apply in_or_app. now left. }
    rewrite (index_of_app_fresh _ _ _ Ht) in Hfwd. simpl in Hfwd.
    rewrite String.eqb_refl in Hfwd. simpl in Hfwd.
    destruct (index_of p (seen ++ t :: rest)) as [i |] eqn:E; [| discriminate].
    apply Nat.ltb_lt in Hfwd. apply (index_of_app_lt _ _ _ _ E). lia.
  - apply IH; rewrite <- app_assoc; assumption.
Qed.

Lemma is_topological_NoDup (G : DiGraph) (tl : list string) :
  is_topological G tl = true -> NoDup tl.
Proof.
  unfold is_topological. rewrite !andb_true_iff. intros [[H _] _]. now apply nodupb_NoDup.
Qed.

Lemma is_topological_preds_seen (G : DiGraph) (tl : list string) :
  is_topological G tl = true -> preds_seen G [] tl.
Proof.
  intros H. apply forward_edges_preds_seen; simpl.
  - now apply is_topological_NoDup with G.
  - unfold is_topological in H. rewrite !andb_true_iff in H. tauto.
Qed.

(** ** Precedence, one task at a time *)

Lemma respects_precedence_snoc (G : DiGraph) (tr : list (string * (Q * Q)))
    (t : string) (s e : Q) :
  respects_precedence G tr ->
  closed_under_preds G tr ->
  ~ In t (map fst tr) ->
  (forall p, In p (predecessors G t) -> In p (map fst tr)) ->
  (forall p sp ep, In p (predecessors G t) -> In (p, (sp, ep)) tr -> ep <= s) ->
  respects_precedence G (tr ++ [(t, (s, e))])
  /\ closed_under_preds G (tr ++ [(t, (s, e))]).
Proof.
  intros Hres Hclosed Hfresh Hpreds Hready. split.
  - intros t' p st et sp ep Hp Ht' Hp'.
    apply in_app_or in Ht'. apply in_app_or in Hp'.
    destruct Ht' as [Ht' | [[= -> -> ->] | []]], Hp' as [Hp' | [[= -> -> ->] | []]].
    + eapply Hres; eauto.
    + exfalso. apply Hfresh. apply (Hclosed t'); [| assumption].
      change t' with (fst (t', (st, et))). now apply in_map.
    + eapply Hready; eauto.
    + exfalso. apply Hfresh. now apply Hpreds.
  - intros t' p Ht' Hp. rewrite map_app, in_app_iff in *. simpl in *.
    destruct Ht' as [Ht' | [<- | []]].
    + left. eapply Hclosed; eauto.
    + left. now apply Hpreds.
Qed.

(** ** The evaluator's loop *)

Lemma evaluate_task_inv (dag : DiGraph) (pw : list Q) (sched : dict nat)
    (st st' : QIPSO.eval_state) (task : string) (node : nat) (s e : Q) :
  QIPSO.evaluate_task dag pw sched st task = Ok (node, s, e, st') ->
  dict_get sched task = Some node
  /\ e = s + QIPSO.eval_duration (node_attrs dag task)
  /\ QIPSO.task_finish_times st' = dict_set (QIPSO.task_finish_times st) task e
  /\ List.length (QIPSO.device_end_times st') = List.length (QIPSO.device_end_times st)
  /\ List.length (QIPSO.device_energy st') = List.length (QIPSO.device_energy st)
  /\ (forall p ep, In p (predecessors dag task) ->
        dict_get (QIPSO.task_finish_times st) p = Some ep -> ep <= s).
Proof.
  unfold QIPSO.evaluate_task. intros H.
  bind_inv H. bind_inv H. bind_inv H. bind_inv H.
  injection H as <- <- <- <-. simpl.
  unfold dict_item in E. destruct (dict_get sched task) eqn:Eg; [| discriminate].
  injection E as ->.
  repeat split; try apply list_set_length.
  intros p ep Hp Hget.
  eapply Qle_trans; [| apply Q.le_max_l].
  apply max_with_zero_ge. apply in_map_iff. exists p. split; [| assumption].
  unfold dict_get_default. now rewrite Hget.
Qed.

Lemma evaluate_tasks_respects (dag : DiGraph) (pw : list Q) (sched : dict nat) :
  forall tasks tr0 st trace st',
    QIPSO.evaluate_tasks dag pw sched tasks st = Ok (trace, st') ->
    NoDup (map fst tr0 ++ tasks) ->
    preds_seen dag (map fst tr0) tasks ->
    closed_under_preds dag tr0 ->
    (forall x s e, In (x, (s, e)) tr0 -> dict_get (QIPSO.task_finish_times st) x = Some e) ->
    respects_precedence dag tr0 ->
    respects_precedence dag (tr0 ++ trace_spans trace) /\ map fst trace = tasks.
Proof.
  induction tasks as [| task rest IH]; intros tr0 st trace st' Hrun Hnd Hseen Hcl Htft Hres.
  - simpl in Hrun. injection Hrun as <- <-. simpl. now rewrite app_nil_r.
  - simpl in Hrun. bind_inv Hrun. destruct a as [[[node s] e] st1].
    bind_inv Hrun. destruct a as [trace' st2]. injection Hrun as <- <-.
    apply evaluate_task_inv in E as (Hnode & He & Htft1 & _ & _ & Hready).
    destruct Hseen as [Hpreds Hseen].
    assert (Hfresh : ~ In task (map fst tr0)).
    { intros Hin. apply NoDup_remove_2 in Hnd. apply Hnd. apply in_or_app. now left. }
    destruct (respects_precedence_snoc dag tr0 task s e Hres Hcl Hfresh Hpreds) as [Hres1 Hcl1].
    { intros p sp ep Hp Hin. eapply Hready; eauto. }
    specialize (IH (tr0 ++ [(task, (s, e))]) st1 trace' st2 E0).
    rewrite map_app in IH. simpl in IH. rewrite <- !app_assoc in IH. simpl in IH.
    destruct IH as [Hall Hkeys]; try assumption.
    + intros x s0 e0 Hin. rewrite Htft1. apply in_app_or in Hin.
      destruct Hin as [Hin | [[= -> -> ->] | []]].
      * rewrite dict_get_set_other; [eauto |].
        intros ->. apply Hfresh. change x with (fst (x, (s0, e0))). now apply in_map.
      * apply dict_get_set_same.
    + split; [| simpl; now rewrite Hkeys].
      simpl. exact Hall.
Qed.

Lemma evaluate_tasks_total (dag : DiGraph) (pw : list Q) (sched : dict nat) (n : nat) :
  List.length pw = n ->
  forall tasks st,
    total_assignment sched tasks n ->
    List.length (QIPSO.device_end_times st) = n ->
    List.length (QIPSO.device_energy st) = n ->
    exists trace st',
      QIPSO.evaluate_tasks dag pw sched tasks st = Ok (trace, st')
      /\ List.length (QIPSO.device_end_times st') = n
      /\ forall t node s e, In (t, (node, s, e)) trace ->
           e = s + QIPSO.eval_duration (node_attrs dag t).
Proof.
  intros Hpw. induction tasks as [| task rest IH]; intros st Htot Hd He.
  - exists [], st. simpl. repeat split; [assumption | intros ? ? ? ? []].
  - destruct (Htot task (or_introl eq_refl)) as (node & Hget & Hlt).
    destruct (list_item_ok _ (QIPSO.device_end_times st) node) as (busy & Hbusy); [lia |].
    destruct (list_item_ok _ (QIPSO.device_energy st) node) as (en & Hen); [lia |].
    destruct (list_item_ok _ pw node) as (power & Hpower); [lia |].
    assert (Hstep : exists s e st1,
               QIPSO.evaluate_task dag pw sched st task = Ok (node, s, e, st1)).
    { unfold QIPSO.evaluate_task, dict_item. rewrite Hget. simpl.
      rewrite Hbusy. simpl. rewrite Hen. simpl. rewrite Hpower. simpl. eauto. }
    destruct Hstep as (s & e & st1 & Hstep).
    pose proof (evaluate_task_inv _ _ _ _ _ _ _ _ _ Hstep) as (_ & He1 & _ & Hd1 & Hen1 & _).
    destruct (IH st1) as (trace & st2 & Hrun & Hd2 & Hdur).
    + intros t Ht. apply Htot. now right.
    + congruence.
    + congruence.
    + exists ((task, (node, s, e)) :: trace), st2. simpl.
      rewrite Hstep. simpl. rewrite Hrun. simpl.
      repeat split; [assumption |].
      intros t node' s' e' [[= <- <- <- <-] | Hin]; [assumption | eauto].
Qed.

Lemma evaluate_schedule_total (dag : DiGraph) (tl : list string) (n : nat) (sched : dict nat) :
  (0 < n)%nat -> total_assignment sched tl n ->
  exists trace m e,
    QIPSO.evaluate_trace dag tl n sched = Ok trace
    /\ QIPSO.evaluate_schedule dag tl n sched = Ok (m, e)
    /\ forall t node s f, In (t, (node, s, f)) trace ->
         f = s + QIPSO.eval_duration (node_attrs dag t).
Proof.
  intros Hn Htot.
  destruct (evaluate_tasks_total dag (default_node_powers n) sched n
              (default_node_powers_length n) tl (QIPSO.initial_eval_state n) Htot)
    as (trace & st & Hrun & Hlen & Hdur); try apply repeat_length.
  destruct (py_max_ok (QIPSO.device_end_times st)) as (m & Hm).
  { intros Hnil. rewrite Hnil in Hlen. simpl in Hlen. lia. }
  exists trace, m, (py_sum (QIPSO.device_energy st)).
  unfold QIPSO.evaluate_trace, QIPSO.evaluate_schedule. rewrite Hrun. simpl. rewrite Hm. simpl.
  auto.
Qed.

Lemma evaluate_trace_respects (dag : DiGraph) (tl : list string) (n : nat)
    (sched : dict nat) (trace : list (string * (nat * Q * Q))) :
  is_topological dag tl = true ->
  QIPSO.evaluate_trace dag tl n sched = Ok trace ->
  respects_precedence dag (trace_spans trace) /\ map fst trace = tl.
Proof.
  intros Htopo Hrun. unfold QIPSO.evaluate_trace in Hrun.
  bind_inv Hrun. destruct a as [tr st]. injection Hrun as ->.
  apply (evaluate_tasks_respects dag _ sched tl [] _ _ _ E); simpl.
  - now apply is_topological_NoDup with dag.
  - now apply is_topological_preds_seen.
  - intros ? ? [].
  - intros ? ? ? [].
  - intros ? ? ? ? ? ? _ [].
Qed.

(** ** FCFS *)

Lemma normalize_node_attrs (G : DiGraph) (m : Q) (t : string) :
  Qltb 10 m = false ->
  node_attrs (FCFS.normalize_execution_times G m) t
  = FCFS.normalize_attrs m (node_attrs G t).
Proof.
  intros Hm. unfold node_attrs, dict_get_default, FCFS.normalize_execution_times. simpl.
  induction (nodes G) as [| [k a] d IH]; simpl.
  - unfold FCFS.normalize_attrs. simpl. now rewrite Hm.
  - destruct (String.eqb k t); [reflexivity | exact IH].
Qed.

Lemma release_generation_edges (G1 G2 : DiGraph) :
  edges G1 = edges G2 ->
  forall gen m z, release_generation G1 gen m z = release_generation G2 gen m z.
Proof.
  intros He. induction gen as [| node rest IH]; intros m z; simpl; [reflexivity |].
  unfold successors. rewrite He.
  destruct (release_children _ m z) as [[m' z'] |]; simpl; auto.
Qed.

Lemma generations_edges (G1 G2 : DiGraph) :
  edges G1 = edges G2 ->
  forall fuel m z, generations fuel G1 m z = generations fuel G2 m z.
Proof.
  intros He. induction fuel as [| fuel IH]; intros m z; simpl; [reflexivity |].
  destruct z as [| v z]; [reflexivity |].
  rewrite (release_generation_edges G1 G2 He).
  destruct (release_generation G2 (v :: z) m []) as [[m' z'] |]; simpl; [| reflexivity].
  now rewrite IH.
Qed.

Lemma normalize_topological_sort (G : DiGraph) (m : Q) :
  topological_sort (FCFS.normalize_execution_times G m) = topological_sort G.
Proof.
  unfold topological_sort.
  assert (Hn : node_names (FCFS.normalize_execution_times G m) = node_names G).
  { unfold node_names, FCFS.normalize_execution_times. simpl.
    rewrite map_map. reflexivity. }
  rewrite Hn.
  assert (Hd : forall v, in_degree (FCFS.normalize_execution_times G m) v = in_degree G v)
    by reflexivity.
  rewrite (map_ext _ _ (fun v => f_equal (pair v) (Hd v))).
  rewrite (filter_ext _ _ (fun v => f_equal (fun d => Nat.eqb d 0) (Hd v))).
  apply generations_edges. reflexivity.
Qed.

Lemma Qltb_lt (x y : Q) : Qltb x y = true <-> x < y.
Proof.
  unfold Qltb. rewrite Qlt_alt. destruct (x ?= y); split; congruence.
Qed.

Lemma Qltb_ge (x y : Q) : Qltb x y = false <-> y <= x.
Proof.
  unfold Qltb. rewrite Qle_alt.
  rewrite <- (Qcompare_antisym x y). destruct (x ?= y); simpl; split; congruence.
Qed.

(** The duration FCFS uses after normalising equals the evaluator's
    duration for the graph as given. *)
Lemma fcfs_duration (a : attrs) :
  Qmax 0.1 (match exec_time (FCFS.normalize_attrs 0.1 a) with Some e => e | None => 10 end)
  == QIPSO.eval_duration a.
Proof.
  unfold FCFS.normalize_attrs, QIPSO.eval_duration.
  destruct (Qltb _ 0.1) eqn:E; simpl; [| reflexivity].
  apply Qltb_lt in E. rewrite (Q.max_l 0.1 0.1) by apply Qle_refl.
  symmetry. apply Q.max_l. now apply Qlt_le_weak.
Qed.

Lemma argmin_from_lt (xs : list Q) :
  forall i best bv, (best < i)%nat ->
    (FCFS.argmin_from xs i best bv < i + List.length xs)%nat.
Proof.
  induction xs as [| x xs IH]; intros i best bv Hb; simpl; [lia |].
  destruct (Qltb x bv).
  - specialize (IH (S i) i x). lia.
  - specialize (IH (S i) best bv). lia.
Qed.

Lemma argmin_first_lt (xs : list Q) (i : nat) :
  FCFS.argmin_first xs = Ok i -> (i < List.length xs)%nat.
Proof.
  destruct xs as [| x xs]; simpl; [discriminate |].
  intros [= <-]. pose proof (argmin_from_lt xs 1 0 x). lia.
Qed.

Lemma spans_keys (s : dict task_info) : map fst (spans s) = dict_keys s.
Proof. unfold spans, dict_keys. rewrite map_map. reflexivity. Qed.

Lemma spans_app (s1 s2 : dict task_info) : spans (s1 ++ s2) = spans s1 ++ spans s2.
Proof. apply map_app. Qed.

(** What one round of the FCFS loop yields. *)
Lemma fcfs_schedule_task_inv (G : DiGraph) (st st' : FCFS.fcfs_state) (task : string) :
  FCFS.schedule_task G st task = Ok st' ->
  exists info,
    FCFS.schedule_so_far st' = dict_set (FCFS.schedule_so_far st) task info
    /\ FCFS.task_finish_times st' = dict_set (FCFS.task_finish_times st) task (end_time info)
    /\ List.length (FCFS.node_available_time st') = List.length (FCFS.node_available_time st)
    /\ (assigned_node info < List.length (FCFS.node_available_time st))%nat
    /\ end_time info = start_time info + info_exec_time info
    /\ info_exec_time info
       = Qmax 0.1 (match exec_time (node_attrs G task) with Some e => e | None => 10 end)
    /\ (forall p ep, In p (predecessors G task) ->
          dict_get (FCFS.task_finish_times st) p = Some ep -> ep <= start_time info).
Proof.
  unfold FCFS.schedule_task. intros H.
  bind_inv H. bind_inv H. injection H as <-. simpl.
  eexists. split; [reflexivity |]. simpl.
  repeat split.
  - apply list_set_length.
  - now apply argmin_first_lt.
  - intros p ep Hp Hget.
    eapply Qle_trans; [| apply Q.le_max_l].
    apply max_with_zero_ge. apply in_map_iff. exists p. split; [| assumption].
    unfold dict_get_default. now rewrite Hget.
Qed.

Lemma fcfs_schedule_task_total (G : DiGraph) (st : FCFS.fcfs_state) (task : string) :
  FCFS.node_available_time st <> [] ->
  exists st', FCFS.schedule_task G st task = Ok st'.
Proof.
  intros Hne. unfold FCFS.schedule_task.
  destruct (FCFS.argmin_first (FCFS.node_available_time st)) as [i |] eqn:E.
  - simpl. destruct (list_item_ok _ _ i (argmin_first_lt _ _ E)) as (busy & Hb).
    rewrite Hb. simpl. eauto.
  - destruct (FCFS.node_available_time st); [congruence | discriminate].
Qed.

(** The loop never fails on a non-empty pool, and every stored entry names
    an existing node and ends [exec_time] after it starts. *)
Lemma fcfs_schedule_tasks_total (G : DiGraph) (n : nat) :
  (0 < n)%nat ->
  forall tasks st,
    List.length (FCFS.node_available_time st) = n ->
    exists st',
      FCFS.schedule_tasks G tasks st = Ok st'
      /\ List.length (FCFS.node_available_time st') = n.
Proof.
  intros Hn. induction tasks as [| task rest IH]; intros st Hlen; simpl.
  - eauto.
  - destruct (fcfs_schedule_task_total G st task) as (st1 & Hstep).
    { intros Hnil. rewrite Hnil in Hlen. simpl in Hlen. lia. }
    rewrite Hstep. simpl.
    apply fcfs_schedule_task_inv in Hstep as (info & _ & _ & Hl & _).
    apply IH. congruence.
Qed.

Lemma fcfs_schedule_tasks_entries (G : DiGraph) (n : nat) :
  forall tasks st st',
    FCFS.schedule_tasks G tasks st = Ok st' ->
    List.length (FCFS.node_available_time st) = n ->
    (forall kv, In kv (FCFS.schedule_so_far st) -> fcfs_entry_ok G n kv) ->
    forall kv, In kv (FCFS.schedule_so_far st') -> fcfs_entry_ok G n kv.
Proof.
  induction tasks as [| task rest IH]; intros st st' Hrun Hlen Hinv; simpl in Hrun.
  - injection Hrun as <-. assumption.
  - bind_inv Hrun.
    apply fcfs_schedule_task_inv in E as (info & Hs & _ & Hl & Hnode & Hend & Hexec & _).
    apply (IH a st' Hrun); [congruence |].
    intros [k i] Hin. rewrite Hs in Hin. apply dict_set_in in Hin.
    destruct Hin as [[-> ->] | Hin]; [| auto].
    unfold fcfs_entry_ok. simpl. repeat split; [lia | assumption | assumption].
Qed.

Lemma fcfs_schedule_tasks_respects (G : DiGraph) :
  forall tasks st st',
    FCFS.schedule_tasks G tasks st = Ok st' ->
    NoDup (dict_keys (FCFS.schedule_so_far st) ++ tasks) ->
    preds_seen G (dict_keys (FCFS.schedule_so_far st)) tasks ->
    closed_under_preds G (spans (FCFS.schedule_so_far st)) ->
    (forall x s e, In (x, (s, e)) (spans (FCFS.schedule_so_far st)) ->
       dict_get (FCFS.task_finish_times st) x = Some e) ->
    respects_precedence G (spans (FCFS.schedule_so_far st)) ->
    respects_precedence G (spans (FCFS.schedule_so_far st'))
    /\ dict_keys (FCFS.schedule_so_far st') = dict_keys (FCFS.schedule_so_far st) ++ tasks.
Proof.
  induction tasks as [| task rest IH]; intros st st' Hrun Hnd Hseen Hcl Htft Hres; simpl in Hrun.
  - injection Hrun as <-. now rewrite app_nil_r.
  - bind_inv Hrun. rename a into st1.
    apply fcfs_schedule_task_inv in E as (info & Hs & Ht & _ & _ & _ & _ & Hready).
    destruct Hseen as [Hpreds Hseen].
    assert (Hfresh : ~ In task (dict_keys (FCFS.schedule_so_far st))).
    { intros Hin. apply NoDup_remove_2 in Hnd. apply Hnd. apply in_or_app. now left. }
    rewrite (dict_set_fresh _ _ _ _ Hfresh) in Hs.
    assert (Hspans : spans (FCFS.schedule_so_far st1)
                     = spans (FCFS.schedule_so_far st) ++ [(task, (start_time info, end_time info))]).
    { rewrite Hs. apply spans_app. }
    assert (Hkeys : dict_keys (FCFS.schedule_so_far st1)
                    = dict_keys (FCFS.schedule_so_far st) ++ [task]).
    { rewrite Hs. unfold dict_keys. now rewrite map_app. }
    destruct (respects_precedence_snoc G (spans (FCFS.schedule_so_far st)) task
                (start_time info) (end_time info) Hres Hcl) as [Hres1 Hcl1].
    + now rewrite spans_keys.
    + intros p Hp. rewrite spans_keys. now apply Hpreds.
    + intros p sp ep Hp Hin. eapply Hready; eauto.
    + destruct (IH st1 st' Hrun) as [Hfinal Hk].
      * rewrite Hkeys, <- app_assoc. exact Hnd.
      * now rewrite Hkeys.
      * now rewrite Hspans.
      * intros x s e Hin. rewrite Ht. rewrite Hspans in Hin. apply in_app_or in Hin.
        destruct Hin as [Hin | [[= <- <- <-] | []]].
        -- rewrite dict_get_set_other; [eauto |].
           intros ->. apply Hfresh. rewrite <- spans_keys.
           change x with (fst (x, (s, e))). now apply in_map.
        -- apply dict_get_set_same.
      * now rewrite Hspans.
      * split; [assumption |]. rewrite Hk, Hkeys, <- app_assoc. reflexivity.
Qed.

(** The energy loop adds up what the stored tuples give. *)
Lemma fcfs_energy_loop_spec (items : dict task_info) (powers : list Q) :
  forall acc e,
    FCFS.energy_loop items powers acc = Ok e ->
    e == acc + recomputed_energy items powers.
Proof.
  induction items as [| [k i] items IH]; intros acc e H; simpl in *.
  - injection H as <-. ring.
  - bind_inv H. apply IH in H. rewrite H.
    rewrite (list_item_nth _ _ _ 0 E). ring.
Qed.

Lemma fcfs_energy_loop_total (items : dict task_info) (powers : list Q) :
  (forall kv, In kv items -> (assigned_node (snd kv) < List.length powers)%nat) ->
  forall acc, exists e, FCFS.energy_loop items powers acc = Ok e.
Proof.
  induction items as [| [k i] items IH]; intros Hin acc; simpl.
  - eauto.
  - destruct (list_item_ok _ powers (assigned_node i)) as (p & Hp).
    { apply (Hin (k, i)). now left. }
    rewrite Hp. simpl. apply IH. intros kv Hkv. apply Hin. now right.
Qed.

(** FCFS in a given order: it returns, and what it returns. *)
Lemma fcfs_schedule_in_order_total (G : DiGraph) (tl : list string) (n : nat) :
  (0 < n)%nat ->
  exists out,
    FCFS.schedule_in_order G tl n = Ok out
    /\ (forall kv, In kv (FCFS.schedule out) -> fcfs_entry_ok G n kv)
    /\ FCFS.node_powers out = default_node_powers n.
Proof.
  intros Hn. unfold FCFS.schedule_in_order.
  destruct (fcfs_schedule_tasks_total G n Hn tl (FCFS.mkState (repeat 0 n) [] []))
    as (st & Hrun & Hlen); [apply repeat_length |].
  rewrite Hrun. simpl.
  destruct (py_max_ok (FCFS.node_available_time st)) as (m & Hm).
  { intros Hnil. rewrite Hnil in Hlen. simpl in Hlen. lia. }
  rewrite Hm. simpl.
  pose proof (fcfs_schedule_tasks_entries G n tl _ _ Hrun (repeat_length _ _)) as Hent.
  simpl in Hent. specialize (Hent (fun kv (H : False) => match H with end)).
  destruct (fcfs_energy_loop_total (FCFS.schedule_so_far st) (default_node_powers n)) with (acc := 0)
    as (e & He).
  { intros kv Hkv. rewrite default_node_powers_length. now apply Hent. }
  unfold FCFS.calculate_energy_consumption. rewrite He. simpl.
  eexists. split; [reflexivity |]. simpl. auto.
Qed.

Lemma fcfs_schedule_in_order_respects (G : DiGraph) (tl : list string) (n : nat)
    (out : FCFS.output) :
  is_topological G tl = true ->
  FCFS.schedule_in_order G tl n = Ok out ->
  respects_precedence G (spans (FCFS.schedule out))
  /\ dict_keys (FCFS.schedule out) = tl.
Proof.
  intros Htopo Hrun. unfold FCFS.schedule_in_order in Hrun.
  bind_inv Hrun. bind_inv Hrun. bind_inv Hrun. injection Hrun as <-. simpl.
  apply (fcfs_schedule_tasks_respects G tl _ _ E); simpl.
  - now apply is_topological_NoDup with G.
  - now apply is_topological_preds_seen.
  - intros ? ? [].
  - intros ? ? ? [].
  - intros ? ? ? ? ? ? _ [].
Qed.

Lemma fcfs_schedule_in_order_energy (G : DiGraph) (tl : list string) (n : nat)
    (out : FCFS.output) :
  FCFS.schedule_in_order G tl n = Ok out ->
  FCFS.energy out == recomputed_energy (FCFS.schedule out) (FCFS.node_powers out).
Proof.
  intros Hrun. unfold FCFS.schedule_in_order in Hrun.
  bind_inv Hrun. bind_inv Hrun. bind_inv Hrun. injection Hrun as <-. simpl.
  apply fcfs_energy_loop_spec in E1. rewrite E1. ring.
Qed.

(** ** HEFT *)

Lemma heft_energy_loop_eq : HEFT.energy_loop = FCFS.energy_loop.
Proof. reflexivity. Qed.

Lemma edge_comm_in (es : list (string * string * option Q)) (u v : string) (c : Q) :
  edge_comm es u v = Some c -> In (u, v, Some c) es.
Proof.
  induction es as [| [[u' v'] c'] es IH]; simpl; [discriminate |].
  destruct (String.eqb_spec u' u) as [-> | Hu]; simpl.
  - destruct (String.eqb_spec v' v) as [-> | Hv]; simpl.
    + intros ->. now left.
    + intros H. right. auto.
  - intros H. right. auto.
Qed.

Lemma comm_cost_nonneg (self : HEFT.HEFTScheduler) (G : DiGraph) (u v : string) (c : Q) :
  nonneg_comm G = true -> 0 < HEFT.avg_comp_cost self ->
  HEFT._get_comm_cost self (edge_comm (edges G) u v) = Ok c -> 0 <= c.
Proof.
  intros Hnn Havg. unfold HEFT._get_comm_cost.
  destruct (edge_comm (edges G) u v) as [c0 |] eqn:E.
  - apply edge_comm_in in E. unfold nonneg_comm in Hnn. rewrite forallb_forall in Hnn.
    specialize (Hnn _ E). simpl in Hnn. apply Qle_bool_iff in Hnn.
    unfold HEFT.py_div. destruct (Qeq_bool (HEFT.avg_comp_cost self) 0); [discriminate |].
    intros [= <-]. unfold Qdiv. apply Qmult_le_0_compat; [assumption |].
    apply Qinv_le_0_compat. now apply Qlt_le_weak.
  - intros [= <-]. apply Qle_refl.
Qed.

Lemma arrival_times_inv (self : HEFT.HEFTScheduler) (G : DiGraph) (task : string)
    (scheduled : dict task_info) :
  forall preds arrivals,
    HEFT.arrival_times self G task preds scheduled = Ok arrivals ->
    forall p, In p preds ->
      exists info c,
        dict_get scheduled p = Some info
        /\ HEFT._get_comm_cost self (edge_comm (edges G) p task) = Ok c
        /\ In (end_time info + c) arrivals.
Proof.
  induction preds as [| q preds IH]; intros arrivals H p Hp; simpl in *; [tauto |].
  bind_inv H. bind_inv H. bind_inv H. injection H as <-.
  destruct Hp as [-> | Hp].
  - exists a, a0. unfold dict_item in E. destruct (dict_get scheduled p); [| discriminate].
    injection E as ->. repeat split; auto. now left.
  - destruct (IH _ E1 p Hp) as (info & c & Hg & Hc & Hin).
    exists info, c. repeat split; auto. now right.
Qed.

Lemma heft_schedule_task_inv (self : HEFT.HEFTScheduler) (G : DiGraph)
    (avail avail' : list Q) (scheduled scheduled' : dict task_info) (task : string) :
  HEFT.schedule_task self G (avail, scheduled) task = Ok (avail', scheduled') ->
  exists info,
    scheduled' = dict_set scheduled task info
    /\ List.length avail' = List.length avail
    /\ (assigned_node info < List.length avail)%nat
    /\ (forall p, In p (predecessors G task) ->
          exists pinfo c,
            dict_get scheduled p = Some pinfo
            /\ HEFT._get_comm_cost self (edge_comm (edges G) p task) = Ok c
            /\ end_time pinfo + c <= start_time info).
Proof.
  unfold HEFT.schedule_task. intros H.
  bind_inv H. bind_inv H. bind_inv H. bind_inv H. injection H as <- <-.
  eexists. split; [reflexivity |]. simpl.
  split; [apply list_set_length |].
  split; [eapply list_item_lt; eassumption |].
  intros p Hp. destruct (predecessors G task) as [| q preds] eqn:Epreds; [destruct Hp |].
  bind_destruct E0 as arrivals Harr.
  destruct (arrival_times_inv _ _ _ _ _ _ Harr p Hp) as (pinfo & c & Hg & Hc & Hin).
  exists pinfo, c. repeat split; auto.
  eapply Qle_trans; [| apply Q.le_max_l].
  eapply py_max_ge; eassumption.
Qed.

Lemma spans_in (s : dict task_info) (x : string) (sp ep : Q) :
  In (x, (sp, ep)) (spans s) ->
  exists i, In (x, i) s /\ start_time i = sp /\ end_time i = ep.
Proof.
  unfold spans. rewrite in_map_iff. intros ([k i] & [= <- <- <-] & Hin). eauto.
Qed.

Lemma heft_schedule_tasks_respects (self : HEFT.HEFTScheduler) (G : DiGraph) :
  nonneg_comm G = true -> 0 < HEFT.avg_comp_cost self ->
  forall tasks st st',
    HEFT.schedule_tasks self G tasks st = Ok st' ->
    NoDup (dict_keys (snd st) ++ tasks) ->
    closed_under_preds G (spans (snd st)) ->
    respects_precedence G (spans (snd st)) ->
    respects_precedence G (spans (snd st'))
    /\ dict_keys (snd st') = dict_keys (snd st) ++ tasks.
Proof.
  intros Hnn Havg.
  induction tasks as [| task rest IH]; intros st st' Hrun Hnd Hcl Hres; simpl in Hrun.
  - injection Hrun as <-. now rewrite app_nil_r.
  - bind_inv Hrun. destruct st as [avail scheduled], a as [avail1 scheduled1]. simpl in *.
    apply heft_schedule_task_inv in E as (info & Hs & _ & _ & Hready).
    assert (Hfresh : ~ In task (dict_keys scheduled)).
    { intros Hin. apply NoDup_remove_2 in Hnd. apply Hnd. apply in_or_app. now left. }
    assert (Hnd0 : NoDup (dict_keys scheduled)) by (eapply NoDup_app_remove_r; eassumption).
    rewrite (dict_set_fresh _ _ _ _ Hfresh) in Hs.
    assert (Hspans : spans scheduled1
                     = spans scheduled ++ [(task, (start_time info, end_time info))]).
    { rewrite Hs. apply spans_app. }
    assert (Hkeys : dict_keys scheduled1 = dict_keys scheduled ++ [task]).
    { rewrite Hs. unfold dict_keys. now rewrite map_app. }
    destruct (respects_precedence_snoc G (spans scheduled) task
                (start_time info) (end_time info) Hres Hcl) as [Hres1 Hcl1].
    + now rewrite spans_keys.
    + intros p Hp. rewrite spans_keys.
      destruct (Hready p Hp) as (pinfo & c & Hg & _).
      apply dict_get_some_in in Hg. change p with (fst (p, pinfo)). now apply in_map.
    + intros p sp ep Hp Hin.
      destruct (Hready p Hp) as (pinfo & c & Hg & Hc & Hle).
      apply spans_in in Hin as (i & Hin & <- & <-).
      rewrite (dict_get_in _ _ _ _ Hnd0 Hin) in Hg. injection Hg as <-.
      pose proof (comm_cost_nonneg _ _ _ _ _ Hnn Havg Hc) as Hc0.
      eapply Qle_trans; [| exact Hle].
      rewrite <- (Qplus_0_r (end_time i)) at 1.
      apply Qplus_le_r. exact Hc0.
    + destruct (IH (avail1, scheduled1) st' Hrun) as [Hfinal Hk]; simpl.
      * rewrite Hkeys, <- app_assoc. exact Hnd.
      * now rewrite Hspans.
      * now rewrite Hspans.
      * split; [assumption |]. rewrite Hk. simpl. rewrite Hkeys, <- app_assoc. reflexivity.
Qed.

Lemma insert_desc_perm (x : string * Q) (l : list (string * Q)) :
  Permutation (HEFT.insert_desc x l) (x :: l).
Proof.
  induction l as [| y l IH]; simpl; [reflexivity |].
  destruct (Qltb (snd x) (snd y)); [| reflexivity].
  rewrite IH. apply perm_swap.
Qed.

Lemma sort_desc_perm (l : list (string * Q)) : Permutation (HEFT.sort_desc l) l.
Proof.
  induction l as [| x l IH]; simpl; [reflexivity |].
  rewrite insert_desc_perm. now constructor.
Qed.

Lemma with_ranks_keys (rank : dict Q) :
  forall tasks keyed, HEFT.with_ranks rank tasks = Ok keyed -> map fst keyed = tasks.
Proof.
  induction tasks as [| t tasks IH]; intros keyed H; simpl in H.
  - now injection H as <-.
  - bind_inv H. bind_inv H. injection H as <-. simpl. f_equal. auto.
Qed.

Lemma heft_schedule_in_order_respects (depth : nat) (self h : HEFT.HEFTScheduler)
    (G : DiGraph) (tl : list string) :
  NoDup tl ->
  nonneg_comm G = true -> 0 < HEFT.avg_comp_cost self ->
  HEFT.schedule_in_order depth self G tl = Ok h ->
  respects_precedence G (spans (HEFT.schedule_result h))
  /\ Permutation (dict_keys (HEFT.schedule_result h)) tl.
Proof.
  intros Hnd Hnn Havg Hrun. unfold HEFT.schedule_in_order in Hrun.
  bind_inv Hrun. bind_inv Hrun. bind_inv Hrun. destruct a1 as [avail scheduled].
  injection Hrun as <-. simpl.
  assert (Hperm : Permutation (map fst (HEFT.sort_desc a0)) tl).
  { rewrite (sort_desc_perm a0). now rewrite (with_ranks_keys _ _ _ E0). }
  destruct (heft_schedule_tasks_respects self G Hnn Havg _ _ _ E1) as [Hres Hk]; simpl.
  - eapply Permutation_NoDup; [symmetry; exact Hperm | exact Hnd].
  - intros ? ? [].
  - intros ? ? ? ? ? ? _ [].
  - simpl in *. split; [assumption |]. now rewrite Hk.
Qed.

Lemma heft_schedule_tasks_nodes (self : HEFT.HEFTScheduler) (G : DiGraph) (n : nat) :
  forall tasks st st',
    HEFT.schedule_tasks self G tasks st = Ok st' ->
    List.length (fst st) = n ->
    (forall kv, In kv (snd st) -> (assigned_node (snd kv) < n)%nat) ->
    forall kv, In kv (snd st') -> (assigned_node (snd kv) < n)%nat.
Proof.
  induction tasks as [| task rest IH]; intros st st' Hrun Hlen Hinv; simpl in Hrun.
  - injection Hrun as <-. assumption.
  - bind_inv Hrun. destruct st as [avail scheduled], a as [avail1 scheduled1]. simpl in *.
    apply heft_schedule_task_inv in E as (info & Hs & Hl & Hnode & _).
    apply (IH (avail1, scheduled1) st' Hrun); simpl; [congruence |].
    intros [k i] Hin. rewrite Hs in Hin. apply dict_set_in in Hin.
    destruct Hin as [[-> ->] | Hin]; [simpl; lia | auto].
Qed.

(** HEFT's emitted energy is the recomputed sum scaled by [avg_comp_cost]. *)
Lemma heft_energy_scaled (depth n : nat) (avg : Q) (G : DiGraph) (tl : list string)
    (h : HEFT.HEFTScheduler) :
  HEFT.schedule_in_order depth (HEFT.init n avg) G tl = Ok h ->
  exists e,
    HEFT.calculate_energy h = Ok e
    /\ e == recomputed_energy (HEFT.schedule_result h) (HEFT.node_powers h)
            * HEFT.avg_comp_cost h.
Proof.
  intros Hrun. unfold HEFT.schedule_in_order in Hrun.
  bind_inv Hrun. bind_inv Hrun. bind_inv Hrun. destruct a1 as [avail scheduled].
  injection Hrun as <-. simpl.
  pose proof (heft_schedule_tasks_nodes _ G n _ _ _ E1 (repeat_length _ _)) as Hnodes.
  simpl in Hnodes. specialize (Hnodes (fun kv (H : False) => match H with end)).
  unfold HEFT.calculate_energy. simpl. rewrite heft_energy_loop_eq.
  destruct (fcfs_energy_loop_total scheduled (default_node_powers n)) with (acc := 0) as (e & He).
  { intros kv Hkv. rewrite default_node_powers_length. now apply Hnodes. }
  rewrite He. simpl. eexists. split; [reflexivity |].
  apply fcfs_energy_loop_spec in He. rewrite He. ring.
Qed.

(** ** The topological sort yields a topological order *)

Lemma dict_get_del_other (V : Type) (m : dict V) (c v : string) :
  v <> c -> dict_get (dict_del m c) v = dict_get m v.
Proof.
  intros Hne. induction m as [| [k x] m IH]; simpl; [reflexivity |].
  destruct (String.eqb_spec k c) as [-> | Hk]; simpl.
  - destruct (String.eqb_spec c v); congruence.
  - now rewrite IH.
Qed.

Lemma dict_del_keys (V : Type) (m : dict V) (c : string) (d : V) :
  dict_get m c = Some d -> Permutation (dict_keys m) (c :: dict_keys (dict_del m c)).
Proof.
  induction m as [| [k x] m IH]; simpl; [discriminate |].
  destruct (String.eqb_spec k c) as [-> | Hk]; simpl.
  - reflexivity.
  - intros H. rewrite (IH H). apply perm_swap.
Qed.

Lemma dict_get_del_same (V : Type) (m : dict V) (c : string) :
  NoDup (dict_keys m) -> dict_get (dict_del m c) c = None.
Proof.
  induction m as [| [k x] m IH]; simpl; [reflexivity |].
  intros Hnd. inversion Hnd as [| ? ? Hk Hnd']; subst.
  destruct (String.eqb_spec k c) as [-> | Hne]; simpl.
  - now apply dict_get_none.
  - destruct (String.eqb_spec k c); [congruence | auto].
Qed.

Lemma dict_get_some_key (V : Type) (m : dict V) (k : string) (v : V) :
  dict_get m k = Some v -> In k (dict_keys m).
Proof.
  intros H. apply dict_get_some_in in H. change k with (fst (k, v)). now apply in_map.
Qed.

Lemma pending_zero (G : DiGraph) (done : list string) (v : string) :
  pending G done v = 0%nat -> forall p, In p (predecessors G v) -> In p done.
Proof.
  unfold pending. intros H p Hp. apply length_zero_iff_nil in H.
  destruct (memb p done) eqn:E; [now apply memb_In |].
  assert (Hin : In p (filter (fun u => negb (memb u done)) (predecessors G v))).
  { apply filter_In. split; [assumption |]. now rewrite E. }
  rewrite H in Hin. destruct Hin.
Qed.

Lemma memb_snoc (x n : string) (done : list string) :
  memb x (done ++ [n]) = memb x done || String.eqb x n.
Proof. unfold memb. rewrite existsb_app. simpl. now rewrite orb_false_r. Qed.

(** Visiting [n] takes one pending edge from each of its children. *)
Lemma pending_snoc (G : DiGraph) (done : list string) (n v : string) :
  ~ In n done ->
  pending G done v
  = (pending G (done ++ [n]) v + count_occ string_dec (successors G n) v)%nat.
Proof.
  intros Hn. unfold pending, predecessors, successors.
  assert (E : memb n done = false).
  { destruct (memb n done) eqn:E; [| reflexivity]. apply memb_In in E. tauto. }
  induction (edges G) as [| [[a b] c] es IH]; simpl; [reflexivity |].
  unfold edge_dst, edge_src in *. simpl in *.
  destruct (String.eqb_spec b v) as [-> | Hb];
    destruct (String.eqb_spec a n) as [-> | Ha]; simpl;
    rewrite ?memb_snoc, ?E, ?String.eqb_refl, ?orb_true_r; simpl;
    repeat match goal with
           | |- context [string_dec ?x ?y] => destruct (string_dec x y); try congruence
           end;
    try lia.
  apply String.eqb_neq in Ha. rewrite Ha, orb_false_r.
  destruct (negb (memb a done)); simpl; lia.
Qed.

Lemma preds_seen_app (G : DiGraph) (l1 l2 seen : list string) :
  preds_seen G seen (l1 ++ l2) <-> preds_seen G seen l1 /\ preds_seen G (seen ++ l1) l2.
Proof.
  revert seen. induction l1 as [| x l1 IH]; intros seen; simpl.
  - rewrite app_nil_r. tauto.
  - rewrite IH, <- app_assoc. simpl. tauto.
Qed.

Lemma sort_inv_nodup_keys (G : DiGraph) done waiting m extra :
  NoDup (node_names G) -> sort_inv G done waiting m extra -> NoDup (dict_keys m).
Proof.
  intros Hnd [Hperm _ _ _].
  apply (Permutation_NoDup (Permutation_sym Hperm)) in Hnd.
  apply NoDup_app_remove_l in Hnd. now apply NoDup_app_remove_l in Hnd.
Qed.

Lemma preds_seen_split (G : DiGraph) (l1 l2 seen : list string) (v p : string) :
  preds_seen G seen (l1 ++ v :: l2) -> In p (predecessors G v) -> In p (seen ++ l1).
Proof.
  intros H Hp. apply preds_seen_app in H as [_ H]. simpl in H. now apply H.
Qed.

Lemma wf_graph_inv (G : DiGraph) :
  wf_graph G = true ->
  NoDup (node_names G)
  /\ forall u v c, In (u, v, c) (edges G) -> In u (node_names G) /\ In v (node_names G).
Proof.
  unfold wf_graph. rewrite !andb_true_iff. intros [[Hnd Hends] _].
  split; [now apply nodupb_NoDup |].
  intros u v c Hin. rewrite forallb_forall in Hends. specialize (Hends _ Hin).
  apply andb_true_iff in Hends as [Hu Hv]. split; now apply memb_In.
Qed.

(** Releasing one child keeps the invariant. *)
Lemma release_child_inv (G : DiGraph) (done waiting z cs : list string) (m : dict nat)
    (c : string) (d : nat) :
  NoDup (node_names G) ->
  sort_inv G done (waiting ++ z) m (c :: cs) ->
  dict_get m c = Some d ->
  ((d - 1)%nat = 0%nat ->
     sort_inv G done (waiting ++ z ++ [c]) (dict_del m c) cs /\ ~ In c cs)
  /\ ((d - 1)%nat <> 0%nat ->
     sort_inv G done (waiting ++ z) (dict_set m c (d - 1)%nat) cs).
Proof.
  intros Hnd Hinv Hget.
  pose proof (sort_inv_nodup_keys _ _ _ _ _ Hnd Hinv) as Hkeys.
  destruct Hinv as [Hperm Hcount Hwait Hdone].
  destruct (Hcount c d Hget) as [Hdc Hdpos]. simpl in Hdc.
  destruct (string_dec c c) as [_ | Hcc]; [| congruence].
  split; intros Hd.
  - split.
    + rewrite app_assoc. constructor.
      * rewrite <- Hperm. rewrite <- !app_assoc.
        apply Permutation_app_head. apply Permutation_app_head.
        apply Permutation_app_head. simpl.
        symmetry. eapply dict_del_keys; eassumption.
      * intros v d' Hv.
        assert (Hvc : v <> c).
        { intros ->. rewrite (dict_get_del_same _ _ _ Hkeys) in Hv. discriminate. }
        rewrite (dict_get_del_other _ _ _ _ Hvc) in Hv.
        destruct (Hcount v d' Hv) as [Hd' Hpos]. simpl in Hd'.
        destruct (string_dec c v); [congruence |]. auto.
      * intros v Hv. apply in_app_or in Hv. destruct Hv as [Hv | [<- | []]]; [auto | lia].
      * assumption.
    + intros Hin. apply (count_occ_In string_dec) in Hin. lia.
  - constructor.
    + rewrite <- Hperm. unfold dict_keys at 1.
      fold (dict_keys (dict_set m c (d - 1)%nat)).
      rewrite dict_keys_set_in; [reflexivity |].
      eapply dict_get_some_key; eassumption.
    + intros v d' Hv. destruct (string_dec c v) as [<- | Hvc].
      * rewrite dict_get_set_same in Hv. injection Hv as <-. lia.
      * rewrite dict_get_set_other in Hv by assumption.
        destruct (Hcount v d' Hv) as [Hd' Hpos]. simpl in Hd'.
        destruct (string_dec c v); [congruence |]. auto.
    + assumption.
    + assumption.
Qed.

Lemma release_children_inv (G : DiGraph) (done waiting : list string) :
  NoDup (node_names G) ->
  forall cs m z m' z',
    release_children cs m z = Ok (m', z') ->
    sort_inv G done (waiting ++ z) m cs ->
    sort_inv G done (waiting ++ z') m' [].
Proof.
  intros Hnd. induction cs as [| c cs IH]; intros m z m' z' Hrun Hinv; simpl in Hrun.
  - injection Hrun as <- <-. assumption.
  - bind_destruct Hrun as d Hd. unfold dict_item in Hd.
    destruct (dict_get m c) as [d0 |] eqn:Hget; [| discriminate]. injection Hd as ->.
    destruct (release_child_inv G done waiting z cs m c d Hnd Hinv Hget) as [Hzero Hpos].
    destruct (Nat.eqb_spec (d - 1) 0) as [Hz | Hnz].
    + apply (IH _ _ _ _ Hrun). now apply Hzero.
    + apply (IH _ _ _ _ Hrun). now apply Hpos.
Qed.

(** Visiting the first waiting node: the invariant while its children are
    released, none of which has been released before. *)
Lemma visit_node_inv (G : DiGraph) (done rest : list string) (m : dict nat) (n : string) :
  wf_graph G = true ->
  sort_inv G done (n :: rest) m [] ->
  sort_inv G (done ++ [n]) rest m (successors G n)
  /\ (forall c, In c (successors G n) -> In c (dict_keys m)).
Proof.
  intros Hwf Hinv. destruct (wf_graph_inv G Hwf) as [Hnd Hends].
  assert (Hall : NoDup (done ++ (n :: rest) ++ dict_keys m)).
  { destruct Hinv as [Hperm _ _ _].
    eapply Permutation_NoDup; [symmetry; exact Hperm | exact Hnd]. }
  assert (Hn : ~ In n done).
  { simpl in Hall. apply NoDup_remove_2 in Hall. intros Hin. apply Hall.
    apply in_or_app. now left. }
  destruct Hinv as [Hperm Hcount Hwait Hdone]. split.
  - constructor.
    + rewrite <- Hperm. rewrite <- app_assoc. reflexivity.
    + intros v d Hv. destruct (Hcount v d Hv) as [Hd Hpos]. simpl in Hd.
      split; [| assumption]. rewrite Hd, Nat.add_0_r. now apply pending_snoc.
    + intros v Hv. specialize (Hwait v (or_intror Hv)).
      rewrite (pending_snoc G done n v Hn) in Hwait. lia.
    + apply preds_seen_app. split; [assumption |]. simpl. split; [| exact I].
      apply pending_zero. apply Hwait. now left.
  - intros c Hc. apply in_successors in Hc as (cost & Hedge).
    destruct (Hends _ _ _ Hedge) as [_ Hcn].
    apply (Permutation_in _ (Permutation_sym Hperm)) in Hcn.
    assert (Hpred : In n (predecessors G c)) by (apply in_predecessors; eauto).
    apply in_app_or in Hcn. destruct Hcn as [Hcd | Hcn].
    + exfalso. apply in_split in Hcd as (l1 & l2 & Hsplit). rewrite Hsplit in Hdone.
      apply Hn. rewrite Hsplit. apply in_or_app. left.
      apply (preds_seen_split G l1 l2 [] c n Hdone Hpred).
    + apply in_app_or in Hcn. destruct Hcn as [Hcw | Hck]; [| assumption].
      exfalso. apply Hn. exact (pending_zero G done c (Hwait c Hcw) n Hpred).
Qed.

Lemma release_generation_inv (G : DiGraph) :
  NoDup (node_names G) ->
  forall gen done m z m' z',
    release_generation G gen m z = Ok (m', z') ->
    sort_inv G done (gen ++ z) m [] ->
    sort_inv G (done ++ gen) z' m' [].
Proof.
  intros Hnd. induction gen as [| n rest IH]; intros done m z m' z' Hrun Hinv; simpl in Hrun.
  - injection Hrun as <- <-. now rewrite app_nil_r.
  - bind_destruct Hrun as mz Hmz. destruct mz as [m1 z1].
    assert (Hn : ~ In n done).
    { destruct Hinv as [Hperm _ _ _].
      apply (Permutation_NoDup (Permutation_sym Hperm)) in Hnd.
      simpl in Hnd. apply NoDup_remove_2 in Hnd. intros Hin. apply Hnd.
      apply in_or_app. now left. }
    assert (Hmid : sort_inv G (done ++ [n]) (rest ++ z) m (successors G n)).
    { destruct Hinv as [Hperm Hcount Hwait Hdone]. constructor.
      - rewrite <- Hperm. rewrite <- app_assoc. reflexivity.
      - intros v d Hv. destruct (Hcount v d Hv) as [Hd Hpos]. simpl in Hd.
        split; [| assumption]. rewrite Hd, Nat.add_0_r. now apply pending_snoc.
      - intros v Hv. specialize (Hwait v (or_intror Hv)).
        rewrite (pending_snoc G done n v Hn) in Hwait. lia.
      - apply preds_seen_app. split; [assumption |]. simpl. split; [| exact I].
        apply pending_zero. apply Hwait. now left. }
    apply (release_children_inv G _ _ Hnd _ _ _ _ _ Hmz) in Hmid.
    specialize (IH (done ++ [n]) m1 z1 m' z' Hrun Hmid).
    now rewrite <- app_assoc in IH.
Qed.

Lemma generations_inv (G : DiGraph) :
  NoDup (node_names G) ->
  forall fuel m z tl done,
    generations fuel G m z = Ok tl ->
    sort_inv G done z m [] ->
    Permutation (done ++ tl) (node_names G) /\ preds_seen G [] (done ++ tl).
Proof.
  intros Hnd. induction fuel as [| fuel IH]; intros m z tl done Hrun Hinv.
  - simpl in Hrun. destruct z as [| v z]; [| discriminate].
    destruct m; [| discriminate]. injection Hrun as <-.
    destruct Hinv as [Hperm _ _ Hdone]. simpl in Hperm.
    rewrite app_nil_r in *. auto.
  - simpl in Hrun. destruct z as [| v z].
    + destruct m; [| discriminate]. injection Hrun as <-.
      destruct Hinv as [Hperm _ _ Hdone]. simpl in Hperm.
      rewrite app_nil_r in *. auto.
    + bind_destruct Hrun as mz Hmz. destruct mz as [m1 z1].
      bind_destruct Hrun as later Hlater. injection Hrun as <-.
      rewrite <- (app_nil_r (v :: z)) in Hinv.
      apply (release_generation_inv G Hnd _ _ _ _ _ _ Hmz) in Hinv.
      destruct (IH _ _ _ _ Hlater Hinv) as [Hperm Hseen].
      rewrite <- app_assoc in Hperm, Hseen. auto.
Qed.

Lemma filter_partition_perm (A : Type) (f : A -> bool) (l : list A) :
  Permutation (filter f l ++ filter (fun x => negb (f x)) l) l.
Proof.
  induction l as [| x l IH]; simpl; [reflexivity |].
  destruct (f x); simpl.
  - now constructor.
  - rewrite <- Permutation_middle. now constructor.
Qed.

Lemma initial_indegree_keys (G : DiGraph) (names : list string) :
  dict_keys (filter (fun kv => negb (Nat.eqb (snd kv) 0))
                    (map (fun v => (v, in_degree G v)) names))
  = filter (fun v => negb (Nat.eqb (in_degree G v) 0)) names.
Proof.
  induction names as [| v names IH]; simpl; [reflexivity |].
  destruct (Nat.eqb (in_degree G v) 0); simpl; [assumption | now f_equal].
Qed.

Lemma initial_indegree_get (G : DiGraph) (names : list string) (v : string) (d : nat) :
  dict_get (filter (fun kv => negb (Nat.eqb (snd kv) 0))
                   (map (fun v => (v, in_degree G v)) names)) v = Some d ->
  d = in_degree G v /\ (0 < d)%nat.
Proof.
  induction names as [| w names IH]; simpl; [discriminate |].
  destruct (Nat.eqb_spec (in_degree G w) 0) as [Hz | Hnz]; simpl; [assumption |].
  destruct (String.eqb_spec w v) as [-> | Hne]; [| assumption].
  intros [= <-]. split; [reflexivity | lia].
Qed.

Lemma pending_nil (G : DiGraph) (v : string) : pending G [] v = in_degree G v.
Proof.
  unfold pending, in_degree. f_equal.
  induction (predecessors G v) as [| u us IH]; simpl; [reflexivity | now f_equal].
Qed.

Lemma sort_inv_initial (G : DiGraph) :
  sort_inv G []
    (filter (fun v => Nat.eqb (in_degree G v) 0) (node_names G))
    (filter (fun kv => negb (Nat.eqb (snd kv) 0))
            (map (fun v => (v, in_degree G v)) (node_names G)))
    [].
Proof.
  constructor.
  - simpl. rewrite initial_indegree_keys. apply filter_partition_perm.
  - intros v d Hv. apply initial_indegree_get in Hv as [-> Hpos].
    simpl. rewrite pending_nil. split; [lia | assumption].
  - intros v Hv. apply filter_In in Hv as [_ Hz]. apply Nat.eqb_eq in Hz.
    now rewrite pending_nil.
  - exact I.
Qed.

Lemma index_of_app_in (x : string) (l1 l2 : list string) :
  In x l1 -> exists i, index_of x (l1 ++ l2) = Some i /\ (i < List.length l1)%nat.
Proof.
  induction l1 as [| y l1 IH]; simpl; [tauto |].
  intros Hin. destruct (String.eqb_spec y x) as [-> | Hne].
  - exists 0%nat. split; [reflexivity | lia].
  - destruct IH as (i & Hi & Hlt); [destruct Hin; congruence |].
    exists (S i). rewrite Hi. simpl. split; [reflexivity | lia].
Qed.

(** A duplicate-free list of all nodes in which every task comes after its
    predecessors is a topological order. *)
Lemma preds_seen_is_topological (G : DiGraph) (tl : list string) :
  wf_graph G = true ->
  Permutation tl (node_names G) ->
  preds_seen G [] tl ->
  is_topological G tl = true.
Proof.
  intros Hwf Hperm Hseen. apply wf_graph_inv in Hwf as [Hnd Hends].
  assert (Hnd' : NoDup tl) by (eapply Permutation_NoDup; [symmetry |]; eassumption).
  unfold is_topological. rewrite !andb_true_iff. repeat split.
  - now apply nodupb_NoDup.
  - unfold same_members. rewrite andb_true_iff, !forallb_forall. split.
    + intros x Hx. apply memb_In. eapply Permutation_in; eassumption.
    + intros x Hx. apply memb_In. eapply Permutation_in; [symmetry |]; eassumption.
  - rewrite forallb_forall. intros [[u v] c] Hin.
    destruct (Hends u v c Hin) as [_ Hv].
    apply (Permutation_in _ (Permutation_sym Hperm)) in Hv.
    apply in_split in Hv as (l1 & l2 & ->).
    assert (Hu : In u l1).
    { apply (preds_seen_split G l1 l2 [] v u Hseen). apply in_predecessors. eauto. }
    assert (Hv1 : ~ In v l1).
    { intros Hv1. apply NoDup_remove_2 in Hnd'. apply Hnd'. apply in_or_app. now left. }
    unfold edge_forward, edge_src, edge_dst. simpl.
    destruct (index_of_app_in u l1 (v :: l2) Hu) as (i & -> & Hlt).
    rewrite (index_of_app_fresh _ _ _ Hv1). simpl. rewrite String.eqb_refl. simpl.
    apply Nat.ltb_lt. lia.
Qed.

Theorem topological_sort_sound (G : DiGraph) (tl : list string) :
  wf_graph G = true ->
  topological_sort G = Ok tl ->
  is_topological G tl = true.
Proof.
  intros Hwf Hrun. pose proof (wf_graph_inv G Hwf) as [Hnd _].
  unfold topological_sort in Hrun.
  destruct (generations_inv G Hnd _ _ _ _ [] Hrun (sort_inv_initial G)) as [Hperm Hseen].
  now apply preds_seen_is_topological.
Qed.

(** Edges pointing forward in a list cannot close a cycle. *)
Lemma path_forward (G : DiGraph) (tl : list string) :
  forallb (edge_forward tl) (edges G) = true ->
  forall u v, path G u v ->
    exists i j, index_of u tl = Some i /\ index_of v tl = Some j /\ (i < j)%nat.
Proof.
  intros Hfwd u v Hp. rewrite forallb_forall in Hfwd.
  induction Hp as [u v c Hin | u v w c Hin Hp IH].
  - specialize (Hfwd _ Hin). unfold edge_forward, edge_src, edge_dst in Hfwd. simpl in Hfwd.
    destruct (index_of u tl) as [i |]; [| discriminate].
    destruct (index_of v tl) as [j |]; [| discriminate].
    apply Nat.ltb_lt in Hfwd. eauto.
  - specialize (Hfwd _ Hin). unfold edge_forward, edge_src, edge_dst in Hfwd. simpl in Hfwd.
    destruct IH as (j & k & Hj & Hk & Hjk).
    destruct (index_of u tl) as [i |]; [| discriminate].
    rewrite Hj in Hfwd. apply Nat.ltb_lt in Hfwd.
    exists i, k. repeat split; [assumption | lia].
Qed.

Lemma is_topological_acyclic (G : DiGraph) (tl : list string) :
  is_topological G tl = true -> acyclic G.
Proof.
  unfold is_topological. rewrite !andb_true_iff. intros [_ Hfwd] v Hp.
  destruct (path_forward G tl Hfwd v v Hp) as (i & j & Hi & Hj & Hlt).
  rewrite Hi in Hj. injection Hj as <-. lia.
Qed.

(** ** [find_critical_path] returns *)

Lemma fold_set_get (f : string -> Q) :
  forall tasks acc t,
    (forall k v, dict_get acc k = Some v -> v = f k) ->
    In t tasks \/ In t (dict_keys acc) ->
    dict_get (fold_left (fun d task => dict_set d task (f task)) tasks acc) t = Some (f t).
Proof.
  induction tasks as [| x tasks IH]; intros acc t Hacc Hin; simpl.
  - destruct Hin as [[] | Hin].
    destruct (dict_get acc t) as [v |] eqn:E.
    + now rewrite (Hacc _ _ E).
    + apply dict_get_none in E. tauto.
  - apply IH.
    + intros k v. destruct (string_dec x k) as [<- | Hne].
      * rewrite dict_get_set_same. now intros [= <-].
      * rewrite dict_get_set_other by assumption. apply Hacc.
    + destruct Hin as [[<- | Hin] | Hin]; [| now left |].
      * right. eapply dict_get_some_key. apply dict_get_set_same.
      * right. destruct (string_dec x t) as [<- | Hne].
        -- eapply dict_get_some_key. apply dict_get_set_same.
        -- destruct (dict_get acc t) as [v |] eqn:E.
           ++ eapply dict_get_some_key. rewrite dict_get_set_other; eassumption.
           ++ apply dict_get_none in E. tauto.
Qed.

Lemma build_task_times_get (dag : DiGraph) (tl : list string) (t : string) :
  In t tl ->
  dict_get (QIPSO.build_task_times dag tl) t = Some (QIPSO.cp_task_time (node_attrs dag t)).
Proof.
  intros Hin. unfold QIPSO.build_task_times.
  apply (fold_set_get (fun task => QIPSO.cp_task_time (node_attrs dag task))).
  - intros k v. discriminate.
  - now left.
Qed.

Lemma dict_set_nonempty (V : Type) (d : dict V) (k : string) (v : V) : dict_set d k v <> [].
Proof. destruct d as [| [k' v'] d]; simpl; [| destruct (String.eqb k' k)]; discriminate. Qed.

Lemma es_item_nonempty (es : dict Q) (k : string) : snd (QIPSO.es_item es k) <> [].
Proof.
  unfold QIPSO.es_item. destruct (dict_get es k) eqn:E; simpl.
  - destruct es; [discriminate | discriminate].
  - apply dict_set_nonempty.
Qed.

Section CriticalPath.
Variables (dag : DiGraph) (tl : list string).
Lemma task_time_item (t : string) :
  In t tl -> dict_item (QIPSO.build_task_times dag tl) t = Ok (QIPSO.cp_task_time (node_attrs dag t)).
Proof.
  intros Hin. unfold dict_item. now rewrite build_task_times_get.
Qed.

Lemma forward_successors_total (task : string) :
  In task tl ->
  forall succs es,
    exists es', QIPSO.forward_successors (QIPSO.build_task_times dag tl) task succs es = Ok es'
                /\ (succs <> [] \/ es <> [] -> es' <> []).
Proof.
  intros Hin. induction succs as [| s succs IH]; intros es; simpl.
  - exists es. split; [reflexivity |]. intros [H | H]; [congruence | assumption].
  - destruct (QIPSO.es_item es s) as [a es1].
    destruct (QIPSO.es_item es1 task) as [b es2].
    rewrite (task_time_item _ Hin). simpl.
    destruct (IH (dict_set es2 s (Qmax a (b + QIPSO.cp_task_time (node_attrs dag task)))))
      as (es' & Hrun & Hne).
    exists es'. split; [assumption |]. intros _. apply Hne. right. apply dict_set_nonempty.
Qed.

Lemma forward_pass_total :
  forall tasks es,
    (forall t, In t tasks -> In t tl) ->
    exists es', QIPSO.forward_pass dag (QIPSO.build_task_times dag tl) tasks es = Ok es'
                /\ ((exists t, In t tasks /\ successors dag t <> []) \/ es <> [] -> es' <> []).
Proof.
  induction tasks as [| task rest IH]; intros es Hsub; simpl.
  - exists es. split; [reflexivity |]. intros [(t & [] & _) | H]. assumption.
  - destruct (forward_successors_total task (Hsub _ (or_introl eq_refl))
                (successors dag task) es) as (es1 & Hrun1 & Hne1).
    rewrite Hrun1. simpl.
    destruct (IH es1 (fun t H => Hsub t (or_intror H))) as (es' & Hrun & Hne).
    exists es'. split; [assumption |].
    intros [(t & [<- | Hin] & Hs) | H].
    + apply Hne. right. apply Hne1. now left.
    + apply Hne. left. eauto.
    + apply Hne. right. apply Hne1. now right.
Qed.

Lemma lf_item_total (es lf : dict Q) (k : string) :
  es <> [] -> exists r, QIPSO.lf_item es lf k = Ok r.
Proof.
  intros Hne. unfold QIPSO.lf_item. destruct (dict_get lf k); [eauto |].
  destruct (py_max_ok (dict_values es)) as (m & Hm).
  - destruct es; [congruence | discriminate].
  - rewrite Hm. simpl. eauto.
Qed.

Lemma backward_predecessors_total (es : dict Q) (task : string) :
  forall preds lf,
    (forall p, In p preds -> In p tl) ->
    (preds <> [] -> es <> []) ->
    exists lf', QIPSO.backward_predecessors (QIPSO.build_task_times dag tl) es task preds lf = Ok lf'.
Proof.
  induction preds as [| p preds IH]; intros lf Hsub Hne; simpl; [eauto |].
  assert (Hes : es <> []) by (apply Hne; discriminate).
  destruct (lf_item_total es lf p Hes) as ([a lf1] & H1). rewrite H1. simpl.
  destruct (lf_item_total es lf1 task Hes) as ([b lf2] & H2). rewrite H2. simpl.
  rewrite (task_time_item p (Hsub _ (or_introl eq_refl))). simpl.
  apply IH; [intros q Hq; apply Hsub; now right | intros _; assumption].
Qed.

Lemma backward_pass_total (es : dict Q) :
  forall tasks lf,
    (forall t p, In t tasks -> In p (predecessors dag t) -> In p tl) ->
    (forall t, In t tasks -> predecessors dag t <> [] -> es <> []) ->
    exists lf', QIPSO.backward_pass dag (QIPSO.build_task_times dag tl) es tasks lf = Ok lf'.
Proof.
  induction tasks as [| task rest IH]; intros lf Hsub Hne; simpl; [eauto |].
  destruct (backward_predecessors_total es task (predecessors dag task) lf) as (lf1 & H1).
  - intros p Hp. apply (Hsub task); [now left | assumption].
  - apply Hne. now left.
  - rewrite H1. simpl. apply IH.
    + intros t p Ht. apply Hsub. now right.
    + intros t Ht. apply Hne. now right.
Qed.

Lemma select_critical_total :
  forall tasks es lf,
    (forall t, In t tasks -> In t tl) ->
    exists selected es',
      QIPSO.select_critical (QIPSO.build_task_times dag tl) tasks es lf = Ok (selected, es')
      /\ (forall t, In t selected -> In t tasks)
      /\ (tasks <> [] \/ es <> [] -> es' <> []).
Proof.
  induction tasks as [| task rest IH]; intros es lf Hsub; simpl.
  - exists [], es. repeat split; [tauto |]. intros [H | H]; [congruence | assumption].
  - pose proof (es_item_nonempty es task) as Hne1.
    destruct (QIPSO.es_item es task) as [e es1]. simpl in Hne1.
    destruct (lf_item_total es1 lf task Hne1) as ([l lf1] & Hl). rewrite Hl. simpl.
    rewrite (task_time_item task (Hsub _ (or_introl eq_refl))). simpl.
    destruct (IH es1 lf1 (fun t H => Hsub t (or_intror H))) as (sel & es' & Hrun & Hin & Hne).
    rewrite Hrun. simpl.
    destruct (Qltb _ 1e-6).
    + exists (task :: sel), es'. repeat split.
      * intros t [<- | Ht]; [now left | right; auto].
      * intros _. apply Hne. now right.
    + exists sel, es'. repeat split.
      * intros t Ht. right. auto.
      * intros _. apply Hne. now right.
Qed.
End CriticalPath.

Lemma last_in (l : list string) (d : string) : l <> [] -> In (last l d) l.
Proof.
  induction l as [| x l IH]; [congruence |]. intros _.
  destruct l as [| y l]; [now left |]. right. apply IH. discriminate.
Qed.

Lemma is_topological_edges (G : DiGraph) (tl : list string) :
  is_topological G tl = true ->
  forall u v c, In (u, v, c) (edges G) -> In u tl /\ In v tl.
Proof.
  unfold is_topological. rewrite !andb_true_iff. intros [_ Hfwd] u v c Hin.
  rewrite forallb_forall in Hfwd. specialize (Hfwd _ Hin).
  unfold edge_forward, edge_src, edge_dst in Hfwd. simpl in Hfwd.
  destruct (index_of u tl) as [i |] eqn:Ei; [| discriminate].
  destruct (index_of v tl) as [j |] eqn:Ej; [| discriminate].
  split; [apply (index_of_some _ _ _ Ei) | apply (index_of_some _ _ _ Ej)].
Qed.

(** On a non-empty task list holding both ends of every edge, the analysis
    returns a non-empty list of tasks: the selected ones, or the first
    task when none is selected. *)
Lemma find_critical_path_total (dag : DiGraph) (tl : list string) :
  (forall u v c, In (u, v, c) (edges dag) -> In u tl /\ In v tl) ->
  tl <> [] ->
  exists es lf selected es' cp len,
    QIPSO.forward_pass dag (QIPSO.build_task_times dag tl) tl [] = Ok es
    /\ QIPSO.backward_pass dag (QIPSO.build_task_times dag tl) es (rev tl) [] = Ok lf
    /\ QIPSO.select_critical (QIPSO.build_task_times dag tl) tl es lf = Ok (selected, es')
    /\ QIPSO.find_critical_path dag tl = Ok (cp, len)
    /\ cp = match selected with [] => [hd "" tl] | _ :: _ => selected end
    /\ cp <> []
    /\ (forall t, In t cp -> In t tl).
Proof.
  intros Hedges Hne.
  destruct (forward_pass_total dag tl tl [] (fun t H => H)) as (es & Hfwd & Hes).
  destruct (backward_pass_total dag tl es (rev tl) []) as (lf & Hbwd).
  { intros t p _ Hp. apply in_predecessors in Hp as (c & Hin). apply (Hedges _ _ _ Hin). }
  { intros t _ Hp. apply Hes. left.
    destruct (predecessors dag t) as [| p ps] eqn:E; [congruence |].
    assert (Hp' : In p (predecessors dag t)) by (rewrite E; now left).
    apply in_predecessors in Hp' as (c & Hin).
    exists p. split; [apply (Hedges _ _ _ Hin) |].
    intros Hnil. assert (Ht : In t (successors dag p)) by (apply in_successors; eauto).
    rewrite Hnil in Ht. destruct Ht. }
  destruct (select_critical_total dag tl tl es lf (fun t H => H))
    as (sel & es' & Hsel & Hin & Hes').
  set (cp := match sel with [] => [hd "" tl] | _ :: _ => sel end).
  assert (Hcp_ne : cp <> []) by (unfold cp; destruct sel; discriminate).
  assert (Hcp_in : forall t, In t cp -> In t tl).
  { unfold cp. destruct sel as [| s sel'].
    - destruct tl as [| t0 tl']; [congruence |]. simpl. intros t [<- | []]. now left.
    - assumption. }
  destruct (py_max_ok (dict_values es')) as (m & Hm).
  { assert (H : es' <> []) by (apply Hes'; now left).
    destruct es'; [congruence | discriminate]. }
  exists es, lf, sel, es', cp,
    (m + QIPSO.cp_task_time (node_attrs dag (last cp ""))).
  repeat split; try assumption.
  unfold QIPSO.find_critical_path. rewrite Hfwd. simpl. rewrite Hbwd. simpl.
  rewrite Hsel. simpl.
  assert (Hcp : match sel with
                | [] => match tl with [] => Raise IndexError | first :: _ => Ok [first] end
                | _ :: _ => Ok sel
                end = Ok cp).
  { unfold cp. destruct sel; [| reflexivity]. destruct tl; [congruence | reflexivity]. }
  rewrite Hcp. simpl. rewrite Hm. simpl.
  rewrite (task_time_item dag tl (last cp "")); [reflexivity |].
  apply Hcp_in. now apply last_in.
Qed.

(** ** FCFS as a whole *)

Lemma normalize_is_topological (G : DiGraph) (m : Q) (tl : list string) :
  is_topological (FCFS.normalize_execution_times G m) tl = is_topological G tl.
Proof.
  unfold is_topological.
  replace (node_names (FCFS.normalize_execution_times G m)) with (node_names G); [reflexivity |].
  unfold node_names, FCFS.normalize_execution_times. simpl. now rewrite map_map.
Qed.

Lemma schedule_fcfs_unfold (G : DiGraph) (n : nat) (tl : list string) :
  topological_sort G = Ok tl ->
  snd (FCFS.schedule_fcfs G n)
  = FCFS.schedule_in_order (FCFS.normalize_execution_times G 0.1) tl n.
Proof.
  intros Htl. unfold FCFS.schedule_fcfs. simpl.
  now rewrite normalize_topological_sort, Htl.
Qed.

Lemma normalize_attrs_id (a : attrs) :
  (forall e, exec_time a = Some e -> 0.1 <= e) -> FCFS.normalize_attrs 0.1 a = a.
Proof.
  intros H. unfold FCFS.normalize_attrs. destruct (exec_time a) as [e |] eqn:E.
  - specialize (H e eq_refl). apply Qltb_ge in H. now rewrite H.
  - reflexivity.
Qed.

Lemma normalize_attrs_short (a : attrs) (e : Q) :
  exec_time a = Some e -> e < 0.1 ->
  FCFS.normalize_attrs 0.1 a = mkAttrs (Some 0.1) (comp_cost a).
Proof.
  intros E H. unfold FCFS.normalize_attrs. rewrite E. apply Qltb_lt in H. now rewrite H.
Qed.

(** ** The constructor *)

Lemma init_ok_inv (G : DiGraph) (n p i : Z) (mp : Q) (self : QIPSO.QIPSO_Scheduler) :
  QIPSO.init G n p i mp = Ok self ->
  (1 <= n)%Z /\ 0 <= mp /\ mp <= 1 /\ (0 <= p)%Z
  /\ topological_sort G = Ok (QIPSO.task_list self)
  /\ QIPSO.find_critical_path G (QIPSO.task_list self)
     = Ok (QIPSO.critical_path self, QIPSO.critical_length self).
Proof.
  unfold QIPSO.init. intros H.
  destruct (Z.ltb_spec n 1) as [Hn | Hn]; [discriminate |].
  destruct (Qltb mp 0) eqn:Hmp0; [discriminate |].
  destruct (Qltb 1 mp) eqn:Hmp1; [discriminate |]. simpl in H.
  bind_destruct H as tl Htl. bind_destruct H as cpl Hcp. destruct cpl as [cp len].
  destruct (Z.ltb_spec p 0) as [Hp | Hp]; [discriminate |].
  injection H as <-. simpl.
  apply Qltb_ge in Hmp0, Hmp1.
  assert (Htl' : topological_sort G = Ok tl).
  { destruct (topological_sort G) as [tl' | e]; [assumption |]. destruct e; discriminate. }
  repeat split; assumption.
Qed.

Lemma init_accepts (G : DiGraph) (n p i : Z) (mp : Q) (tl : list string) :
  wf_graph G = true -> topological_sort G = Ok tl -> tl <> [] ->
  (1 <= n)%Z -> 0 <= mp -> mp <= 1 -> (0 <= p)%Z ->
  exists self, QIPSO.init G n p i mp = Ok self
               /\ QIPSO.max_iter self = i
               /\ QIPSO.num_particles self = Z.to_nat p.
Proof.
  intros Hwf Htl Hne Hn Hmp0 Hmp1 Hp.
  pose proof (topological_sort_sound G tl Hwf Htl) as Htopo.
  destruct (find_critical_path_total G tl (is_topological_edges G tl Htopo) Hne)
    as (es & lf & sel & es' & cp & len & _ & _ & _ & Hcp & _).
  unfold QIPSO.init.
  destruct (Z.ltb_spec n 1) as [Hn' | _]; [lia |].
  apply Qltb_ge in Hmp0, Hmp1. rewrite Hmp0, Hmp1. simpl.
  rewrite Htl. simpl. rewrite Hcp. simpl.
  destruct (Z.ltb_spec p 0) as [Hp' | _]; [lia |].
  eexists. split; [reflexivity |]. simpl. auto.
Qed.

(** ** The stagnation test *)

Lemma score_leq_refl (a : score) : score_leq a a.
Proof. destruct a; simpl; [apply Qle_refl | exact I]. Qed.

Lemma score_leq_trans (a b c : score) : score_leq a b -> score_leq b c -> score_leq a c.
Proof.
  destruct a, b, c; simpl; try tauto. apply Qle_trans.
Qed.

Lemma min_score_is (g : Q) (a b : score) :
  score_leq (Fin g) a -> score_leq (Fin g) b ->
  score_is g a \/ score_is g b -> score_is g (min_score a b).
Proof.
  intros Ha Hb H. destruct a as [x |], b as [y |]; simpl in *.
  - exists (Qmin x y). split; [reflexivity |].
    destruct H as [(x' & [= <-] & Hx) | (y' & [= <-] & Hy)].
    + rewrite Q.min_l; [assumption |]. now rewrite Hx.
    + rewrite Q.min_r; [assumption |]. now rewrite Hy.
  - destruct H as [H | (y' & [=] & _)]. exact H.
  - destruct H as [(x' & [=] & _) | H]. exact H.
  - destruct H as [(x' & [=] & _) | (y' & [=] & _)].
Qed.

Lemma min_score_above (g : Q) (a b : score) :
  score_leq (Fin g) a -> score_leq (Fin g) b -> score_leq (Fin g) (min_score a b).
Proof.
  destruct a as [x |], b as [y |]; simpl; try tauto.
  intros Hx Hy. now apply Q.min_glb.
Qed.

Lemma fold_min_score_is (g : Q) (l : list score) :
  forall a,
    score_leq (Fin g) a ->
    (forall s, In s l -> score_leq (Fin g) s) ->
    score_is g a \/ (exists s, In s l /\ score_is g s) ->
    score_is g (fold_left min_score l a).
Proof.
  induction l as [| b l IH]; intros a Ha Hl H; simpl.
  - destruct H as [H | (s & [] & _)]. exact H.
  - apply IH.
    + apply min_score_above; [assumption | apply Hl; now left].
    + intros s Hs. apply Hl. now right.
    + destruct H as [H | (s & [<- | Hs] & His)].
      * left. apply min_score_is; [assumption | apply Hl; now left | now left].
      * left. apply min_score_is; [assumption | apply Hl; now left | now right].
      * right. eauto.
Qed.

Lemma min_scores_is (g : Q) (w : list score) :
  (forall s, In s w -> score_leq (Fin g) s) ->
  In (Fin g) w ->
  score_is g (QIPSO.min_scores w).
Proof.
  intros Hall Hin. unfold QIPSO.min_scores. destruct w as [| a w]; [destruct Hin |]. simpl.
  apply fold_min_score_is.
  - apply Hall. now left.
  - intros s Hs. apply Hall. now right.
  - destruct Hin as [-> | Hin].
    + left. exists g. split; reflexivity.
    + right. exists (Fin g). split; [assumption |]. exists g. split; reflexivity.
Qed.

Lemma lastn_incl (A : Type) (n : nat) (l : list A) (x : A) : In x (lastn n l) -> In x l.
Proof.
  unfold lastn. intros H. rewrite <- (firstn_skipn (List.length l - n) l).
  apply in_or_app. now right.
Qed.

Lemma lastn_snoc (A : Type) (n : nat) (l : list A) (x : A) :
  (0 < n)%nat -> In x (lastn n (l ++ [x])).
Proof.
  intros Hn. unfold lastn. rewrite length_app. simpl.
  rewrite skipn_app.
  apply in_or_app. right.
  replace (List.length l + 1 - n - List.length l)%nat with 0%nat by lia.
  simpl. now left.
Qed.

(** Once more than 20 entries are recorded, the last of them being the
    current finite best, the test answers true. *)
Lemma stagnation_test_fires (self : QIPSO.QIPSO_Scheduler) (iteration : nat) (g : Q) :
  QIPSO.global_best_score self = Fin g ->
  (20 < List.length (QIPSO.convergence_history self))%nat ->
  (forall s, In s (map fst (QIPSO.convergence_history self)) -> score_leq (Fin g) s) ->
  In (Fin g) (map fst (lastn 20 (QIPSO.convergence_history self))) ->
  QIPSO.check_convergence self iteration = true.
Proof.
  intros Hg Hlen Hall Hin. unfold QIPSO.check_convergence. rewrite Hg.
  destruct (abs_diff_lt (Fin g) (Fin (QIPSO.critical_length self)) 0.1); [reflexivity |].
  apply Nat.ltb_lt in Hlen. rewrite Hlen.
  destruct (min_scores_is g (map fst (lastn 20 (QIPSO.convergence_history self))))
    as (m & -> & Hm); [| assumption |].
  - intros s Hs. apply Hall. apply in_map_iff in Hs as (kv & <- & Hkv).
    apply in_map. eapply lastn_incl; eassumption.
  - unfold abs_diff_lt. apply Qltb_lt. rewrite Hm.
    assert (Hzero : g - g == 0) by ring.
    rewrite Hzero. reflexivity.
Qed.

(** ** The iteration loop *)

Lemma lt_score_leq (x : Q) (s : score) : lt_score x s = true -> score_leq (Fin x) s.
Proof.
  destruct s as [y |]; simpl; [| trivial].
  intros H. apply Qltb_lt in H. now apply Qlt_le_weak.
Qed.

Lemma particle_step_inv (draw : nat -> string -> nat) (self self' : QIPSO.QIPSO_Scheduler)
    (p : nat) :
  QIPSO.particle_step draw self p = Ok self' ->
  run_inv self ->
  run_inv self'
  /\ QIPSO.convergence_history self' = QIPSO.convergence_history self
  /\ QIPSO.num_particles self' = QIPSO.num_particles self
  /\ exists g, QIPSO.global_best_score self' = Fin g.
Proof.
  unfold QIPSO.particle_step. intros H [Hhist Hpers].
  bind_destruct H as me Hme. destruct me as [makespan energy].
  bind_destruct H as best Hbest.
  assert (Hin : In best (QIPSO.personal_best_scores self)).
  { unfold list_item in Hbest.
    destruct (nth_error (QIPSO.personal_best_scores self) p) eqn:E; [| discriminate].
    injection Hbest as <-. eapply nth_error_In; eassumption. }
  destruct (lt_score makespan best) eqn:Hlt.
  - destruct (lt_score makespan (QIPSO.global_best_score self)) eqn:Hglt;
      injection H as <-; simpl.
    + repeat split; eauto.
      * intros s Hs. eapply score_leq_trans; [apply lt_score_leq; eassumption | auto].
      * discriminate.
    + destruct (QIPSO.global_best_score self) as [g |] eqn:Eg; [| discriminate].
      repeat split; eauto. discriminate.
  - injection H as <-.
    destruct (QIPSO.global_best_score self) as [g |] eqn:Eg.
    + repeat split; eauto.
      * intros s Hs. rewrite Eg. auto.
      * rewrite Eg. discriminate.
    + rewrite (Hpers eq_refl best Hin) in Hlt. discriminate.
Qed.

Lemma particle_loop_inv (draw : nat -> string -> nat) :
  forall ps self self',
    QIPSO.particle_loop draw ps self = Ok self' ->
    run_inv self ->
    run_inv self'
    /\ QIPSO.convergence_history self' = QIPSO.convergence_history self
    /\ QIPSO.num_particles self' = QIPSO.num_particles self
    /\ (ps <> [] -> exists g, QIPSO.global_best_score self' = Fin g).
Proof.
  induction ps as [| p ps IH]; intros self self' H Hinv; simpl in H.
  - injection H as <-.
    split; [assumption | split; [reflexivity | split; [reflexivity |]]].
    intros Hne. exfalso. now apply Hne.
  - bind_destruct H as self1 H1.
    destruct (particle_step_inv _ _ _ _ H1 Hinv) as (Hinv1 & Hh1 & Hn1 & g1 & Hg1).
    destruct (IH _ _ H Hinv1) as (Hinv' & Hh' & Hn' & Hfin).
    split; [assumption | split; [congruence | split; [congruence |]]]. intros _.
    destruct ps as [| q ps].
    + simpl in H. injection H as <-. eauto.
    + apply Hfin. discriminate.
Qed.

Lemma record_history_inv (self : QIPSO.QIPSO_Scheduler) :
  run_inv self -> run_inv (QIPSO.record_history self).
Proof.
  intros [Hhist Hpers]. constructor; simpl.
  - intros s Hs. rewrite map_app in Hs. apply in_app_or in Hs.
    destruct Hs as [Hs | [<- | []]]; [auto | apply score_leq_refl].
  - assumption.
Qed.

Lemma iterate_stops (draw : nat -> nat -> string -> nat) :
  forall remaining iteration self st final,
    QIPSO.iterate draw remaining iteration self = Ok (st, final) ->
    run_inv self ->
    (1 <= QIPSO.num_particles self)%nat ->
    List.length (QIPSO.convergence_history self) = iteration ->
    (iteration <= 20)%nat ->
    (List.length (QIPSO.convergence_history final) <= 21)%nat
    /\ (st = QIPSO.MAX_ITER_REACHED ->
        List.length (QIPSO.convergence_history final) = (iteration + remaining)%nat).
Proof.
  induction remaining as [| r IH]; intros iteration self st final H Hinv Hn Hlen Hit;
    simpl in H.
  - injection H as <- <-. split; [lia | intros _; lia].
  - bind_destruct H as self1 H1.
    destruct (particle_loop_inv _ _ _ _ H1 Hinv) as (Hinv1 & Hh1 & Hn1 & Hfin).
    destruct Hfin as (g & Hg).
    { destruct (QIPSO.num_particles self); [lia | discriminate]. }
    pose proof (record_history_inv _ Hinv1) as Hinv2.
    assert (Hlen2 : List.length (QIPSO.convergence_history (QIPSO.record_history self1))
                    = S iteration).
    { simpl. rewrite length_app, Hh1, Hlen. simpl. lia. }
    destruct (QIPSO.check_convergence (QIPSO.record_history self1) iteration) eqn:Hcheck.
    + injection H as <- <-. split; [lia | discriminate].
    + assert (Hlt : (S iteration <= 20)%nat).
      { destruct (Nat.le_gt_cases (S iteration) 20) as [Hle | Hgt]; [assumption |].
        exfalso.
        rewrite (stagnation_test_fires (QIPSO.record_history self1) iteration g) in Hcheck;
          [discriminate | exact Hg | lia | | ].
        - intros s Hs. rewrite <- Hg.
          apply (ri_history Hinv2 s Hs).
        - simpl. rewrite Hg. apply in_map_iff.
          exists (Fin g, QIPSO.global_best_energy self1). split; [reflexivity |].
          apply lastn_snoc. lia. }
      destruct (IH (S iteration) _ st final H Hinv2) as [Hbound Hmax];
        try assumption.
      * simpl. lia.
      * split; [assumption |]. intros Hst. rewrite (Hmax Hst). lia.
Qed.

Lemma init_ok_state (G : DiGraph) (n p i : Z) (mp : Q) (self : QIPSO.QIPSO_Scheduler) :
  QIPSO.init G n p i mp = Ok self ->
  QIPSO.convergence_history self = []
  /\ QIPSO.global_best_score self = Inf
  /\ QIPSO.personal_best_scores self = repeat Inf (Z.to_nat p)
  /\ QIPSO.num_particles self = Z.to_nat p
  /\ QIPSO.max_iter self = i.
Proof.
  unfold QIPSO.init. intros H.
  destruct (Z.ltb n 1); [discriminate |].
  destruct (Qltb mp 0 || Qltb 1 mp); [discriminate |].
  bind_destruct H as tl Htl. bind_destruct H as cpl Hcp. destruct cpl as [cp len].
  destruct (Z.ltb p 0); [discriminate |].
  injection H as <-. simpl. auto.
Qed.

(** X1. While every makespan is a finite number (the durations here are
    rationals; a task with an infinite [exec_time], or a sum that overflows,
    is outside them), a run with at least one particle records at most 21
    rounds: with [max_iter] above 21 it always ends as converged. *)
Theorem run_stops_within_21_rounds (G : DiGraph) (n p i : Z) (mp : Q)
    (draw : nat -> nat -> string -> nat) (self final : QIPSO.QIPSO_Scheduler)
    (st : QIPSO.status) :
  QIPSO.init G n p i mp = Ok self ->
  (1 <= p)%Z ->
  QIPSO.run_optimization draw self = Ok (st, final) ->
  (List.length (QIPSO.convergence_history final) <= 21)%nat
  /\ ((21 < i)%Z -> st = QIPSO.CONVERGED).
Proof.
  intros Hinit Hp Hrun.
  apply init_ok_state in Hinit as (Hh & Hg & Hpb & Hn & Hi).
  unfold QIPSO.run_optimization in Hrun.
  destruct (iterate_stops draw _ 0 self st final Hrun) as [Hbound Hmax].
  - constructor.
    + rewrite Hh. intros s [].
    + intros _ s Hs. rewrite Hpb in Hs. now apply repeat_spec in Hs.
  - rewrite Hn. lia.
  - now rewrite Hh.
  - lia.
  - split; [assumption |]. intros Hlt.
    destruct st; [reflexivity |]. specialize (Hmax eq_refl). rewrite Hi in Hmax. lia.
Qed.

(** ** The topological sort accepts every acyclic graph *)

Lemma dict_del_keep_key (V : Type) (m : dict V) (c k : string) :
  In k (dict_keys m) -> k <> c -> In k (dict_keys (dict_del m c)).
Proof.
  intros Hin Hne. induction m as [| [k' v] m IH]; simpl in *; [tauto |].
  destruct (String.eqb_spec k' c) as [-> | Hk]; simpl.
  - destruct Hin; [congruence | assumption].
  - destruct Hin; [now left | right; auto].
Qed.

Lemma dict_get_of_key (V : Type) (m : dict V) (k : string) :
  In k (dict_keys m) -> exists v, dict_get m k = Some v.
Proof.
  intros Hin. destruct (dict_get m k) as [v |] eqn:E; [eauto |].
  apply dict_get_none in E. tauto.
Qed.

Lemma release_children_total (G : DiGraph) (done waiting : list string) :
  NoDup (node_names G) ->
  forall cs m z,
    sort_inv G done (waiting ++ z) m cs ->
    (forall c, In c cs -> In c (dict_keys m)) ->
    exists m' z', release_children cs m z = Ok (m', z').
Proof.
  intros Hnd. induction cs as [| c cs IH]; intros m z Hinv Hkeys; simpl.
  - eauto.
  - destruct (dict_get_of_key _ m c (Hkeys c (or_introl eq_refl))) as (d & Hget).
    unfold dict_item. rewrite Hget. simpl.
    destruct (release_child_inv G done waiting z cs m c d Hnd Hinv Hget) as [Hzero Hpos].
    destruct (Nat.eqb_spec (d - 1) 0) as [Hz | Hnz].
    + destruct (Hzero Hz) as [Hinv' Hfresh]. apply IH; [assumption |].
      intros c' Hc'. apply dict_del_keep_key; [apply Hkeys; now right |].
      intros ->. tauto.
    + apply IH; [now apply Hpos |].
      intros c' Hc'. rewrite dict_keys_set_in.
      * apply Hkeys. now right.
      * eapply dict_get_some_key; eassumption.
Qed.

Lemma release_generation_total (G : DiGraph) :
  wf_graph G = true ->
  forall gen done m z,
    sort_inv G done (gen ++ z) m [] ->
    exists m' z', release_generation G gen m z = Ok (m', z').
Proof.
  intros Hwf. destruct (wf_graph_inv G Hwf) as [Hnd _].
  induction gen as [| n rest IH]; intros done m z Hinv; simpl.
  - eauto.
  - destruct (visit_node_inv G done (rest ++ z) m n Hwf Hinv) as [Hmid Hkeys].
    destruct (release_children_total G (done ++ [n]) rest Hnd _ m z Hmid Hkeys)
      as (m1 & z1 & Hrun).
    rewrite Hrun. simpl.
    apply (IH (done ++ [n])).
    eapply release_children_inv; eassumption.
Qed.

Lemma chain_path (G : DiGraph) (w : list string) :
  forall x y, chain G (x :: w) -> In y w -> path G x y.
Proof.
  induction w as [| z w IH]; intros x y Hch Hin; [destruct Hin |].
  destruct Hch as [(c & Hedge) Hch]. destruct Hin as [<- | Hin].
  - eapply path_edge; eassumption.
  - eapply path_step; [eassumption | now apply IH].
Qed.

Lemma chain_NoDup (G : DiGraph) (w : list string) :
  acyclic G -> chain G w -> NoDup w.
Proof.
  intros Hacyc. induction w as [| x w IH]; intros Hch; constructor.
  - intros Hin. apply (Hacyc x). now apply (chain_path G w).
  - apply IH. destruct w; [exact I | apply Hch].
Qed.

Lemma chain_extend (G : DiGraph) (S : list string) :
  (forall v, In v S -> exists u c, In u S /\ In (u, v, c) (edges G)) ->
  forall k v, In v S ->
    exists w, List.length w = Datatypes.S k /\ chain G w /\ incl w S.
Proof.
  intros Hpred. induction k as [| k IH]; intros v Hv.
  - exists [v]. repeat split. intros x [<- | []]. assumption.
  - destruct (IH v Hv) as (w & Hlen & Hch & Hincl).
    destruct w as [| x w]; [discriminate |].
    destruct (Hpred x (Hincl x (or_introl eq_refl))) as (u & c & Hu & Hedge).
    exists (u :: x :: w). repeat split.
    + simpl in *. lia.
    + eauto.
    + assumption.
    + intros y [<- | Hy]; [assumption | now apply Hincl].
Qed.

(** In an acyclic graph a set of tasks each with a predecessor inside the
    set is empty. *)
Lemma no_source_empty (G : DiGraph) (S : list string) :
  acyclic G ->
  (forall v, In v S -> exists u c, In u S /\ In (u, v, c) (edges G)) ->
  S = [].
Proof.
  intros Hacyc Hpred. destruct S as [| v S]; [reflexivity |]. exfalso.
  destruct (chain_extend G (v :: S) Hpred (List.length (v :: S)) v (or_introl eq_refl))
    as (w & Hlen & Hch & Hincl).
  pose proof (NoDup_incl_length (chain_NoDup G w Hacyc Hch) Hincl). lia.
Qed.

Lemma pending_pos (G : DiGraph) (done : list string) (v : string) :
  (0 < pending G done v)%nat -> exists u, In u (predecessors G v) /\ ~ In u done.
Proof.
  unfold pending. intros H.
  destruct (filter (fun u => negb (memb u done)) (predecessors G v)) as [| u us] eqn:E;
    [simpl in H; lia |].
  assert (Hin : In u (filter (fun u => negb (memb u done)) (predecessors G v)))
    by (rewrite E; now left).
  apply filter_In in Hin as [Hu Hm]. exists u. split; [assumption |].
  intros Hd. apply memb_In in Hd. rewrite Hd in Hm. discriminate.
Qed.

(** When nothing waits, an acyclic graph has nothing left to release. *)
Lemma sort_inv_stuck (G : DiGraph) (done : list string) (m : dict nat) :
  wf_graph G = true -> acyclic G ->
  sort_inv G done [] m [] -> m = [].
Proof.
  intros Hwf Hacyc [Hperm Hcount _ _]. destruct (wf_graph_inv G Hwf) as [_ Hends].
  assert (Hkeys : dict_keys m = []).
  { apply (no_source_empty G); [assumption |].
    intros v Hv. destruct (dict_get_of_key _ m v Hv) as (d & Hget).
    destruct (Hcount v d Hget) as [Hd Hpos]. simpl in Hd. rewrite Nat.add_0_r in Hd.
    destruct (pending_pos G done v) as (u & Hu & Hnot); [lia |].
    apply in_predecessors in Hu as (c & Hedge). exists u, c. split; [| assumption].
    destruct (Hends _ _ _ Hedge) as [Hun _].
    apply (Permutation_in _ (Permutation_sym Hperm)) in Hun. simpl in Hun.
    apply in_app_or in Hun. tauto. }
  destruct m; [reflexivity | discriminate].
Qed.

Lemma sort_inv_length (G : DiGraph) done waiting m extra :
  sort_inv G done waiting m extra ->
  (List.length done + List.length waiting + List.length m)%nat
  = List.length (node_names G).
Proof.
  intros [Hperm _ _ _]. apply Permutation_length in Hperm.
  rewrite !length_app in Hperm. unfold dict_keys in Hperm. rewrite length_map in Hperm. lia.
Qed.

Lemma generations_cons (fuel : nat) (G : DiGraph) (m : dict nat) (v : string)
    (z : list string) :
  generations (S fuel) G m (v :: z)
  = ('(m1, z1) <- release_generation G (v :: z) m [] ;;
     later <- generations fuel G m1 z1 ;;
     Ok ((v :: z) ++ later)).
Proof. reflexivity. Qed.

Lemma generations_total (G : DiGraph) :
  wf_graph G = true -> acyclic G ->
  forall fuel m z done,
    sort_inv G done z m [] ->
    z = [] \/ (List.length m < fuel)%nat ->
    exists tl, generations fuel G m z = Ok tl.
Proof.
  intros Hwf Hacyc. destruct (wf_graph_inv G Hwf) as [Hnd _].
  assert (Hstuck : forall fuel m done, sort_inv G done [] m [] ->
                     exists tl, generations fuel G m [] = Ok tl).
  { intros fuel m done Hinv. rewrite (sort_inv_stuck G done m Hwf Hacyc Hinv).
    destruct fuel; simpl; eauto. }
  induction fuel as [| fuel IH]; intros m z done Hinv Hfuel.
  - destruct Hfuel as [-> | Hlt]; [| lia]. eapply Hstuck; eassumption.
  - destruct z as [| v z]; [eapply Hstuck; eassumption |].
    destruct Hfuel as [Hnil | Hlt]; [discriminate |].
    rewrite generations_cons.
    pose proof Hinv as Hinv0. rewrite <- (app_nil_r (v :: z)) in Hinv.
    destruct (release_generation_total G Hwf _ _ _ _ Hinv) as (m1 & z1 & Hrun).
    rewrite Hrun. unfold bind at 1.
    pose proof (release_generation_inv G Hnd _ _ _ _ _ _ Hrun Hinv) as Hinv1.
    destruct (IH m1 z1 (done ++ v :: z) Hinv1) as (later & Hlater).
    + destruct z1 as [| v1 z1]; [now left | right].
      apply sort_inv_length in Hinv0, Hinv1. rewrite length_app in Hinv1.
      simpl in *. lia.
    + rewrite Hlater. unfold bind. eauto.
Qed.

Theorem topological_sort_complete (G : DiGraph) :
  wf_graph G = true -> acyclic G ->
  exists tl, topological_sort G = Ok tl.
Proof.
  intros Hwf Hacyc. unfold topological_sort.
  apply (generations_total G Hwf Hacyc _ _ _ [] (sort_inv_initial G)).
  right. lia.
Qed.

(** ** The example graphs are valid *)

Lemma is_topological_nonempty (G : DiGraph) (tl : list string) :
  is_topological G tl = true -> node_names G <> [] -> tl <> [].
Proof.
  unfold is_topological, same_members. rewrite !andb_true_iff.
  intros [[_ [_ Hall]] _] Hne ->.
  destruct (node_names G) as [| v names]; [congruence |].
  simpl in Hall. discriminate.
Qed.

Lemma is_topological_names (G : DiGraph) (tl : list string) :
  is_topological G tl = true -> tl <> [] -> node_names G <> [].
Proof.
  unfold is_topological, same_members. rewrite !andb_true_iff.
  intros [[_ [Hall _]] _] Hne Hnil.
  destruct tl as [| v tl]; [congruence |].
  rewrite Hnil in Hall. simpl in Hall. discriminate.
Qed.

Lemma diamond_acyclic : acyclic diamond.
Proof. apply (is_topological_acyclic diamond ["A"; "B"; "C"; "D"]). reflexivity. Qed.

Lemma single_task_acyclic : acyclic single_task.
Proof. apply (is_topological_acyclic single_task ["A"]). reflexivity. Qed.

Lemma three_tasks_acyclic : acyclic three_tasks.
Proof. apply (is_topological_acyclic three_tasks ["A"; "B"; "C"]). reflexivity. Qed.

Lemma negative_task_acyclic : acyclic negative_task.
Proof. apply (is_topological_acyclic negative_task ["A"]). reflexivity. Qed.

Lemma empty_graph_acyclic : acyclic empty_graph.
Proof. apply (is_topological_acyclic empty_graph []). reflexivity. Qed.

Lemma find_critical_path_empty (G : DiGraph) :
  QIPSO.find_critical_path G [] = Raise IndexError.
Proof. reflexivity. Qed.

(** ** The makespan is at least the duration of every path *)

Lemma max_with_zero_nonneg (xs : list Q) : 0 <= max_with_zero xs.
Proof.
  unfold max_with_zero. destruct xs as [| x xs]; simpl.
  - apply Qle_refl.
  - apply fold_max_ge_in. apply in_or_app. right. now left.
Qed.

Lemma eval_duration_pos (a : attrs) : 0 <= QIPSO.eval_duration a.
Proof.
  unfold QIPSO.eval_duration.
  eapply Qle_trans; [| apply Q.le_max_l]. discriminate.
Qed.

Lemma pointwise_le_refl (xs : list Q) : pointwise_le xs xs.
Proof. intros i x H. exists x. split; [assumption | apply Qle_refl]. Qed.

Lemma pointwise_le_trans (xs ys zs : list Q) :
  pointwise_le xs ys -> pointwise_le ys zs -> pointwise_le xs zs.
Proof.
  intros H1 H2 i x Hx. destruct (H1 i x Hx) as (y & Hy & Hxy).
  destruct (H2 i y Hy) as (z & Hz & Hyz). exists z. split; [assumption |].
  eapply Qle_trans; eassumption.
Qed.

Lemma nth_error_list_set_same (xs : list Q) (i : nat) (v : Q) :
  (i < List.length xs)%nat -> nth_error (list_set xs i v) i = Some v.
Proof.
  revert i. induction xs as [| x xs IH]; intros [| i] H; simpl in *; try lia.
  - reflexivity.
  - apply IH. lia.
Qed.

Lemma nth_error_list_set_other (xs : list Q) (i j : nat) (v : Q) :
  i <> j -> nth_error (list_set xs i v) j = nth_error xs j.
Proof.
  revert i j. induction xs as [| x xs IH]; intros [| i] [| j] H; simpl; try reflexivity.
  - congruence.
  - apply IH. congruence.
Qed.

Lemma list_set_pointwise_le (xs : list Q) (i : nat) (old v : Q) :
  nth_error xs i = Some old -> old <= v -> pointwise_le xs (list_set xs i v).
Proof.
  intros Hold Hle j x Hx. destruct (Nat.eq_dec i j) as [<- | Hne].
  - exists v. rewrite nth_error_list_set_same.
    + split; [reflexivity | congruence].
    + apply nth_error_Some. congruence.
  - exists x. rewrite nth_error_list_set_other by assumption.
    split; [assumption | apply Qle_refl].
Qed.

Lemma py_max_nth (xs : list Q) (m x : Q) (i : nat) :
  py_max xs = Ok m -> nth_error xs i = Some x -> x <= m.
Proof.
  intros Hm Hx. eapply py_max_ge; [eassumption |]. eapply nth_error_In; eassumption.
Qed.

(** Along a walk, each task ends no earlier than the walk's duration up to
    and including it. *)
Lemma chain_end_bound (G : DiGraph) (tr : list (string * (Q * Q))) :
  respects_precedence G tr ->
  (forall t s e, In (t, (s, e)) tr ->
     0 <= s /\ e == s + QIPSO.eval_duration (node_attrs G t)) ->
  forall w x base,
    chain G (x :: w) ->
    (forall t, In t (x :: w) -> In t (map fst tr)) ->
    (forall s e, In (x, (s, e)) tr -> base <= s) ->
    exists t s e, In (t, (s, e)) tr
                  /\ base + path_duration G (x :: w) <= e.
Proof.
  intros Hres Hent. induction w as [| y w IH]; intros x base Hch Hin Hstart.
  - assert (Hx : In x (map fst tr)) by (apply Hin; now left).
    apply in_map_iff in Hx as ([x' [s e]] & Hfst & Hx). simpl in Hfst. subst x'.
    exists x, s, e. split; [exact Hx |].
    destruct (Hent x s e Hx) as [_ He]. unfold path_duration. simpl.
    rewrite He. rewrite Qplus_0_r. apply Qplus_le_l. now apply (Hstart s e).
  - destruct Hch as [(c & Hedge) Hch].
    assert (Hx : In x (map fst tr)) by (apply Hin; now left).
    apply in_map_iff in Hx as ([x' [sx ex]] & Hfst & Hx). simpl in Hfst. subst x'.
    destruct (Hent x sx ex Hx) as [_ Hex].
    destruct (IH y (base + QIPSO.eval_duration (node_attrs G x)) Hch)
      as (t & s & e & Hlast & Hle).
    + intros t Ht. apply Hin. now right.
    + intros sy ey Hy.
      eapply Qle_trans; [| apply (Hres y x sy ey sx ex); try assumption].
      * rewrite Hex. apply Qplus_le_l. now apply (Hstart sx ex).
      * apply in_predecessors. eauto.
    + exists t, s, e. split; [exact Hlast |].
      unfold path_duration in *. simpl in *. rewrite Qplus_assoc. exact Hle.
Qed.

Lemma evaluate_task_times (dag : DiGraph) (pw : list Q) (sched : dict nat)
    (st st' : QIPSO.eval_state) (task : string) (node : nat) (s e : Q) :
  QIPSO.evaluate_task dag pw sched st task = Ok (node, s, e, st') ->
  0 <= s
  /\ pointwise_le (QIPSO.device_end_times st) (QIPSO.device_end_times st')
  /\ nth_error (QIPSO.device_end_times st') node = Some e.
Proof.
  unfold QIPSO.evaluate_task. intros H.
  bind_destruct H as node' Hnode. bind_destruct H as busy Hbusy.
  bind_destruct H as en Hen. bind_destruct H as power Hpower.
  injection H as <- <- <- <-. simpl.
  assert (Hnth : nth_error (QIPSO.device_end_times st) node' = Some busy).
  { unfold list_item in Hbusy.
    destruct (nth_error (QIPSO.device_end_times st) node'); [| discriminate].
    now injection Hbusy as ->. }
  split; [| split].
  - eapply Qle_trans; [apply max_with_zero_nonneg | apply Q.le_max_l].
  - apply (list_set_pointwise_le _ _ busy); [assumption |].
    eapply Qle_trans; [apply Q.le_max_r |].
    rewrite <- Qplus_0_r at 1. apply Qplus_le_r. apply eval_duration_pos.
  - apply nth_error_list_set_same. apply nth_error_Some. congruence.
Qed.

Lemma evaluate_tasks_times (dag : DiGraph) (pw : list Q) (sched : dict nat) :
  forall tasks st trace st',
    QIPSO.evaluate_tasks dag pw sched tasks st = Ok (trace, st') ->
    pointwise_le (QIPSO.device_end_times st) (QIPSO.device_end_times st')
    /\ forall t node s e, In (t, (node, s, e)) trace ->
         0 <= s
         /\ exists busy, nth_error (QIPSO.device_end_times st') node = Some busy /\ e <= busy.
Proof.
  induction tasks as [| task rest IH]; intros st trace st' H; simpl in H.
  - injection H as <- <-. split; [apply pointwise_le_refl | intros ? ? ? ? []].
  - bind_destruct H as r1 H1. destruct r1 as [[[node s] e] st1].
    bind_destruct H as r2 H2. destruct r2 as [trace' st2]. injection H as <- <-.
    apply evaluate_task_times in H1 as (Hs & Hmono1 & Hnth).
    destruct (IH _ _ _ H2) as [Hmono2 Hrest].
    split; [eapply pointwise_le_trans; eassumption |].
    intros t node' s' e' [[= <- <- <- <-] | Hin]; [| exact (Hrest t node' s' e' Hin)].
    split; [assumption |]. destruct (Hmono2 _ _ Hnth) as (busy & Hb & Hle). eauto.
Qed.


(** X4. The evaluator's makespan is at least the duration of every walk through
    the graph: the longest path is a lower bound. *)
Theorem evaluate_schedule_above_every_path (G : DiGraph) (tl : list string) (n : nat)
    (assignment : dict nat) (m e : Q) (x : string) (w : list string) :
  is_topological G tl = true ->
  QIPSO.evaluate_schedule G tl n assignment = Ok (m, e) ->
  chain G (x :: w) ->
  (forall t, In t (x :: w) -> In t tl) ->
  path_duration G (x :: w) <= m.
Proof.
  intros Htopo Hrun Hch Hin.
  unfold QIPSO.evaluate_schedule in Hrun.
  bind_destruct Hrun as r Hr. destruct r as [trace st].
  bind_destruct Hrun as mk Hmk. injection Hrun as <- <-.
  assert (Htrace : QIPSO.evaluate_trace G tl n assignment = Ok trace).
  { unfold QIPSO.evaluate_trace. now rewrite Hr. }
  destruct (evaluate_trace_respects G tl n assignment trace Htopo Htrace) as [Hres Hkeys].
  destruct (evaluate_tasks_times _ _ _ _ _ _ _ Hr) as [_ Htimes].
  assert (Hdur : forall t node s f, In (t, (node, s, f)) trace ->
                   f = s + QIPSO.eval_duration (node_attrs G t)).
  { clear - Hr. revert Hr. generalize (QIPSO.initial_eval_state n).
    revert trace st. induction tl as [| task rest IH]; intros trace st st0 Hr; simpl in Hr.
    - injection Hr as <- <-. intros ? ? ? ? [].
    - bind_destruct Hr as r1 H1. destruct r1 as [[[node s] f] st1].
      bind_destruct Hr as r2 H2. destruct r2 as [trace' st2]. injection Hr as <- <-.
      apply evaluate_task_inv in H1 as (_ & Hf & _).
      intros t node' s' f' [[= <- <- <- <-] | Hin']; [assumption |].
      exact (IH _ _ _ H2 t node' s' f' Hin'). }
  destruct (chain_end_bound G (trace_spans trace) Hres) with (w := w) (x := x) (base := 0)
    as (t & s & f & Hentry & Hle).
  - intros t s f Hentry. unfold trace_spans in Hentry.
    apply in_map_iff in Hentry as ([t' [[node s'] f']] & [= <- <- <-] & Hentry).
    destruct (Htimes _ _ _ _ Hentry) as [Hs _].
    split; [assumption |]. now rewrite (Hdur _ _ _ _ Hentry).
  - assumption.
  - intros t Ht. unfold trace_spans. rewrite map_map. simpl.
    change (fun kv : string * (nat * Q * Q) => fst kv) with (@fst string (nat * Q * Q)).
    rewrite Hkeys. now apply Hin.
  - intros s f Hentry. unfold trace_spans in Hentry.
    apply in_map_iff in Hentry as ([t' [[node s'] f']] & [= <- <- <-] & Hentry).
    now destruct (Htimes _ _ _ _ Hentry).
  - unfold trace_spans in Hentry.
    apply in_map_iff in Hentry as ([t' [[node s'] f']] & [= <- <- <-] & Hentry).
    destruct (Htimes _ _ _ _ Hentry) as [_ (busy & Hbusy & Hfb)].
    rewrite Qplus_0_l in Hle.
    eapply Qle_trans; [exact Hle |]. eapply Qle_trans; [exact Hfb |].
    eapply py_max_nth; eassumption.
Qed.

Lemma fcfs_schedule_task_times (G : DiGraph) (st st' : FCFS.fcfs_state) (task : string) :
  FCFS.schedule_task G st task = Ok st' ->
  exists info,
    FCFS.schedule_so_far st' = dict_set (FCFS.schedule_so_far st) task info
    /\ 0 <= start_time info
    /\ pointwise_le (FCFS.node_available_time st) (FCFS.node_available_time st')
    /\ nth_error (FCFS.node_available_time st') (assigned_node info) = Some (end_time info).
Proof.
  unfold FCFS.schedule_task. intros H.
  bind_destruct H as best Hbest. bind_destruct H as busy Hbusy. injection H as <-. simpl.
  assert (Hnth : nth_error (FCFS.node_available_time st) best = Some busy).
  { unfold list_item in Hbusy.
    destruct (nth_error (FCFS.node_available_time st) best); [| discriminate].
    now injection Hbusy as ->. }
  eexists. split; [reflexivity |]. simpl. split; [| split].
  - eapply Qle_trans; [apply max_with_zero_nonneg | apply Q.le_max_l].
  - apply (list_set_pointwise_le _ _ busy); [assumption |].
    eapply Qle_trans; [apply Q.le_max_r |].
    rewrite <- Qplus_0_r at 1. apply Qplus_le_r.
    eapply Qle_trans; [| apply Q.le_max_l]. discriminate.
  - apply nth_error_list_set_same. apply nth_error_Some. congruence.
Qed.

Lemma fcfs_schedule_tasks_times (G : DiGraph) :
  forall tasks st st',
    FCFS.schedule_tasks G tasks st = Ok st' ->
    pointwise_le (FCFS.node_available_time st) (FCFS.node_available_time st')
    /\ forall t i, In (t, i) (FCFS.schedule_so_far st') ->
         In (t, i) (FCFS.schedule_so_far st)
         \/ (0 <= start_time i
             /\ exists busy, nth_error (FCFS.node_available_time st') (assigned_node i)
                             = Some busy /\ end_time i <= busy).
Proof.
  induction tasks as [| task rest IH]; intros st st' H; simpl in H.
  - injection H as <-. split; [apply pointwise_le_refl | auto].
  - bind_destruct H as st1 H1.
    apply fcfs_schedule_task_times in H1 as (info & Hs & Hstart & Hmono1 & Hnth).
    destruct (IH _ _ H) as [Hmono2 Hrest].
    split; [eapply pointwise_le_trans; eassumption |].
    intros t i Hin. destruct (Hrest t i Hin) as [Hold | Hnew]; [| now right].
    rewrite Hs in Hold. apply dict_set_in in Hold as [[-> ->] | Hold]; [| now left].
    right. split; [assumption |].
    destruct (Hmono2 _ _ Hnth) as (busy & Hb & Hle). eauto.
Qed.

(** X12. The FCFS makespan is at least the duration of every walk through the
    graph. *)
Theorem fcfs_makespan_above_every_path (G : DiGraph) (tl : list string) (n : nat)
    (out : FCFS.output) (x : string) (w : list string) :
  wf_graph G = true ->
  topological_sort G = Ok tl ->
  snd (FCFS.schedule_fcfs G n) = Ok out ->
  chain G (x :: w) ->
  (forall t, In t (x :: w) -> In t tl) ->
  path_duration G (x :: w) <= FCFS.makespan out.
Proof.
  intros Hwf Htl Hrun Hch Hin.
  pose proof (topological_sort_sound G tl Hwf Htl) as Htopo.
  rewrite (schedule_fcfs_unfold G n tl Htl) in Hrun.
  assert (Htopo' : is_topological (FCFS.normalize_execution_times G 0.1) tl = true)
    by now rewrite normalize_is_topological.
  destruct (fcfs_schedule_in_order_respects _ tl n out Htopo' Hrun) as [Hres Hkeys].
  unfold FCFS.schedule_in_order in Hrun.
  bind_destruct Hrun as st Hst. bind_destruct Hrun as mk Hmk.
  bind_destruct Hrun as en Hen. injection Hrun as <-. simpl in *.
  destruct (fcfs_schedule_tasks_times _ _ _ _ Hst) as [_ Htimes]. simpl in Htimes.
  pose proof (fcfs_schedule_tasks_entries _ n _ _ _ Hst (repeat_length _ _)) as Hent.
  simpl in Hent. specialize (Hent (fun kv (H : False) => match H with end)).
  destruct (chain_end_bound G (spans (FCFS.schedule_so_far st)) Hres) with
    (w := w) (x := x) (base := 0) as (t & s & f & Hentry & Hle).
  - intros t s f Hentry. apply spans_in in Hentry as (i & Hi & <- & <-).
    destruct (Htimes t i Hi) as [[] | [Hs _]]. split; [assumption |].
    destruct (Hent (t, i) Hi) as (_ & Hend & Hexec). simpl in *.
    rewrite Hend, Hexec, normalize_node_attrs by reflexivity.
    now rewrite fcfs_duration.
  - assumption.
  - intros t Ht. rewrite spans_keys, Hkeys. now apply Hin.
  - intros s f Hentry. apply spans_in in Hentry as (i & Hi & <- & <-).
    destruct (Htimes x i Hi) as [[] | [Hs _]]. assumption.
  - apply spans_in in Hentry as (i & Hi & <- & <-).
    destruct (Htimes t i Hi) as [[] | [_ (busy & Hbusy & Hfb)]].
    rewrite Qplus_0_l in Hle.
    eapply Qle_trans; [exact Hle |]. eapply Qle_trans; [exact Hfb |].
    eapply py_max_nth; eassumption.
Qed.

(** * The claims *)

(** ** Durations (find_critical_path against evaluate_schedule) *)

Lemma cp_task_time_documented (a : attrs) :
  QIPSO.cp_task_time a == documented_cp_duration a.
Proof.
  unfold QIPSO.cp_task_time, QIPSO.cp_exec_time, documented_cp_duration.
  destruct (exec_time a) as [e |]; [reflexivity |].
  destruct (comp_cost a) as [c |]; reflexivity.
Qed.

Lemma eval_duration_documented (a : attrs) :
  QIPSO.eval_duration a == documented_eval_duration a.
Proof.
  unfold QIPSO.eval_duration, documented_eval_duration.
  destruct (exec_time a) as [e |]; reflexivity.
Qed.

Lemma documented_durations_agree (a : attrs) :
  documented_cp_duration a == documented_eval_duration a
  <-> (exec_time a <> None
       \/ comp_cost a = None
       \/ exists c, comp_cost a = Some c /\ Qmax 0.1 (c / 1000) == 10).
Proof.
  unfold documented_cp_duration, documented_eval_duration.
  destruct (exec_time a) as [e |], (comp_cost a) as [c |]; split; intros H.
  - left. discriminate.
  - reflexivity.
  - left. discriminate.
  - reflexivity.
  - right. right. exists c. split; [reflexivity | exact H].
  - destruct H as [H | [H | (c' & [= <-] & H)]]; [congruence | discriminate | exact H].
  - right. now left.
  - reflexivity.
Qed.

(** The length [find_critical_path] returns: the largest earliest start
    plus the table's duration of the last listed task. *)
Lemma find_critical_path_length (dag : DiGraph) (tl : list string) :
  (forall u v c, In (u, v, c) (edges dag) -> In u tl /\ In v tl) ->
  tl <> [] ->
  exists es lf selected es' cp len m,
    QIPSO.forward_pass dag (QIPSO.build_task_times dag tl) tl [] = Ok es
    /\ QIPSO.backward_pass dag (QIPSO.build_task_times dag tl) es (rev tl) [] = Ok lf
    /\ QIPSO.select_critical (QIPSO.build_task_times dag tl) tl es lf = Ok (selected, es')
    /\ QIPSO.find_critical_path dag tl = Ok (cp, len)
    /\ py_max (dict_values es') = Ok m
    /\ len = m + QIPSO.cp_task_time (node_attrs dag (last cp "")).
Proof.
  intros Hedges Hne.
  destruct (find_critical_path_total dag tl Hedges Hne)
    as (es & lf & sel & es' & cp & len & Hfwd & Hbwd & Hsel & Hrun & Hcp & Hcpne & Hin).
  pose proof Hrun as Hlen. unfold QIPSO.find_critical_path in Hlen.
  rewrite Hfwd in Hlen. cbn [bind] in Hlen. rewrite Hbwd in Hlen. cbn [bind] in Hlen.
  rewrite Hsel in Hlen. cbn [bind] in Hlen.
  bind_destruct Hlen as cp' Hcp'. bind_destruct Hlen as m Hm. bind_destruct Hlen as d Hd.
  injection Hlen as -> <-.
  rewrite (task_time_item dag tl (last cp "")) in Hd by (apply Hin; now apply last_in).
  injection Hd as <-.
  exists es, lf, sel, es', cp, (m + QIPSO.cp_task_time (node_attrs dag (last cp ""))), m.
  repeat split; assumption.
Qed.

(** A graph sorted into a single task has no edge. *)
Lemma single_task_no_edges (G : DiGraph) (t : string) :
  is_topological G [t] = true -> edges G = [].
Proof.
  unfold is_topological. rewrite !andb_true_iff. intros [_ Hfwd].
  destruct (edges G) as [| [[u v] c] es]; [reflexivity |].
  simpl in Hfwd. apply andb_true_iff in Hfwd as [Hfwd _].
  unfold edge_forward, edge_src, edge_dst in Hfwd. simpl in Hfwd.
  destruct (String.eqb t u), (String.eqb t v); simpl in Hfwd; discriminate.
Qed.

Lemma cp_task_time_min (a : attrs) : 0.1 <= QIPSO.cp_task_time a.
Proof. apply Q.le_max_l. Qed.

(** On a single task the critical length is the table's duration of the
    task, and the makespan on one node is the evaluator's. *)
Lemma single_task_lengths (G : DiGraph) (t : string) :
  is_topological G [t] = true ->
  exists cp len m e,
    QIPSO.find_critical_path G [t] = Ok (cp, len)
    /\ len == QIPSO.cp_task_time (node_attrs G t)
    /\ QIPSO.evaluate_schedule G [t] 1 [(t, 0%nat)] = Ok (m, e)
    /\ m == QIPSO.eval_duration (node_attrs G t).
Proof.
  intros Htopo. pose proof (single_task_no_edges G t Htopo) as Hedges.
  assert (Hs : successors G t = []) by (unfold successors; now rewrite Hedges).
  assert (Hp : predecessors G t = []) by (unfold predecessors; now rewrite Hedges).
  set (d := QIPSO.cp_task_time (node_attrs G t)).
  assert (Hsel : Qltb (Qabs (0 - (0 - d))) 1e-6 = false).
  { apply Qltb_ge. assert (Hd : 0.1 <= d) by apply cp_task_time_min.
    assert (Heq : 0 - (0 - d) == d) by ring. rewrite Heq.
    rewrite Qabs_pos.
    - eapply Qle_trans; [| exact Hd]. discriminate.
    - eapply Qle_trans; [| exact Hd]. discriminate. }
  exists [t], (0 + d), (Qmax 0 0 + QIPSO.eval_duration (node_attrs G t)).
  eexists. split; [| split; [ring | split]].
  - unfold QIPSO.find_critical_path, QIPSO.build_task_times. simpl.
    rewrite Hs, Hp. simpl. unfold QIPSO.es_item, QIPSO.lf_item, dict_item. simpl.
    rewrite String.eqb_refl. simpl. fold d.
    match goal with
    | |- context [Qltb ?x 1e-6] =>
        replace (Qltb x 1e-6) with false by (symmetry; exact Hsel)
    end.
    simpl.
    rewrite String.eqb_refl. reflexivity.
  - unfold QIPSO.evaluate_schedule. simpl. unfold QIPSO.evaluate_task, dict_item. simpl.
    rewrite String.eqb_refl. simpl. rewrite Hp. simpl. reflexivity.
  - rewrite Q.max_id. ring.
Qed.

(** C10 fails as worded in its last part: the task of [bare_task] defines
    no [exec_time], and still both routines derive the same duration for
    it, 10, which is also the critical length and the makespan. *)
Lemma identical_durations_without_exec_time :
  exec_time (node_attrs bare_task "A") = None
  /\ topological_sort bare_task = Ok ["A"]
  /\ (exists d, dict_get (QIPSO.build_task_times bare_task ["A"]) "A" = Some d /\ d == 10)
  /\ (exists s f,
        QIPSO.evaluate_trace bare_task ["A"] 1 [("A", 0%nat)] = Ok [("A", (0%nat, s, f))]
        /\ f - s == 10)
  /\ (exists cp len m e,
        QIPSO.find_critical_path bare_task ["A"] = Ok (cp, len)
        /\ len == 10
        /\ QIPSO.evaluate_schedule bare_task ["A"] 1 [("A", 0%nat)] = Ok (m, e)
        /\ m == 10).
Proof.
  split; [reflexivity |]. split; [reflexivity |].
  split; [eexists; split; [vm_compute; reflexivity | vm_compute; reflexivity] |].
  split.
  - do 2 eexists. split; [vm_compute; reflexivity | vm_compute; reflexivity].
  - do 4 eexists. split; [vm_compute; reflexivity |].
    split; [vm_compute; reflexivity |].
    split; [vm_compute; reflexivity | vm_compute; reflexivity].
Qed.

(** C10 as the code has it, on every well-formed acyclic graph with a task,
    [tl] being its topological order.  The table [task_times] that
    [find_critical_path] builds and reads holds, for each task,
    [max(0.1, exec_time)], or [max(0.1, comp_cost/1000)] without
    [exec_time], or 10 without both; the critical length is the largest
    earliest start plus the table's entry of the last critical task.  In
    every schedule [evaluate_schedule] computes, a task ends
    [max(0.1, exec_time)] after its start, or 10 after it without
    [exec_time].  The two durations of a task are the same number exactly
    when it defines [exec_time], or has no [comp_cost], or has one with
    [max(0.1, comp_cost/1000) = 10]; on a graph of a single task they are
    the critical length and the makespan. *)
Theorem durations_agree_when_exec_time_defined (G : DiGraph) :
  wf_graph G = true ->
  acyclic G ->
  nodes G <> [] ->
  exists tl,
    topological_sort G = Ok tl
    /\ (forall t, In t tl ->
          exists d, dict_get (QIPSO.build_task_times G tl) t = Some d
                    /\ d == documented_cp_duration (node_attrs G t))
    /\ (exists es lf selected es' cp len m,
          QIPSO.forward_pass G (QIPSO.build_task_times G tl) tl [] = Ok es
          /\ QIPSO.backward_pass G (QIPSO.build_task_times G tl) es (rev tl) [] = Ok lf
          /\ QIPSO.select_critical (QIPSO.build_task_times G tl) tl es lf = Ok (selected, es')
          /\ QIPSO.find_critical_path G tl = Ok (cp, len)
          /\ py_max (dict_values es') = Ok m
          /\ len == m + documented_cp_duration (node_attrs G (last cp "")))
    /\ (forall n assignment,
          (0 < n)%nat -> total_assignment assignment tl n ->
          exists trace m e,
            QIPSO.evaluate_trace G tl n assignment = Ok trace
            /\ QIPSO.evaluate_schedule G tl n assignment = Ok (m, e)
            /\ map fst trace = tl
            /\ forall t node s f, In (t, (node, s, f)) trace ->
                 f == s + documented_eval_duration (node_attrs G t))
    /\ (forall t,
          documented_cp_duration (node_attrs G t)
          == documented_eval_duration (node_attrs G t)
          <-> (exec_time (node_attrs G t) <> None
               \/ comp_cost (node_attrs G t) = None
               \/ exists c, comp_cost (node_attrs G t) = Some c
                            /\ Qmax 0.1 (c / 1000) == 10))
    /\ (forall t, tl = [t] ->
          exists cp len m e,
            QIPSO.find_critical_path G tl = Ok (cp, len)
            /\ len == documented_cp_duration (node_attrs G t)
            /\ QIPSO.evaluate_schedule G tl 1 [(t, 0%nat)] = Ok (m, e)
            /\ m == documented_eval_duration (node_attrs G t)).
Proof.
  intros Hwf Hacyc Hne.
  destruct (topological_sort_complete G Hwf Hacyc) as (tl & Htl).
  pose proof (topological_sort_sound G tl Hwf Htl) as Htopo.
  assert (Htlne : tl <> []).
  { apply (is_topological_nonempty G tl Htopo).
    unfold node_names. destruct (nodes G); [congruence | discriminate]. }
  exists tl. split; [assumption |].
  split; [| split; [| split; [| split]]].
  - intros t Hin. exists (QIPSO.cp_task_time (node_attrs G t)).
    split; [now apply build_task_times_get | apply cp_task_time_documented].
  - destruct (find_critical_path_length G tl (is_topological_edges G tl Htopo) Htlne)
      as (es & lf & sel & es' & cp & len & m & Hfwd & Hbwd & Hsel & Hrun & Hm & Hlen).
    exists es, lf, sel, es', cp, len, m. repeat split; try assumption.
    rewrite Hlen, cp_task_time_documented. reflexivity.
  - intros n assignment Hn Htot.
    destruct (evaluate_schedule_total G tl n assignment Hn Htot)
      as (trace & m & e & Htrace & Hrun & Hdur).
    exists trace, m, e. split; [assumption |]. split; [assumption |].
    split; [apply (evaluate_trace_respects G tl n assignment trace Htopo Htrace) |].
    intros t node s f Hin. rewrite (Hdur t node s f Hin), eval_duration_documented.
    reflexivity.
  - intros t. apply documented_durations_agree.
  - intros t ->.
    destruct (single_task_lengths G t Htopo) as (cp & len & m & e & Hcp & Hlen & Hev & Hm).
    exists cp, len, m, e. split; [assumption |].
    split; [now rewrite Hlen, cp_task_time_documented |].
    split; [assumption | now rewrite Hm, eval_duration_documented].
Qed.

Lemma durations_agree_when_exec_time_defined_witness :
  (exists d, dict_get (QIPSO.build_task_times chain_5_1 ["A"; "B"]) "A" = Some d
             /\ d == documented_cp_duration (node_attrs chain_5_1 "A"))
  /\ (exists trace m e,
        QIPSO.evaluate_trace chain_5_1 ["A"; "B"] 2 [("A", 0%nat); ("B", 1%nat)] = Ok trace
        /\ QIPSO.evaluate_schedule chain_5_1 ["A"; "B"] 2 [("A", 0%nat); ("B", 1%nat)]
           = Ok (m, e)
        /\ map fst trace = ["A"; "B"]
        /\ forall t node s f, In (t, (node, s, f)) trace ->
             f == s + documented_eval_duration (node_attrs chain_5_1 t))
  /\ documented_cp_duration (node_attrs chain_5_1 "A")
     == documented_eval_duration (node_attrs chain_5_1 "A").
Proof.
  destruct (durations_agree_when_exec_time_defined chain_5_1 eq_refl)
    as (tl & Htl & Htable & _ & Heval & Hagree & _).
  - apply (is_topological_acyclic chain_5_1 ["A"; "B"]). reflexivity.
  - discriminate.
  - vm_compute in Htl. injection Htl as <-.
    split; [apply Htable; now left |].
    split.
    + apply (Heval 2%nat [("A", 0%nat); ("B", 1%nat)]); [lia |].
      intros t [<- | [<- | []]]; [exists 0%nat | exists 1%nat]; split; (reflexivity || lia).
    + apply Hagree. left. discriminate.
Defined.

(** ** The diamond under FCFS *)

(** C5 fails as worded: on the diamond, in the order [networkx] lists its
    tasks, FCFS does not put B on node 0 and C on node 1. *)
Lemma diamond_expectation_fails :
  ~ diamond_expectation (snd (FCFS.schedule_fcfs diamond 2)).
Proof.
  intros (out & Hout & _ & _ & _ & (i & Hi & Hnode & _) & _).
  vm_compute in Hout. injection Hout as <-.
  vm_compute in Hi. injection Hi as <-.
  discriminate Hnode.
Qed.

Ltac solve_runs_on :=
  eexists; split; [vm_compute; reflexivity | repeat split; vm_compute; reflexivity].
Ltac solve_ready_at :=
  eexists; eexists; split; [vm_compute; reflexivity | split; [reflexivity | vm_compute; reflexivity]].
Ltac solve_diamond :=
  eexists; split; [vm_compute; reflexivity |];
  repeat match goal with
         | |- _ /\ _ => split
         | |- runs_on _ _ _ _ _ => solve_runs_on
         | |- ready_at _ _ _ => solve_ready_at
         | |- _ == _ => vm_compute; reflexivity
         end.

(** C5 as the code has it: A runs on node 0 over [0,1]; B and C are ready
    at 1; whichever of them comes first in the topological order (B in the
    order [networkx] gives) goes to node 1, idle since 0, and the other to
    node 0, each over [1,2]; D is ready at 2 and runs on node 0 over [2,3];
    the makespan is 3. *)
Theorem diamond_fcfs_schedule :
  topological_sort diamond = Ok ["A"; "B"; "C"; "D"]
  /\ diamond_outcome "B" "C" (snd (FCFS.schedule_fcfs diamond 2))
  /\ is_topological diamond ["A"; "C"; "B"; "D"] = true
  /\ diamond_outcome "C" "B" (FCFS.schedule_in_order diamond ["A"; "C"; "B"; "D"] 2).
Proof.
  split; [reflexivity |].
  split; [solve_diamond |].
  split; [reflexivity |].
  solve_diamond.
Qed.

(** ** The critical length against the makespan *)

(** C1 at the chain A -> B with durations 5 and 1: the optimizer's critical
    length is 10, while FCFS, HEFT and the evaluator (on every assignment to
    two nodes) all reach makespan 6, below 10 - 1e-6. *)
Theorem critical_length_above_makespan_on_chain :
  exists self fcfs heft heft_makespan,
    QIPSO.init chain_5_1 2 1 1 0.3 = Ok self
    /\ QIPSO.task_list self = ["A"; "B"]
    /\ QIPSO.critical_path self = ["A"]
    /\ QIPSO.critical_length self == 10
    /\ snd (FCFS.schedule_fcfs chain_5_1 2) = Ok fcfs
    /\ FCFS.makespan fcfs == 6
    /\ HEFT.schedule 1000 (HEFT.init 2 1000) chain_5_1 = Ok heft
    /\ HEFT.get_makespan heft = Ok heft_makespan
    /\ heft_makespan == 6
    /\ Forall (fun assignment =>
          exists m e,
            QIPSO.evaluate_schedule chain_5_1 ["A"; "B"] 2 assignment = Ok (m, e)
            /\ m == 6) chain_assignments
    /\ 6 < QIPSO.critical_length self - 1e-6.
Proof.
  do 4 eexists.
  split; [vm_compute; reflexivity |].
  split; [reflexivity |].
  split; [reflexivity |].
  split; [vm_compute; reflexivity |].
  split; [vm_compute; reflexivity |].
  split; [vm_compute; reflexivity |].
  split; [vm_compute; reflexivity |].
  split; [vm_compute; reflexivity |].
  split; [vm_compute; reflexivity |].
  split; [| vm_compute; reflexivity].
  repeat constructor;
    do 2 eexists; (split; [vm_compute; reflexivity | vm_compute; reflexivity]).
Qed.


(** ** Precedence *)

(** C6 fails as worded for HEFT: on the acyclic chain A -> B whose edge
    carries [comm_cost] -5000, with two nodes and the default
    [avg_comp_cost], HEFT runs A on node 0 over [0,10] and starts B on node 1
    at 5, before A has ended. *)
Lemma heft_starts_before_predecessor_ends :
  wf_graph negative_comm_chain = true
  /\ acyclic negative_comm_chain
  /\ In "A" (predecessors negative_comm_chain "B")
  /\ exists h,
       HEFT.schedule 1000 (HEFT.init 2 1000) negative_comm_chain = Ok h
       /\ runs_on (HEFT.schedule_result h) "A" 0 0 10
       /\ runs_on (HEFT.schedule_result h) "B" 1 5 6
       /\ ~ respects_precedence negative_comm_chain (spans (HEFT.schedule_result h)).
Proof.
  split; [reflexivity |].
  split; [apply (is_topological_acyclic negative_comm_chain ["A"; "B"]); reflexivity |].
  split; [now left |].
  eexists. split; [vm_compute; reflexivity |].
  split; [eexists; split; [vm_compute; reflexivity | repeat split; vm_compute; reflexivity] |].
  split; [eexists; split; [vm_compute; reflexivity | repeat split; vm_compute; reflexivity] |].
  intros H.
  assert (Hle := H "B" "A" _ _ _ _ (or_introl eq_refl)
                   (or_intror (or_introl eq_refl)) (or_introl eq_refl)).
  vm_compute in Hle. apply Hle. reflexivity.
Qed.

(** C6 as the code has it: on every well-formed acyclic graph, with [tl]
    the order the topological sort gives: the schedule FCFS returns, the
    times the QIPSO evaluator computes for an assignment and, when no
    [comm_cost] is negative and [avg_comp_cost] is positive, the schedule
    HEFT returns all start every task no earlier than the end of each of its
    predecessors, and cover every task; FCFS on at least one node and the
    evaluator on a total assignment do return. *)
Theorem schedulers_respect_precedence (G : DiGraph) :
  wf_graph G = true ->
  acyclic G ->
  exists tl,
    topological_sort G = Ok tl
    /\ (forall n out,
        snd (FCFS.schedule_fcfs G n) = Ok out ->
        respects_precedence G (spans (FCFS.schedule out))
        /\ dict_keys (FCFS.schedule out) = tl)
    /\ (forall depth self h,
        nonneg_comm G = true -> 0 < HEFT.avg_comp_cost self ->
        HEFT.schedule depth self G = Ok h ->
        respects_precedence G (spans (HEFT.schedule_result h))
        /\ Permutation (dict_keys (HEFT.schedule_result h)) tl)
    /\ (forall n assignment trace,
        QIPSO.evaluate_trace G tl n assignment = Ok trace ->
        respects_precedence G (trace_spans trace) /\ map fst trace = tl)
    /\ (forall n, (0 < n)%nat -> exists out, snd (FCFS.schedule_fcfs G n) = Ok out)
    /\ (forall n assignment,
        (0 < n)%nat -> total_assignment assignment tl n ->
        exists trace, QIPSO.evaluate_trace G tl n assignment = Ok trace).
Proof.
  intros Hwf Hacyc. destruct (topological_sort_complete G Hwf Hacyc) as (tl & Htl).
  pose proof (topological_sort_sound G tl Hwf Htl) as Htopo.
  exists tl. split; [assumption |].
  split; [| split; [| split; [| split]]].
  - intros n out Hrun. rewrite (schedule_fcfs_unfold G n tl Htl) in Hrun.
    assert (Htopo' : is_topological (FCFS.normalize_execution_times G 0.1) tl = true)
      by now rewrite normalize_is_topological.
    destruct (fcfs_schedule_in_order_respects _ tl n out Htopo' Hrun) as [Hres Hkeys].
    split; [exact Hres | exact Hkeys].
  - intros depth self h Hnn Havg Hrun. unfold HEFT.schedule in Hrun.
    rewrite Htl in Hrun. simpl in Hrun.
    apply (heft_schedule_in_order_respects depth self h G tl); try assumption.
    now apply is_topological_NoDup with G.
  - intros n assignment trace Hrun.
    now apply (evaluate_trace_respects G tl n assignment).
  - intros n Hn. rewrite (schedule_fcfs_unfold G n tl Htl).
    destruct (fcfs_schedule_in_order_total (FCFS.normalize_execution_times G 0.1) tl n Hn)
      as (out & Hrun & _).
    eauto.
  - intros n assignment Hn Htot.
    destruct (evaluate_schedule_total G tl n assignment Hn Htot) as (trace & _ & _ & Hrun & _).
    eauto.
Qed.

Lemma schedulers_respect_precedence_witness :
  (exists out,
      snd (FCFS.schedule_fcfs diamond 2) = Ok out
      /\ respects_precedence diamond (spans (FCFS.schedule out)))
  /\ (exists h,
      HEFT.schedule 1000 (HEFT.init 2 1000) diamond = Ok h
      /\ respects_precedence diamond (spans (HEFT.schedule_result h)))
  /\ (exists trace,
      QIPSO.evaluate_trace diamond ["A"; "B"; "C"; "D"] 2
        [("A", 0%nat); ("B", 1%nat); ("C", 0%nat); ("D", 1%nat)] = Ok trace
      /\ respects_precedence diamond (trace_spans trace)).
Proof.
  destruct (schedulers_respect_precedence diamond eq_refl diamond_acyclic)
    as (tl & Htl & Hfcfs & Hheft & Heval & _).
  vm_compute in Htl. injection Htl as <-.
  split; [| split].
  - eexists. split; [vm_compute; reflexivity |].
    apply (Hfcfs 2%nat). vm_compute. reflexivity.
  - eexists. split; [vm_compute; reflexivity |].
    apply (Hheft 1000%nat (HEFT.init 2 1000)); [reflexivity | reflexivity |].
    vm_compute. reflexivity.
  - eexists. split; [vm_compute; reflexivity |].
    apply (Heval 2%nat [("A", 0%nat); ("B", 1%nat); ("C", 0%nat); ("D", 1%nat)]).
    vm_compute. reflexivity.
Defined.

(** ** Negative durations *)

(** C3 fails as worded: a task with [exec_time] -5 is scheduled, by the
    evaluator and by FCFS alike, as a task of duration 0.1. *)
Lemma negative_duration_is_accepted :
  exists m e out,
    QIPSO.evaluate_schedule negative_task ["A"] 1 [("A", 0%nat)] = Ok (m, e)
    /\ m == 0.1
    /\ snd (FCFS.schedule_fcfs negative_task 1) = Ok out
    /\ FCFS.makespan out == 0.1.
Proof.
  do 3 eexists.
  split; [vm_compute; reflexivity |].
  split; [vm_compute; reflexivity |].
  split; [vm_compute; reflexivity |].
  vm_compute. reflexivity.
Qed.

(** C3 as the code has it: on every well-formed acyclic graph, whatever
    its durations, the evaluator (on a total assignment to existing nodes)
    and FCFS (on at least one node) return a schedule; every task runs for
    [max(0.1, exec_time)], which is 0.1 for a negative [exec_time]. *)
Theorem negative_durations_are_clamped (G : DiGraph) :
  wf_graph G = true ->
  acyclic G ->
  exists tl,
    topological_sort G = Ok tl
    /\ (forall n assignment,
        (0 < n)%nat -> total_assignment assignment tl n ->
        exists trace m e,
          QIPSO.evaluate_trace G tl n assignment = Ok trace
          /\ QIPSO.evaluate_schedule G tl n assignment = Ok (m, e)
          /\ forall t node s f, In (t, (node, s, f)) trace ->
               f == s + QIPSO.eval_duration (node_attrs G t))
    /\ (forall n,
        (0 < n)%nat ->
        exists out,
          snd (FCFS.schedule_fcfs G n) = Ok out
          /\ forall t i, In (t, i) (FCFS.schedule out) ->
               end_time i == start_time i + QIPSO.eval_duration (node_attrs G t))
    /\ (forall t e, exec_time (node_attrs G t) = Some e -> e < 0 ->
          QIPSO.eval_duration (node_attrs G t) == 0.1).
Proof.
  intros Hwf Hacyc. destruct (topological_sort_complete G Hwf Hacyc) as (tl & Htl).
  exists tl. split; [assumption |]. split; [| split].
  - intros n assignment Hn Htot.
    destruct (evaluate_schedule_total G tl n assignment Hn Htot)
      as (trace & m & e & Htrace & Hrun & Hdur).
    exists trace, m, e. repeat split; try assumption.
    intros t node s f Hin. now rewrite (Hdur t node s f Hin).
  - intros n Hn. rewrite (schedule_fcfs_unfold G n tl Htl).
    destruct (fcfs_schedule_in_order_total (FCFS.normalize_execution_times G 0.1) tl n Hn)
      as (out & Hrun & Hent & _).
    exists out. split; [assumption |].
    intros t i Hin. destruct (Hent (t, i) Hin) as (_ & Hend & Hexec). simpl in *.
    rewrite Hend, Hexec, normalize_node_attrs by reflexivity.
    now rewrite fcfs_duration.
  - intros t e He Hneg. unfold QIPSO.eval_duration. rewrite He.
    apply Q.max_l. apply Qlt_le_weak. eapply Qlt_trans; [exact Hneg | reflexivity].
Qed.

Lemma negative_durations_are_clamped_witness :
  (exists trace m e,
      QIPSO.evaluate_trace negative_task ["A"] 1 [("A", 0%nat)] = Ok trace
      /\ QIPSO.evaluate_schedule negative_task ["A"] 1 [("A", 0%nat)] = Ok (m, e)
      /\ forall t node s f, In (t, (node, s, f)) trace ->
           f == s + QIPSO.eval_duration (node_attrs negative_task t))
  /\ (exists out,
      snd (FCFS.schedule_fcfs negative_task 1) = Ok out
      /\ forall t i, In (t, i) (FCFS.schedule out) ->
           end_time i == start_time i + QIPSO.eval_duration (node_attrs negative_task t))
  /\ QIPSO.eval_duration (node_attrs negative_task "A") == 0.1.
Proof.
  destruct (negative_durations_are_clamped negative_task eq_refl negative_task_acyclic)
    as (tl & Htl & Heval & Hfcfs & Hneg).
  vm_compute in Htl. injection Htl as <-.
  split; [| split].
  - apply (Heval 1%nat [("A", 0%nat)]); [lia |].
    intros t [<- | []]. exists 0%nat. split; [reflexivity | lia].
  - apply (Hfcfs 1%nat). lia.
  - apply (Hneg "A" (-5)); reflexivity.
Defined.

(** ** What FCFS does to its input graph *)

(** C9 fails as worded: the call overwrites an [exec_time] of 0.05 with 0.1. *)
Lemma fcfs_rewrites_short_exec_time :
  exec_time (node_attrs short_task "A") = Some 0.05
  /\ exec_time (node_attrs (fst (FCFS.schedule_fcfs short_task 1)) "A") = Some 0.1
  /\ fst (FCFS.schedule_fcfs short_task 1) <> short_task.
Proof.
  split; [reflexivity |]. split; [reflexivity |].
  intros H. apply (f_equal (fun G => exec_time (node_attrs G "A"))) in H.
  vm_compute in H. discriminate H.
Qed.

(** C9 as the code has it: the call keeps nodes, edges and [comp_cost], and
    replaces each task's attributes by their normalisation: an [exec_time]
    below 0.1 becomes 0.1, while a task whose [exec_time] is absent or at
    least 0.1 keeps its attributes; a graph with no [exec_time] below 0.1 is
    left as it was. *)
Theorem fcfs_graph_effect (G : DiGraph) (n : nat) :
  edges (fst (FCFS.schedule_fcfs G n)) = edges G
  /\ node_names (fst (FCFS.schedule_fcfs G n)) = node_names G
  /\ (forall t, comp_cost (node_attrs (fst (FCFS.schedule_fcfs G n)) t)
                = comp_cost (node_attrs G t))
  /\ (forall t e, exec_time (node_attrs G t) = Some e -> e < 0.1 ->
        exec_time (node_attrs (fst (FCFS.schedule_fcfs G n)) t) = Some 0.1)
  /\ (forall t e, exec_time (node_attrs G t) = Some e -> 0.1 <= e ->
        node_attrs (fst (FCFS.schedule_fcfs G n)) t = node_attrs G t)
  /\ (forall t, exec_time (node_attrs G t) = None ->
        node_attrs (fst (FCFS.schedule_fcfs G n)) t = node_attrs G t)
  /\ ((forall t a e, In (t, a) (nodes G) -> exec_time a = Some e -> 0.1 <= e) ->
        fst (FCFS.schedule_fcfs G n) = G).
Proof.
  unfold FCFS.schedule_fcfs. simpl.
  assert (Hattrs : forall t, node_attrs (FCFS.normalize_execution_times G 0.1) t
                             = FCFS.normalize_attrs 0.1 (node_attrs G t))
    by (intros t; now apply normalize_node_attrs).
  split; [reflexivity |].
  split; [unfold node_names; simpl; now rewrite map_map |].
  split; [| split; [| split; [| split]]].
  - intros t. rewrite Hattrs. unfold FCFS.normalize_attrs.
    destruct (Qltb _ 0.1); reflexivity.
  - intros t e He Hlt. rewrite Hattrs, (normalize_attrs_short _ e He Hlt). reflexivity.
  - intros t e He Hle. rewrite Hattrs. apply normalize_attrs_id.
    intros e' He'. congruence.
  - intros t He. rewrite Hattrs. apply normalize_attrs_id.
    intros e' He'. congruence.
  - intros Hall. unfold FCFS.normalize_execution_times. destruct G as [ns es]. simpl in *.
    f_equal. rewrite <- (map_id ns) at 2. apply map_ext_in.
    intros [t a] Hin. simpl. f_equal. apply normalize_attrs_id.
    intros e He. now apply (Hall t a e).
Qed.

Lemma fcfs_graph_effect_witness :
  exec_time (node_attrs (fst (FCFS.schedule_fcfs short_task 1)) "A") = Some 0.1
  /\ fst (FCFS.schedule_fcfs diamond 2) = diamond.
Proof.
  split.
  - apply (proj1 (proj2 (proj2 (proj2 (fcfs_graph_effect short_task 1)))) "A" 0.05).
    + reflexivity.
    + reflexivity.
  - apply (proj2 (proj2 (proj2 (proj2 (proj2 (proj2 (fcfs_graph_effect diamond 2))))))).
    intros t a e Hin He.
    assert (Ha : a = unit_task).
    { simpl in Hin. repeat destruct Hin as [[= <- <-] | Hin]; try reflexivity. destruct Hin. }
    subst a. injection He as <-. discriminate.
Defined.

(** ** Energy from the stored tuples *)

(** C7 fails as worded for HEFT: on one task with [exec_time] 1 and the
    default [avg_comp_cost] 1000, the emitted energy is 1 while the stored
    tuple gives 0.001. *)
Lemma heft_energy_differs_from_recomputation :
  exists h e,
    HEFT.schedule 1000 (HEFT.init 1 1000) single_task = Ok h
    /\ HEFT.calculate_energy h = Ok e
    /\ e == 1
    /\ recomputed_energy (HEFT.schedule_result h) (HEFT.node_powers h) == 0.001
    /\ ~ e == recomputed_energy (HEFT.schedule_result h) (HEFT.node_powers h).
Proof.
  do 2 eexists.
  split; [vm_compute; reflexivity |].
  split; [vm_compute; reflexivity |].
  split; [vm_compute; reflexivity |].
  split; [vm_compute; reflexivity |].
  vm_compute. discriminate.
Qed.

(** C7 as the code has it: the energy FCFS emits equals the sum recomputed
    from its stored tuples; the energy HEFT emits equals that sum times
    [avg_comp_cost]. *)
Theorem emitted_energy_from_stored_tuples (G : DiGraph) :
  (forall n out,
      snd (FCFS.schedule_fcfs G n) = Ok out ->
      FCFS.energy out == recomputed_energy (FCFS.schedule out) (FCFS.node_powers out))
  /\ (forall depth n avg h,
      HEFT.schedule depth (HEFT.init n avg) G = Ok h ->
      exists e,
        HEFT.calculate_energy h = Ok e
        /\ e == recomputed_energy (HEFT.schedule_result h) (HEFT.node_powers h)
                * HEFT.avg_comp_cost h).
Proof.
  split.
  - intros n out Hrun. unfold FCFS.schedule_fcfs in Hrun. simpl in Hrun.
    bind_destruct Hrun as tl Htl.
    eapply fcfs_schedule_in_order_energy; eassumption.
  - intros depth n avg h Hrun. unfold HEFT.schedule in Hrun.
    bind_destruct Hrun as tl Htl.
    eapply heft_energy_scaled; eassumption.
Qed.

Lemma emitted_energy_from_stored_tuples_witness :
  (exists out,
      snd (FCFS.schedule_fcfs diamond 2) = Ok out
      /\ FCFS.energy out == recomputed_energy (FCFS.schedule out) (FCFS.node_powers out))
  /\ (exists h e,
      HEFT.schedule 1000 (HEFT.init 2 1000) diamond = Ok h
      /\ HEFT.calculate_energy h = Ok e
      /\ e == recomputed_energy (HEFT.schedule_result h) (HEFT.node_powers h)
              * HEFT.avg_comp_cost h).
Proof.
  destruct (emitted_energy_from_stored_tuples diamond) as [Hfcfs Hheft].
  split.
  - eexists. split; [vm_compute; reflexivity |].
    apply (Hfcfs 2%nat). vm_compute. reflexivity.
  - destruct (HEFT.schedule 1000 (HEFT.init 2 1000) diamond) as [h | err] eqn:E.
    + destruct (Hheft 1000%nat 2%nat 1000 h E) as (e & He & Heq).
      exists h, e. split; [reflexivity |]. split; [exact He | exact Heq].
    + vm_compute in E. discriminate E.
Defined.

(** ** Construction of the optimizer *)

(** C4 fails as worded: with zero particles and zero iterations the
    constructor succeeds. *)
Lemma constructor_accepts_zero_particles_and_iterations :
  refused_by_spec single_task 1 0 0 0.3
  /\ is_ok (QIPSO.init single_task 1 0 0 0.3) = true.
Proof.
  split; [| reflexivity].
  unfold refused_by_spec. do 4 right. left. lia.
Qed.

(** C4 as the code has it: on a well-formed graph the constructor succeeds
    exactly when the graph is acyclic and has a task, the node count is at
    least 1, the mutation probability lies in [0,1] and the particle count
    is not negative.  So it raises for a cyclic graph, a node count below 1,
    a mutation probability outside [0,1] and a negative particle count, and
    accepts a particle count of 0 and every [max_iter]. *)
Theorem constructor_refusals (G : DiGraph) (n p i : Z) (mp : Q) :
  wf_graph G = true ->
  (is_ok (QIPSO.init G n p i mp) = true <->
     acyclic G /\ nodes G <> [] /\ (1 <= n)%Z /\ 0 <= mp /\ mp <= 1 /\ (0 <= p)%Z)
  /\ (refused_by_code G n p mp -> is_ok (QIPSO.init G n p i mp) = false).
Proof.
  intros Hwf.
  assert (Hiff : is_ok (QIPSO.init G n p i mp) = true <->
                 acyclic G /\ nodes G <> [] /\ (1 <= n)%Z /\ 0 <= mp /\ mp <= 1 /\ (0 <= p)%Z).
  { split.
    - destruct (QIPSO.init G n p i mp) as [self | e] eqn:E; [intros _ | discriminate].
      apply init_ok_inv in E as (Hn & Hmp0 & Hmp1 & Hp & Htl & Hcp).
      pose proof (topological_sort_sound G _ Hwf Htl) as Htopo.
      split; [now apply (is_topological_acyclic G (QIPSO.task_list self)) |].
      split; [| auto].
      intros Hnil.
      apply (is_topological_names G (QIPSO.task_list self) Htopo).
      + intros Hempty. rewrite Hempty, find_critical_path_empty in Hcp. discriminate.
      + unfold node_names. now rewrite Hnil.
    - intros (Hacyc & Hne & Hn & Hmp0 & Hmp1 & Hp).
      destruct (topological_sort_complete G Hwf Hacyc) as (tl & Htl).
      assert (Htlne : tl <> []).
      { apply (is_topological_nonempty G tl (topological_sort_sound G tl Hwf Htl)).
        unfold node_names. destruct (nodes G); [congruence | discriminate]. }
      destruct (init_accepts G n p i mp tl Hwf Htl Htlne Hn Hmp0 Hmp1 Hp) as (self & -> & _).
      reflexivity. }
  split; [exact Hiff |].
  intros Href. apply Bool.not_true_is_false. intros E.
  apply Hiff in E as (Hacyc & _ & Hn & Hmp0 & Hmp1 & Hp).
  destruct Href as [Hcyc | [Hn' | [Hlt | [Hgt | Hp']]]].
  - now apply Hcyc.
  - lia.
  - apply (Qlt_not_le _ _ Hlt Hmp0).
  - apply (Qlt_not_le _ _ Hgt Hmp1).
  - lia.
Qed.

Lemma constructor_refusals_witness :
  is_ok (QIPSO.init single_task 1 (-1) 100 0.3) = false
  /\ is_ok (QIPSO.init single_task 1 0 (-3) 0.3) = true.
Proof.
  destruct (constructor_refusals single_task 1 (-1) 100 0.3 eq_refl) as [_ Href].
  destruct (constructor_refusals single_task 1 0 (-3) 0.3 eq_refl) as [Hacc _].
  split.
  - apply Href. unfold refused_by_code. do 4 right. lia.
  - apply Hacc. split; [exact single_task_acyclic |].
    split; [discriminate |]. split; [lia |].
    split; [discriminate |]. split; [discriminate | lia].
Defined.

(** ** The critical-path analysis returns *)

(** C8 fails as worded on the graph without tasks: it is well formed and
    acyclic, and [find_critical_path] raises [IndexError] on it. *)
Lemma find_critical_path_raises_on_empty_graph :
  wf_graph empty_graph = true
  /\ acyclic empty_graph
  /\ topological_sort empty_graph = Ok []
  /\ QIPSO.find_critical_path empty_graph [] = Raise IndexError.
Proof.
  split; [reflexivity |].
  split; [exact empty_graph_acyclic |].
  split; reflexivity.
Qed.

(** C8 as the code has it: on every well-formed acyclic graph with at least
    one task, a single task or no edges included, [find_critical_path]
    (run on the topological order [tl]) returns; its list holds the tasks
    selected by the tolerance test, or the first task of the order when none
    is selected, so it is never empty, and it names tasks of the graph
    only. *)
Theorem find_critical_path_returns (G : DiGraph) :
  wf_graph G = true ->
  acyclic G ->
  nodes G <> [] ->
  exists tl es lf selected es' cp len,
    topological_sort G = Ok tl
    /\ QIPSO.forward_pass G (QIPSO.build_task_times G tl) tl [] = Ok es
    /\ QIPSO.backward_pass G (QIPSO.build_task_times G tl) es (rev tl) [] = Ok lf
    /\ QIPSO.select_critical (QIPSO.build_task_times G tl) tl es lf = Ok (selected, es')
    /\ QIPSO.find_critical_path G tl = Ok (cp, len)
    /\ cp = match selected with [] => [hd "" tl] | _ :: _ => selected end
    /\ cp <> []
    /\ (forall t, In t cp -> In t tl).
Proof.
  intros Hwf Hacyc Hne.
  destruct (topological_sort_complete G Hwf Hacyc) as (tl & Htl).
  pose proof (topological_sort_sound G tl Hwf Htl) as Htopo.
  assert (Htlne : tl <> []).
  { apply (is_topological_nonempty G tl Htopo).
    unfold node_names. destruct (nodes G); [congruence | discriminate]. }
  destruct (find_critical_path_total G tl (is_topological_edges G tl Htopo) Htlne)
    as (es & lf & sel & es' & cp & len & H).
  exists tl, es, lf, sel, es', cp, len. split; assumption.
Qed.

Lemma find_critical_path_returns_witness :
  (exists cp len, QIPSO.find_critical_path single_task ["A"] = Ok (cp, len) /\ cp <> [])
  /\ (exists cp len,
        QIPSO.find_critical_path three_tasks ["A"; "B"; "C"] = Ok (cp, len) /\ cp <> []).
Proof.
  split.
  - destruct (find_critical_path_returns single_task eq_refl single_task_acyclic)
      as (tl & es & lf & sel & es' & cp & len & Htl & _ & _ & _ & Hrun & _ & Hne & _);
      [discriminate |].
    vm_compute in Htl. injection Htl as <-.
    exists cp, len. split; assumption.
  - destruct (find_critical_path_returns three_tasks eq_refl three_tasks_acyclic)
      as (tl & es & lf & sel & es' & cp & len & Htl & _ & _ & _ & Hrun & _ & Hne & _);
      [discriminate |].
    vm_compute in Htl. injection Htl as <-.
    exists cp, len. split; assumption.
Defined.

(** ** The convergence test *)

(** C2 at a run of one particle on three independent tasks of duration 50
    and two nodes: the best makespan is 150 for twenty rounds and drops to
    100 in round 20.  The loop stops there as converged, although the best
    makespan is 50 away from the critical length and improved by 50 over
    the last 20 history entries. *)
Theorem stagnation_test_stops_an_improving_run :
  exists self final,
    QIPSO.init three_tasks 2 1 100 0.3 = Ok self
    /\ QIPSO.critical_length self == 50
    /\ QIPSO.run_optimization late_improvement self = Ok (QIPSO.CONVERGED, final)
    /\ List.length (QIPSO.convergence_history final) = 21%nat
    /\ map fst (lastn 20 (QIPSO.convergence_history final))
       = repeat (Fin 150) 19 ++ [Fin 100]
    /\ QIPSO.global_best_score final = Fin 100
    /\ abs_diff_lt (QIPSO.global_best_score final) (Fin (QIPSO.critical_length final)) 0.1
       = false
    /\ window_improvement (lastn 20 (QIPSO.convergence_history final)) = Some 50
    /\ ~ 50 < 0.1.
Proof.
  do 2 eexists.
  split; [vm_compute; reflexivity |].
  split; [vm_compute; reflexivity |].
  split; [vm_compute; reflexivity |].
  split; [vm_compute; reflexivity |].
  split; [vm_compute; reflexivity |].
  split; [vm_compute; reflexivity |].
  split; [vm_compute; reflexivity |].
  split; [vm_compute; reflexivity |].
  vm_compute. discriminate.
Qed.

(** * Further properties of the schedulers and their callers *)


(** ** Sums *)

Lemma fold_plus_shift (xs : list Q) (a : Q) : fold_left Qplus xs a == a + py_sum xs.
Proof.
  unfold py_sum. revert a. induction xs as [| x xs IH]; intros a; simpl.
  - ring.
  - rewrite IH. rewrite (IH (0 + x)). ring.
Qed.

Lemma py_sum_cons (x : Q) (xs : list Q) : py_sum (x :: xs) == x + py_sum xs.
Proof. unfold py_sum at 1. simpl. rewrite fold_plus_shift. ring. Qed.

Lemma py_sum_nil : py_sum [] == 0.
Proof. reflexivity. Qed.

Lemma py_sum_repeat_zero (n : nat) : py_sum (repeat 0 n) == 0.
Proof.
  induction n as [| n IH]; [reflexivity |].
  simpl repeat. rewrite py_sum_cons, IH. ring.
Qed.

Lemma py_sum_list_set (xs : list Q) :
  forall i old x, nth_error xs i = Some old ->
    py_sum (list_set xs i x) == py_sum xs - old + x.
Proof.
  induction xs as [| y xs IH]; intros [| i] old x H; simpl in H; try discriminate.
  - injection H as ->. simpl. rewrite !py_sum_cons. ring.
  - simpl. rewrite !py_sum_cons. rewrite (IH _ _ _ H). ring.
Qed.

Lemma list_item_nth_error (A : Type) (xs : list A) (i : nat) (x : A) :
  list_item xs i = Ok x -> nth_error xs i = Some x.
Proof.
  unfold list_item. destruct (nth_error xs i); [| discriminate]. now intros [= ->].
Qed.

Lemma dict_item_get (V : Type) (d : dict V) (k : string) (v : V) :
  dict_item d k = Ok v -> dict_get d k = Some v.
Proof.
  unfold dict_item. destruct (dict_get d k); [| discriminate]. now intros [= ->].
Qed.

(** ** The evaluator's energy *)

Lemma evaluate_tasks_energy (dag : DiGraph) (pw : list Q) (sched : dict nat) :
  forall tasks st trace st',
    QIPSO.evaluate_tasks dag pw sched tasks st = Ok (trace, st') ->
    py_sum (QIPSO.device_energy st')
    == py_sum (QIPSO.device_energy st) + energy_by_task dag pw sched tasks.
Proof.
  induction tasks as [| task rest IH]; intros st trace st' H; simpl in H.
  - injection H as <- <-. simpl. ring.
  - bind_destruct H as r1 H1. destruct r1 as [[[node s] e] st1].
    bind_destruct H as r2 H2. destruct r2 as [trace' st2]. injection H as <- <-.
    rewrite (IH _ _ _ H2). clear IH H2.
    unfold QIPSO.evaluate_task in H1.
    bind_destruct H1 as node' Hnode. bind_destruct H1 as busy Hbusy.
    bind_destruct H1 as en Hen. bind_destruct H1 as power Hpower.
    injection H1 as <- <- <- <-. simpl.
    rewrite (py_sum_list_set _ _ _ _ (list_item_nth_error _ _ _ _ Hen)).
    unfold dict_get_default. rewrite (dict_item_get _ _ _ _ Hnode).
    rewrite (list_item_nth _ _ _ 0 Hpower). ring.
Qed.

(** ** Which schedules the evaluator accepts *)

Lemma evaluate_tasks_assignment (dag : DiGraph) (pw : list Q) (sched : dict nat) (n : nat) :
  forall tasks st trace st',
    QIPSO.evaluate_tasks dag pw sched tasks st = Ok (trace, st') ->
    List.length (QIPSO.device_end_times st) = n ->
    total_assignment sched tasks n.
Proof.
  induction tasks as [| task rest IH]; intros st trace st' H Hlen; simpl in H.
  - intros t [].
  - bind_destruct H as r1 H1. destruct r1 as [[[node s] e] st1].
    bind_destruct H as r2 H2. destruct r2 as [trace' st2]. injection H as <- <-.
    pose proof (evaluate_task_inv _ _ _ _ _ _ _ _ _ H1) as (Hget & _ & _ & Hl & _).
    assert (Hnode : (node < n)%nat).
    { unfold QIPSO.evaluate_task in H1.
      bind_destruct H1 as node' Hnode. bind_destruct H1 as busy Hbusy.
      bind_destruct H1 as en Hen. bind_destruct H1 as power Hpower.
      injection H1 as <- <- <- <-.
      rewrite <- Hlen. eapply list_item_lt. eassumption. }
    intros t [<- | Hin].
    + exists node. split; assumption.
    + apply (IH _ _ _ H2); [congruence | assumption].
Qed.

(** The loop stops at the first task whose round raises. *)
Lemma evaluate_tasks_raises (dag : DiGraph) (pw : list Q) (sched : dict nat) (n : nat)
    (t : string) (post : list string) (err : exn) :
  List.length pw = n ->
  (forall st, List.length (QIPSO.device_end_times st) = n ->
     QIPSO.evaluate_task dag pw sched st t = Raise err) ->
  forall pre st,
    total_assignment sched pre n ->
    List.length (QIPSO.device_end_times st) = n ->
    List.length (QIPSO.device_energy st) = n ->
    QIPSO.evaluate_tasks dag pw sched (pre ++ t :: post) st = Raise err.
Proof.
  intros Hpw Hstop. induction pre as [| task rest IH]; intros st Htot Hd He.
  - simpl. now rewrite (Hstop st Hd).
  - destruct (evaluate_tasks_total dag pw sched n Hpw [task] st) as (tr & st1 & Hrun & Hd1 & _);
      [intros u [<- | []]; apply Htot; now left | assumption | assumption |].
    simpl in Hrun. bind_destruct Hrun as r Hr. destruct r as [[[node s] e] st1'].
    injection Hrun as _ <-.
    pose proof (evaluate_task_inv _ _ _ _ _ _ _ _ _ Hr) as (_ & _ & _ & _ & He1 & _).
    rewrite <- app_comm_cons.
    cbn [QIPSO.evaluate_tasks]. rewrite Hr. cbn [bind].
    rewrite IH; [reflexivity | | assumption | congruence].
    intros u Hu. apply Htot. now right.
Qed.

Lemma evaluate_schedule_raises (G : DiGraph) (n : nat) (sched : dict nat)
    (pre : list string) (t : string) (post : list string) (err : exn) :
  (forall st, List.length (QIPSO.device_end_times st) = n ->
     QIPSO.evaluate_task G (default_node_powers n) sched st t = Raise err) ->
  total_assignment sched pre n ->
  QIPSO.evaluate_schedule G (pre ++ t :: post) n sched = Raise err.
Proof.
  intros Hstop Htot. unfold QIPSO.evaluate_schedule.
  rewrite (evaluate_tasks_raises G (default_node_powers n) sched n t post err
             (default_node_powers_length n) Hstop pre);
    [reflexivity | assumption | apply repeat_length | apply repeat_length].
Qed.

(** Python's reading of an integer index, as a position. *)
Lemma list_position_lt (n : nat) (k : Z) :
  (list_position n k < n)%nat <-> (- Z.of_nat n <= k < Z.of_nat n)%Z.
Proof.
  unfold list_position.
  destruct (Z.leb_spec 0 k); [lia |].
  destruct (Z.leb_spec (- Z.of_nat n) k); lia.
Qed.

Lemma dict_get_positions (n : nat) (schedule : dict Z) (t : string) :
  dict_get (map (fun kv => (fst kv, list_position n (snd kv))) schedule) t
  = option_map (list_position n) (dict_get schedule t).
Proof.
  induction schedule as [| [k v] s IH]; simpl; [reflexivity |].
  destruct (String.eqb k t); [reflexivity | exact IH].
Qed.

Lemma total_assignment_positions (n : nat) (schedule : dict Z) (tasks : list string) :
  total_assignment (map (fun kv => (fst kv, list_position n (snd kv))) schedule) tasks n
  <-> forall t, In t tasks ->
        exists k, dict_get schedule t = Some k /\ (- Z.of_nat n <= k < Z.of_nat n)%Z.
Proof.
  unfold total_assignment. split; intros H t Ht; specialize (H t Ht).
  - destruct H as (node & Hget & Hlt). rewrite dict_get_positions in Hget.
    destruct (dict_get schedule t) as [k |]; [| discriminate].
    injection Hget as <-. exists k. split; [reflexivity | now apply list_position_lt].
  - destruct H as (k & Hget & Hk). exists (list_position n k).
    rewrite dict_get_positions, Hget. split; [reflexivity | now apply list_position_lt].
Qed.

(** X2. With at least one node, [evaluate_schedule] returns exactly for the
    schedules that give every task of the list an integer [k] with
    [-num_nodes <= k < num_nodes], a negative one counting the nodes from
    the last.  Otherwise the first task without such a node decides the
    exception: [KeyError] when the schedule has no entry for it,
    [IndexError] when its integer is out of range. *)
Theorem evaluate_schedule_returns_iff_total (G : DiGraph) (tl : list string) (n : nat)
    (schedule : dict Z) :
  (0 < n)%nat ->
  (is_ok (evaluate_schedule_int G tl n schedule) = true
   <-> forall t, In t tl ->
         exists k, dict_get schedule t = Some k /\ (- Z.of_nat n <= k < Z.of_nat n)%Z)
  /\ (forall pre t post,
        tl = (pre ++ t :: post)%list ->
        (forall u, In u pre ->
           exists k, dict_get schedule u = Some k /\ (- Z.of_nat n <= k < Z.of_nat n)%Z) ->
        (dict_get schedule t = None ->
           evaluate_schedule_int G tl n schedule = Raise KeyError)
        /\ (forall k, dict_get schedule t = Some k ->
              (k < - Z.of_nat n \/ Z.of_nat n <= k)%Z ->
              evaluate_schedule_int G tl n schedule = Raise IndexError)).
Proof.
  intros Hn. unfold evaluate_schedule_int.
  set (sched := map (fun kv => (fst kv, list_position n (snd kv))) schedule).
  split.
  - rewrite <- total_assignment_positions. fold sched. split.
    + destruct (QIPSO.evaluate_schedule G tl n sched) as [[m e] | err] eqn:E;
        [intros _ | discriminate].
      unfold QIPSO.evaluate_schedule in E.
      bind_destruct E as r Hr. destruct r as [trace st].
      apply (evaluate_tasks_assignment _ _ _ n _ _ _ _ Hr). simpl. apply repeat_length.
    + intros Htot.
      destruct (evaluate_schedule_total G tl n sched Hn Htot)
        as (trace & m & e & _ & Hrun & _).
      now rewrite Hrun.
  - intros pre t post -> Hpre.
    apply total_assignment_positions in Hpre. fold sched in Hpre.
    split.
    + intros Hnone. apply evaluate_schedule_raises; [| assumption].
      intros st _. unfold QIPSO.evaluate_task, dict_item, sched.
      rewrite dict_get_positions, Hnone. reflexivity.
    + intros k Hget Hout. apply evaluate_schedule_raises; [| assumption].
      intros st Hlen. unfold QIPSO.evaluate_task, dict_item, sched.
      rewrite dict_get_positions, Hget. cbn [option_map bind].
      unfold list_item.
      assert (Hge : (n <= list_position n k)%nat).
      { destruct (Nat.lt_ge_cases (list_position n k) n) as [Hlt | Hge]; [| assumption].
        apply list_position_lt in Hlt. lia. }
      assert (Hnone : nth_error (QIPSO.device_end_times st) (list_position n k) = None)
        by (apply nth_error_None; lia).
      rewrite Hnone. reflexivity.
Qed.

Lemma evaluate_schedule_returns_iff_total_witness :
  is_ok (evaluate_schedule_int chain_5_1 ["A"; "B"] 2 [("A", 0%Z); ("B", (-1)%Z)]) = true
  /\ evaluate_schedule_int chain_5_1 ["A"; "B"] 2 [("A", 0%Z); ("B", 2%Z)]
     = Raise IndexError
  /\ evaluate_schedule_int chain_5_1 ["A"; "B"] 2 [("A", 0%Z)] = Raise KeyError.
Proof.
  assert (Hpre : forall sched : dict Z,
             dict_get sched "A" = Some 0%Z ->
             forall u, In u ["A"] ->
               exists k, dict_get sched u = Some k /\ (- Z.of_nat 2 <= k < Z.of_nat 2)%Z).
  { intros sched HA u [<- | []]. exists 0%Z. split; [assumption | lia]. }
  split; [| split].
  - apply (proj1 (evaluate_schedule_returns_iff_total chain_5_1 ["A"; "B"] 2
                    [("A", 0%Z); ("B", (-1)%Z)] ltac:(lia))).
    intros t [<- | [<- | []]]; [exists 0%Z | exists (-1)%Z]; split; (reflexivity || lia).
  - apply (proj2 (proj2 (evaluate_schedule_returns_iff_total chain_5_1 ["A"; "B"] 2
                           [("A", 0%Z); ("B", 2%Z)] ltac:(lia))
                    ["A"] "B" [] eq_refl (Hpre [("A", 0%Z); ("B", 2%Z)] eq_refl)) 2%Z);
      [reflexivity | lia].
  - apply (proj1 (proj2 (evaluate_schedule_returns_iff_total chain_5_1 ["A"; "B"] 2
                           [("A", 0%Z)] ltac:(lia))
                    ["A"] "B" [] eq_refl (Hpre [("A", 0%Z)] eq_refl))).
    reflexivity.
Defined.

(** ** Bounds on the makespan *)

Lemma fold_max_le (xs : list Q) (a b : Q) :
  a <= b -> (forall x, In x xs -> x <= b) -> fold_left Qmax xs a <= b.
Proof.
  revert a. induction xs as [| x xs IH]; intros a Ha Hxs; simpl.
  - assumption.
  - apply IH.
    + apply Q.max_lub; [assumption | apply Hxs; now left].
    + intros y Hy. apply Hxs. now right.
Qed.

Lemma max_with_zero_le (xs : list Q) (b : Q) :
  0 <= b -> (forall x, In x xs -> x <= b) -> max_with_zero xs <= b.
Proof.
  intros Hb Hxs. unfold max_with_zero.
  destruct xs as [| x xs]; simpl.
  - assumption.
  - apply fold_max_le.
    + apply Hxs. now left.
    + intros y Hy. apply in_app_or in Hy as [Hy | [<- | []]].
      * apply Hxs. now right.
      * assumption.
Qed.

Lemma py_max_le (xs : list Q) (m b : Q) :
  py_max xs = Ok m -> (forall x, In x xs -> x <= b) -> m <= b.
Proof.
  destruct xs as [| x xs]; simpl; [discriminate |].
  intros [= <-] Hxs. apply fold_max_le.
  - apply Hxs. now left.
  - intros y Hy. apply Hxs. now right.
Qed.

Lemma list_set_in (A : Type) (xs : list A) :
  forall i v x, In x (list_set xs i v) -> x = v \/ In x xs.
Proof.
  induction xs as [| y xs IH]; intros [| i] v x H; simpl in H; try contradiction.
  - destruct H as [<- | H]; [now left | right; now right].
  - destruct H as [<- | H]; [right; now left |].
    destruct (IH _ _ _ H) as [-> | Hin]; [now left | right; now right].
Qed.

Lemma path_duration_nonneg (G : DiGraph) (w : list string) : 0 <= path_duration G w.
Proof.
  induction w as [| t w IH].
  - apply Qle_refl.
  - change (0 <= QIPSO.eval_duration (node_attrs G t) + path_duration G w).
    apply (Qle_trans _ (0 + 0)); [apply Qle_refl |].
    apply Qplus_le_compat; [| assumption].
    apply eval_duration_pos.
Qed.

Lemma evaluate_tasks_serial_bound (dag : DiGraph) (pw : list Q) (sched : dict nat) :
  forall tasks st trace st' b,
    QIPSO.evaluate_tasks dag pw sched tasks st = Ok (trace, st') ->
    0 <= b ->
    (forall x, In x (QIPSO.device_end_times st) -> x <= b) ->
    (forall t e, dict_get (QIPSO.task_finish_times st) t = Some e -> e <= b) ->
    forall x, In x (QIPSO.device_end_times st') -> x <= b + path_duration dag tasks.
Proof.
  induction tasks as [| task rest IH]; intros st trace st' b H Hb Hdev Hfin; simpl in H.
  - injection H as <- <-. intros x Hx. unfold path_duration. simpl.
    rewrite Qplus_0_r. now apply Hdev.
  - bind_destruct H as r1 H1. destruct r1 as [[[node s] e] st1].
    bind_destruct H as r2 H2. destruct r2 as [trace' st2]. injection H as <- <-.
    pose proof (eval_duration_pos (node_attrs dag task)) as Hd.
    unfold QIPSO.evaluate_task in H1.
    bind_destruct H1 as node' Hnode. bind_destruct H1 as busy Hbusy.
    bind_destruct H1 as en Hen. bind_destruct H1 as power Hpower.
    injection H1 as <- <- <- <-.
    set (d := QIPSO.eval_duration (node_attrs dag task)) in *.
    assert (Hstart :
      Qmax (max_with_zero
              (map (fun dep => dict_get_default (QIPSO.task_finish_times st) dep 0)
                   (predecessors dag task))) busy <= b).
    { apply Q.max_lub.
      - apply max_with_zero_le; [assumption |].
        intros x Hx. apply in_map_iff in Hx as (dep & <- & _).
        unfold dict_get_default.
        destruct (dict_get (QIPSO.task_finish_times st) dep) eqn:Hg;
          [now apply (Hfin dep) | assumption].
      - apply Hdev. apply list_item_nth_error in Hbusy. eapply nth_error_In; eassumption. }
    assert (Hle : b <= b + d).
    { rewrite <- (Qplus_0_r b) at 1. apply Qplus_le_r. exact Hd. }
    intros x Hx.
    assert (Heq : b + path_duration dag (task :: rest) == (b + d) + path_duration dag rest).
    { unfold path_duration. simpl. fold d. ring. }
    rewrite Heq.
    apply (IH _ _ _ (b + d) H2); simpl.
    + apply (Qle_trans _ b); assumption.
    + intros y Hy. apply list_set_in in Hy as [-> | Hy].
      * apply Qplus_le_l. exact Hstart.
      * eapply Qle_trans; [apply Hdev; exact Hy | exact Hle].
    + intros t e Hg. destruct (String.eqb_spec task t) as [<- | Hne].
      * rewrite dict_get_set_same in Hg. injection Hg as <-.
        apply Qplus_le_l. exact Hstart.
      * rewrite dict_get_set_other in Hg by assumption.
        eapply Qle_trans; [eapply Hfin; exact Hg | exact Hle].
    + assumption.
Qed.

(** X6. The evaluator's makespan never exceeds the total duration of the tasks:
    no assignment is worse than running everything back to back. *)
Theorem evaluate_schedule_below_serial_time (G : DiGraph) (tl : list string) (n : nat)
    (assignment : dict nat) (m e : Q) :
  QIPSO.evaluate_schedule G tl n assignment = Ok (m, e) ->
  m <= path_duration G tl.
Proof.
  unfold QIPSO.evaluate_schedule. intros H.
  bind_destruct H as r Hr. destruct r as [trace st].
  bind_destruct H as mk Hmk. injection H as <- <-.
  apply (py_max_le _ _ _ Hmk). intros x Hx.
  rewrite <- (Qplus_0_l (path_duration G tl)).
  apply (evaluate_tasks_serial_bound _ _ _ _ _ _ _ 0 Hr); simpl.
  - apply Qle_refl.
  - intros y Hy. apply repeat_spec in Hy. subst y. apply Qle_refl.
  - intros t f Hf. discriminate.
  - assumption.
Qed.

Lemma evaluate_schedule_below_serial_time_witness :
  exists m e,
    QIPSO.evaluate_schedule diamond ["A"; "B"; "C"; "D"] 2
      [("A", 0%nat); ("B", 1%nat); ("C", 0%nat); ("D", 1%nat)] = Ok (m, e)
    /\ m <= path_duration diamond ["A"; "B"; "C"; "D"].
Proof.
  destruct (QIPSO.evaluate_schedule diamond ["A"; "B"; "C"; "D"] 2
              [("A", 0%nat); ("B", 1%nat); ("C", 0%nat); ("D", 1%nat)])
    as [[m e] | err] eqn:E; [| vm_compute in E; discriminate].
  exists m, e. split; [reflexivity |].
  exact (evaluate_schedule_below_serial_time _ _ _ _ _ _ E).
Defined.

Lemma evaluate_tasks_load_bound (dag : DiGraph) (pw : list Q) (sched : dict nat) (k : nat) :
  forall tasks st trace st' x,
    QIPSO.evaluate_tasks dag pw sched tasks st = Ok (trace, st') ->
    nth_error (QIPSO.device_end_times st) k = Some x ->
    exists x', nth_error (QIPSO.device_end_times st') k = Some x'
               /\ x + node_load dag sched k tasks <= x'.
Proof.
  induction tasks as [| task rest IH]; intros st trace st' x H Hx; simpl in H.
  - injection H as <- <-. exists x. split; [assumption |].
    simpl. rewrite Qplus_0_r. apply Qle_refl.
  - bind_destruct H as r1 H1. destruct r1 as [[[node s] e] st1].
    bind_destruct H as r2 H2. destruct r2 as [trace' st2]. injection H as <- <-.
    unfold QIPSO.evaluate_task in H1.
    bind_destruct H1 as node' Hnode. bind_destruct H1 as busy Hbusy.
    bind_destruct H1 as en Hen. bind_destruct H1 as power Hpower.
    injection H1 as <- <- <- <-.
    apply list_item_nth_error in Hbusy.
    simpl node_load. unfold dict_get_default at 1.
    rewrite (dict_item_get _ _ _ _ Hnode).
    destruct (Nat.eqb_spec node' k) as [-> | Hne].
    + assert (Hxb : busy = x) by congruence. subst busy.
      destruct (IH _ _ _ (Qmax (max_with_zero
                  (map (fun dep => dict_get_default (QIPSO.task_finish_times st) dep 0)
                       (predecessors dag task))) x
                + QIPSO.eval_duration (node_attrs dag task)) H2)
        as (x' & Hx' & Hle).
      { simpl. apply nth_error_list_set_same. apply nth_error_Some. congruence. }
      exists x'. split; [assumption |].
      eapply Qle_trans; [| exact Hle].
      rewrite Qplus_assoc. apply Qplus_le_l. apply Qplus_le_l. apply Q.le_max_r.
    + destruct (IH _ _ _ x H2) as (x' & Hx' & Hle).
      { simpl. rewrite nth_error_list_set_other by congruence. assumption. }
      exists x'. split; assumption.
Qed.

(** X5. The evaluator's makespan is at least the total duration of the tasks
    assigned to any one node. *)
Theorem evaluate_schedule_above_node_load (G : DiGraph) (tl : list string) (n : nat)
    (assignment : dict nat) (m e : Q) (k : nat) :
  QIPSO.evaluate_schedule G tl n assignment = Ok (m, e) ->
  (k < n)%nat ->
  node_load G assignment k tl <= m.
Proof.
  unfold QIPSO.evaluate_schedule. intros H Hk.
  bind_destruct H as r Hr. destruct r as [trace st].
  bind_destruct H as mk Hmk. injection H as <- <-.
  destruct (evaluate_tasks_load_bound _ _ _ k _ _ _ _ 0 Hr) as (x' & Hx' & Hle).
  - simpl. rewrite nth_error_repeat by assumption. reflexivity.
  - rewrite Qplus_0_l in Hle.
    eapply Qle_trans; [exact Hle |]. eapply py_max_nth; eassumption.
Qed.

Lemma evaluate_schedule_above_node_load_witness :
  exists m e,
    QIPSO.evaluate_schedule diamond ["A"; "B"; "C"; "D"] 2
      [("A", 0%nat); ("B", 1%nat); ("C", 0%nat); ("D", 1%nat)] = Ok (m, e)
    /\ node_load diamond [("A", 0%nat); ("B", 1%nat); ("C", 0%nat); ("D", 1%nat)] 1
         ["A"; "B"; "C"; "D"] <= m.
Proof.
  destruct (QIPSO.evaluate_schedule diamond ["A"; "B"; "C"; "D"] 2
              [("A", 0%nat); ("B", 1%nat); ("C", 0%nat); ("D", 1%nat)])
    as [[m e] | err] eqn:E; [| vm_compute in E; discriminate].
  exists m, e. split; [reflexivity |].
  apply (evaluate_schedule_above_node_load _ _ _ _ _ _ 1%nat E). lia.
Defined.

Lemma node_load_all (G : DiGraph) (assignment : dict nat) (k : nat) (tl : list string) :
  (forall t, In t tl -> dict_get_default assignment t 0%nat = k) ->
  node_load G assignment k tl = path_duration G tl.
Proof.
  induction tl as [| t tl IH]; intros H; [reflexivity |].
  unfold path_duration. simpl. rewrite (H t (or_introl eq_refl)), Nat.eqb_refl.
  f_equal. apply IH. intros u Hu. apply H. now right.
Qed.

Lemma energy_by_task_node0 (G : DiGraph) (assignment : dict nat) (pw : list Q)
    (tl : list string) :
  nth 0 pw 0 == 1 ->
  (forall t, In t tl -> dict_get_default assignment t 0%nat = 0%nat) ->
  energy_by_task G pw assignment tl == path_duration G tl.
Proof.
  intros Hone. induction tl as [| t tl IH]; intros Hzero; [reflexivity |].
  change (energy_by_task G pw assignment (t :: tl))
    with (nth (dict_get_default assignment t 0%nat) pw 0
          * QIPSO.eval_duration (node_attrs G t) + energy_by_task G pw assignment tl).
  change (path_duration G (t :: tl))
    with (QIPSO.eval_duration (node_attrs G t) + path_duration G tl).
  rewrite (Hzero t (or_introl eq_refl)), Hone, IH.
  - ring.
  - intros u Hu. apply Hzero. now right.
Qed.

(** X7. On a single node the evaluator runs the tasks back to back: the
    makespan is the total duration and the energy is the same number (the
    power of node 0 is 1). *)
Theorem evaluate_schedule_single_node (G : DiGraph) (tl : list string)
    (assignment : dict nat) (m e : Q) :
  QIPSO.evaluate_schedule G tl 1 assignment = Ok (m, e) ->
  m == path_duration G tl /\ e == path_duration G tl.
Proof.
  unfold QIPSO.evaluate_schedule. intros H.
  bind_destruct H as r Hr. destruct r as [trace st].
  bind_destruct H as mk Hmk. injection H as <- <-.
  assert (Htot : total_assignment assignment tl 1).
  { apply (evaluate_tasks_assignment _ _ _ 1 _ _ _ _ Hr). reflexivity. }
  assert (Hzero : forall t, In t tl -> dict_get_default assignment t 0%nat = 0%nat).
  { intros t Ht. destruct (Htot t Ht) as (node & Hget & Hlt).
    unfold dict_get_default. rewrite Hget. lia. }
  split.
  - apply Qle_antisym.
    + apply (py_max_le _ _ _ Hmk). intros x Hx.
      rewrite <- (Qplus_0_l (path_duration G tl)).
      apply (evaluate_tasks_serial_bound _ _ _ _ _ _ _ 0 Hr); simpl.
      * apply Qle_refl.
      * intros y [<- | []]. apply Qle_refl.
      * intros t f Hf. discriminate.
      * assumption.
    + rewrite <- (node_load_all G assignment 0 tl Hzero).
      destruct (evaluate_tasks_load_bound _ _ _ 0%nat _ _ _ _ 0 Hr eq_refl)
        as (x' & Hx' & Hle).
      rewrite Qplus_0_l in Hle.
      eapply Qle_trans; [exact Hle |]. eapply py_max_nth; eassumption.
  - rewrite (evaluate_tasks_energy _ _ _ _ _ _ _ Hr). simpl.
    rewrite py_sum_cons, py_sum_nil.
    rewrite (energy_by_task_node0 G assignment _ tl) by (reflexivity || assumption).
    ring.
Qed.

Lemma evaluate_schedule_single_node_witness :
  exists m e,
    QIPSO.evaluate_schedule diamond ["A"; "B"; "C"; "D"] 1
      [("A", 0%nat); ("B", 0%nat); ("C", 0%nat); ("D", 0%nat)] = Ok (m, e)
    /\ m == path_duration diamond ["A"; "B"; "C"; "D"]
    /\ e == path_duration diamond ["A"; "B"; "C"; "D"].
Proof.
  destruct (QIPSO.evaluate_schedule diamond ["A"; "B"; "C"; "D"] 1
              [("A", 0%nat); ("B", 0%nat); ("C", 0%nat); ("D", 0%nat)])
    as [[m e] | err] eqn:E; [| vm_compute in E; discriminate].
  exists m, e. split; [reflexivity |].
  exact (evaluate_schedule_single_node _ _ _ _ _ E).
Defined.

Lemma run_stops_within_21_rounds_witness :
  exists self st final,
    QIPSO.init three_tasks 2 1 50 0.3 = Ok self
    /\ QIPSO.run_optimization late_improvement self = Ok (st, final)
    /\ (List.length (QIPSO.convergence_history final) <= 21)%nat
    /\ ((21 < 50)%Z -> st = QIPSO.CONVERGED).
Proof.
  destruct (QIPSO.init three_tasks 2 1 50 0.3) as [self | err] eqn:Hinit;
    [| vm_compute in Hinit; discriminate].
  destruct (QIPSO.run_optimization late_improvement self) as [[st final] | err] eqn:Hrun.
  - exists self, st, final. split; [reflexivity |]. split; [exact Hrun |].
    apply (run_stops_within_21_rounds three_tasks 2 1 50 0.3 late_improvement self final st);
      [exact Hinit | lia | exact Hrun].
  - exfalso. vm_compute in Hinit. injection Hinit as <-.
    vm_compute in Hrun. discriminate.
Defined.

Lemma diamond_chain_ABD : chain diamond ["A"; "B"; "D"].
Proof. simpl. split; [exists None; auto | split; [exists None; auto 6 | exact I]]. Qed.

Lemma evaluate_schedule_above_every_path_witness :
  exists m e,
    QIPSO.evaluate_schedule diamond ["A"; "B"; "C"; "D"] 2
      [("A", 0%nat); ("B", 1%nat); ("C", 0%nat); ("D", 1%nat)] = Ok (m, e)
    /\ path_duration diamond ["A"; "B"; "D"] <= m.
Proof.
  destruct (QIPSO.evaluate_schedule diamond ["A"; "B"; "C"; "D"] 2
              [("A", 0%nat); ("B", 1%nat); ("C", 0%nat); ("D", 1%nat)])
    as [[m e] | err] eqn:E; [| vm_compute in E; discriminate].
  exists m, e. split; [reflexivity |].
  apply (evaluate_schedule_above_every_path diamond ["A"; "B"; "C"; "D"] 2
           [("A", 0%nat); ("B", 1%nat); ("C", 0%nat); ("D", 1%nat)] m e "A" ["B"; "D"]).
  - reflexivity.
  - exact E.
  - exact diamond_chain_ABD.
  - simpl. intuition.
Defined.

Lemma fcfs_makespan_above_every_path_witness :
  exists out,
    snd (FCFS.schedule_fcfs diamond 2) = Ok out
    /\ path_duration diamond ["A"; "B"; "D"] <= FCFS.makespan out.
Proof.
  destruct (snd (FCFS.schedule_fcfs diamond 2)) as [out | err] eqn:E;
    [| vm_compute in E; discriminate].
  exists out. split; [reflexivity |].
  apply (fcfs_makespan_above_every_path diamond ["A"; "B"; "C"; "D"] 2 out "A" ["B"; "D"]).
  - reflexivity.
  - vm_compute. reflexivity.
  - exact E.
  - exact diamond_chain_ABD.
  - simpl. intuition.
Defined.

(** ** FCFS: the node it picks *)

Lemma argmin_from_spec (pre : list Q) :
  forall xs best bv,
    nth_error pre best = Some bv ->
    (forall j b, nth_error pre j = Some b -> bv <= b /\ ((j < best)%nat -> bv < b)) ->
    exists a,
      nth_error (pre ++ xs) (FCFS.argmin_from xs (List.length pre) best bv) = Some a
      /\ forall j b, nth_error (pre ++ xs) j = Some b ->
           a <= b /\ ((j < FCFS.argmin_from xs (List.length pre) best bv)%nat -> a < b).
Proof.
  intros xs. revert pre. induction xs as [| x xs IH]; intros pre best bv Hbest Hmin; simpl.
  - rewrite app_nil_r. exists bv. split; assumption.
  - assert (Hlen : List.length (pre ++ [x]) = S (List.length pre))
      by (rewrite length_app; simpl; lia).
    assert (Happ : pre ++ x :: xs = (pre ++ [x]) ++ xs)
      by (rewrite <- app_assoc; reflexivity).
    assert (Hlt : (best < List.length pre)%nat)
      by (apply nth_error_Some; congruence).
    rewrite Happ, <- Hlen.
    destruct (Qltb x bv) eqn:Hx.
    + apply Qltb_lt in Hx. apply IH.
      * rewrite nth_error_app2 by lia. now rewrite Nat.sub_diag.
      * intros j b Hj.
        destruct (Nat.lt_ge_cases j (List.length pre)) as [Hjl | Hjl].
        -- rewrite nth_error_app1 in Hj by assumption.
           destruct (Hmin j b Hj) as [Hle _].
           assert (x < b) by (eapply Qlt_le_trans; eassumption).
           split; [now apply Qlt_le_weak | intros _; assumption].
        -- rewrite nth_error_app2 in Hj by assumption.
           destruct (j - List.length pre)%nat as [| k] eqn:Hk; simpl in Hj.
           ++ injection Hj as <-. split; [apply Qle_refl | lia].
           ++ destruct k; discriminate.
    + apply Qltb_ge in Hx. apply IH.
      * rewrite nth_error_app1 by assumption. assumption.
      * intros j b Hj.
        destruct (Nat.lt_ge_cases j (List.length pre)) as [Hjl | Hjl].
        -- rewrite nth_error_app1 in Hj by assumption. now apply Hmin.
        -- rewrite nth_error_app2 in Hj by assumption.
           destruct (j - List.length pre)%nat as [| k] eqn:Hk; simpl in Hj.
           ++ injection Hj as <-. split; [assumption | lia].
           ++ destruct k; discriminate.
Qed.

Lemma argmin_first_spec (xs : list Q) (i : nat) :
  FCFS.argmin_first xs = Ok i ->
  exists a, nth_error xs i = Some a
            /\ forall j b, nth_error xs j = Some b -> a <= b /\ ((j < i)%nat -> a < b).
Proof.
  destruct xs as [| x xs]; simpl; [discriminate |]. intros [= <-].
  apply (argmin_from_spec [x] xs 0 x); [reflexivity |].
  intros [| [| j]] b Hj; simpl in Hj; try discriminate.
  injection Hj as <-. split; [apply Qle_refl | lia].
Qed.

(** X13. FCFS gives a task to a node that is free earliest, and to the one of
    lowest index among those: every node is free no earlier, every node of
    lower index strictly later. *)
Theorem fcfs_picks_the_first_earliest_node (G : DiGraph) (st st' : FCFS.fcfs_state)
    (task : string) :
  FCFS.schedule_task G st task = Ok st' ->
  exists info a,
    dict_get (FCFS.schedule_so_far st') task = Some info
    /\ nth_error (FCFS.node_available_time st) (assigned_node info) = Some a
    /\ forall j b, nth_error (FCFS.node_available_time st) j = Some b ->
         a <= b /\ ((j < assigned_node info)%nat -> a < b).
Proof.
  unfold FCFS.schedule_task. intros H.
  bind_destruct H as best Hbest. bind_destruct H as busy Hbusy.
  injection H as <-. simpl.
  destruct (argmin_first_spec _ _ Hbest) as (a & Ha & Hmin).
  eexists. exists a. split; [apply dict_get_set_same |]. simpl. split; assumption.
Qed.

Lemma fcfs_picks_the_first_earliest_node_witness :
  exists st' info a,
    FCFS.schedule_task diamond (FCFS.mkState [2; 1; 1] [] []) "A" = Ok st'
    /\ dict_get (FCFS.schedule_so_far st') "A" = Some info
    /\ nth_error [2; 1; 1] (assigned_node info) = Some a
    /\ forall j b, nth_error [2; 1; 1] j = Some b ->
         a <= b /\ ((j < assigned_node info)%nat -> a < b).
Proof.
  destruct (FCFS.schedule_task diamond (FCFS.mkState [2; 1; 1] [] []) "A")
    as [st' | err] eqn:E; [| vm_compute in E; discriminate].
  destruct (fcfs_picks_the_first_earliest_node diamond _ st' "A" E)
    as (info & a & H1 & H2 & H3).
  exists st', info, a. split; [reflexivity |]. split; [exact H1 |]. split; [exact H2 | exact H3].
Defined.

(** ** FCFS without nodes *)

(** X14. With [num_edge_nodes = 0] FCFS returns no schedule, whatever the
    graph: once the tasks are sorted it ends in a [ValueError], raised by
    [min] over the empty range of nodes or, without tasks, by [max] of the
    empty list of node times; a failing sort passes its exception on. *)
Theorem fcfs_without_nodes_raises (G : DiGraph) :
  snd (FCFS.schedule_fcfs G 0)
  = match topological_sort G with
    | Ok _ => Raise ValueError
    | Raise e => Raise e
    end.
Proof.
  unfold FCFS.schedule_fcfs. simpl. rewrite normalize_topological_sort.
  destruct (topological_sort G) as [tl | err]; [| reflexivity].
  simpl. unfold FCFS.schedule_in_order. destruct tl as [| t tl]; reflexivity.
Qed.

(** ** FCFS run twice *)

Lemma normalize_attrs_idem (a : attrs) :
  FCFS.normalize_attrs 0.1 (FCFS.normalize_attrs 0.1 a) = FCFS.normalize_attrs 0.1 a.
Proof.
  destruct (Qltb (match exec_time a with Some e => e | None => 10 end) 0.1) eqn:E.
  - assert (H : FCFS.normalize_attrs 0.1 a = mkAttrs (Some 0.1) (comp_cost a))
      by (unfold FCFS.normalize_attrs; now rewrite E).
    rewrite H. reflexivity.
  - assert (H : FCFS.normalize_attrs 0.1 a = a)
      by (unfold FCFS.normalize_attrs; now rewrite E).
    now rewrite !H.
Qed.

Lemma normalize_execution_times_idem (G : DiGraph) :
  FCFS.normalize_execution_times (FCFS.normalize_execution_times G 0.1) 0.1
  = FCFS.normalize_execution_times G 0.1.
Proof.
  unfold FCFS.normalize_execution_times. simpl. f_equal.
  rewrite map_map. apply map_ext. intros [k a]. simpl. now rewrite normalize_attrs_idem.
Qed.

(** X25. A second call of [schedule_fcfs] on the graph a first call left behind
    changes nothing further and returns the same result, so that the two
    calls of [evaluate_fcfs] report the makespan and the energy of one
    schedule. *)
Theorem evaluate_fcfs_reports_one_schedule (G : DiGraph) (n : nat) :
  FCFS.schedule_fcfs (fst (FCFS.schedule_fcfs G n)) n = FCFS.schedule_fcfs G n
  /\ Integrated.evaluate_fcfs G n
     = (out <- snd (FCFS.schedule_fcfs G n) ;; Ok (FCFS.makespan out, FCFS.energy out)).
Proof.
  assert (Hsame : FCFS.schedule_fcfs (fst (FCFS.schedule_fcfs G n)) n = FCFS.schedule_fcfs G n).
  { unfold FCFS.schedule_fcfs. simpl. now rewrite normalize_execution_times_idem. }
  split; [exact Hsame |].
  unfold Integrated.evaluate_fcfs.
  destruct (FCFS.schedule_fcfs G n) as [G1 r1] eqn:E.
  cbn [fst snd] in *. rewrite Hsame. cbn [snd].
  destruct r1 as [out | err]; reflexivity.
Qed.

(** ** FCFS seen through the evaluator *)

Lemma eval_duration_normalize (a : attrs) :
  QIPSO.eval_duration (FCFS.normalize_attrs 0.1 a) = QIPSO.eval_duration a.
Proof.
  unfold FCFS.normalize_attrs.
  destruct (Qltb (match exec_time a with Some e => e | None => 10 end) 0.1) eqn:E;
    [| reflexivity].
  unfold QIPSO.eval_duration. simpl exec_time.
  set (x := match exec_time a with Some e => e | None => 10 end) in *.
  unfold Qltb in E. destruct (x ?= 0.1) eqn:C; try discriminate.
  unfold Qmax, GenericMinMax.gmax.
  rewrite <- (Qcompare_antisym x 0.1), C. reflexivity.
Qed.

Lemma fcfs_schedule_task_keeps (G : DiGraph) (st st' : FCFS.fcfs_state) (task t : string) :
  FCFS.schedule_task G st task = Ok st' -> t <> task ->
  dict_get (FCFS.schedule_so_far st') t = dict_get (FCFS.schedule_so_far st) t.
Proof.
  intros H Hne. apply fcfs_schedule_task_inv in H as (info & Hs & _).
  rewrite Hs. apply dict_get_set_other. congruence.
Qed.

Lemma fcfs_schedule_tasks_keeps (G : DiGraph) (t : string) :
  forall tasks st st',
    FCFS.schedule_tasks G tasks st = Ok st' -> ~ In t tasks ->
    dict_get (FCFS.schedule_so_far st') t = dict_get (FCFS.schedule_so_far st) t.
Proof.
  induction tasks as [| task rest IH]; intros st st' H Hnin; simpl in H.
  - now injection H as <-.
  - bind_destruct H as st1 H1.
    rewrite (IH _ _ H) by (intros Hin; apply Hnin; now right).
    apply (fcfs_schedule_task_keeps _ _ _ _ _ H1). intros ->. apply Hnin. now left.
Qed.

Lemma fcfs_schedule_task_normal (G : DiGraph) (st st' : FCFS.fcfs_state) (task : string) :
  FCFS.schedule_task (FCFS.normalize_execution_times G 0.1) st task = Ok st' ->
  exists best busy,
    FCFS.argmin_first (FCFS.node_available_time st) = Ok best
    /\ list_item (FCFS.node_available_time st) best = Ok busy
    /\ let ready :=
         max_with_zero
           (map (fun dep => dict_get_default (FCFS.task_finish_times st) dep 0)
                (predecessors G task)) in
       let start := Qmax ready busy in
       let d := QIPSO.eval_duration (node_attrs G task) in
       st' = FCFS.mkState
               (list_set (FCFS.node_available_time st) best (start + d))
               (dict_set (FCFS.schedule_so_far st) task
                  (mkInfo best start (start + d) d (Some ready)))
               (dict_set (FCFS.task_finish_times st) task (start + d)).
Proof.
  unfold FCFS.schedule_task. intros H.
  bind_destruct H as best Hbest. bind_destruct H as busy Hbusy.
  injection H as <-. exists best, busy. split; [assumption |]. split; [assumption |].
  cbv zeta.
  assert (Hd : Qmax 0.1 (match exec_time (node_attrs (FCFS.normalize_execution_times G 0.1) task)
                         with Some e => e | None => 10 end)
               = QIPSO.eval_duration (node_attrs G task)).
  { rewrite normalize_node_attrs by reflexivity. apply eval_duration_normalize. }
  rewrite Hd. reflexivity.
Qed.

Lemma fcfs_tasks_as_evaluation (G : DiGraph) (pw : list Q) (sched : dict nat) :
  forall tasks st st' est,
    FCFS.schedule_tasks (FCFS.normalize_execution_times G 0.1) tasks st = Ok st' ->
    NoDup tasks ->
    (forall t info, In t tasks -> dict_get (FCFS.schedule_so_far st') t = Some info ->
       dict_get sched t = Some (assigned_node info)) ->
    QIPSO.device_end_times est = FCFS.node_available_time st ->
    QIPSO.task_finish_times est = FCFS.task_finish_times st ->
    List.length (QIPSO.device_energy est) = List.length (FCFS.node_available_time st) ->
    List.length pw = List.length (FCFS.node_available_time st) ->
    exists trace est',
      QIPSO.evaluate_tasks G pw sched tasks est = Ok (trace, est')
      /\ QIPSO.device_end_times est' = FCFS.node_available_time st'
      /\ map fst trace = tasks
      /\ forall t node s f, In (t, (node, s, f)) trace ->
           exists info,
             dict_get (FCFS.schedule_so_far st') t = Some info
             /\ assigned_node info = node /\ start_time info = s /\ end_time info = f.
Proof.
  induction tasks as [| task rest IH]; intros st st' est H Hnd Hsched Hdev Hfin Hen Hpw;
    simpl in H.
  - injection H as <-. exists [], est.
    split; [reflexivity |]. split; [assumption |]. split; [reflexivity | intros ? ? ? ? []].
  - bind_destruct H as st1 H1.
    apply NoDup_cons_iff in Hnd as [Hnin Hnd].
    destruct (fcfs_schedule_task_normal _ _ _ _ H1) as (best & busy & Hbest & Hbusy & Hst1).
    cbv zeta in Hst1.
    set (ready := max_with_zero
           (map (fun dep => dict_get_default (FCFS.task_finish_times st) dep 0)
                (predecessors G task))) in *.
    set (d := QIPSO.eval_duration (node_attrs G task)) in *.
    assert (Hentry : dict_get (FCFS.schedule_so_far st') task
                     = Some (mkInfo best (Qmax ready busy) (Qmax ready busy + d) d (Some ready))).
    { rewrite (fcfs_schedule_tasks_keeps _ task _ _ _ H Hnin), Hst1.
      apply dict_get_set_same. }
    assert (Hget : dict_get sched task = Some best).
    { apply (Hsched task _ (or_introl eq_refl) Hentry). }
    assert (Hbl : (best < List.length (FCFS.node_available_time st))%nat)
      by (eapply list_item_lt; eassumption).
    destruct (list_item_ok _ (QIPSO.device_energy est) best) as (en & Hen').
    { now rewrite Hen. }
    destruct (list_item_ok _ pw best) as (power & Hpower).
    { now rewrite Hpw. }
    destruct (IH st1 st'
                (QIPSO.mkEvalState
                   (list_set (QIPSO.device_end_times est) best (Qmax ready busy + d))
                   (list_set (QIPSO.device_energy est) best (en + power * d))
                   (dict_set (QIPSO.task_finish_times est) task (Qmax ready busy + d)))
                H Hnd) as (trace & est' & Hrun & Hdev' & Hkeys & Htrace).
    + intros t i Ht. apply Hsched. now right.
    + rewrite Hst1. simpl. now rewrite Hdev.
    + rewrite Hst1. simpl. now rewrite Hfin.
    + rewrite Hst1. simpl. rewrite !list_set_length. assumption.
    + rewrite Hst1. simpl. rewrite list_set_length. assumption.
    + exists ((task, (best, Qmax ready busy, Qmax ready busy + d)) :: trace), est'.
      split; [| split; [assumption | split]].
      * simpl. unfold QIPSO.evaluate_task at 1.
        unfold dict_item at 1. rewrite Hget. simpl bind.
        rewrite Hdev, Hbusy. simpl bind. rewrite Hen'. simpl bind.
        rewrite Hpower. simpl bind. rewrite Hfin.
        fold ready. fold d. rewrite <- Hdev, <- Hfin. rewrite Hrun. reflexivity.
      * simpl. now rewrite Hkeys.
      * intros t node s f [[= <- <- <- <-] | Hin]; [| now apply Htrace].
        eexists. split; [exact Hentry |]. repeat split.
Qed.

Lemma dict_get_assignment_of (s : dict task_info) (t : string) :
  dict_get (assignment_of s) t = option_map assigned_node (dict_get s t).
Proof.
  induction s as [| [k i] s IH]; simpl; [reflexivity |].
  destruct (String.eqb k t); [reflexivity | exact IH].
Qed.

(** X15. The evaluator, run on the assignment FCFS chose, repeats FCFS's
    schedule: every task gets the same start and end on the same node, and
    the makespan returned is FCFS's own, so an FCFS schedule is one of the
    schedules QIPSO searches.  (The two energies are sums of the same
    products taken in different orders and are not compared.) *)
Theorem evaluator_reproduces_fcfs (G : DiGraph) (tl : list string) (n : nat)
    (out : FCFS.output) :
  wf_graph G = true ->
  topological_sort G = Ok tl ->
  snd (FCFS.schedule_fcfs G n) = Ok out ->
  exists trace e,
    QIPSO.evaluate_trace G tl n (assignment_of (FCFS.schedule out)) = Ok trace
    /\ QIPSO.evaluate_schedule G tl n (assignment_of (FCFS.schedule out))
       = Ok (FCFS.makespan out, e)
    /\ map fst trace = dict_keys (FCFS.schedule out)
    /\ forall t node s f, In (t, (node, s, f)) trace ->
         exists info,
           dict_get (FCFS.schedule out) t = Some info
           /\ assigned_node info = node /\ start_time info = s /\ end_time info = f.
Proof.
  intros Hwf Htl Hrun.
  pose proof (topological_sort_sound G tl Hwf Htl) as Htopo.
  rewrite (schedule_fcfs_unfold G n tl Htl) in Hrun.
  assert (Htopo' : is_topological (FCFS.normalize_execution_times G 0.1) tl = true)
    by now rewrite normalize_is_topological.
  destruct (fcfs_schedule_in_order_respects _ tl n out Htopo' Hrun) as [_ Hkeys].
  unfold FCFS.schedule_in_order in Hrun.
  bind_destruct Hrun as st Hst. bind_destruct Hrun as mk Hmk.
  bind_destruct Hrun as en Hen. injection Hrun as <-. simpl in *.
  destruct (fcfs_tasks_as_evaluation G (default_node_powers n)
              (assignment_of (FCFS.schedule_so_far st)) tl _ st
              (QIPSO.initial_eval_state n) Hst)
    as (trace & est' & Heval & Hdev & Hfst & Htrace).
  - now apply is_topological_NoDup with G.
  - intros t info _ Hget. rewrite dict_get_assignment_of, Hget. reflexivity.
  - reflexivity.
  - reflexivity.
  - simpl. now rewrite !repeat_length.
  - simpl. now rewrite default_node_powers_length, repeat_length.
  - exists trace, (py_sum (QIPSO.device_energy est')).
    split; [unfold QIPSO.evaluate_trace; now rewrite Heval |].
    split; [unfold QIPSO.evaluate_schedule; rewrite Heval; simpl bind;
            rewrite Hdev, Hmk; reflexivity |].
    split; [congruence | exact Htrace].
Qed.

Lemma evaluator_reproduces_fcfs_witness :
  exists out trace e,
    snd (FCFS.schedule_fcfs diamond 2) = Ok out
    /\ QIPSO.evaluate_trace diamond ["A"; "B"; "C"; "D"] 2
         (assignment_of (FCFS.schedule out)) = Ok trace
    /\ QIPSO.evaluate_schedule diamond ["A"; "B"; "C"; "D"] 2
         (assignment_of (FCFS.schedule out)) = Ok (FCFS.makespan out, e)
    /\ map fst trace = dict_keys (FCFS.schedule out).
Proof.
  destruct (snd (FCFS.schedule_fcfs diamond 2)) as [out | err] eqn:E;
    [| vm_compute in E; discriminate].
  destruct (evaluator_reproduces_fcfs diamond ["A"; "B"; "C"; "D"] 2 out)
    as (trace & e & H1 & H2 & H3 & _); [reflexivity | vm_compute; reflexivity | exact E |].
  exists out, trace, e. split; [reflexivity |]. repeat split; assumption.
Defined.

(** ** The environment: construction *)

Lemma is_topological_members (G : DiGraph) (tl : list string) (t : string) :
  is_topological G tl = true -> (In t tl <-> In t (node_names G)).
Proof.
  unfold is_topological, same_members. rewrite !andb_true_iff, !forallb_forall.
  intros [[_ [H1 H2]] _]. split; intros H.
  - apply memb_In. now apply H1.
  - apply memb_In. now apply H2.
Qed.

Lemma node_attrs_in (G : DiGraph) (t : string) (a : attrs) :
  NoDup (node_names G) -> In (t, a) (nodes G) -> node_attrs G t = a.
Proof.
  intros Hnd Hin. unfold node_attrs, dict_get_default.
  now rewrite (dict_get_in _ _ _ _ Hnd Hin).
Qed.

Lemma env_init_inv (G : DiGraph) (n : nat) (env : Env.TaskOffloadingEnv) :
  Env.init G n = Ok env ->
  topological_sort G = Ok (Env.task_list env)
  /\ Env.task_list env <> []
  /\ (forall t, In t (Env.task_list env) -> Env.missing_both (node_attrs G t) = false)
  /\ env = Env.mkEnv G (Env.task_list env) n (repeat 0 n) 0 (repeat 0 n) [] [] [].
Proof.
  unfold Env.init. intros H.
  bind_destruct H as tl Htl.
  assert (Hsort : topological_sort G = Ok tl).
  { destruct (topological_sort G) as [tl' | []]; try discriminate. exact Htl. }
  destruct tl as [| t tl]; [discriminate |].
  destruct (existsb _ (t :: tl)) eqn:E; [discriminate |].
  injection H as <-. simpl.
  split; [assumption |]. split; [discriminate |]. split; [| reflexivity].
  intros u Hu. destruct (Env.missing_both (node_attrs G u)) eqn:M; [| reflexivity].
  assert (Hex : existsb (fun task => Env.missing_both (node_attrs G task)) (t :: tl) = true)
    by (apply existsb_exists; eauto).
  congruence.
Qed.

Lemma env_init_accepts (G : DiGraph) (n : nat) :
  wf_graph G = true -> acyclic G -> nodes G <> [] ->
  (forall t a, In (t, a) (nodes G) -> Env.missing_both a = false) ->
  is_ok (Env.init G n) = true.
Proof.
  intros Hwf Hacyc Hne Hattrs. pose proof (wf_graph_inv G Hwf) as [Hnd _].
  destruct (topological_sort_complete G Hwf Hacyc) as (tl & Htl).
  pose proof (topological_sort_sound G tl Hwf Htl) as Htopo.
  unfold Env.init. rewrite Htl. simpl bind.
  destruct tl as [| t tl].
  - exfalso. apply (is_topological_nonempty G [] Htopo); [| reflexivity].
    unfold node_names. destruct (nodes G); [congruence | discriminate].
  - destruct (existsb _ (t :: tl)) eqn:E; [| reflexivity].
    apply existsb_exists in E as (u & Hu & Hmiss).
    apply (is_topological_members G _ u Htopo) in Hu.
    unfold node_names in Hu. apply in_map_iff in Hu as ([u' a] & Hfst & Hin).
    simpl in Hfst. subst u'.
    rewrite (node_attrs_in G u a Hnd Hin), (Hattrs u a Hin) in Hmiss. discriminate.
Qed.

Lemma env_init_has_tasks (G : DiGraph) (n : nat) (env : Env.TaskOffloadingEnv) :
  wf_graph G = true -> Env.init G n = Ok env -> nodes G <> [].
Proof.
  intros Hwf E Hnil. apply env_init_inv in E as (Htl & Hne & _).
  pose proof (topological_sort_sound G _ Hwf Htl) as Htopo.
  apply (is_topological_names G _ Htopo Hne). unfold node_names. now rewrite Hnil.
Qed.

(** X19. With at least one node, the environment is constructed exactly for
    the graphs that are acyclic, have a task, and give every task a
    [comp_cost] or an [exec_time]. *)
Theorem env_init_accepts_iff (G : DiGraph) (n : nat) :
  wf_graph G = true -> (1 <= n)%nat ->
  (is_ok (Env.init G n) = true
   <-> acyclic G /\ nodes G <> []
       /\ forall t a, In (t, a) (nodes G) -> Env.missing_both a = false).
Proof.
  intros Hwf _. pose proof (wf_graph_inv G Hwf) as [Hnd _]. split.
  - destruct (Env.init G n) as [env | e] eqn:E; [intros _ | discriminate].
    pose proof (env_init_has_tasks G n env Hwf E) as Hne.
    apply env_init_inv in E as (Htl & _ & Hattrs & _).
    pose proof (topological_sort_sound G _ Hwf Htl) as Htopo.
    split; [now apply (is_topological_acyclic G (Env.task_list env)) |].
    split; [assumption |].
    intros t a Hin. rewrite <- (node_attrs_in G t a Hnd Hin).
    apply Hattrs. apply (is_topological_members G _ t Htopo).
    unfold node_names. apply in_map_iff. exists (t, a). split; [reflexivity | assumption].
  - intros (Hacyc & Hne & Hattrs). now apply env_init_accepts.
Qed.

Lemma env_init_accepts_iff_witness :
  is_ok (Env.init diamond 2) = true
  <-> acyclic diamond /\ nodes diamond <> []
      /\ forall t a, In (t, a) (nodes diamond) -> Env.missing_both a = false.
Proof.
  apply (env_init_accepts_iff diamond 2); [reflexivity | lia].
Defined.

(** ** The environment: one step *)

Lemma step_duration_min (a : attrs) : 0.1 <= Env.step_duration a.
Proof. unfold Env.step_duration. apply Q.le_max_l. Qed.

Lemma map_result_total (A B : Type) (f : A -> result B) (xs : list A) :
  (forall x, In x xs -> exists y, f x = Ok y) ->
  exists ys, map_result f xs = Ok ys /\ List.length ys = List.length xs.
Proof.
  induction xs as [| x xs IH]; intros H; simpl.
  - exists []. split; reflexivity.
  - destruct (H x (or_introl eq_refl)) as (y & ->). simpl.
    destruct IH as (ys & -> & Hlen); [intros z Hz; apply H; now right |].
    simpl. exists (y :: ys). split; [reflexivity | simpl; now rewrite Hlen].
Qed.

Lemma map_result_in (A B : Type) (f : A -> result B) :
  forall xs ys, map_result f xs = Ok ys ->
    forall y, In y ys -> exists x, In x xs /\ f x = Ok y.
Proof.
  induction xs as [| x xs IH]; intros ys H y Hy; simpl in H.
  - injection H as <-. contradiction.
  - bind_destruct H as y0 Hy0. bind_destruct H as ys0 Hys0. injection H as <-.
    destruct Hy as [<- | Hy].
    + exists x. split; [now left | assumption].
    + destruct (IH _ Hys0 y Hy) as (x' & Hx' & Hf). exists x'. split; [now right | assumption].
Qed.

Lemma py_div_ok (x y : Q) : ~ y == 0 -> HEFT.py_div x y = Ok (x / y).
Proof.
  intros H. unfold HEFT.py_div. destruct (Qeq_bool y 0) eqn:E; [| reflexivity].
  apply Qeq_bool_iff in E. contradiction.
Qed.

Lemma record_episode_metrics_inv (self self' : Env.TaskOffloadingEnv) :
  Env._record_episode_metrics self = Ok self' ->
  Env.dag self' = Env.dag self /\ Env.task_list self' = Env.task_list self
  /\ Env.num_nodes self' = Env.num_nodes self
  /\ Env.current_task_idx self' = Env.current_task_idx self
  /\ Env.device_end_time self' = Env.device_end_time self
  /\ Env.node_available_time self' = Env.node_available_time self
  /\ Env.schedule self' = Env.schedule self.
Proof.
  unfold Env._record_episode_metrics. intros H.
  bind_destruct H as m Hm. bind_destruct H as u Hu. injection H as <-. simpl.
  repeat split; reflexivity.
Qed.

Lemma env_step_inv (self self' : Env.TaskOffloadingEnv) (action : Z) (done : bool)
    (info : Env.step_info) :
  Env.step self action = Ok (self', done, info) ->
  exists task ready busy,
    nth_error (Env.task_list self) (Env.current_task_idx self) = Some task
    /\ (0 <= action < Z.of_nat (Env.num_nodes self))%Z
    /\ py_max (or_zero (Env.pred_end_times (Env.schedule self)
                          (predecessors (Env.dag self) task))) = Ok ready
    /\ nth_error (Env.node_available_time self) (Z.to_nat action) = Some busy
    /\ done = Nat.leb (List.length (Env.task_list self)) (S (Env.current_task_idx self))
    /\ Env.dag self' = Env.dag self /\ Env.task_list self' = Env.task_list self
    /\ Env.num_nodes self' = Env.num_nodes self
    /\ Env.current_task_idx self' = S (Env.current_task_idx self)
    /\ Env.device_end_time self'
       = list_set (Env.device_end_time self) (Z.to_nat action)
           (Qmax ready busy + Env.step_duration (node_attrs (Env.dag self) task))
    /\ Env.node_available_time self'
       = list_set (Env.node_available_time self) (Z.to_nat action)
           (Qmax ready busy + Env.step_duration (node_attrs (Env.dag self) task))
    /\ Env.schedule self'
       = dict_set (Env.schedule self) task
           (mkInfo (Z.to_nat action) (Qmax ready busy)
              (Qmax ready busy + Env.step_duration (node_attrs (Env.dag self) task))
              (Env.step_duration (node_attrs (Env.dag self) task)) (Some ready)).
Proof.
  unfold Env.step. intros H.
  destruct (Nat.leb _ _) eqn:Hidx; [discriminate |].
  destruct (negb _) eqn:Hact; [discriminate |].
  apply negb_false_iff, andb_true_iff in Hact as [Ha1 Ha2].
  apply Z.leb_le in Ha1. apply Z.ltb_lt in Ha2.
  bind_destruct H as task Htask. bind_destruct H as ready Hready.
  bind_destruct H as busy Hbusy. bind_destruct H as old Hold.
  cbv zeta in H. simpl Env.task_list in H. simpl Env.current_task_idx in H.
  exists task, ready, busy.
  split; [now apply list_item_nth_error |]. split; [lia |]. split; [assumption |].
  split; [now apply list_item_nth_error |].
  destruct (Nat.leb (List.length (Env.task_list self)) (S (Env.current_task_idx self))).
  - bind_destruct H as rep Hrep. bind_destruct H as self2 Hself2.
    injection H as <- <- <-.
    apply record_episode_metrics_inv in Hself2
      as (H1 & H2 & H3 & H4 & H5 & H6 & H7). simpl in *.
    repeat split; assumption.
  - simpl in H. injection H as <- <- <-. simpl. repeat split; reflexivity.
Qed.

Lemma env_avail_nonneg (G : DiGraph) (tl : list string) (n : nat)
    (self : Env.TaskOffloadingEnv) :
  env_inv G tl n self -> forall x, In x (Env.node_available_time self) -> 0 <= x.
Proof.
  intros Hinv x Hx. destruct (ei_source Hinv x Hx) as [-> | (kv & Hkv & <-)].
  - apply Qle_refl.
  - destruct (ei_entries Hinv kv Hkv) as (Hs & He & _). rewrite He.
    apply (Qle_trans _ (0 + 0)); [apply Qle_refl |].
    apply Qplus_le_compat; [assumption |].
    eapply Qle_trans; [| apply step_duration_min]. discriminate.
Qed.

Lemma or_zero_nonempty (xs : list Q) : or_zero xs <> [].
Proof. destruct xs; discriminate. Qed.

Lemma env_step_total (G : DiGraph) (tl : list string) (n : nat)
    (self : Env.TaskOffloadingEnv) (action : Z) :
  env_inv G tl n self ->
  (Env.current_task_idx self < List.length tl)%nat ->
  (0 <= action < Z.of_nat n)%Z ->
  exists self' info,
    Env.step self action
    = Ok (self', Nat.leb (List.length tl) (S (Env.current_task_idx self)), info).
Proof.
  intros Hinv Hidx Hact.
  pose proof (env_avail_nonneg G tl n self Hinv) as Hnonneg.
  destruct Hinv as [Hdag Htasks Hnodes Hdev Hlen _ _ _ _ _ _].
  unfold Env.step. rewrite Htasks, Hnodes.
  replace (Nat.leb (List.length tl) (Env.current_task_idx self)) with false
    by (symmetry; apply Nat.leb_gt; lia).
  replace ((0 <=? action)%Z && (action <? Z.of_nat n)%Z) with true
    by (symmetry; apply andb_true_iff; split; [apply Z.leb_le | apply Z.ltb_lt]; lia).
  simpl negb. cbv iota.
  destruct (list_item_ok _ tl (Env.current_task_idx self) Hidx) as (task & ->).
  simpl bind.
  destruct (py_max_ok (or_zero (Env.pred_end_times (Env.schedule self)
                                  (predecessors (Env.dag self) task)))
              (or_zero_nonempty _)) as (ready & ->).
  simpl bind.
  assert (Hnode : (Z.to_nat action < n)%nat) by lia.
  destruct (list_item_ok _ (Env.node_available_time self) (Z.to_nat action))
    as (busy & Hbusy); [now rewrite Hlen |].
  rewrite Hbusy. simpl bind. rewrite Hdev, Hbusy. simpl bind.
  cbv zeta. simpl Env.task_list. simpl Env.current_task_idx.
  set (finish := Qmax ready busy + Env.step_duration (node_attrs (Env.dag self) task)).
  destruct (Nat.leb (List.length tl) (S (Env.current_task_idx self))); [| simpl; eauto].
  simpl Env.device_end_time.
  assert (Hne : list_set (Env.node_available_time self) (Z.to_nat action) finish <> []).
  { intros Hnil. apply (f_equal (@List.length Q)) in Hnil.
    rewrite list_set_length, Hlen in Hnil. simpl in Hnil. lia. }
  destruct (py_max_ok _ Hne) as (m & Hm). rewrite Hm. simpl bind.
  unfold Env._record_episode_metrics. simpl Env.node_available_time. rewrite Hm. simpl bind.
  assert (Hpos : ~ m == 0).
  { assert (Hfin : 0.1 <= finish).
    { unfold finish. apply (Qle_trans _ (0 + 0.1)); [discriminate |].
      apply Qplus_le_compat; [| apply step_duration_min].
      eapply Qle_trans; [| apply Q.le_max_r].
      apply Hnonneg. apply list_item_nth_error in Hbusy. eapply nth_error_In; eassumption. }
    assert (Hle : finish <= m).
    { apply (py_max_nth _ _ _ (Z.to_nat action) Hm).
      apply nth_error_list_set_same. now rewrite Hlen. }
    intros Hz. rewrite Hz in Hle.
    assert (Habs : 0.1 <= 0) by (eapply Qle_trans; eassumption).
    apply Habs. reflexivity. }
  destruct (map_result_total _ _
              (fun t => q <- HEFT.py_div t m ;; Ok (q * 100))
              (list_set (Env.node_available_time self) (Z.to_nat action) finish))
    as (ut & Hut & _).
  { intros x _. rewrite (py_div_ok x m Hpos). simpl. eauto. }
  rewrite Hut. simpl. eauto.
Qed.

Lemma nth_error_firstn_split (A : Type) (l : list A) (i : nat) (x : A) :
  nth_error l i = Some x -> exists l2, l = firstn i l ++ x :: l2.
Proof.
  intros H. destruct (nth_error_split l i H) as (l1 & l2 & Hl & Hlen).
  exists l2. rewrite Hl at 2. f_equal. rewrite Hl, <- Hlen.
  rewrite firstn_app, Nat.sub_diag, firstn_all. simpl. now rewrite app_nil_r.
Qed.

Lemma firstn_S_nth (A : Type) (l : list A) (i : nat) (x : A) :
  nth_error l i = Some x -> firstn (S i) l = firstn i l ++ [x].
Proof.
  revert i. induction l as [| y l IH]; intros [| i] H; simpl in H; try discriminate.
  - now injection H as ->.
  - simpl. f_equal. now apply IH.
Qed.

Lemma nth_error_not_in_firstn (l : list string) (i : nat) (x : string) :
  NoDup l -> nth_error l i = Some x -> ~ In x (firstn i l).
Proof.
  intros Hnd H Hin. destruct (nth_error_firstn_split _ l i x H) as (l2 & Hl).
  rewrite Hl in Hnd. apply NoDup_remove_2 in Hnd. apply Hnd.
  apply in_or_app. now left.
Qed.

Lemma preds_in_firstn (G : DiGraph) (tl : list string) (i : nat) (t p : string) :
  preds_seen G [] tl -> nth_error tl i = Some t -> In p (predecessors G t) ->
  In p (firstn i tl).
Proof.
  intros Hseen H Hp. destruct (nth_error_firstn_split _ tl i t H) as (l2 & Hl).
  rewrite Hl in Hseen. exact (preds_seen_split G _ _ [] t p Hseen Hp).
Qed.

Lemma py_max_or_zero_ge (xs : list Q) (m x : Q) :
  py_max (or_zero xs) = Ok m -> In x xs -> x <= m.
Proof.
  intros H Hx. apply (py_max_ge _ _ _ H). destruct xs; [contradiction | exact Hx].
Qed.

(** ** The environment: what a step maintains *)

Lemma env_step_preserves (G : DiGraph) (tl : list string) (n : nat)
    (self self' : Env.TaskOffloadingEnv) (action : Z) (done : bool) (info : Env.step_info) :
  NoDup tl -> preds_seen G [] tl ->
  env_inv G tl n self ->
  Env.step self action = Ok (self', done, info) ->
  env_inv G tl n self'
  /\ Env.current_task_idx self' = S (Env.current_task_idx self)
  /\ done = Nat.leb (List.length tl) (S (Env.current_task_idx self)).
Proof.
  intros Hnd Hseen Hinv Hstep.
  pose proof (env_avail_nonneg G tl n self Hinv) as Hnonneg.
  destruct (env_step_inv _ _ _ _ _ Hstep)
    as (task & ready & busy & Htask & Hact & Hready & Hbusy & Hdone & Hdag' & Htl'
        & Hn' & Hidx' & Hdev' & Hav' & Hsched').
  destruct Hinv as [Hdag Htasks Hnodes Hdev Hlen Hidx Hkeys Hent Hsrc Hprec Hclosed].
  rewrite Hdag, Htasks, Hnodes in *.
  set (d := Env.step_duration (node_attrs G task)) in *.
  set (start := Qmax ready busy) in *.
  assert (Hfresh : ~ In task (dict_keys (Env.schedule self))).
  { rewrite Hkeys. now apply nth_error_not_in_firstn. }
  rewrite (dict_set_fresh _ _ _ _ Hfresh) in Hsched'.
  assert (Hnode : (Z.to_nat action < List.length (Env.node_available_time self))%nat)
    by (apply nth_error_Some; congruence).
  assert (Hbusy0 : 0 <= busy) by (apply Hnonneg; eapply nth_error_In; eassumption).
  assert (Hd : 0 <= d).
  { eapply Qle_trans; [| apply step_duration_min]. discriminate. }
  assert (Hgrow : busy <= start + d).
  { apply (Qle_trans _ (start + 0)).
    - rewrite Qplus_0_r. apply Q.le_max_r.
    - apply Qplus_le_r. exact Hd. }
  assert (Hndk : NoDup (dict_keys (Env.schedule self))).
  { rewrite Hkeys. rewrite <- (firstn_skipn (Env.current_task_idx self) tl) in Hnd.
    now apply NoDup_app_remove_r in Hnd. }
  assert (Hsnoc : respects_precedence G (spans (Env.schedule self) ++ [(task, (start, start + d))])
                  /\ closed_under_preds G (spans (Env.schedule self) ++ [(task, (start, start + d))])).
  { apply respects_precedence_snoc; try assumption.
    - now rewrite spans_keys.
    - intros p Hp. rewrite spans_keys, Hkeys. eapply preds_in_firstn; eassumption.
    - intros p sp ep Hp Hin.
      apply spans_in in Hin as (i & Hi & <- & <-).
      eapply Qle_trans; [| apply Q.le_max_l].
      apply (py_max_or_zero_ge _ _ _ Hready).
      unfold Env.pred_end_times. apply in_map_iff. exists p. split; [| assumption].
      now rewrite (dict_get_in _ _ _ _ Hndk Hi). }
  split; [| split; [assumption | assumption]].
  constructor.
  - congruence.
  - congruence.
  - congruence.
  - congruence.
  - rewrite Hav', list_set_length. assumption.
  - rewrite Hidx'. apply Nat.le_succ_l. apply nth_error_Some. congruence.
  - rewrite Hsched', Hidx'. unfold dict_keys. rewrite map_app. simpl.
    fold (dict_keys (Env.schedule self)). rewrite Hkeys.
    symmetry. now apply firstn_S_nth.
  - intros kv Hkv. rewrite Hsched' in Hkv. rewrite Hav'.
    apply in_app_or in Hkv as [Hkv | [<- | []]].
    + destruct (Hent kv Hkv) as (Hs & He & b & Hb & Hle).
      split; [assumption |]. split; [assumption |].
      destruct (Nat.eq_dec (assigned_node (snd kv)) (Z.to_nat action)) as [Heq | Hne].
      * rewrite Heq in *. exists (start + d). split.
        -- now apply nth_error_list_set_same.
        -- assert (b = busy) by congruence. subst b.
           eapply Qle_trans; eassumption.
      * exists b. split; [| assumption].
        rewrite nth_error_list_set_other by congruence. assumption.
    + unfold env_entry_ok. simpl. split.
      * eapply Qle_trans; [exact Hbusy0 | apply Q.le_max_r].
      * split; [reflexivity |]. exists (start + d). split.
        -- now apply nth_error_list_set_same.
        -- apply Qle_refl.
  - intros x Hx. rewrite Hav' in Hx. rewrite Hsched'.
    apply list_set_in in Hx as [-> | Hx].
    + right. eexists. split; [apply in_or_app; right; left; reflexivity | reflexivity].
    + destruct (Hsrc x Hx) as [-> | (kv & Hkv & Hend)]; [now left |].
      right. exists kv. split; [apply in_or_app; now left | assumption].
  - rewrite Hsched', spans_app. exact (proj1 Hsnoc).
  - rewrite Hsched', spans_app. exact (proj2 Hsnoc).
Qed.

(** ** The environment: an episode *)

Lemma env_reset_inv (G : DiGraph) (n : nat) (env : Env.TaskOffloadingEnv) :
  Env.init G n = Ok env -> env_inv G (Env.task_list env) n (Env.reset env).
Proof.
  intros H. apply env_init_inv in H as (_ & _ & _ & Henv).
  rewrite Henv. simpl. constructor; simpl; try reflexivity.
  - rewrite repeat_length. reflexivity.
  - lia.
  - intros kv [].
  - intros x Hx. left. now apply repeat_spec in Hx.
  - intros t p st et sp ep _ [].
  - intros t p [].
Qed.

Lemma env_episode_inv (G : DiGraph) (tl : list string) (n : nat) (policy : nat -> Z) :
  NoDup tl -> preds_seen G [] tl ->
  forall fuel self final,
    env_inv G tl n self ->
    Env.episode fuel policy self = Ok final ->
    env_inv G tl n final /\ Env.current_task_idx final = List.length tl.
Proof.
  intros Hnd Hseen. induction fuel as [| fuel IH]; intros self final Hinv H; simpl in H.
  - discriminate.
  - bind_destruct H as r Hr. destruct r as [[self' done] info].
    destruct (env_step_preserves G tl n _ _ _ _ _ Hnd Hseen Hinv Hr) as (Hinv' & Hidx' & Hdone).
    destruct done.
    + injection H as <-. split; [assumption |].
      symmetry in Hdone. apply Nat.leb_le in Hdone.
      pose proof (ei_idx Hinv'). lia.
    + now apply (IH self').
Qed.

Lemma env_episode_runs (G : DiGraph) (tl : list string) (n : nat) (policy : nat -> Z) :
  NoDup tl -> preds_seen G [] tl ->
  (forall k, (0 <= policy k < Z.of_nat n)%Z) ->
  forall fuel self,
    env_inv G tl n self ->
    (Env.current_task_idx self < List.length tl)%nat ->
    (List.length tl - Env.current_task_idx self <= fuel)%nat ->
    exists final, Env.episode fuel policy self = Ok final.
Proof.
  intros Hnd Hseen Hpol. induction fuel as [| fuel IH]; intros self Hinv Hidx Hfuel.
  - lia.
  - simpl.
    destruct (env_step_total G tl n self (policy (Env.current_task_idx self)) Hinv Hidx (Hpol _))
      as (self' & info & Hstep).
    rewrite Hstep. simpl bind.
    destruct (Nat.leb (List.length tl) (S (Env.current_task_idx self))) eqn:Hdone; [eauto |].
    destruct (env_step_preserves G tl n _ _ _ _ _ Hnd Hseen Hinv Hstep) as (Hinv' & Hidx' & _).
    apply Nat.leb_gt in Hdone.
    apply IH; [assumption | lia | lia].
Qed.

(** X20. From a constructed environment, an episode driven by any policy that
    names existing nodes ends after one step per task: every task is
    scheduled once, in topological order, and a further [step] raises
    [ValueError]. *)
Theorem env_episode_completes (G : DiGraph) (n : nat) (env : Env.TaskOffloadingEnv)
    (policy : nat -> Z) (fuel : nat) :
  wf_graph G = true ->
  Env.init G n = Ok env ->
  (forall k, (0 <= policy k < Z.of_nat n)%Z) ->
  (List.length (Env.task_list env) <= fuel)%nat ->
  exists final,
    Env.episode fuel policy (Env.reset env) = Ok final
    /\ Env.current_task_idx final = List.length (Env.task_list env)
    /\ dict_keys (Env.schedule final) = Env.task_list env
    /\ forall action, Env.step final action = Raise ValueError.
Proof.
  intros Hwf Hinit Hpol Hfuel.
  pose proof (env_reset_inv G n env Hinit) as Hinv0.
  pose proof (env_init_inv G n env Hinit) as (Htl & Hne & _ & _).
  pose proof (topological_sort_sound G _ Hwf Htl) as Htopo.
  pose proof (is_topological_NoDup G _ Htopo) as Hnd.
  pose proof (is_topological_preds_seen G _ Htopo) as Hseen.
  destruct (env_episode_runs G _ n policy Hnd Hseen Hpol fuel (Env.reset env) Hinv0)
    as (final & Hrun).
  - simpl. destruct (Env.task_list env); [congruence | simpl; lia].
  - simpl. lia.
  - destruct (env_episode_inv G _ n policy Hnd Hseen fuel _ final Hinv0 Hrun) as (Hinv & Hidx).
    exists final. split; [assumption |]. split; [assumption |]. split.
    + rewrite (ei_keys Hinv), Hidx. apply firstn_all.
    + intros action. unfold Env.step. rewrite (ei_tasks Hinv), Hidx, Nat.leb_refl. reflexivity.
Qed.

Lemma env_episode_completes_witness :
  exists env final,
    Env.init diamond 2 = Ok env
    /\ Env.episode 4 (fun k => Z.of_nat (k mod 2)) (Env.reset env) = Ok final
    /\ Env.current_task_idx final = List.length (Env.task_list env)
    /\ dict_keys (Env.schedule final) = Env.task_list env
    /\ forall action, Env.step final action = Raise ValueError.
Proof.
  destruct (Env.init diamond 2) as [env | err] eqn:E; [| vm_compute in E; discriminate].
  destruct (env_episode_completes diamond 2 env (fun k => Z.of_nat (k mod 2)) 4 eq_refl E)
    as (final & H).
  - intros k. pose proof (Nat.mod_upper_bound k 2). lia.
  - vm_compute in E. injection E as <-. simpl. lia.
  - exists env, final. split; [reflexivity | exact H].
Defined.

(** X21. The schedule an episode leaves respects the precedence constraints:
    no task starts before a predecessor has ended. *)
Theorem env_episode_respects_precedence (G : DiGraph) (n : nat)
    (env final : Env.TaskOffloadingEnv) (policy : nat -> Z) (fuel : nat) :
  wf_graph G = true ->
  Env.init G n = Ok env ->
  Env.episode fuel policy (Env.reset env) = Ok final ->
  respects_precedence G (spans (Env.get_schedule final)).
Proof.
  intros Hwf Hinit Hrun.
  pose proof (env_reset_inv G n env Hinit) as Hinv0.
  pose proof (env_init_inv G n env Hinit) as (Htl & _).
  pose proof (topological_sort_sound G _ Hwf Htl) as Htopo.
  pose proof (is_topological_NoDup G _ Htopo) as Hnd.
  pose proof (is_topological_preds_seen G _ Htopo) as Hseen.
  destruct (env_episode_inv G _ n policy Hnd Hseen fuel _ final Hinv0 Hrun) as (Hinv & _).
  exact (ei_prec Hinv).
Qed.

Lemma env_episode_respects_precedence_witness :
  exists env final,
    Env.init diamond 2 = Ok env
    /\ Env.episode 4 (fun k => Z.of_nat (k mod 2)) (Env.reset env) = Ok final
    /\ respects_precedence diamond (spans (Env.get_schedule final)).
Proof.
  destruct (Env.init diamond 2) as [env | err] eqn:E; [| vm_compute in E; discriminate].
  destruct (Env.episode 4 (fun k => Z.of_nat (k mod 2)) (Env.reset env))
    as [final | err] eqn:R.
  - exists env, final. split; [reflexivity |]. split; [exact R |].
    exact (env_episode_respects_precedence diamond 2 env final _ 4 eq_refl E R).
  - exfalso. vm_compute in E. injection E as <-. vm_compute in R. discriminate.
Defined.

(** ** The environment: its metrics *)

Lemma Qmax_either (x y : Q) : Qmax x y = x \/ Qmax x y = y.
Proof. unfold Qmax, GenericMinMax.gmax. destruct (x ?= y); auto. Qed.

Lemma fold_max_in (xs : list Q) : forall a, In (fold_left Qmax xs a) (a :: xs).
Proof.
  induction xs as [| y xs IH]; intros a; simpl; [now left |].
  destruct (IH (Qmax a y)) as [H | H].
  - rewrite <- H. destruct (Qmax_either a y) as [E | E]; rewrite E; auto.
  - right. now right.
Qed.

Lemma py_max_in (xs : list Q) (m : Q) : py_max xs = Ok m -> In m xs.
Proof.
  destruct xs as [| x xs]; simpl; [discriminate |]. intros [= <-].
  apply fold_max_in.
Qed.

Lemma env_entry_end_min (G : DiGraph) (avail : list Q) (kv : string * task_info) :
  env_entry_ok G avail kv -> 0.1 <= end_time (snd kv).
Proof.
  intros (Hs & He & _). rewrite He.
  apply (Qle_trans _ (0 + 0.1)); [discriminate |].
  apply Qplus_le_compat; [assumption | apply step_duration_min].
Qed.

Lemma env_makespan_positive (G : DiGraph) (tl : list string) (n : nat)
    (self : Env.TaskOffloadingEnv) :
  env_inv G tl n self -> Env.schedule self <> [] ->
  exists m, py_max (Env.node_available_time self) = Ok m
            /\ 0.1 <= m
            /\ (forall kv, In kv (Env.schedule self) -> end_time (snd kv) <= m)
            /\ exists kv, In kv (Env.schedule self) /\ end_time (snd kv) = m.
Proof.
  intros Hinv Hne.
  destruct (Env.schedule self) as [| kv0 rest] eqn:Hs; [congruence |].
  assert (Hkv0 : In kv0 (Env.schedule self)) by (rewrite Hs; now left).
  pose proof (ei_entries Hinv kv0 Hkv0) as Hok0.
  destruct Hok0 as (Hs0 & He0 & b0 & Hb0 & Hle0).
  destruct (py_max_ok (Env.node_available_time self)) as (m & Hm).
  { intros Hnil. rewrite Hnil in Hb0. destruct (assigned_node (snd kv0)); discriminate. }
  assert (Hall : forall kv, In kv (Env.schedule self) -> end_time (snd kv) <= m).
  { intros kv Hkv. destruct (ei_entries Hinv kv Hkv) as (_ & _ & b & Hb & Hle).
    eapply Qle_trans; [exact Hle |]. eapply py_max_nth; eassumption. }
  assert (Hmin : 0.1 <= m).
  { eapply Qle_trans; [| apply (Hall kv0 Hkv0)].
    apply (env_entry_end_min G (Env.node_available_time self)).
    exact (ei_entries Hinv kv0 Hkv0). }
  exists m. split; [assumption |]. split; [assumption |]. rewrite <- Hs.
  split; [assumption |].
  destruct (ei_source Hinv m (py_max_in _ _ Hm)) as [Hz | Hex]; [| exact Hex].
  exfalso. rewrite Hz in Hmin. apply Hmin. reflexivity.
Qed.

Lemma env_get_metrics_total (G : DiGraph) (tl : list string) (n : nat)
    (self : Env.TaskOffloadingEnv) :
  env_inv G tl n self -> Env.schedule self <> [] ->
  exists mk ut,
    Env.get_metrics self = Ok (mk, ut)
    /\ py_max (Env.node_available_time self) = Ok mk
    /\ List.length ut = n
    /\ forall u, In u ut -> 0 <= u /\ u <= 100.
Proof.
  intros Hinv Hne.
  destruct (env_makespan_positive G tl n self Hinv Hne) as (m & Hm & Hmin & _ & _).
  assert (Hpos : 0 < m) by (eapply Qlt_le_trans; [| exact Hmin]; reflexivity).
  assert (Hnz : ~ m == 0).
  { intros Hz. rewrite Hz in Hpos. discriminate. }
  unfold Env.get_metrics.
  destruct (Env.schedule self) as [| kv0 rest] eqn:Hs; [congruence |].
  destruct (map_result_total _ _
              (fun t => m0 <- py_max (Env.node_available_time self) ;;
                        q <- HEFT.py_div t m0 ;; Ok (q * 100))
              (Env.node_available_time self)) as (ut & Hut & Hlen).
  { intros x _. rewrite Hm. simpl bind. rewrite (py_div_ok x m Hnz). simpl. eauto. }
  rewrite Hut, Hm. simpl bind. exists m, ut.
  split; [reflexivity |]. split; [reflexivity |].
  split; [rewrite Hlen; exact (ei_len Hinv) |].
  intros u Hu. destruct (map_result_in _ _ _ _ _ Hut u Hu) as (x & Hx & Hf).
  rewrite Hm in Hf. simpl bind in Hf. rewrite (py_div_ok x m Hnz) in Hf.
  simpl in Hf. injection Hf as <-.
  pose proof (env_avail_nonneg G tl n self Hinv x Hx) as Hx0.
  pose proof (py_max_ge _ _ _ Hm Hx) as Hxm.
  split.
  - apply Qmult_le_0_compat; [| discriminate].
    apply Qle_shift_div_l; [assumption |]. now rewrite Qmult_0_l.
  - assert (H1 : x / m <= 1).
    { apply Qle_shift_div_r; [assumption |]. now rewrite Qmult_1_l. }
    apply (Qle_trans _ (1 * 100)); [| apply Qle_refl].
    apply Qmult_le_compat_r; [assumption | discriminate].
Qed.



(** X27. The two [evaluate_dqn] drivers agree: the largest stored end time,
    which the one in [src/algorithms] reports, is the makespan of
    [get_metrics], which the one in [src/evaluation] reports.  With at
    most eight nodes the energy sum finds a power for every node. *)
Theorem evaluate_dqn_reports_the_metrics_makespan (G : DiGraph) (n : nat)
    (env : Env.TaskOffloadingEnv) (policy : nat -> Z) (fuel : nat) :
  wf_graph G = true ->
  Env.init G n = Ok env ->
  (forall k, (0 <= policy k < Z.of_nat n)%Z) ->
  (List.length (Env.task_list env) <= fuel)%nat ->
  (n <= 8)%nat ->
  exists m e mk ut sched,
    Integrated.evaluate_dqn fuel policy G n = Ok (m, e)
    /\ Evaluator._run_evaluation_episode fuel policy env = Ok (mk, ut, sched)
    /\ m == mk
    /\ e == recomputed_energy sched Integrated.NODE_POWERS.
Proof.
  intros Hwf Hinit Hpol Hfuel Hn.
  pose proof (env_reset_inv G n env Hinit) as Hinv0.
  pose proof (env_init_inv G n env Hinit) as (Htl & Hne & _ & _).
  pose proof (topological_sort_sound G _ Hwf Htl) as Htopo.
  pose proof (is_topological_NoDup G _ Htopo) as Hnd.
  pose proof (is_topological_preds_seen G _ Htopo) as Hseen.
  destruct (env_episode_runs G _ n policy Hnd Hseen Hpol fuel (Env.reset env) Hinv0)
    as (final & Hrun).
  - simpl. destruct (Env.task_list env); [congruence | simpl; lia].
  - simpl. lia.
  - destruct (env_episode_inv G _ n policy Hnd Hseen fuel _ final Hinv0 Hrun) as (Hinv & Hidx).
    assert (Hsne : Env.schedule final <> []).
    { intros Hnil. pose proof (ei_keys Hinv) as Hk.
      rewrite Hnil, Hidx, firstn_all in Hk. simpl in Hk. congruence. }
    destruct (env_get_metrics_total G _ n final Hinv Hsne) as (mk & ut & Hget & Hmk & _ & _).
    destruct (env_makespan_positive G _ n final Hinv Hsne)
      as (m0 & Hm0 & _ & Hall & (kv & Hkv & Hend)).
    assert (Heq : m0 = mk) by congruence.
    rewrite Heq in Hall, Hend. clear Heq Hm0 m0.
    destruct (py_max_ok (map (fun kv => end_time (snd kv)) (Env.schedule final)))
      as (m & Hm).
    { destruct (Env.schedule final); [congruence | discriminate]. }
    destruct (fcfs_energy_loop_total (Env.schedule final) Integrated.NODE_POWERS) with (acc := 0)
      as (e & He).
    { intros kv' Hkv'. destruct (ei_entries Hinv kv' Hkv') as (_ & _ & b & Hb & _).
      assert (Hlt : (assigned_node (snd kv') < List.length (Env.node_available_time final))%nat)
        by (apply nth_error_Some; congruence).
      rewrite (ei_len Hinv) in Hlt.
      unfold Integrated.NODE_POWERS. rewrite default_node_powers_length. lia. }
    exists m, e, mk, ut, (Env.schedule final).
    split; [| split; [| split]].
    + unfold Integrated.evaluate_dqn. rewrite Hinit. simpl bind. rewrite Hrun. simpl bind.
      unfold Env.get_schedule. rewrite Hm. simpl bind.
      unfold Integrated.calculate_energy. rewrite He. reflexivity.
    + unfold Evaluator._run_evaluation_episode. rewrite Hrun. simpl bind.
      rewrite Hget. reflexivity.
    + apply Qle_antisym.
      * apply (py_max_le _ _ _ Hm). intros x Hx.
        apply in_map_iff in Hx as (kv' & <- & Hkv'). now apply Hall.
      * rewrite <- Hend. apply (py_max_ge _ _ _ Hm).
        apply in_map_iff. exists kv. split; [reflexivity | assumption].
    + rewrite (fcfs_energy_loop_spec _ _ _ _ He). ring.
Qed.

Lemma evaluate_dqn_reports_the_metrics_makespan_witness :
  exists env m e mk ut sched,
    Env.init diamond 2 = Ok env
    /\ Integrated.evaluate_dqn 4 (fun k => Z.of_nat (k mod 2)) diamond 2 = Ok (m, e)
    /\ Evaluator._run_evaluation_episode 4 (fun k => Z.of_nat (k mod 2)) env
       = Ok (mk, ut, sched)
    /\ m == mk
    /\ e == recomputed_energy sched Integrated.NODE_POWERS.
Proof.
  destruct (Env.init diamond 2) as [env | err] eqn:E; [| vm_compute in E; discriminate].
  destruct (evaluate_dqn_reports_the_metrics_makespan diamond 2 env
              (fun k => Z.of_nat (k mod 2)) 4 eq_refl E)
    as (m & e & mk & ut & sched & H).
  - intros k. pose proof (Nat.mod_upper_bound k 2). lia.
  - vm_compute in E. injection E as <-. simpl. lia.
  - lia.
  - exists env, m, e, mk, ut, sched. split; [reflexivity | exact H].
Defined.

(** ** The environment seen through the evaluator *)

Lemma Forall2_Qeq_nth (xs ys : list Q) :
  Forall2 Qeq xs ys ->
  forall i x, nth_error xs i = Some x -> exists y, nth_error ys i = Some y /\ x == y.
Proof.
  induction 1 as [| x0 y0 xs ys Hxy H IH]; intros [| i] x Hx; simpl in Hx; try discriminate.
  - injection Hx as <-. exists y0. split; [reflexivity | assumption].
  - now apply IH.
Qed.

Lemma Forall2_Qeq_sym (xs ys : list Q) : Forall2 Qeq xs ys -> Forall2 Qeq ys xs.
Proof. induction 1; constructor; [now symmetry | assumption]. Qed.

Lemma Forall2_Qeq_in (xs ys : list Q) :
  Forall2 Qeq xs ys -> forall x, In x xs -> exists y, In y ys /\ x == y.
Proof.
  induction 1 as [| x0 y0 xs ys Hxy H IH]; intros x Hx; [contradiction |].
  destruct Hx as [<- | Hx].
  - exists y0. split; [now left | assumption].
  - destruct (IH x Hx) as (y & Hy & Heq). exists y. split; [now right | assumption].
Qed.

Lemma Forall2_Qeq_list_set (xs ys : list Q) (v w : Q) :
  Forall2 Qeq xs ys -> v == w ->
  forall i, Forall2 Qeq (list_set xs i v) (list_set ys i w).
Proof.
  intros H Hvw. induction H as [| x0 y0 xs ys Hxy H IH]; intros [| i]; simpl;
    constructor; auto.
Qed.

Lemma Forall2_Qeq_map (A : Type) (f g : A -> Q) (l : list A) :
  (forall a, In a l -> f a == g a) -> Forall2 Qeq (map f l) (map g l).
Proof.
  induction l as [| a l IH]; intros H; simpl; constructor.
  - apply H. now left.
  - apply IH. intros b Hb. apply H. now right.
Qed.

Lemma py_max_Qeq (xs ys : list Q) (m m' : Q) :
  Forall2 Qeq xs ys -> py_max xs = Ok m -> py_max ys = Ok m' -> m == m'.
Proof.
  intros H Hm Hm'. apply Qle_antisym.
  - apply (py_max_le _ _ _ Hm). intros x Hx.
    destruct (Forall2_Qeq_in _ _ H x Hx) as (y & Hy & ->). exact (py_max_ge _ _ _ Hm' Hy).
  - apply (py_max_le _ _ _ Hm'). intros y Hy.
    destruct (Forall2_Qeq_in _ _ (Forall2_Qeq_sym _ _ H) y Hy) as (x & Hx & ->).
    exact (py_max_ge _ _ _ Hm Hx).
Qed.

Lemma ready_times_agree (xs ys : list Q) (r : Q) :
  Forall2 Qeq xs ys -> (forall x, In x xs -> 0 <= x) ->
  py_max (or_zero xs) = Ok r -> r == max_with_zero ys.
Proof.
  intros H Hpos Hr. apply Qle_antisym.
  - apply (py_max_le _ _ _ Hr). intros x Hx.
    destruct xs as [| x0 xs].
    + destruct Hx as [<- | []]. apply max_with_zero_nonneg.
    + destruct (Forall2_Qeq_in _ _ H x Hx) as (y & Hy & ->). now apply max_with_zero_ge.
  - apply max_with_zero_le.
    + destruct xs as [| x0 xs].
      * simpl in Hr. injection Hr as <-. apply Qle_refl.
      * eapply Qle_trans; [apply (Hpos x0); now left |].
        apply (py_max_ge _ _ _ Hr). now left.
    + intros y Hy.
      destruct (Forall2_Qeq_in _ _ (Forall2_Qeq_sym _ _ H) y Hy) as (x & Hx & ->).
      now apply (py_max_or_zero_ge _ _ _ Hr).
Qed.

Lemma skipn_nth (A : Type) (l : list A) (i : nat) (x : A) :
  nth_error l i = Some x -> skipn i l = x :: skipn (S i) l.
Proof.
  revert i. induction l as [| y l IH]; intros [| i] H; simpl in H; try discriminate.
  - now injection H as ->.
  - simpl. now rewrite (IH i H).
Qed.

Lemma env_episode_keeps (G : DiGraph) (tl : list string) (n : nat) (policy : nat -> Z) :
  NoDup tl -> preds_seen G [] tl ->
  forall fuel self final,
    env_inv G tl n self ->
    Env.episode fuel policy self = Ok final ->
    forall t i, dict_get (Env.schedule self) t = Some i ->
                dict_get (Env.schedule final) t = Some i.
Proof.
  intros Hnd Hseen. induction fuel as [| fuel IH]; intros self final Hinv H t i Hget;
    simpl in H; [discriminate |].
  bind_destruct H as r Hr. destruct r as [[self' done] info].
  destruct (env_step_preserves G tl n _ _ _ _ _ Hnd Hseen Hinv Hr) as (Hinv' & _ & _).
  destruct (env_step_inv _ _ _ _ _ Hr)
    as (task & ready & busy & Htask & _ & _ & _ & _ & _ & _ & _ & _ & _ & _ & Hsched').
  assert (Hget' : dict_get (Env.schedule self') t = Some i).
  { rewrite Hsched', dict_get_set_other; [assumption |].
    intros <-. apply (nth_error_not_in_firstn tl (Env.current_task_idx self) task Hnd).
    - rewrite <- (ei_tasks Hinv). exact Htask.
    - rewrite <- (ei_keys Hinv). eapply dict_get_some_key; eassumption. }
  destruct done; [now injection H as <- | exact (IH _ _ Hinv' H t i Hget')].
Qed.

Lemma evaluate_tasks_cons (dag : DiGraph) (pw : list Q) (sched : dict nat)
    (task : string) (rest : list string) (st : QIPSO.eval_state) :
  QIPSO.evaluate_tasks dag pw sched (task :: rest) st
  = ('(node, start_time, end_time, st') <- QIPSO.evaluate_task dag pw sched st task ;;
     '(trace, st'') <- QIPSO.evaluate_tasks dag pw sched rest st' ;;
     Ok ((task, (node, start_time, end_time)) :: trace, st'')).
Proof. reflexivity. Qed.

Lemma env_episode_as_evaluation (G : DiGraph) (tl : list string) (n : nat)
    (policy : nat -> Z) (pw : list Q) (asg : dict nat) :
  NoDup tl -> preds_seen G [] tl ->
  (forall t, In t tl ->
     Env.step_duration (node_attrs G t) == QIPSO.eval_duration (node_attrs G t)) ->
  List.length pw = n ->
  forall fuel self final est,
    env_inv G tl n self ->
    Env.episode fuel policy self = Ok final ->
    (forall t i, dict_get (Env.schedule final) t = Some i ->
       dict_get asg t = Some (assigned_node i)) ->
    same_times self est ->
    List.length (QIPSO.device_energy est) = n ->
    exists trace est',
      QIPSO.evaluate_tasks G pw asg (skipn (Env.current_task_idx self) tl) est
      = Ok (trace, est')
      /\ same_times final est'.
Proof.
  intros Hnd Hseen Hdur Hpw.
  induction fuel as [| fuel IH]; intros self final est Hinv H Hasg Hsame Hen;
    simpl in H; [discriminate |].
  bind_destruct H as r Hr. destruct r as [[self' done] info].
  destruct (env_step_preserves G tl n _ _ _ _ _ Hnd Hseen Hinv Hr) as (Hinv' & Hidx' & Hdone).
  destruct (env_step_inv _ _ _ _ _ Hr)
    as (task & ready & busy & Htask & Hact & Hready & Hbusy & _ & _ & _ & _ & _ & _
        & Hav' & Hsched').
  rewrite (ei_dag Hinv), (ei_tasks Hinv), (ei_nodes Hinv) in *.
  set (d := Env.step_duration (node_attrs G task)) in *.
  destruct Hsame as [Hav Hfin].
  (* the evaluator's round for the same task *)
  assert (Hnode : dict_get asg task = Some (Z.to_nat (policy (Env.current_task_idx self)))).
  { assert (Hset : dict_get (Env.schedule self') task
                   = Some (mkInfo (Z.to_nat (policy (Env.current_task_idx self)))
                             (Qmax ready busy) (Qmax ready busy + d) d (Some ready)))
      by (rewrite Hsched'; apply dict_get_set_same).
    destruct done.
    - injection H as <-. exact (Hasg _ _ Hset).
    - exact (Hasg _ _ (env_episode_keeps G tl n policy Hnd Hseen _ _ _ Hinv' H _ _ Hset)). }
  destruct (Forall2_Qeq_nth _ _ Hav _ _ Hbusy) as (busy' & Hbusy' & Hbb).
  assert (Hlt : (Z.to_nat (policy (Env.current_task_idx self)) < n)%nat) by lia.
  destruct (list_item_ok _ (QIPSO.device_energy est)
              (Z.to_nat (policy (Env.current_task_idx self)))) as (en & Hen');
    [now rewrite Hen |].
  destruct (list_item_ok _ pw (Z.to_nat (policy (Env.current_task_idx self))))
    as (power & Hpower); [now rewrite Hpw |].
  set (ready' := max_with_zero
         (map (fun dep => dict_get_default (QIPSO.task_finish_times est) dep 0)
              (predecessors G task))).
  assert (Hrr : ready == ready').
  { apply (ready_times_agree (Env.pred_end_times (Env.schedule self) (predecessors G task))).
    - unfold Env.pred_end_times. apply Forall2_Qeq_map. intros p _.
      specialize (Hfin p). unfold dict_get_default.
      destruct (dict_get (Env.schedule self) p), (dict_get (QIPSO.task_finish_times est) p);
        try contradiction; [assumption | reflexivity].
    - intros x Hx. unfold Env.pred_end_times in Hx. apply in_map_iff in Hx as (p & <- & _).
      destruct (dict_get (Env.schedule self) p) as [i |] eqn:Hp; [| apply Qle_refl].
      eapply Qle_trans; [| apply (env_entry_end_min G (Env.node_available_time self) (p, i))].
      + discriminate.
      + apply (ei_entries Hinv). now apply dict_get_some_in.
    - exact Hready. }
  assert (Hin : In task tl) by (eapply nth_error_In; eassumption).
  assert (Hfinish : Qmax ready busy + d
                    == Qmax ready' busy' + QIPSO.eval_duration (node_attrs G task)).
  { unfold d. rewrite (Hdur task Hin), Hrr, Hbb. reflexivity. }
  set (est1 := QIPSO.mkEvalState
         (list_set (QIPSO.device_end_times est)
            (Z.to_nat (policy (Env.current_task_idx self)))
            (Qmax ready' busy' + QIPSO.eval_duration (node_attrs G task)))
         (list_set (QIPSO.device_energy est)
            (Z.to_nat (policy (Env.current_task_idx self)))
            (en + power * QIPSO.eval_duration (node_attrs G task)))
         (dict_set (QIPSO.task_finish_times est) task
            (Qmax ready' busy' + QIPSO.eval_duration (node_attrs G task)))).
  assert (Hstep : QIPSO.evaluate_task G pw asg est task
                  = Ok (Z.to_nat (policy (Env.current_task_idx self)),
                        Qmax ready' busy',
                        Qmax ready' busy' + QIPSO.eval_duration (node_attrs G task), est1)).
  { unfold QIPSO.evaluate_task, dict_item. rewrite Hnode. simpl bind.
    unfold list_item at 1. rewrite Hbusy'. simpl bind.
    rewrite Hen'. simpl bind. rewrite Hpower. reflexivity. }
  assert (Hsame1 : same_times self' est1).
  { split.
    - rewrite Hav'. simpl. apply Forall2_Qeq_list_set; assumption.
    - intros t. rewrite Hsched'. simpl.
      destruct (String.eqb_spec task t) as [<- | Hne].
      + rewrite !dict_get_set_same. simpl. exact Hfinish.
      + rewrite !dict_get_set_other by assumption. apply Hfin. }
  rewrite (skipn_nth _ _ _ _ Htask), evaluate_tasks_cons, Hstep. cbn [bind].
  assert (Hrest : exists trace est',
            QIPSO.evaluate_tasks G pw asg (skipn (S (Env.current_task_idx self)) tl) est1
            = Ok (trace, est') /\ same_times final est').
  { destruct done.
    - injection H as <-. symmetry in Hdone. apply Nat.leb_le in Hdone.
      rewrite skipn_all2 by lia. exists [], est1. split; [reflexivity | assumption].
    - rewrite <- Hidx'. apply (IH self' final est1); try assumption.
      simpl. rewrite list_set_length. assumption. }
  destruct Hrest as (trace & est' & Hrun & Hsame').
  rewrite Hrun. cbn [bind]. eauto.
Qed.

Lemma step_duration_of_stored_quotient (a : attrs) (c e : Q) :
  comp_cost a = Some c -> exec_time a = Some e -> e == c / 1000 ->
  Env.step_duration a == QIPSO.eval_duration a.
Proof.
  intros Hc He Heq. unfold Env.step_duration, QIPSO.eval_duration.
  rewrite Hc, He, Heq. reflexivity.
Qed.

Lemma Forall2_Qeq_refl (xs : list Q) : Forall2 Qeq xs xs.
Proof. induction xs; constructor; [reflexivity | assumption]. Qed.

(** X22. When every task carries a [comp_cost] and, as [exec_time], the
    quotient [comp_cost / 1000] (what the loaders store for a task that came
    with a [comp_cost] only), the environment and the QIPSO evaluator are the
    same simulator: both then run a task for [max(0.1, comp_cost / 1000)],
    and evaluating the assignment an episode produced gives the makespan the
    environment reports. *)
Theorem env_episode_matches_evaluator (G : DiGraph) (n : nat)
    (env final : Env.TaskOffloadingEnv) (policy : nat -> Z) (fuel : nat)
    (mk : Q) (ut : list Q) :
  wf_graph G = true ->
  Env.init G n = Ok env ->
  (forall t a, In (t, a) (nodes G) ->
     exists c e, comp_cost a = Some c /\ exec_time a = Some e /\ e == c / 1000) ->
  Env.episode fuel policy (Env.reset env) = Ok final ->
  Env.get_metrics final = Ok (mk, ut) ->
  exists m e,
    QIPSO.evaluate_schedule G (Env.task_list env) n
      (assignment_of (Env.get_schedule final)) = Ok (m, e)
    /\ m == mk.
Proof.
  intros Hwf Hinit Hcost Hrun Hget.
  pose proof (env_reset_inv G n env Hinit) as Hinv0.
  pose proof (env_init_inv G n env Hinit) as (Htl & Hne & _ & _).
  pose proof (topological_sort_sound G _ Hwf Htl) as Htopo.
  pose proof (is_topological_NoDup G _ Htopo) as Hnd.
  pose proof (is_topological_preds_seen G _ Htopo) as Hseen.
  pose proof (wf_graph_inv G Hwf) as [Hnames _].
  destruct (env_episode_inv G _ n policy Hnd Hseen fuel _ final Hinv0 Hrun) as (Hinv & Hidx).
  assert (Hsne : Env.schedule final <> []).
  { intros Hnil. pose proof (ei_keys Hinv) as Hk.
    rewrite Hnil, Hidx, firstn_all in Hk. simpl in Hk. congruence. }
  destruct (env_get_metrics_total G _ n final Hinv Hsne) as (mk' & ut' & Hget' & Hmk & _ & _).
  assert (Heq : mk' = mk) by congruence. rewrite Heq in Hmk. clear Heq Hget' ut' mk'.
  destruct (env_episode_as_evaluation G (Env.task_list env) n policy
              (default_node_powers n) (assignment_of (Env.schedule final))
              Hnd Hseen) with (fuel := fuel) (self := Env.reset env) (final := final)
              (est := QIPSO.initial_eval_state n)
    as (trace & est' & Heval & Hav & _).
  - intros t Ht.
    apply (is_topological_members G _ t Htopo) in Ht.
    unfold node_names in Ht. apply in_map_iff in Ht as ([t' a] & Hfst & Hin).
    simpl in Hfst. subst t'. rewrite (node_attrs_in G t a Hnames Hin).
    destruct (Hcost t a Hin) as (c & e & Hc & He & Heq).
    now apply (step_duration_of_stored_quotient a c e).
  - apply default_node_powers_length.
  - assumption.
  - assumption.
  - intros t i Hi. rewrite dict_get_assignment_of, Hi. reflexivity.
  - pose proof (ei_nodes Hinv0) as Hn0. simpl in Hn0.
    split; [simpl; rewrite Hn0; apply Forall2_Qeq_refl | intros t; exact I].
  - apply repeat_length.
  - simpl in Heval.
    destruct (py_max_ok (QIPSO.device_end_times est')) as (m & Hm).
    { intros Hnil. rewrite Hnil in Hav. inversion Hav as [Hnil' |].
      rewrite <- Hnil' in Hmk. discriminate. }
    exists m, (py_sum (QIPSO.device_energy est')). split.
    + unfold QIPSO.evaluate_schedule, Env.get_schedule. rewrite Heval. simpl bind.
      rewrite Hm. reflexivity.
    + symmetry. exact (py_max_Qeq _ _ _ _ Hav Hmk Hm).
Qed.

Lemma env_episode_matches_evaluator_witness :
  exists env final mk ut m e,
    Env.init cost_chain 2 = Ok env
    /\ Env.episode 2 (fun k => Z.of_nat (k mod 2)) (Env.reset env) = Ok final
    /\ Env.get_metrics final = Ok (mk, ut)
    /\ QIPSO.evaluate_schedule cost_chain (Env.task_list env) 2
         (assignment_of (Env.get_schedule final)) = Ok (m, e)
    /\ m == mk.
Proof.
  destruct (Env.init cost_chain 2) as [env | err] eqn:E; [| vm_compute in E; discriminate].
  destruct (Env.episode 2 (fun k => Z.of_nat (k mod 2)) (Env.reset env))
    as [final | err] eqn:R;
    [| exfalso; vm_compute in E; injection E as <-; vm_compute in R; discriminate].
  destruct (Env.get_metrics final) as [[mk ut] | err] eqn:M;
    [| exfalso; vm_compute in E; injection E as <-; vm_compute in R; injection R as <-;
       vm_compute in M; discriminate].
  destruct (env_episode_matches_evaluator cost_chain 2 env final
              (fun k => Z.of_nat (k mod 2)) 2 mk ut eq_refl E)
    as (m & e & H1 & H2); [| exact R | exact M |].
  - intros t a Hin. simpl in Hin.
    destruct Hin as [[= <- <-] | [[= <- <-] | []]].
    + exists 5000, (5000 / 1000). repeat split; reflexivity.
    + exists 1000, (1000 / 1000). repeat split; reflexivity.
  - exists env, final, mk, ut, m, e.
    split; [reflexivity |]. split; [exact R |]. split; [exact M |]. split; assumption.
Defined.

(** ** HEFT returns *)

Lemma heft_task_cost_ok (self : HEFT.HEFTScheduler) (a : attrs) :
  0 < HEFT.avg_comp_cost self ->
  HEFT._get_task_cost self a = Ok (heft_cost_attr a / HEFT.avg_comp_cost self).
Proof.
  intros Havg. unfold HEFT._get_task_cost, heft_cost_attr.
  assert (Hnz : ~ HEFT.avg_comp_cost self == 0).
  { intros Hz. rewrite Hz in Havg. discriminate. }
  destruct (comp_cost a), (exec_time a); now rewrite py_div_ok.
Qed.

Lemma heft_cost_nonneg (self : HEFT.HEFTScheduler) (G : DiGraph) (t : string) :
  0 < HEFT.avg_comp_cost self -> nonneg_costs G = true ->
  0 <= heft_cost_attr (node_attrs G t) / HEFT.avg_comp_cost self.
Proof.
  intros Havg Hnn.
  assert (Hc : 0 <= heft_cost_attr (node_attrs G t)).
  { unfold node_attrs, dict_get_default.
    destruct (dict_get (nodes G) t) as [a |] eqn:E; [| discriminate].
    apply dict_get_some_in in E. unfold nonneg_costs in Hnn.
    rewrite forallb_forall in Hnn. specialize (Hnn _ E). now apply Qle_bool_iff in Hnn. }
  unfold Qdiv. apply Qmult_le_0_compat; [assumption |].
  apply Qinv_le_0_compat. now apply Qlt_le_weak.
Qed.

Lemma heft_comm_cost_ok (self : HEFT.HEFTScheduler) (G : DiGraph) (u v : string) :
  nonneg_comm G = true -> 0 < HEFT.avg_comp_cost self ->
  exists c, HEFT._get_comm_cost self (edge_comm (edges G) u v) = Ok c /\ 0 <= c.
Proof.
  intros Hnn Havg.
  assert (Hnz : ~ HEFT.avg_comp_cost self == 0).
  { intros Hz. rewrite Hz in Havg. discriminate. }
  assert (Hex : exists c, HEFT._get_comm_cost self (edge_comm (edges G) u v) = Ok c).
  { unfold HEFT._get_comm_cost. destruct (edge_comm (edges G) u v); [| eauto].
    rewrite py_div_ok by assumption. eauto. }
  destruct Hex as (c & Hc). exists c. split; [assumption |].
  exact (comm_cost_nonneg self G u v c Hnn Havg Hc).
Qed.

Lemma rank_extends_refl (rank : dict Q) : rank_extends rank rank.
Proof. intros t r H. exact H. Qed.

Lemma rank_extends_trans (r1 r2 r3 : dict Q) :
  rank_extends r1 r2 -> rank_extends r2 r3 -> rank_extends r1 r3.
Proof. intros H12 H23 t r H. apply H23, H12, H. Qed.

Lemma index_of_in (x : string) (xs : list string) :
  In x xs -> exists i, index_of x xs = Some i.
Proof.
  intros H. destruct (index_of_app_in x xs [] H) as (i & Hi & _).
  rewrite app_nil_r in Hi. eauto.
Qed.

Lemma edge_index_lt (G : DiGraph) (tl : list string) (u v : string) (i : nat) :
  is_topological G tl = true ->
  In v (successors G u) -> index_of u tl = Some i ->
  exists j, index_of v tl = Some j /\ (i < j)%nat.
Proof.
  intros Htopo Hv Hu. apply in_successors in Hv as (c & Hedge).
  unfold is_topological in Htopo. rewrite !andb_true_iff in Htopo.
  destruct Htopo as [_ Hfw]. rewrite forallb_forall in Hfw.
  specialize (Hfw _ Hedge). unfold edge_forward in Hfw. simpl in Hfw.
  unfold edge_src, edge_dst in Hfw. simpl in Hfw. rewrite Hu in Hfw.
  destruct (index_of v tl) as [j |]; [| discriminate].
  apply Nat.ltb_lt in Hfw. eauto.
Qed.

Section HeftRanks.
Variable self : HEFT.HEFTScheduler.
Variable G : DiGraph.
Variable tl : list string.
Hypothesis Htopo : is_topological G tl = true.
Hypothesis Havg : 0 < HEFT.avg_comp_cost self.
Hypothesis Hcosts : nonneg_costs G = true.
Hypothesis Hcomm : nonneg_comm G = true.

Lemma compute_upward_rank_S (depth : nat) (task : string) (rank : dict Q) :
  HEFT.compute_upward_rank (S depth) self G task rank
  = match dict_get rank task with
    | Some r => Ok (r, rank)
    | None =>
        comp <- HEFT._get_task_cost self (node_attrs G task) ;;
        match successors G task with
        | [] => Ok (comp, dict_set rank task comp)
        | succs =>
            '(terms, rank') <-
              over_successors (HEFT.compute_upward_rank depth self G) self G task
                succs rank ;;
            best <- py_max terms ;;
            Ok (comp + best, dict_set rank' task (comp + best))
        end
    end.
Proof.
  assert (Hover : forall ss rk,
            (fix over (ss : list string) (rank : dict Q) : result (list Q * dict Q) :=
               match ss with
               | [] => Ok ([], rank)
               | succ :: rest =>
                   '(r, rank1) <- HEFT.compute_upward_rank depth self G succ rank ;;
                   c <- HEFT._get_comm_cost self (edge_comm (edges G) task succ) ;;
                   '(later, rank2) <- over rest rank1 ;;
                   Ok ((r + c) :: later, rank2)
               end) ss rk
            = over_successors (HEFT.compute_upward_rank depth self G) self G task ss rk).
  { induction ss as [| s ss IH]; intros rk; [reflexivity |].
    cbn [over_successors].
    destruct (HEFT.compute_upward_rank depth self G s rk) as [[r rank1] | e]; [| reflexivity].
    cbn [bind].
    destruct (HEFT._get_comm_cost self (edge_comm (edges G) task s)) as [c | e];
      [| reflexivity].
    cbn [bind]. rewrite IH. reflexivity. }
  cbn [HEFT.compute_upward_rank].
  destruct (dict_get rank task); [reflexivity |].
  destruct (HEFT._get_task_cost self (node_attrs G task)); [| reflexivity].
  cbn [bind].
  destruct (successors G task) as [| s0 ss0]; [reflexivity |].
  rewrite <- Hover. reflexivity.
Qed.

(** What one call of [compute_upward_rank] on the task at position [i]
    achieves. *)
Lemma compute_upward_rank_total :
  forall depth task rank i,
    index_of task tl = Some i ->
    (List.length tl - i <= depth)%nat ->
    rank_closed G rank ->
    exists r rank',
      HEFT.compute_upward_rank depth self G task rank = Ok (r, rank')
      /\ dict_get rank' task = Some r
      /\ rank_extends rank rank'
      /\ rank_closed G rank'
      /\ forall t, dict_get rank t = None -> dict_get rank' t <> None ->
           exists j, index_of t tl = Some j /\ (i <= j)%nat.
Proof.
  induction depth as [| depth IH]; intros task rank i Hi Hdepth Hclosed.
  - apply index_of_some in Hi as [Hlt _]. lia.
  - rewrite compute_upward_rank_S. destruct (dict_get rank task) as [r |] eqn:Hget.
    + exists r, rank. split; [reflexivity |]. split; [assumption |].
      split; [apply rank_extends_refl |]. split; [assumption |].
      intros t Hn Hs. congruence.
    + rewrite (heft_task_cost_ok self _ Havg). cbn [bind].
      set (comp := heft_cost_attr (node_attrs G task) / HEFT.avg_comp_cost self).
      assert (Hcomp : 0 <= comp) by (apply heft_cost_nonneg; assumption).
      destruct (successors G task) as [| s0 ss0] eqn:Hsuccs.
      * exists comp, (dict_set rank task comp). split; [reflexivity |].
        split; [apply dict_get_set_same |]. split; [| split].
        -- intros t r Ht. rewrite dict_get_set_other; [assumption | congruence].
        -- intros t r Ht s Hs.
           destruct (String.eqb_spec task t) as [<- | Hne].
           ++ rewrite Hsuccs in Hs. contradiction.
           ++ rewrite dict_get_set_other in Ht by assumption.
              destruct (Hclosed t r Ht s Hs) as (r' & Hr' & Hle).
              exists r'. split; [| assumption].
              rewrite dict_get_set_other; [assumption |]. congruence.
        -- intros t Hn Hs. destruct (String.eqb_spec task t) as [<- | Hne]; [eauto |].
           rewrite dict_get_set_other in Hs by assumption. contradiction.
      * rewrite <- Hsuccs.
        assert (Hover : forall ss rank0,
                  (forall s, In s ss -> In s (successors G task)) ->
                  rank_closed G rank0 ->
                  exists terms rank1,
                    over_successors (HEFT.compute_upward_rank depth self G) self G task
                      ss rank0 = Ok (terms, rank1)
                    /\ List.length terms = List.length ss
                    /\ rank_extends rank0 rank1
                    /\ rank_closed G rank1
                    /\ (forall s, In s ss ->
                          exists r x, dict_get rank1 s = Some r /\ In x terms /\ r <= x)
                    /\ forall t, dict_get rank0 t = None -> dict_get rank1 t <> None ->
                         exists j, index_of t tl = Some j /\ (i < j)%nat).
        { induction ss as [| s ss IHss]; intros rank0 Hsub Hc0.
          - exists [], rank0. split; [reflexivity |]. split; [reflexivity |].
            split; [apply rank_extends_refl |]. split; [assumption |].
            split; [intros s [] |]. intros t Hn Hs. contradiction.
          - destruct (edge_index_lt G tl task s i Htopo (Hsub s (or_introl eq_refl)) Hi)
              as (j & Hj & Hij).
            destruct (IH s rank0 j Hj) as (r & rank1 & Hrun & Hr & Hext1 & Hc1 & Hadd1);
              [lia | assumption |].
            destruct (heft_comm_cost_ok self G task s Hcomm Havg) as (c & Hcc & Hc0').
            destruct (IHss rank1) as (later & rank2 & Hrest & Hlen & Hext2 & Hc2 & Hin2 & Hadd2);
              [intros s' Hs'; apply Hsub; now right | assumption |].
            exists ((r + c) :: later), rank2.
            split.
            { cbn [over_successors]. rewrite Hrun. cbn [bind]. rewrite Hcc. cbn [bind].
              rewrite Hrest. reflexivity. }
            split; [simpl; now rewrite Hlen |].
            split; [eapply rank_extends_trans; eassumption |].
            split; [assumption |].
            split.
            + intros s' [<- | Hs'].
              * exists r, (r + c). split; [now apply Hext2 |]. split; [now left |].
                rewrite <- (Qplus_0_r r) at 1. now apply Qplus_le_r.
              * destruct (Hin2 s' Hs') as (r' & x & H1 & H2 & H3).
                exists r', x. split; [assumption |]. split; [now right | assumption].
            + intros t Hn Hs.
              destruct (dict_get rank1 t) as [v |] eqn:H1.
              * destruct (Hadd1 t Hn) as (j' & Hj' & Hle); [congruence |].
                exists j'. split; [assumption | lia].
              * exact (Hadd2 t H1 Hs). }
        destruct (Hover (successors G task) rank (fun s H => H) Hclosed)
          as (terms & rank1 & Hrun & Hlen & Hext & Hc1 & Hin & Hadd).
        assert (Hnone1 : dict_get rank1 task = None).
        { destruct (dict_get rank1 task) as [v |] eqn:H1; [| reflexivity].
          destruct (Hadd task Hget) as (j & Hj & Hlt); [congruence |].
          rewrite Hi in Hj. injection Hj as <-. lia. }
        destruct (py_max_ok terms) as (best & Hbest).
        { intros Hnil. rewrite Hnil, Hsuccs in Hlen. discriminate. }
        exists (comp + best), (dict_set rank1 task (comp + best)).
        split.
        { rewrite Hrun. cbn [bind]. rewrite Hbest. reflexivity. }
        split; [apply dict_get_set_same |]. split; [| split].
        -- intros t r Ht. rewrite dict_get_set_other; [now apply Hext | congruence].
        -- intros t r Ht s Hs.
           destruct (String.eqb_spec task t) as [<- | Hne].
           ++ rewrite dict_get_set_same in Ht. injection Ht as <-.
              destruct (Hin s Hs) as (r' & x & Hr' & Hx & Hle).
              exists r'. split.
              ** rewrite dict_get_set_other; [assumption | congruence].
              ** eapply Qle_trans; [exact Hle |].
                 eapply Qle_trans; [exact (py_max_ge _ _ _ Hbest Hx) |].
                 rewrite <- (Qplus_0_l best) at 1. now apply Qplus_le_l.
           ++ rewrite dict_get_set_other in Ht by assumption.
              destruct (Hc1 t r Ht s Hs) as (r' & Hr' & Hle).
              exists r'. split; [| assumption].
              rewrite dict_get_set_other; [assumption | congruence].
        -- intros t Hn Hs. destruct (String.eqb_spec task t) as [<- | Hne]; [eauto |].
           rewrite dict_get_set_other in Hs by assumption.
           destruct (Hadd t Hn Hs) as (j & Hj & Hlt). exists j. split; [assumption | lia].
Qed.

End HeftRanks.

Section HeftOrder.
Variable self : HEFT.HEFTScheduler.
Variable G : DiGraph.
Variable tl : list string.
Hypothesis Htopo : is_topological G tl = true.
Hypothesis Havg : 0 < HEFT.avg_comp_cost self.
Hypothesis Hcosts : nonneg_costs G = true.
Hypothesis Hcomm : nonneg_comm G = true.

Lemma rank_all_total (depth : nat) :
  (List.length tl <= depth)%nat ->
  forall tasks rank,
    (forall t, In t tasks -> In t tl) ->
    rank_closed G rank ->
    exists rank',
      HEFT.rank_all depth self G tasks rank = Ok rank'
      /\ rank_extends rank rank'
      /\ rank_closed G rank'
      /\ forall t, In t tasks -> exists r, dict_get rank' t = Some r.
Proof.
  intros Hdepth. induction tasks as [| task rest IH]; intros rank Hsub Hclosed.
  - exists rank. split; [reflexivity |]. split; [apply rank_extends_refl |].
    split; [assumption | intros t []].
  - destruct (index_of_in task tl (Hsub task (or_introl eq_refl))) as (i & Hi).
    destruct (compute_upward_rank_total self G tl Htopo Havg Hcosts Hcomm
                depth task rank i Hi) as (r & rank1 & Hrun & Hr & Hext & Hc1 & _);
      [lia | assumption |].
    destruct (IH rank1) as (rank' & Hrest & Hext' & Hc' & Hall);
      [intros t Ht; apply Hsub; now right | assumption |].
    exists rank'. split; [simpl; rewrite Hrun; exact Hrest |].
    split; [eapply rank_extends_trans; eassumption |]. split; [assumption |].
    intros t [<- | Ht]; [exists r; now apply Hext' | now apply Hall].
Qed.

Lemma with_ranks_total (rank : dict Q) :
  forall tasks,
    (forall t, In t tasks -> exists r, dict_get rank t = Some r) ->
    exists keyed,
      HEFT.with_ranks rank tasks = Ok keyed
      /\ map fst keyed = tasks
      /\ forall kv, In kv keyed -> dict_get rank (fst kv) = Some (snd kv).
Proof.
  induction tasks as [| task rest IH]; intros H.
  - exists []. split; [reflexivity |]. split; [reflexivity | intros kv []].
  - destruct (H task (or_introl eq_refl)) as (r & Hr).
    destruct IH as (keyed & Hrun & Hkeys & Hall); [intros t Ht; apply H; now right |].
    exists ((task, r) :: keyed). split.
    + simpl. unfold dict_item. rewrite Hr. cbn [bind]. rewrite Hrun. reflexivity.
    + split; [simpl; now rewrite Hkeys |].
      intros kv [<- | Hkv]; [exact Hr | now apply Hall].
Qed.

Lemma insert_desc_split (x : string * Q) (l : list (string * Q)) :
  exists l1 l2,
    l = l1 ++ l2 /\ HEFT.insert_desc x l = l1 ++ x :: l2
    /\ forall y, In y l1 -> snd x < snd y.
Proof.
  induction l as [| y l IH]; simpl.
  - exists [], []. split; [reflexivity |]. split; [reflexivity | intros y []].
  - destruct (Qltb (snd x) (snd y)) eqn:E.
    + destruct IH as (l1 & l2 & Hl & Hins & Hgt).
      exists (y :: l1), l2. split; [simpl; now rewrite <- Hl |].
      split; [simpl; now rewrite Hins |].
      intros z [<- | Hz]; [now apply Qltb_lt | now apply Hgt].
    + exists [], (y :: l). split; [reflexivity |]. split; [reflexivity | intros z []].
Qed.

Lemma preds_seen_weaken (l : list string) :
  forall seen seen',
    (forall u p, In u l -> In p (predecessors G u) -> In p seen -> In p seen') ->
    preds_seen G seen l -> preds_seen G seen' l.
Proof.
  induction l as [| t l IH]; intros seen seen' Hsub H; simpl in *; [exact I |].
  destruct H as [Ht Hl]. split.
  - intros p Hp. apply (Hsub t p); [now left | assumption | now apply Ht].
  - apply (IH (seen ++ [t])); [| assumption].
    intros u p Hu Hp Hin. apply in_app_or in Hin as [Hin | Hin].
    + apply in_or_app. left. apply (Hsub u p); [now right | assumption | assumption].
    + apply in_or_app. now right.
Qed.

(** Sorting by descending rank keeps every task behind its predecessors. *)
Lemma sort_desc_preds_seen (rank : dict Q) :
  rank_closed G rank ->
  forall keyed pre,
    (forall kv, In kv keyed -> dict_get rank (fst kv) = Some (snd kv)) ->
    preds_seen G pre (map fst keyed) ->
    preds_seen G pre (map fst (HEFT.sort_desc keyed)).
Proof.
  intros Hclosed. induction keyed as [| [a ra] rest IH]; intros pre Hrank Hseen.
  - exact I.
  - simpl in Hseen. destruct Hseen as [Ha Hrest].
    assert (Hrank' : forall kv, In kv rest -> dict_get rank (fst kv) = Some (snd kv))
      by (intros kv Hkv; apply Hrank; now right).
    specialize (IH (pre ++ [a]) Hrank' Hrest).
    simpl HEFT.sort_desc.
    destruct (insert_desc_split (a, ra) (HEFT.sort_desc rest))
      as (l1 & l2 & Hl & Hins & Hgt).
    rewrite Hins. rewrite Hl in IH. rewrite map_app in IH |- *. simpl.
    apply preds_seen_app in IH as [IH1 IH2].
    apply preds_seen_app. split.
    + apply (preds_seen_weaken (map fst l1) (pre ++ [a]) pre); [| assumption].
      intros u p Hu Hp Hin. apply in_app_or in Hin as [Hin | [<- | []]]; [assumption |].
      exfalso. apply in_map_iff in Hu as ([u' ru] & Hfst & Hu). simpl in Hfst. subst u'.
      assert (Hsucc : In u (successors G a)).
      { apply in_predecessors in Hp as (c & Hedge). apply in_successors. eauto. }
      destruct (Hclosed a ra (Hrank (a, ra) (or_introl eq_refl)) u Hsucc) as (r' & Hr' & Hle).
      assert (Hru : dict_get rank u = Some ru).
      { apply (Hrank (u, ru)). right.
        apply (Permutation_in _ (sort_desc_perm rest)). rewrite Hl.
        apply in_or_app. now left. }
      assert (r' = ru) by congruence. subst r'.
      pose proof (Hgt (u, ru) Hu) as Hlt. simpl in Hlt.
      apply (Qlt_not_le _ _ Hlt Hle).
    + simpl. split.
      * intros p Hp. apply in_or_app. left. now apply Ha.
      * apply (preds_seen_weaken (map fst l2) ((pre ++ [a]) ++ map fst l1)); [| assumption].
        intros u p _ _ Hin. rewrite <- !app_assoc in *.
        apply in_app_or in Hin as [Hin | Hin]; [apply in_or_app; now left |].
        apply in_or_app. right. simpl in Hin. destruct Hin as [<- | Hin].
        -- apply in_or_app. right. now left.
        -- apply in_or_app. now left.
Qed.

End HeftOrder.

Lemma pick_node_some (ready comp_time : Q) :
  forall avail i best bf,
    (avail <> [] /\ bf = Inf) \/ (exists b, best = Some b /\ (b < i)%nat) ->
    exists k, HEFT.pick_node ready comp_time avail i best bf = Some k
              /\ (k < i + List.length avail)%nat.
Proof.
  induction avail as [| a rest IH]; intros i best bf H; simpl.
  - destruct H as [[Hne _] | (b & -> & Hb)]; [congruence |].
    exists b. split; [reflexivity | lia].
  - destruct (lt_score (Qmax ready a + comp_time) bf) eqn:E.
    + destruct (IH (S i) (Some i) (Fin (Qmax ready a + comp_time))) as (k & Hk & Hlt).
      { right. exists i. split; [reflexivity | lia]. }
      exists k. split; [assumption | lia].
    + destruct H as [[_ ->] | (b & -> & Hb)]; [discriminate |].
      destruct (IH (S i) (Some b) bf) as (k & Hk & Hlt).
      { right. exists b. split; [reflexivity | lia]. }
      exists k. split; [assumption | lia].
Qed.

Lemma arrival_times_total (self : HEFT.HEFTScheduler) (G : DiGraph) (task : string)
    (scheduled : dict task_info) :
  nonneg_comm G = true -> 0 < HEFT.avg_comp_cost self ->
  forall preds,
    (forall p, In p preds -> In p (dict_keys scheduled)) ->
    exists arrivals,
      HEFT.arrival_times self G task preds scheduled = Ok arrivals
      /\ List.length arrivals = List.length preds.
Proof.
  intros Hcomm Havg. induction preds as [| p preds IH]; intros H.
  - exists []. split; reflexivity.
  - destruct (dict_get_of_key _ scheduled p (H p (or_introl eq_refl))) as (info & Hinfo).
    destruct (heft_comm_cost_ok self G p task Hcomm Havg) as (c & Hc & _).
    destruct IH as (later & Hlater & Hlen); [intros q Hq; apply H; now right |].
    exists ((end_time info + c) :: later). split.
    + simpl. unfold dict_item. rewrite Hinfo. cbn [bind]. rewrite Hc. cbn [bind].
      rewrite Hlater. reflexivity.
    + simpl. now rewrite Hlen.
Qed.

Lemma heft_schedule_task_total (self : HEFT.HEFTScheduler) (G : DiGraph)
    (avail : list Q) (scheduled : dict task_info) (task : string) :
  nonneg_comm G = true -> 0 < HEFT.avg_comp_cost self ->
  avail <> [] ->
  (forall p, In p (predecessors G task) -> In p (dict_keys scheduled)) ->
  exists st', HEFT.schedule_task self G (avail, scheduled) task = Ok st'.
Proof.
  intros Hcomm Havg Hne Hpreds. unfold HEFT.schedule_task.
  rewrite (heft_task_cost_ok self _ Havg). cbn [bind].
  assert (Hready : exists ready,
            match predecessors G task with
            | [] => Ok 0
            | preds => arrivals <- HEFT.arrival_times self G task preds scheduled ;;
                       py_max arrivals
            end = Ok ready).
  { destruct (predecessors G task) as [| p0 ps] eqn:Hp; [eauto |].
    destruct (arrival_times_total self G task scheduled Hcomm Havg (p0 :: ps) Hpreds)
      as (arrivals & Harr & Hlen).
    rewrite Harr. cbn [bind]. apply py_max_ok. intros Hnil. rewrite Hnil in Hlen. discriminate. }
  destruct Hready as (ready & Hready). rewrite Hready. cbn [bind].
  destruct (pick_node_some ready
              (heft_cost_attr (node_attrs G task) / HEFT.avg_comp_cost self)
              avail 0 None Inf) as (k & Hk & Hlt); [left; split; [assumption | reflexivity] |].
  rewrite Hk. cbn [bind].
  destruct (list_item_ok _ avail k Hlt) as (busy & Hbusy). rewrite Hbusy. cbn [bind]. eauto.
Qed.

Lemma heft_schedule_tasks_total (self : HEFT.HEFTScheduler) (G : DiGraph) :
  nonneg_comm G = true -> 0 < HEFT.avg_comp_cost self ->
  forall tasks st,
    fst st <> [] ->
    preds_seen G (dict_keys (snd st)) tasks ->
    exists st', HEFT.schedule_tasks self G tasks st = Ok st'.
Proof.
  intros Hcomm Havg. induction tasks as [| task rest IH]; intros [avail scheduled] Hne Hseen.
  - exists (avail, scheduled). reflexivity.
  - simpl in Hne, Hseen. destruct Hseen as [Hpreds Hrest].
    destruct (heft_schedule_task_total self G avail scheduled task Hcomm Havg Hne Hpreds)
      as ([avail1 scheduled1] & Hstep).
    pose proof (heft_schedule_task_inv _ _ _ _ _ _ _ Hstep) as (info & Hs & Hl & _).
    destruct (IH (avail1, scheduled1)) as (st' & Hrun).
    + simpl. intros Hnil. rewrite Hnil in Hl. destruct avail; [congruence | discriminate].
    + simpl. apply (preds_seen_weaken G rest (dict_keys scheduled ++ [task])); [| assumption].
      intros u p _ _ Hin. rewrite Hs.
      apply in_app_or in Hin as [Hin | [<- | []]].
      * destruct (dict_get_of_key _ scheduled p Hin) as (v & Hv).
        destruct (String.eqb_spec task p) as [<- | Hne'].
        -- eapply dict_get_some_key. apply dict_get_set_same.
        -- eapply dict_get_some_key. rewrite dict_get_set_other by assumption. exact Hv.
      * eapply dict_get_some_key. apply dict_get_set_same.
    + exists st'. cbn [HEFT.schedule_tasks]. rewrite Hstep. exact Hrun.
Qed.

Lemma is_topological_perm (G : DiGraph) (tl : list string) :
  wf_graph G = true -> is_topological G tl = true -> Permutation tl (node_names G).
Proof.
  intros Hwf Htopo. destruct (wf_graph_inv G Hwf) as [Hnd _].
  apply NoDup_Permutation; [now apply is_topological_NoDup with G | assumption |].
  intros t. now apply is_topological_members.
Qed.



(** ** The evaluation drivers and HEFT *)

Lemma nth_map_seq (f : nat -> Q) (n : nat) :
  forall start k, (k < n)%nat -> nth k (map f (seq start n)) 0 = f (start + k)%nat.
Proof.
  induction n as [| n IH]; intros start k H; [lia |].
  destruct k as [| k]; simpl.
  - now rewrite Nat.add_0_r.
  - rewrite IH by lia. f_equal. lia.
Qed.

Lemma nth_default_node_powers (n k : nat) :
  (k < n)%nat ->
  nth k (default_node_powers n) 0 = 1.0 + 0.2 * inject_Z (Z.of_nat k).
Proof.
  intros H. unfold default_node_powers. now rewrite nth_map_seq.
Qed.

Lemma energy_loop_nodes (items : dict task_info) (powers : list Q) :
  forall acc e,
    FCFS.energy_loop items powers acc = Ok e ->
    forall kv, In kv items -> (assigned_node (snd kv) < List.length powers)%nat.
Proof.
  induction items as [| [k i] items IH]; intros acc e H kv Hkv; [contradiction |].
  simpl in H. bind_destruct H as power Hp.
  destruct Hkv as [<- | Hkv].
  - simpl. eapply list_item_lt. eassumption.
  - exact (IH _ _ H kv Hkv).
Qed.

Lemma recomputed_energy_same_powers (pw1 pw2 : list Q) :
  forall s : dict task_info,
    (forall kv, In kv s ->
       nth (assigned_node (snd kv)) pw1 0 = nth (assigned_node (snd kv)) pw2 0) ->
    recomputed_energy s pw1 = recomputed_energy s pw2.
Proof.
  induction s as [| kv s IH]; intros H; [reflexivity |].
  unfold recomputed_energy in *. simpl.
  rewrite (H kv (or_introl eq_refl)), IH; [reflexivity |].
  intros kv' Hkv'. apply H. now right.
Qed.

Lemma heft_schedule_nodes (depth n : nat) (avg : Q) (G : DiGraph) (tl : list string)
    (h : HEFT.HEFTScheduler) :
  HEFT.schedule_in_order depth (HEFT.init n avg) G tl = Ok h ->
  HEFT.node_powers h = default_node_powers n
  /\ HEFT.avg_comp_cost h = avg
  /\ forall kv, In kv (HEFT.schedule_result h) -> (assigned_node (snd kv) < n)%nat.
Proof.
  intros Hrun. unfold HEFT.schedule_in_order in Hrun.
  bind_destruct Hrun as rank Hrank. bind_destruct Hrun as keyed Hkeyed.
  bind_destruct Hrun as st Hst. destruct st as [avail scheduled].
  injection Hrun as <-. simpl.
  split; [reflexivity |]. split; [reflexivity |].
  pose proof (heft_schedule_tasks_nodes _ G n _ _ _ Hst (repeat_length _ _)) as Hnodes.
  simpl in Hnodes. exact (Hnodes (fun kv (H : False) => match H with end)).
Qed.

(** X26. [evaluate_heft] reports the scheduler's makespan, which is scaled by
    [avg_comp_cost = 1000], next to an energy it sums itself without that
    factor: a thousandth of the energy the scheduler reports. *)
Theorem evaluate_heft_energy_is_unscaled (depth : nat) (G : DiGraph) (n : nat) (m e : Q) :
  Integrated.evaluate_heft depth G n = Ok (m, e) ->
  exists h e',
    HEFT.schedule depth (HEFT.init n 1000) G = Ok h
    /\ HEFT.get_makespan h = Ok m
    /\ HEFT.calculate_energy h = Ok e'
    /\ e' == e * 1000.
Proof.
  unfold Integrated.evaluate_heft. intros H.
  bind_destruct H as h Hh. bind_destruct H as mk Hmk. bind_destruct H as en Hen.
  injection H as <- <-.
  unfold HEFT.schedule in Hh. bind_destruct Hh as tl Htl.
  destruct (heft_schedule_nodes depth n 1000 G tl h Hh) as (Hpw & Havg & Hnodes).
  destruct (heft_energy_scaled depth n 1000 G tl h Hh) as (e' & He' & Heq).
  exists h, e'. split; [unfold HEFT.schedule; rewrite Htl; exact Hh |].
  split; [assumption |]. split; [assumption |].
  rewrite Heq, Havg, Hpw, (fcfs_energy_loop_spec _ _ _ _ Hen), Qplus_0_l.
  rewrite (recomputed_energy_same_powers (default_node_powers n) Integrated.NODE_POWERS);
    [reflexivity |].
  intros kv Hkv. unfold Integrated.NODE_POWERS.
  rewrite !nth_default_node_powers; [reflexivity | | now apply Hnodes].
  pose proof (energy_loop_nodes _ _ _ _ Hen kv Hkv) as Hlt.
  unfold Integrated.NODE_POWERS in Hlt. now rewrite default_node_powers_length in Hlt.
Qed.

Lemma evaluate_heft_energy_is_unscaled_witness :
  exists m e h e',
    Integrated.evaluate_heft 1000 diamond 2 = Ok (m, e)
    /\ HEFT.schedule 1000 (HEFT.init 2 1000) diamond = Ok h
    /\ HEFT.get_makespan h = Ok m
    /\ HEFT.calculate_energy h = Ok e'
    /\ e' == e * 1000.
Proof.
  destruct (Integrated.evaluate_heft 1000 diamond 2) as [[m e] | err] eqn:E;
    [| vm_compute in E; discriminate].
  destruct (evaluate_heft_energy_is_unscaled 1000 diamond 2 m e E) as (h & e' & H).
  exists m, e, h, e'. split; [reflexivity | exact H].
Defined.

Lemma heft_schedule_tasks_keys (self : HEFT.HEFTScheduler) (G : DiGraph) :
  forall tasks st st',
    HEFT.schedule_tasks self G tasks st = Ok st' ->
    forall k, In k (dict_keys (snd st')) -> In k (dict_keys (snd st)) \/ In k tasks.
Proof.
  induction tasks as [| task rest IH]; intros st st' H k Hk; simpl in H.
  - injection H as <-. now left.
  - bind_destruct H as st1 H1. destruct st as [avail scheduled], st1 as [avail1 scheduled1].
    apply heft_schedule_task_inv in H1 as (info & Hs & _).
    destruct (IH _ _ H k Hk) as [Hin | Hin]; [| right; now right].
    simpl in Hin |- *. rewrite Hs in Hin.
    destruct (dict_get_of_key _ _ k Hin) as (v & Hv).
    destruct (String.eqb_spec task k) as [<- | Hne]; [right; now left |].
    rewrite dict_get_set_other in Hv by assumption.
    left. eapply dict_get_some_key. eassumption.
Qed.

(** X28. [compare_algorithms] takes HEFT's makespan from the schedule dictionary
    itself, under the keys ['makespan'] and ['end_time']: unless a task
    bears one of these names, the figure it prints for HEFT is 0. *)
Theorem compare_algorithms_reports_zero_for_heft (depth n : nat) (avg : Q) (G : DiGraph)
    (h : HEFT.HEFTScheduler) :
  wf_graph G = true ->
  HEFT.schedule depth (HEFT.init n avg) G = Ok h ->
  ~ In "makespan" (node_names G) -> ~ In "end_time" (node_names G) ->
  Baselines.get_makespan (Baselines.HeftResult (HEFT.schedule_result h)) = Ok (Fin 0).
Proof.
  intros Hwf Hrun Hm He.
  unfold HEFT.schedule in Hrun. bind_destruct Hrun as tl Htl.
  pose proof (topological_sort_sound G tl Hwf Htl) as Htopo.
  unfold HEFT.schedule_in_order in Hrun.
  bind_destruct Hrun as rank Hrank. bind_destruct Hrun as keyed Hkeyed.
  bind_destruct Hrun as st Hst. destruct st as [avail scheduled].
  injection Hrun as <-. simpl.
  assert (Hkeys : forall k, In k (dict_keys scheduled) -> In k (node_names G)).
  { intros k Hk.
    destruct (heft_schedule_tasks_keys _ _ _ _ _ Hst k Hk) as [[] | Hin].
    apply (is_topological_members G tl k Htopo).
    apply in_map_iff in Hin as (kv & <- & Hkv).
    apply (Permutation_in _ (sort_desc_perm keyed)) in Hkv.
    rewrite <- (with_ranks_keys _ _ _ Hkeyed). apply in_map_iff. eauto. }
  assert (Hnone : forall k, ~ In k (node_names G) -> dict_get scheduled k = None).
  { intros k Hk. apply dict_get_none. intros Hin. apply Hk. now apply Hkeys. }
  now rewrite (Hnone _ Hm), (Hnone _ He).
Qed.

Lemma compare_algorithms_reports_zero_for_heft_witness :
  exists h m,
    HEFT.schedule 1000 (HEFT.init 3 1000) diamond = Ok h
    /\ Baselines.get_makespan (Baselines.HeftResult (HEFT.schedule_result h)) = Ok (Fin 0)
    /\ HEFT.get_makespan h = Ok m /\ 0 < m.
Proof.
  destruct (HEFT.schedule 1000 (HEFT.init 3 1000) diamond) as [h | err] eqn:E;
    [| vm_compute in E; discriminate].
  exists h. eexists. split; [reflexivity |]. split.
  - apply (compare_algorithms_reports_zero_for_heft 1000 3 1000 diamond h eq_refl E).
    + simpl. intros [H | [H | [H | [H | []]]]]; discriminate.
    + simpl. intros [H | [H | [H | [H | []]]]]; discriminate.
  - vm_compute in E. injection E as <-. vm_compute. split; reflexivity.
Defined.

(** ** The loaders *)

Lemma default_durations_agree :
  QIPSO.cp_task_time no_attrs == QIPSO.eval_duration no_attrs.
Proof. vm_compute. reflexivity. Qed.

Lemma node_attrs_map (f : attrs -> attrs) (G : DiGraph) (t : string) :
  node_attrs (mkDiGraph (map (fun na => (fst na, f (snd na))) (nodes G)) (edges G)) t
  = match dict_get (nodes G) t with
    | Some a => f a
    | None => no_attrs
    end.
Proof.
  unfold node_attrs, dict_get_default. simpl.
  induction (nodes G) as [| [k a] d IH]; simpl; [reflexivity |].
  destruct (String.eqb k t); [reflexivity | exact IH].
Qed.


Lemma validate_nodes_inv :
  forall ns ns',
    Loaders.validate_nodes ns = Ok ns' ->
    map fst ns' = map fst ns
    /\ forall t, match dict_get ns t with
                 | Some a => exists a', Loaders.validate_attrs a = Ok a'
                                        /\ dict_get ns' t = Some a'
                 | None => dict_get ns' t = None
                 end.
Proof.
  induction ns as [| [k a] ns IH]; intros ns' H; simpl in H.
  - injection H as <-. split; [reflexivity | intros t; reflexivity].
  - bind_destruct H as a' Ha. bind_destruct H as rest Hrest. injection H as <-.
    destruct (IH _ Hrest) as [Hnames Hget]. split; [simpl; now rewrite Hnames |].
    intros t. simpl. destruct (String.eqb k t); [eauto | apply Hget].
Qed.

(** X29. [load_and_validate_dag] leaves every task with both attributes,
    [exec_time] [e] and [comp_cost] [c].  HEFT (at [avg_comp_cost = 1000])
    and the environment read [c]: the cost is [c / 1000] and the duration
    [max(0.1, c / 1000)]; the evaluator and the critical path read [e] and
    use [max(0.1, e)].  An attribute the task came with is kept.  For a task
    that came without [exec_time], [e] is the quotient [c / 1000] itself, so
    that all four use one number; for a task that came without [comp_cost],
    [c] is the product [e * 1000], which HEFT and the environment divide by
    1000 again. *)
Theorem validated_task_durations (G G' : DiGraph) (t : string) (a : attrs) :
  Loaders.load_and_validate_dag G = Ok G' ->
  dict_get (nodes G) t = Some a ->
  exists e c,
    exec_time (node_attrs G' t) = Some e
    /\ comp_cost (node_attrs G' t) = Some c
    /\ (forall n, HEFT._get_task_cost (HEFT.init n 1000) (node_attrs G' t) = Ok (c / 1000))
    /\ Env.step_duration (node_attrs G' t) = Qmax 0.1 (c / 1000)
    /\ QIPSO.eval_duration (node_attrs G' t) = Qmax 0.1 e
    /\ QIPSO.cp_task_time (node_attrs G' t) = Qmax 0.1 e
    /\ (forall e0, exec_time a = Some e0 -> e = e0)
    /\ (forall c0, comp_cost a = Some c0 -> c = c0)
    /\ (exec_time a = None -> e = c / 1000)
    /\ (comp_cost a = None -> c = e * 1000).
Proof.
  unfold Loaders.load_and_validate_dag. intros H Hget.
  bind_destruct H as ns Hns. injection H as <-.
  destruct (validate_nodes_inv _ _ Hns) as [_ Hall]. specialize (Hall t).
  rewrite Hget in Hall. destruct Hall as (a' & Ha' & Hget').
  unfold node_attrs, dict_get_default. simpl. rewrite Hget'.
  unfold Loaders.validate_attrs in Ha'. bind_destruct Ha' as e He. injection Ha' as <-.
  exists e, (match comp_cost a with Some c => c | None => e * 1000 end).
  split; [reflexivity |]. split; [reflexivity |]. split; [intros n; reflexivity |].
  split; [reflexivity |]. split; [reflexivity |]. split; [reflexivity |].
  destruct (exec_time a) as [e0 |], (comp_cost a) as [c0 |];
    simpl in He; try discriminate; injection He as <-;
    repeat split; intros; congruence.
Qed.

Lemma validated_task_durations_witness :
  exists G' e c,
    Loaders.load_and_validate_dag raw_cost_chain = Ok G'
    /\ exec_time (node_attrs G' "A") = Some e
    /\ comp_cost (node_attrs G' "A") = Some c
    /\ c = 5000
    /\ e = c / 1000
    /\ Env.step_duration (node_attrs G' "A") = Qmax 0.1 (c / 1000)
    /\ QIPSO.eval_duration (node_attrs G' "A") = Qmax 0.1 e.
Proof.
  destruct (Loaders.load_and_validate_dag raw_cost_chain) as [G' | err] eqn:E;
    [| vm_compute in E; discriminate].
  destruct (validated_task_durations raw_cost_chain G' "A" (mkAttrs None (Some 5000)) E
              eq_refl) as (e & c & H1 & H2 & _ & H3 & H4 & _ & _ & H5 & H6 & _).
  exists G', e, c. split; [reflexivity |]. split; [exact H1 |]. split; [exact H2 |].
  split; [exact (H5 5000 eq_refl) |]. split; [exact (H6 eq_refl) |].
  split; [exact H3 | exact H4].
Defined.

Lemma path_same_edges (G1 G2 : DiGraph) (u v : string) :
  edges G1 = edges G2 -> path G1 u v -> path G2 u v.
Proof.
  intros He H. induction H as [u v c Hin | u v w c Hin _ IH].
  - apply (@path_edge G2 u v c). now rewrite <- He.
  - apply (@path_step G2 u v w c); [now rewrite <- He | assumption].
Qed.

Lemma load_nodes_inv :
  forall ns ns',
    Evaluator._load_nodes ns = Ok ns' ->
    map fst ns' = map fst ns
    /\ forall t a, In (t, a) ns' -> exists e, exec_time a = Some e.
Proof.
  induction ns as [| [k a] ns IH]; intros ns' H; simpl in H.
  - injection H as <-. split; [reflexivity | intros t a []].
  - destruct (Env.missing_both a); [discriminate |].
    bind_destruct H as rest Hrest. injection H as <-.
    destruct (IH _ Hrest) as [Hnames Hall]. split; [simpl; now rewrite Hnames |].
    intros t a' [[= <- <-] | Hin]; [| now apply (Hall t)].
    unfold Evaluator._load_attrs. simpl. eauto.
Qed.

(** X24. What [_load_dag] returns is what [TaskOffloadingEnv] asks for: the
    graph is unchanged but for the [exec_time] every task now has, and the
    environment is constructed from it unless it has no task at all. *)
Theorem load_dag_feeds_the_environment (G G' : DiGraph) (n : nat) :
  wf_graph G = true -> (1 <= n)%nat ->
  Evaluator._load_dag G = Ok G' ->
  node_names G' = node_names G
  /\ edges G' = edges G
  /\ (forall t a, In (t, a) (nodes G') -> exists e, exec_time a = Some e)
  /\ (is_ok (Env.init G' n) = true <-> nodes G <> []).
Proof.
  intros Hwf Hn H. unfold Evaluator._load_dag in H.
  bind_destruct H as ok Hok.
  destruct ok; [| discriminate]. simpl in H.
  bind_destruct H as ns Hns. injection H as <-.
  destruct (load_nodes_inv _ _ Hns) as [Hnames Hexec].
  assert (Hacyc : acyclic G).
  { unfold Evaluator.is_directed_acyclic_graph in Hok.
    destruct (topological_sort G) as [tl | e] eqn:Htl; [| destruct e; discriminate].
    apply (is_topological_acyclic G tl). now apply topological_sort_sound. }
  split; [exact Hnames |]. split; [reflexivity |]. split; [exact Hexec |].
  assert (Hwf' : wf_graph (mkDiGraph ns (edges G)) = true).
  { unfold wf_graph, node_names in *. simpl. now rewrite Hnames. }
  split.
  - destruct (Env.init (mkDiGraph ns (edges G)) n) as [env | e] eqn:E;
      [intros _ | discriminate].
    pose proof (env_init_has_tasks _ n env Hwf' E) as Hne. simpl in Hne.
    intros Hnil. apply Hne. rewrite Hnil in Hnames.
    destruct ns; [reflexivity | discriminate].
  - intros Hne. apply (env_init_accepts _ n Hwf'); simpl.
    + intros v Hp. apply (Hacyc v). eapply path_same_edges; [| exact Hp]. reflexivity.
    + intros Hnil. apply Hne. rewrite Hnil in Hnames.
      destruct (nodes G); [reflexivity | discriminate].
    + intros t a Hin. destruct (Hexec t a Hin) as (e & He).
      unfold Env.missing_both. rewrite He. now destruct (comp_cost a).
Qed.

Lemma load_dag_feeds_the_environment_witness :
  exists G',
    Evaluator._load_dag diamond = Ok G'
    /\ node_names G' = node_names diamond
    /\ edges G' = edges diamond
    /\ (forall t a, In (t, a) (nodes G') -> exists e, exec_time a = Some e)
    /\ (is_ok (Env.init G' 2) = true <-> nodes diamond <> []).
Proof.
  destruct (Evaluator._load_dag diamond) as [G' | err] eqn:E;
    [| vm_compute in E; discriminate].
  exists G'. split; [reflexivity |].
  apply (load_dag_feeds_the_environment diamond G' 2); [reflexivity | lia | exact E].
Defined.

(** ** The probability rows of QIPSO *)

Lemma np_clip_bounds (lo hi x : Q) :
  lo <= hi -> lo <= QBits.np_clip lo hi x /\ QBits.np_clip lo hi x <= hi.
Proof.
  intros H. unfold QBits.np_clip. split.
  - apply Q.min_glb; [apply Q.le_max_r | assumption].
  - apply Q.le_min_r.
Qed.

Lemma py_sum_pos (xs : list Q) :
  xs <> [] -> (forall x, In x xs -> 0 < x) -> 0 < py_sum xs.
Proof.
  induction xs as [| x xs IH]; intros Hne H; [congruence |].
  rewrite py_sum_cons. destruct xs as [| y ys].
  - rewrite py_sum_nil, Qplus_0_r. apply H. now left.
  - apply (Qlt_trans _ (0 + py_sum (y :: ys))).
    + rewrite Qplus_0_l. apply IH; [discriminate |]. intros z Hz. apply H. now right.
    + apply Qplus_lt_l. apply H. now left.
Qed.

Lemma py_sum_map_div (xs : list Q) (d : Q) :
  py_sum (map (fun x => x / d) xs) == py_sum xs / d.
Proof.
  induction xs as [| x xs IH].
  - simpl. unfold Qdiv. rewrite py_sum_nil. ring.
  - simpl map. rewrite !py_sum_cons, IH. unfold Qdiv. ring.
Qed.

(** A row of weights between 0.01 and 0.99, divided by its sum, is a
    probability vector without a zero. *)
Lemma clipped_row_normalizes (xs : list Q) :
  xs <> [] ->
  (forall x, In x xs -> 0.01 <= x /\ x <= 0.99) ->
  exists p,
    QBits.np_divide xs (py_sum xs) = Some p
    /\ List.length p = List.length xs
    /\ (forall x, In x p -> 0 < x)
    /\ py_sum p == 1.
Proof.
  intros Hne Hb.
  assert (Hpos : forall x, In x xs -> 0 < x).
  { intros x Hx. eapply Qlt_le_trans; [| apply (Hb x Hx)]. reflexivity. }
  pose proof (py_sum_pos xs Hne Hpos) as Hsum.
  assert (Hnz : ~ py_sum xs == 0).
  { intros Hz. rewrite Hz in Hsum. discriminate. }
  exists (map (fun x => x / py_sum xs) xs). split; [| split; [| split]].
  - unfold QBits.np_divide. destruct xs as [| x0 xs0]; [congruence |].
    destruct (Qeq_bool (py_sum (x0 :: xs0)) 0) eqn:E; [| reflexivity].
    apply Qeq_bool_iff in E. contradiction.
  - apply length_map.
  - intros y Hy. apply in_map_iff in Hy as (x & <- & Hx).
    apply Qlt_shift_div_l; [assumption |]. rewrite Qmult_0_l. now apply Hpos.
  - rewrite py_sum_map_div. now field.
Qed.

Lemma clip_all_bounds (xs : list Q) :
  forall x, In x (map (QBits.np_clip 0.01 0.99) xs) -> 0.01 <= x /\ x <= 0.99.
Proof.
  intros x Hx. apply in_map_iff in Hx as (y & <- & _).
  apply np_clip_bounds. discriminate.
Qed.

(** X8. Whatever a row of [qbits] holds, the vector [run_optimization] hands
    to [np.random.choice] is a probability distribution in which every
    node has a positive chance: any assignment can be drawn. *)
Theorem sampling_probs_is_a_distribution (row : list Q) :
  row <> [] ->
  exists p,
    QBits.sampling_probs row = Some p
    /\ List.length p = List.length row
    /\ (forall x, In x p -> 0 < x)
    /\ py_sum p == 1.
Proof.
  intros Hne. unfold QBits.sampling_probs.
  destruct (clipped_row_normalizes (map (QBits.np_clip 0.01 0.99) row))
    as (p & Hp & Hlen & Hpos & Hsum).
  - destruct row; [congruence | discriminate].
  - apply clip_all_bounds.
  - exists p. split; [assumption |]. split; [now rewrite Hlen, length_map |].
    split; assumption.
Qed.

Lemma sampling_probs_is_a_distribution_witness :
  exists p,
    QBits.sampling_probs [5; -3; 0.5] = Some p
    /\ List.length p = 3%nat
    /\ (forall x, In x p -> 0 < x)
    /\ py_sum p == 1.
Proof.
  apply (sampling_probs_is_a_distribution [5; -3; 0.5]). discriminate.
Defined.

Lemma py_sum_nonneg (xs : list Q) : (forall x, In x xs -> 0 <= x) -> 0 <= py_sum xs.
Proof.
  induction xs as [| x xs IH]; intros H.
  - rewrite py_sum_nil. apply Qle_refl.
  - rewrite py_sum_cons. apply (Qle_trans _ (0 + 0)); [apply Qle_refl |].
    apply Qplus_le_compat; [apply H; now left |].
    apply IH. intros y Hy. apply H. now right.
Qed.

(** X9. [normalize_qbits] never divides by zero, and leaves every row with
    positive entries whose sum stays just below 1 (the divisor carries an
    extra 1e-10). *)
Theorem normalize_row_is_below_one (row : list Q) :
  exists r,
    QBits.normalize_row row = Some r
    /\ List.length r = List.length row
    /\ (forall x, In x r -> 0 < x)
    /\ py_sum r < 1.
Proof.
  unfold QBits.normalize_row.
  set (clipped := map (QBits.np_clip 0.01 0.99) row).
  assert (Hb : forall x, In x clipped -> 0.01 <= x /\ x <= 0.99) by apply clip_all_bounds.
  assert (Hs0 : 0 <= py_sum clipped).
  { apply py_sum_nonneg. intros x Hx. eapply Qle_trans; [| apply (Hb x Hx)]. discriminate. }
  assert (Htot : 0 < py_sum clipped + 1e-10).
  { apply (Qlt_le_trans _ (0 + 1e-10)); [reflexivity |]. now apply Qplus_le_l. }
  assert (Hnz : ~ py_sum clipped + 1e-10 == 0).
  { intros Hz. rewrite Hz in Htot. discriminate. }
  exists (map (fun x => x / (py_sum clipped + 1e-10)) clipped).
  split; [| split; [| split]].
  - unfold QBits.np_divide. destruct clipped as [| x0 xs0]; [reflexivity |].
    destruct (Qeq_bool (py_sum (x0 :: xs0) + 1e-10) 0) eqn:E; [| reflexivity].
    apply Qeq_bool_iff in E. contradiction.
  - unfold clipped. now rewrite !length_map.
  - intros y Hy. apply in_map_iff in Hy as (x & <- & Hx).
    apply Qlt_shift_div_l; [assumption |]. rewrite Qmult_0_l.
    eapply Qlt_le_trans; [| apply (Hb x Hx)]. reflexivity.
  - rewrite py_sum_map_div. apply Qlt_shift_div_r; [assumption |].
    rewrite Qmult_1_l. rewrite <- (Qplus_0_r (py_sum clipped)) at 1.
    apply Qplus_lt_r. reflexivity.
Qed.

Lemma zip_with_length (f : Q -> Q -> Q) :
  forall xs ys, List.length xs = List.length ys ->
    List.length (QBits.zip_with f xs ys) = List.length xs.
Proof.
  induction xs as [| x xs IH]; intros [| y ys] H; simpl in *; try discriminate;
    [reflexivity |].
  f_equal. apply IH. lia.
Qed.

Lemma one_hot_length (n k : nat) : List.length (QBits.one_hot n k) = n.
Proof. unfold QBits.one_hot. now rewrite length_map, length_seq. Qed.

(** X10. [update_quantum_states] leaves every row a probability distribution
    without a zero, and every velocity within [-0.2, 0.2], whatever the
    random draws and the best schedules were. *)
Theorem update_row_keeps_a_distribution (cognitive social : Q) (n pb gb : nat)
    (r1 r2 : Q) (mutation : option (nat * Q)) (q v : list Q) :
  (1 <= n)%nat ->
  List.length q = n -> List.length v = n ->
  (forall k d, mutation = Some (k, d) -> (k < n)%nat) ->
  exists q' v',
    QBits.update_row cognitive social n pb gb r1 r2 mutation q v = Some (q', v')
    /\ List.length q' = n /\ List.length v' = n
    /\ (forall x, In x v' -> -0.2 <= x /\ x <= 0.2)
    /\ (forall x, In x q' -> 0 < x)
    /\ py_sum q' == 1.
Proof.
  intros Hn Hq Hv _. unfold QBits.update_row.
  set (cog := map (fun d => cognitive * r1 * d)
                (QBits.zip_with Qminus (QBits.one_hot n pb) q)).
  set (soc := map (fun d => social * r2 * d)
                (QBits.zip_with Qminus (QBits.one_hot n gb) q)).
  set (v' := map (QBits.np_clip (-0.2) 0.2)
               (QBits.zip_with Qplus (QBits.zip_with Qplus v cog) soc)).
  set (q1 := map (QBits.np_clip 0.01 0.99) (QBits.zip_with Qplus q v')).
  assert (Hcog : List.length cog = n).
  { unfold cog. rewrite length_map, zip_with_length; rewrite one_hot_length; congruence. }
  assert (Hsoc : List.length soc = n).
  { unfold soc. rewrite length_map, zip_with_length; rewrite one_hot_length; congruence. }
  assert (Hv' : List.length v' = n).
  { unfold v'. rewrite length_map, zip_with_length; rewrite zip_with_length; congruence. }
  assert (Hq1 : List.length q1 = n).
  { unfold q1. rewrite length_map, zip_with_length; congruence. }
  set (q2 := match mutation with
             | Some (mut_node, delta) =>
                 list_set q1 mut_node
                   (QBits.np_clip 0.01 0.99 (nth mut_node q1 0 + delta))
             | None => q1
             end).
  assert (Hq2 : List.length q2 = n).
  { unfold q2. destruct mutation as [[k d] |]; [now rewrite list_set_length | assumption]. }
  assert (Hb2 : forall x, In x q2 -> 0.01 <= x /\ x <= 0.99).
  { intros x Hx. unfold q2 in Hx. destruct mutation as [[k d] |].
    - apply list_set_in in Hx as [-> | Hx].
      + apply np_clip_bounds. discriminate.
      + now apply (clip_all_bounds (QBits.zip_with Qplus q v')).
    - now apply (clip_all_bounds (QBits.zip_with Qplus q v')). }
  destruct (clipped_row_normalizes q2) as (q' & Hq' & Hlen & Hpos & Hsum);
    [intros Hnil; rewrite Hnil in Hq2; simpl in Hq2; lia | assumption |].
  exists q', v'. rewrite Hq'.
  split; [reflexivity |]. split; [congruence |]. split; [assumption |].
  split; [| split; assumption].
  intros x Hx. unfold v' in Hx. apply in_map_iff in Hx as (y & <- & _).
  apply np_clip_bounds. discriminate.
Qed.

Lemma update_row_keeps_a_distribution_witness :
  exists q' v',
    QBits.update_row 1.7 1.7 3 0 2 0.4 0.9 (Some (1%nat, 0.05))
      [0.2; 0.3; 0.5] [0; 0; 0] = Some (q', v')
    /\ List.length q' = 3%nat /\ List.length v' = 3%nat
    /\ (forall x, In x v' -> -0.2 <= x /\ x <= 0.2)
    /\ (forall x, In x q' -> 0 < x)
    /\ py_sum q' == 1.
Proof.
  apply (update_row_keeps_a_distribution 1.7 1.7 3 0 2 0.4 0.9 (Some (1%nat, 0.05))
           [0.2; 0.3; 0.5] [0; 0; 0]); try reflexivity; [lia |].
  intros k d [= <- <-]. lia.
Defined.

(** ** [print_schedule_stats] against [evaluate_schedule] *)

Lemma stats_duration_unclamped (a : attrs) :
  0.1 <= Stats.stats_duration a -> QIPSO.eval_duration a == Stats.stats_duration a.
Proof.
  intros H. unfold QIPSO.eval_duration. fold (Stats.stats_duration a).
  now apply Q.max_r.
Qed.

Lemma stats_loop_spec (G : DiGraph) (pw : list Q) (asg : dict nat) (n : nat) :
  List.length pw = n ->
  forall tasks times energies,
    (forall t, In t tasks -> 0.1 <= Stats.stats_duration (node_attrs G t)) ->
    total_assignment asg tasks n ->
    List.length times = n -> List.length energies = n ->
    exists times' energies',
      Stats.stats_loop G pw asg tasks times energies = Ok (times', energies')
      /\ List.length times' = n
      /\ py_sum energies' == py_sum energies + energy_by_task G pw asg tasks
      /\ forall k x, nth_error times k = Some x ->
           exists x', nth_error times' k = Some x'
                      /\ x' == x + node_load G asg k tasks.
Proof.
  intros Hpw. induction tasks as [| task rest IH]; intros times energies Hdur Htot Ht He.
  - exists times, energies. split; [reflexivity |]. split; [assumption |].
    split; [simpl; ring |]. intros k x Hx. exists x. split; [assumption | simpl; ring].
  - destruct (Htot task (or_introl eq_refl)) as (node & Hnode & Hlt).
    destruct (list_item_ok _ pw node) as (power & Hpower); [now rewrite Hpw |].
    destruct (list_item_ok _ times node) as (busy & Hbusy); [now rewrite Ht |].
    destruct (list_item_ok _ energies node) as (spent & Hspent); [now rewrite He |].
    pose proof (stats_duration_unclamped _ (Hdur task (or_introl eq_refl))) as Hd.
    destruct (IH (list_set times node (busy + Stats.stats_duration (node_attrs G task)))
                 (list_set energies node
                    (spent + power * Stats.stats_duration (node_attrs G task))))
      as (times' & energies' & Hrun & Hlen & Hen & Hti).
    + intros t Hin. apply Hdur. now right.
    + intros t Hin. apply Htot. now right.
    + now rewrite list_set_length.
    + now rewrite list_set_length.
    + exists times', energies'. split.
      { simpl. unfold dict_item. rewrite Hnode. cbn [bind]. rewrite Hpower. cbn [bind].
        rewrite Hbusy. cbn [bind]. rewrite Hspent. cbn [bind]. exact Hrun. }
      split; [assumption |].
      change (energy_by_task G pw asg (task :: rest))
        with (nth (dict_get_default asg task 0%nat) pw 0
              * QIPSO.eval_duration (node_attrs G task) + energy_by_task G pw asg rest).
      assert (Hdef : dict_get_default asg task 0%nat = node)
        by (unfold dict_get_default; now rewrite Hnode).
      split.
      * rewrite Hen, (py_sum_list_set _ _ _ _ (list_item_nth_error _ _ _ _ Hspent)).
        rewrite Hdef, (list_item_nth _ _ _ 0 Hpower), Hd. ring.
      * intros k x Hx. simpl node_load. rewrite Hdef.
        destruct (Nat.eqb_spec node k) as [<- | Hne].
        -- destruct (Hti node (busy + Stats.stats_duration (node_attrs G task)))
             as (x' & Hx' & Heq).
           { apply nth_error_list_set_same. now rewrite Ht. }
           exists x'. split; [assumption |].
           apply list_item_nth_error in Hbusy. assert (busy = x) by congruence. subst busy.
           rewrite Heq, Hd. ring.
        -- destruct (Hti k x) as (x' & Hx' & Heq).
           { rewrite nth_error_list_set_other by assumption. assumption. }
           exists x'. split; assumption.
Qed.

(** X11. When no duration falls below 0.1, the table of [print_schedule_stats]
    agrees with [evaluate_schedule]: the energy column sums to the energy
    the evaluator returns, and no node is busy for longer than the
    makespan. *)
Theorem print_schedule_stats_matches_evaluator (G : DiGraph) (tl : list string) (n : nat)
    (assignment : dict nat) (m e : Q) :
  (forall t, In t tl -> 0.1 <= Stats.stats_duration (node_attrs G t)) ->
  QIPSO.evaluate_schedule G tl n assignment = Ok (m, e) ->
  exists node_times node_energy,
    Stats.print_schedule_stats G tl n assignment = Ok (node_times, node_energy)
    /\ List.length node_times = n
    /\ py_sum node_energy == e
    /\ forall busy, In busy node_times -> busy <= m.
Proof.
  intros Hdur H. unfold QIPSO.evaluate_schedule in H.
  bind_destruct H as r Hr. destruct r as [trace st].
  bind_destruct H as mk Hmk. injection H as <- <-.
  pose proof (evaluate_tasks_assignment _ _ _ n _ _ _ _ Hr (repeat_length _ _)) as Htot.
  destruct (stats_loop_spec G (default_node_powers n) assignment n
              (default_node_powers_length n) tl (repeat 0 n) (repeat 0 n) Hdur Htot
              (repeat_length _ _) (repeat_length _ _))
    as (times & energies & Hrun & Hlen & Hen & Hti).
  exists times, energies. split; [exact Hrun |]. split; [assumption |]. split.
  - rewrite Hen, (evaluate_tasks_energy _ _ _ _ _ _ _ Hr). reflexivity.
  - intros busy Hb. apply In_nth_error in Hb as (k & Hk).
    assert (Hkn : (k < n)%nat) by (rewrite <- Hlen; apply nth_error_Some; congruence).
    destruct (Hti k 0) as (x' & Hx' & Heq); [now apply nth_error_repeat |].
    assert (x' = busy) by congruence. subst x'.
    destruct (evaluate_tasks_load_bound _ _ _ k _ _ _ _ 0 Hr) as (y & Hy & Hle).
    { simpl. now apply nth_error_repeat. }
    rewrite Heq. eapply Qle_trans; [exact Hle |]. eapply py_max_nth; eassumption.
Qed.

Lemma print_schedule_stats_matches_evaluator_witness :
  exists m e node_times node_energy,
    QIPSO.evaluate_schedule diamond ["A"; "B"; "C"; "D"] 2
      [("A", 0%nat); ("B", 1%nat); ("C", 0%nat); ("D", 1%nat)] = Ok (m, e)
    /\ Stats.print_schedule_stats diamond ["A"; "B"; "C"; "D"] 2
         [("A", 0%nat); ("B", 1%nat); ("C", 0%nat); ("D", 1%nat)]
       = Ok (node_times, node_energy)
    /\ List.length node_times = 2%nat
    /\ py_sum node_energy == e
    /\ forall busy, In busy node_times -> busy <= m.
Proof.
  destruct (QIPSO.evaluate_schedule diamond ["A"; "B"; "C"; "D"] 2
              [("A", 0%nat); ("B", 1%nat); ("C", 0%nat); ("D", 1%nat)])
    as [[m e] | err] eqn:E; [| vm_compute in E; discriminate].
  destruct (print_schedule_stats_matches_evaluator diamond ["A"; "B"; "C"; "D"] 2
              [("A", 0%nat); ("B", 1%nat); ("C", 0%nat); ("D", 1%nat)] m e)
    as (times & energies & H); [| exact E |].
  - intros t [<- | [<- | [<- | [<- | []]]]]; vm_compute; discriminate.
  - exists m, e, times, energies. split; [reflexivity | exact H].
Defined.

(** ** HEFT: the node it picks *)

Lemma pick_node_spec (ready comp_time : Q) :
  forall avail pre best bf k,
    (best = None /\ bf = Inf /\ pre = [])
    \/ (exists b a, best = Some b /\ nth_error pre b = Some a
                    /\ bf = Fin (Qmax ready a + comp_time)
                    /\ forall j x, nth_error pre j = Some x ->
                         Qmax ready a + comp_time <= Qmax ready x + comp_time
                         /\ ((j < b)%nat ->
                             Qmax ready a + comp_time < Qmax ready x + comp_time)) ->
    HEFT.pick_node ready comp_time avail (List.length pre) best bf = Some k ->
    exists a,
      nth_error (pre ++ avail) k = Some a
      /\ forall j x, nth_error (pre ++ avail) j = Some x ->
           Qmax ready a + comp_time <= Qmax ready x + comp_time
           /\ ((j < k)%nat -> Qmax ready a + comp_time < Qmax ready x + comp_time).
Proof.
  induction avail as [| y avail IH]; intros pre best bf k Hinv Hrun; simpl in Hrun.
  - destruct Hinv as [(-> & _) | (b & a & -> & Ha & _ & Hmin)]; [discriminate |].
    injection Hrun as <-. rewrite app_nil_r. exists a. split; assumption.
  - assert (Hlen : List.length (pre ++ [y]) = S (List.length pre))
      by (rewrite length_app; simpl; lia).
    assert (Happ : pre ++ y :: avail = (pre ++ [y]) ++ avail)
      by (rewrite <- app_assoc; reflexivity).
    rewrite Happ. rewrite <- Hlen in Hrun.
    destruct (lt_score (Qmax ready y + comp_time) bf) eqn:E.
    + refine (IH (pre ++ [y]) _ _ k _ Hrun).
      right. exists (List.length pre), y.
      split; [reflexivity |].
      split; [rewrite nth_error_app2 by lia; now rewrite Nat.sub_diag |].
      split; [reflexivity |].
      intros j x Hj.
      destruct (Nat.lt_ge_cases j (List.length pre)) as [Hjl | Hjl].
      * rewrite nth_error_app1 in Hj by assumption.
        destruct Hinv as [(_ & _ & ->) | (b & a & -> & Ha & -> & Hmin)];
          [destruct j; discriminate |].
        simpl in E. apply Qltb_lt in E. destruct (Hmin j x Hj) as [Hle _].
        assert (Hlt : Qmax ready y + comp_time < Qmax ready x + comp_time)
          by (eapply Qlt_le_trans; eassumption).
        split; [now apply Qlt_le_weak | intros _; assumption].
      * rewrite nth_error_app2 in Hj by assumption.
        destruct (j - List.length pre)%nat as [| j'] eqn:Hk; simpl in Hj.
        -- injection Hj as <-. split; [apply Qle_refl | lia].
        -- destruct j'; discriminate.
    + destruct Hinv as [(_ & -> & _) | (b & a & -> & Ha & -> & Hmin)]; [discriminate |].
      simpl in E. apply Qltb_ge in E.
      assert (Hb : (b < List.length pre)%nat) by (apply nth_error_Some; congruence).
      refine (IH (pre ++ [y]) _ _ k _ Hrun).
      right. exists b, a. split; [reflexivity |].
      split; [now rewrite nth_error_app1 |]. split; [reflexivity |].
      intros j x Hj.
      destruct (Nat.lt_ge_cases j (List.length pre)) as [Hjl | Hjl].
      * rewrite nth_error_app1 in Hj by assumption. now apply Hmin.
      * rewrite nth_error_app2 in Hj by assumption.
        destruct (j - List.length pre)%nat as [| j'] eqn:Hk; simpl in Hj.
        -- injection Hj as <-. split; [assumption | lia].
        -- destruct j'; discriminate.
Qed.


